(** * mongodb-storage: a shallow embedding of [src/lib/storage.ts]

    The development follows the TypeScript module function by function:
    [serialize], [createChangelog] and the facade returned by [makeStorage]
    ([ensureCollection], [ensureIndexes], [validate], [insertOne],
    [findOne], [findMany], [findOneAndUpdate] with its [commit] closure,
    [findManySubdocuments], [findOneSubdocument] and
    [findOneSubdocumentAndUpdate]), and the connector the store reads its
    database from ([db], [connectDb], [disconnectDb]).  [validate] is
    given a second time, as the module's other copy
    ([src/unnamed/part_005]) has it.

    JavaScript values are modelled twice, as the code uses them:
    - [value] is an immutable tree (what [JSON.parse] returns, what the
      database stores, what [deep-diff] walks);
    - a [heap] of mutable cells holds the object graphs that callers receive
      by reference, so that aliasing between a document and one of its
      subdocuments, and the separation between a document and its deep copy,
      are facts about locations and not conventions.

    Conventions of the model:
    - numbers are integers ([Z]); [NaN], infinities and fractions are outside
      the model;
    - an object is the list of its own enumerable properties in the order
      [Object.keys] reports them;
    - the libraries the module calls (the MongoDB driver and its [ObjectId],
      Joi, expando-money/convert-pattern, the clock) are collaborators:
      what the module cannot see of them is a field of [Collaborators];
    - [deep-diff] (version 1.0.2, as pinned in package.json) and the lodash
      helpers are modelled from their algorithms, statement by statement. *)

From Stdlib Require Import ZArith String Ascii List Bool Lia DecimalString.
From stdpp Require Import base option list strings gmap.

Import ListNotations.
Local Open Scope string_scope.
Local Open Scope list_scope.

Set Default Proof Using "Type".

(** ** JavaScript values *)

(** Values without own enumerable structure.  A [Date] carries its time
    value in milliseconds, [None] being the invalid date. *)
Inductive prim : Type :=
| PUndef
| PNull
| PBool (b : bool)
| PNum (n : Z)
| PStr (s : string)
| PDate (t : option Z).

(** The class of an object: a plain object or an instance of the driver's
    [ObjectId]; [JSON.stringify] treats the two differently ([toJSON]),
    [Object.keys] does not. *)
Inductive cls : Type := Plain | ObjectIdCls.

Unset Elimination Schemes.
Inductive value : Type :=
| VPrim (p : prim)
| VArr (elems : list value)
| VObj (c : cls) (props : list (string * value)).
Set Elimination Schemes.

Abbreviation VUndef := (VPrim PUndef).
Abbreviation VNull := (VPrim PNull).
Abbreviation VBool b := (VPrim (PBool b)).
Abbreviation VNum n := (VPrim (PNum n)).
Abbreviation VStr s := (VPrim (PStr s)).
Abbreviation VDate t := (VPrim (PDate t)).
Abbreviation obj props := (VObj Plain props).

Abbreviation props_t := (list (string * value)).

(** Structural induction through the lists of elements and properties. *)
Definition value_induction (P : value -> Prop)
  (Hprim : forall p, P (VPrim p))
  (Harr : forall l, Forall P l -> P (VArr l))
  (Hobj : forall c kvs, Forall (fun kv => P (snd kv)) kvs -> P (VObj c kvs)) :
  forall v, P v :=
  fix go (v : value) : P v :=
    match v with
    | VPrim p => Hprim p
    | VArr l =>
        Harr l ((fix all (l : list value) : Forall P l :=
                   match l with
                   | [] => @List.Forall_nil _ P
                   | x :: l' => @List.Forall_cons _ P x l' (go x) (all l')
                   end) l)
    | VObj c kvs =>
        Hobj c kvs
          ((fix all (l : props_t) : Forall (fun kv => P (snd kv)) l :=
              match l with
              | [] => @List.Forall_nil _ _
              | kv :: l' => @List.Forall_cons _ _ kv l' (go (snd kv)) (all l')
              end) kvs)
    end.

Definition prim_eqb (a b : prim) : bool :=
  match a, b with
  | PUndef, PUndef => true
  | PNull, PNull => true
  | PBool x, PBool y => Bool.eqb x y
  | PNum x, PNum y => Z.eqb x y
  | PStr x, PStr y => String.eqb x y
  | PDate (Some x), PDate (Some y) => Z.eqb x y
  | PDate None, PDate None => true
  | _, _ => false
  end.

Definition cls_eqb (a b : cls) : bool :=
  match a, b with
  | Plain, Plain | ObjectIdCls, ObjectIdCls => true
  | _, _ => false
  end.

(** Structural equality of trees (same keys in the same order). *)
Fixpoint value_eqb (a b : value) {struct a} : bool :=
  match a, b with
  | VPrim p, VPrim q => prim_eqb p q
  | VArr la, VArr lb =>
      (fix go (la lb : list value) {struct la} : bool :=
         match la, lb with
         | [], [] => true
         | x :: la', y :: lb' => value_eqb x y && go la' lb'
         | _, _ => false
         end) la lb
  | VObj c ka, VObj d kb =>
      cls_eqb c d &&
      (fix go (ka kb : props_t) {struct ka} : bool :=
         match ka, kb with
         | [], [] => true
         | (k, x) :: ka', (k', y) :: kb' =>
             String.eqb k k' && value_eqb x y && go ka' kb'
         | _, _ => false
         end) ka kb
  | _, _ => false
  end.

(** [!!v]: the falsy values are [undefined], [null], [false], [0] and the
    empty string; every object, array and date is truthy. *)
Definition truthy (v : value) : bool :=
  match v with
  | VUndef | VNull => false
  | VBool b => b
  | VNum n => negb (Z.eqb n 0)
  | VStr s => negb (String.eqb s "")
  | _ => true
  end.

(** ** Strings: decimal numerals, suffixes, JSON quoting *)

Definition string_of_nat (n : nat) : string :=
  NilZero.string_of_uint (Nat.to_uint n).

Definition string_of_Z (z : Z) : string :=
  NilZero.string_of_int (Z.to_int z).

(** [s.endsWith(suffix)]: some tail of [s] is [suffix]. *)
Fixpoint endsWith (s suffix : string) : bool :=
  String.eqb s suffix ||
  match s with
  | EmptyString => false
  | String _ s' => endsWith s' suffix
  end.

Definition dquote : ascii := "034"%char.
Definition backslash : ascii := "092"%char.

Definition hex_digit (n : nat) : ascii :=
  match n with
  | 0 => "0" | 1 => "1" | 2 => "2" | 3 => "3" | 4 => "4" | 5 => "5"
  | 6 => "6" | 7 => "7" | 8 => "8" | 9 => "9" | 10 => "a" | 11 => "b"
  | 12 => "c" | 13 => "d" | 14 => "e" | _ => "f"
  end%char.

(** [QuoteJSONString] on one character. *)
Definition json_escape (c : ascii) : string :=
  let n := nat_of_ascii c in
  if Ascii.eqb c dquote then String backslash (String dquote EmptyString)
  else if Ascii.eqb c backslash then String backslash (String backslash EmptyString)
  else if Nat.eqb n 8 then "\b"
  else if Nat.eqb n 9 then "\t"
  else if Nat.eqb n 10 then "\n"
  else if Nat.eqb n 12 then "\f"
  else if Nat.eqb n 13 then "\r"
  else if Nat.ltb n 32 then
    "\u00" +:+ String (hex_digit (n / 16)) (String (hex_digit (n mod 16)) EmptyString)
  else String c EmptyString.

Fixpoint json_escape_all (s : string) : string :=
  match s with
  | EmptyString => EmptyString
  | String c s' => json_escape c +:+ json_escape_all s'
  end.

Definition json_quote (s : string) : string :=
  String dquote (json_escape_all s +:+ String dquote EmptyString).

Fixpoint join (sep : string) (l : list string) : string :=
  match l with
  | [] => ""
  | [s] => s
  | s :: rest => s +:+ sep +:+ join sep rest
  end.

(** The index keys of an array: [Object.keys([a, b])] is ["0"; "1"]. *)
Fixpoint indexed_from {A} (i : nat) (l : list A) : list (string * A) :=
  match l with
  | [] => []
  | x :: l' => (string_of_nat i, x) :: indexed_from (S i) l'
  end.

(** ** Own properties: [o[k]], [o[k] = v], [delete o[k]], [Object.assign] *)

Fixpoint lookup_prop {A} (k : string) (kvs : list (string * A)) : option A :=
  match kvs with
  | [] => None
  | (k', v) :: rest => if String.eqb k k' then Some v else lookup_prop k rest
  end.

Definition has_prop {A} (k : string) (kvs : list (string * A)) : bool :=
  match lookup_prop k kvs with Some _ => true | None => false end.

(** Assignment keeps the position of an existing key and appends a new one. *)
Fixpoint set_prop {A} (k : string) (v : A) (kvs : list (string * A))
  : list (string * A) :=
  match kvs with
  | [] => [(k, v)]
  | (k', v') :: rest =>
      if String.eqb k k' then (k, v) :: rest else (k', v') :: set_prop k v rest
  end.

Fixpoint delete_prop {A} (k : string) (kvs : list (string * A))
  : list (string * A) :=
  match kvs with
  | [] => []
  | (k', v') :: rest =>
      if String.eqb k k' then rest else (k', v') :: delete_prop k rest
  end.

(** [Object.assign(target, source)]: every own property of [source] is
    assigned on [target], in [source]'s order. *)
Definition assign {A} (target source : list (string * A)) : list (string * A) :=
  fold_left (fun acc kv => set_prop (fst kv) (snd kv) acc) source target.

(** [o[k]] read as a value: [undefined] when the property is absent; an
    array has its elements under their indices (its [length] and the
    properties of primitives are not modelled). *)
Definition get (v : value) (k : string) : value :=
  match v with
  | VObj _ kvs => default VUndef (lookup_prop k kvs)
  | VArr l => default VUndef (lookup_prop k (indexed_from 0 l))
  | VPrim _ => VUndef
  end.

Definition keys {A} (kvs : list (string * A)) : list string := map fst kvs.

(** Objects never repeat a key; the model states it where it is used. *)
Fixpoint wf_value (v : value) : Prop :=
  match v with
  | VPrim _ => True
  | VArr l => (fix all (l : list value) : Prop :=
                 match l with [] => True | x :: l' => wf_value x /\ all l' end) l
  | VObj _ kvs =>
      NoDup (keys kvs) /\
      (fix all (l : props_t) : Prop :=
         match l with [] => True | kv :: l' => wf_value (snd kv) /\ all l' end) kvs
  end.

(** ** Collaborators

    Everything the module obtains from a library and cannot compute itself.
    [ObjectId_new v] is the list of own enumerable properties of
    [new ObjectId(v)], [ObjectId_toHexString] reads the hexadecimal form
    back from them ([toJSON] and [toString] of an [ObjectId]);
    [Joi_validate doc schema stripUnknown] is [Joi.validate] with its
    [{error, value}] result; [convertMoney] is
    [convertObjectWithPattern(doc, moneyKeys, Money.fromMoney)];
    [mongo_matches filter doc] is the server's query matching and
    [mongo_sort] its [sort]; [mongo_newId n] is the [n]-th [_id] the driver
    generates, [mongo_indexName key] the default name of an index. *)
Record JoiResult : Type := { joi_error : option string; joi_value : value }.

Class Collaborators : Type := {
  ObjectId_isValid : value -> bool;
  ObjectId_new : value -> props_t;
  ObjectId_toHexString : props_t -> string;
  toISOString : Z -> string;
  js_String : value -> string;
  JoiObject : Type;
  Joi_append_optional : JoiObject -> string -> JoiObject;
  Joi_validate : value -> JoiObject -> bool -> JoiResult;
  convertMoney : value -> value;
  mongo_matches : value -> value -> bool;
  mongo_sort : value -> list value -> list value;
  mongo_newId : nat -> value;
  mongo_indexName : value -> string
}.

(** ** Results of calls that may throw *)

Inductive error : Type :=
| TypeError (msg : string)
| RangeError (msg : string)
| SyntaxError (msg : string)
| MongoError (msg : string)
| Error (msg : string).

Inductive Res (A : Type) : Type :=
| Ok (a : A)
| Throw (e : error).
Arguments Ok {A} a.
Arguments Throw {A} e.

(** ** deep-diff 1.0.2 *)

(** A path element is a property name or an array index. *)
Inductive pkey : Type :=
| PKey (k : string)
| PIdx (i : nat).

Abbreviation path := (list pkey).

(** The four kinds of difference: [DiffNew] (kind N), [DiffDeleted] (D),
    [DiffEdit] (E) and [DiffArray] (A), whose item is an N or a D without
    a path. *)
Inductive change : Type :=
| DiffNew (p : path) (rhs : value)
| DiffDeleted (p : path) (lhs : value)
| DiffEdit (p : path) (lhs rhs : value)
| DiffArray (p : path) (index : nat) (item : change).

(** [realTypeOf]; the [Math] object and regular expressions are not values
    of the model. *)
Definition realTypeOf (v : value) : string :=
  match v with
  | VUndef => "undefined"
  | VNull => "null"
  | VBool _ => "boolean"
  | VNum _ => "number"
  | VStr _ => "string"
  | VDate _ => "date"
  | VArr _ => "array"
  | VObj _ _ => "object"
  end.

(** [(lhs - rhs) !== 0] on two dates: the difference of an invalid date
    is [NaN], which is not [0]. *)
Definition date_differs (a b : option Z) : bool :=
  match a, b with
  | Some x, Some y => negb (Z.eqb x y)
  | _, _ => true
  end.

(** [lhs !== rhs] on two primitives of one [realTypeOf]. *)
Definition strict_differs (a b : prim) : bool := negb (prim_eqb a b).

(** [pkeys.indexOf(k)] followed by [pkeys[other] = null]: the first entry
    equal to [k] is blanked; [None] when there is none. *)
Fixpoint take_key (k : string) (pkeys : list (option string))
  : option (list (option string)) :=
  match pkeys with
  | [] => None
  | Some k' :: rest =>
      if String.eqb k k' then Some (None :: rest)
      else option_map (cons (Some k')) (take_key k rest)
  | None :: rest => option_map (cons None) (take_key k rest)
  end.

(** The second loop over [pkeys]: [if (k)] skips the blanked entries, and
    with them the empty property name, which is falsy as well. *)
Fixpoint new_keys (p : path) (rk : props_t) (pkeys : list (option string))
  : list change :=
  match pkeys with
  | [] => []
  | Some k :: rest =>
      if String.eqb k "" then new_keys p rk rest
      else DiffNew (p ++ [PKey k]) (default VUndef (lookup_prop k rk))
             :: new_keys p rk rest
  | None :: rest => new_keys p rk rest
  end.

(** [deepDiff(lhs, rhs, changes, prefilter, path, key, stack)] for two
    defined sides, [currentPath] being [path] with [key] pushed.  No
    prefilter is passed and [orderIndependent] is off; trees have no
    cycles, so the [stack] search never finds [lhs].

    Arrays: the longer side's surplus is reported from the last index
    down, then the common prefix is compared from its last index down.
    Objects: the keys of [lhs] in order, each compared with the same key
    of [rhs] or reported deleted; then the keys of [rhs] that are left. *)
Fixpoint deepDiff (lhs rhs : value) (currentPath : path) {struct lhs}
  : list change :=
  if negb (String.eqb (realTypeOf lhs) (realTypeOf rhs))
  then [DiffEdit currentPath lhs rhs]
  else
    match lhs, rhs with
    | VDate a, VDate b =>
        if date_differs a b then [DiffEdit currentPath lhs rhs] else []
    | VArr la, VArr ra =>
        (fix elems (la ra : list value) (i : nat) {struct la} : list change :=
           match la, ra with
           | [], [] => []
           | [], r :: ra' =>
               (fix news (ra : list value) (i : nat) : list change :=
                  match ra with
                  | [] => []
                  | r :: ra' =>
                      news ra' (S i) ++ [DiffArray currentPath i (DiffNew [] r)]
                  end) (r :: ra') i
           | l :: la', [] =>
               elems la' [] (S i) ++ [DiffArray currentPath i (DiffDeleted [] l)]
           | l :: la', r :: ra' =>
               elems la' ra' (S i) ++ deepDiff l r (currentPath ++ [PIdx i])
           end) la ra 0%nat
    | VObj _ lk, VObj _ rk =>
        (fix props (lk : props_t) (pkeys : list (option string)) {struct lk}
           : list change :=
           match lk with
           | [] => new_keys currentPath rk pkeys
           | (k, lv) :: lk' =>
               match take_key k pkeys with
               | Some pkeys' =>
                   deepDiff lv (default VUndef (lookup_prop k rk))
                     (currentPath ++ [PKey k]) ++ props lk' pkeys'
               | None =>
                   DiffDeleted (currentPath ++ [PKey k]) lv :: props lk' pkeys
               end
           end) lk (map Some (keys rk))
    | VPrim a, VPrim b =>
        if strict_differs a b then [DiffEdit currentPath lhs rhs] else []
    | _, _ => []
    end.

(** [diff(lhs, rhs)] ([accumulateDiff] without accumulator): at the top
    there is no parent, so a side is defined when it is not [undefined];
    the result is [undefined] when there is no difference. *)
Definition diff (lhs rhs : value) : option (list change) :=
  let changes :=
    match lhs, rhs with
    | VUndef, VUndef => []
    | VUndef, _ => [DiffNew [] rhs]
    | _, VUndef => [DiffDeleted [] lhs]
    | _, _ => deepDiff lhs rhs []
    end in
  match changes with
  | [] => None
  | _ => Some changes
  end.

(** The own enumerable string-keyed properties [Object.assign] copies from
    a source: those of an object, the indices of an array, nothing of
    [null], [undefined], a number or a boolean (the characters of a string
    source are not modelled). *)
Definition enumerable_props (v : value) : props_t :=
  match v with
  | VObj _ kvs => kvs
  | VArr l => indexed_from 0 l
  | _ => []
  end.

(** [Object.assign(target, source)] on values, for a target that is an
    object: the store only merges documents.  A target that is not one
    is returned as it is, where the code writes the indices of an array
    target and throws on [null]; no property below is stated of such
    targets. *)
Definition objectAssign (target source : value) : value :=
  match target with
  | VObj c kvs => VObj c (assign kvs (enumerable_props source))
  | _ => target
  end.

(** [_.cloneDeep] of a tree is the same tree. *)
Definition cloneDeep (v : value) : value := v.

(** [_.omit(o, k)] for one top-level key. *)
Definition omit (v : value) (k : string) : value :=
  match v with
  | VObj _ kvs => obj (delete_prop k kvs)
  | _ => obj []
  end.

Section WithCollaborators.
Context `{Collaborators}.

(** ** JSON *)

(** [JSON.parse(JSON.stringify(v))] without reviver, as a tree; [None]
    when [JSON.stringify] returns [undefined].  [toJSON] of a date gives
    its ISO string, or [null] for the invalid date; [toJSON] of an
    [ObjectId] gives its hexadecimal string.  An [undefined] property is
    left out of an object and becomes [null] in an array. *)
Fixpoint jsonify (v : value) : option value :=
  match v with
  | VUndef => None
  | VDate (Some t) => Some (VStr (toISOString t))
  | VDate None => Some VNull
  | VPrim p => Some (VPrim p)
  | VArr l =>
      Some (VArr ((fix elems (l : list value) : list value :=
                     match l with
                     | [] => []
                     | x :: l' => default VNull (jsonify x) :: elems l'
                     end) l))
  | VObj ObjectIdCls kvs => Some (VStr (ObjectId_toHexString kvs))
  | VObj Plain kvs =>
      Some (obj ((fix props (l : props_t) : props_t :=
                    match l with
                    | [] => []
                    | (k, x) :: l' =>
                        match jsonify x with
                        | Some x' => (k, x') :: props l'
                        | None => props l'
                        end
                    end) kvs))
  end.

(** The text [JSON.stringify] writes for a tree that [jsonify] returned. *)
Fixpoint json_text (v : value) : string :=
  match v with
  | VBool true => "true"
  | VBool false => "false"
  | VNum n => string_of_Z n
  | VStr s => json_quote s
  | VPrim _ => "null"
  | VArr l =>
      "[" +:+ join "," ((fix elems (l : list value) : list string :=
                          match l with
                          | [] => []
                          | x :: l' => json_text x :: elems l'
                          end) l) +:+ "]"
  | VObj _ kvs =>
      "{" +:+ join "," ((fix props (l : props_t) : list string :=
                          match l with
                          | [] => []
                          | (k, x) :: l' =>
                              (json_quote k +:+ ":" +:+ json_text x) :: props l'
                          end) kvs) +:+ "}"
  end.

(** [JSON.stringify(v)]: a string, or [undefined]. *)
Definition JSON_stringify (v : value) : option string :=
  option_map json_text (jsonify v).

(** ** [serialize] *)

(** The reviver of [serialize]: a property whose name ends in [Id], or is
    [_id], and whose value [ObjectId.isValid] accepts becomes an
    [ObjectId].  [new ObjectId(v)] is the function [ObjectId_new] of [v]:
    so it is for the strings [ObjectId.isValid] accepts, whose bytes the
    identifier takes over.  For a number the driver builds a fresh
    identifier from the counter of the process at each call; a document
    that holds a number under such a key ([numeric_id] below) is
    therefore left out wherever two passes of [serialize] are
    compared. *)
Definition reviver (key : string) (v : value) : value :=
  if (endsWith key "Id" || String.eqb key "_id") && ObjectId_isValid v
  then VObj ObjectIdCls (ObjectId_new v)
  else v.

(** [JSON.parse]'s walk: the properties of a holder are revived before the
    holder itself, array elements under their index as a string. *)
Fixpoint revive (key : string) (v : value) {struct v} : value :=
  match v with
  | VPrim _ => reviver key v
  | VArr l =>
      reviver key
        (VArr ((fix elems (l : list value) (i : nat) : list value :=
                  match l with
                  | [] => []
                  | x :: l' => revive (string_of_nat i) x :: elems l' (S i)
                  end) l 0%nat))
  | VObj c kvs =>
      reviver key
        (VObj c ((fix props (l : props_t) : props_t :=
                    match l with
                    | [] => []
                    | (k, x) :: l' => (k, revive k x) :: props l'
                    end) kvs))
  end.

(** [serialize(document)]: [JSON.parse(JSON.stringify(document), reviver)].
    [JSON.parse(undefined)] throws. *)
Definition serialize (document : value) : Res value :=
  match jsonify document with
  | None => Throw (SyntaxError "Unexpected token u in JSON at position 0")
  | Some j => Ok (revive "" j)
  end.

(** ** [createChangelog] *)

Record IRequestContext : Type := {
  rc_ip : string;
  rc_token : string;
  rc_endpoint : string
}.

(** A property of a [Diff] object after [JSON.parse(JSON.stringify(..))]:
    present unless its value was [undefined]. *)
Definition json_field (k : string) (v : value) : props_t :=
  match jsonify v with
  | Some j => [(k, j)]
  | None => []
  end.

Definition json_of_pkey (k : pkey) : value :=
  match k with
  | PKey s => VStr s
  | PIdx i => VNum (Z.of_nat i)
  end.

(** [Diff] sets [path] only when it is a non-empty array. *)
Definition json_path (p : path) : props_t :=
  match p with
  | [] => []
  | _ => [("path", VArr (map json_of_pkey p))]
  end.

(** A difference as [changes] stores it: a plain object with [kind],
    [path], then [lhs]/[rhs] or [index]/[item]. *)
Fixpoint json_of_change (c : change) : value :=
  match c with
  | DiffNew p rhs =>
      obj ([("kind", VStr "N")] ++ json_path p ++ json_field "rhs" rhs)
  | DiffDeleted p lhs =>
      obj ([("kind", VStr "D")] ++ json_path p ++ json_field "lhs" lhs)
  | DiffEdit p lhs rhs =>
      obj ([("kind", VStr "E")] ++ json_path p
             ++ json_field "lhs" lhs ++ json_field "rhs" rhs)
  | DiffArray p i item =>
      obj ([("kind", VStr "A")] ++ json_path p
             ++ [("index", VNum (Z.of_nat i)); ("item", json_of_change item)])
  end.

Record IChangelog : Type := {
  cl_ip : string;
  cl_token : string;
  cl_endpoint : string;
  cl_timestamp : Z;
  cl_changes : list value
}.

(** [createChangelog(rc, originalOrder, updates)]; [now] is the value
    [new Date()] reads off the clock. *)
Definition createChangelog (now : Z) (rc : IRequestContext)
  (originalOrder updates : value) : IChangelog :=
  let updatesOnOriginal := objectAssign (cloneDeep originalOrder) updates in
  let difference := diff originalOrder updatesOnOriginal in
  {| cl_ip := rc_ip rc;
     cl_token := rc_token rc;
     cl_endpoint := rc_endpoint rc;
     cl_timestamp := now;
     cl_changes := map json_of_change (default [] difference) |}.

(** The changelog as the document stores it. *)
Definition value_of_changelog (c : IChangelog) : value :=
  obj [("ip", VStr (cl_ip c));
       ("token", VStr (cl_token c));
       ("endpoint", VStr (cl_endpoint c));
       ("timestamp", VDate (Some (cl_timestamp c)));
       ("changes", VArr (cl_changes c))].

End WithCollaborators.

(** ** The heap: object graphs held by reference *)

(** A value held in a variable or a property: a primitive, or a reference
    to a cell. *)
Inductive hval : Type :=
| HPrim (p : prim)
| HRef (l : nat).

Inductive cell : Type :=
| CArr (elems : list hval)
| CObj (c : cls) (props : list (string * hval)).

(** Cells are allocated at the end; a location is an index. *)
Abbreviation heap := (list cell).

(** Building a fresh graph for a tree: the cells of the parts, then the
    cell of the whole. *)
Fixpoint alloc (v : value) (h : heap) {struct v} : hval * heap :=
  match v with
  | VPrim p => (HPrim p, h)
  | VArr l =>
      let '(rs, h') :=
        (fix elems (l : list value) (h : heap) : list hval * heap :=
           match l with
           | [] => ([], h)
           | x :: l' =>
               let '(r, h1) := alloc x h in
               let '(rs, h2) := elems l' h1 in
               (r :: rs, h2)
           end) l h in
      (HRef (length h'), h' ++ [CArr rs])
  | VObj c kvs =>
      let '(rs, h') :=
        (fix props (l : props_t) (h : heap) : list (string * hval) * heap :=
           match l with
           | [] => ([], h)
           | (k, x) :: l' =>
               let '(r, h1) := alloc x h in
               let '(rs, h2) := props l' h1 in
               ((k, r) :: rs, h2)
           end) kvs h in
      (HRef (length h'), h' ++ [CObj c rs])
  end.

(** Reading the tree below a reference, [fuel] cells deep; [None] on a
    dangling reference or when the fuel runs out. *)
Fixpoint read (fuel : nat) (h : heap) (r : hval) {struct fuel} : option value :=
  match r with
  | HPrim p => Some (VPrim p)
  | HRef l =>
      match fuel with
      | O => None
      | S fuel' =>
          match h !! l with
          | None => None
          | Some (CArr rs) => VArr <$> mapM (read fuel' h) rs
          | Some (CObj c kvs) =>
              VObj c <$> mapM (fun kr => pair (fst kr) <$> read fuel' h (snd kr)) kvs
          end
      end
  end.

(** A walk through a graph without cycles visits every cell at most once,
    so this fuel reads all of it; running out means the graph is cyclic. *)
Definition read_all (h : heap) (r : hval) : option value :=
  read (S (length h)) h r.

(** [r[k]] for an own property; on an array, [k] names an element by its
    index.  The names an object inherits from [Object.prototype]
    ([constructor], [toString] and the like) hold functions, which are no
    values of the model: [k] is taken not to be one of them. *)
Definition heap_get (h : heap) (r : hval) (k : string) : Res hval :=
  match r with
  | HPrim PUndef =>
      Throw (TypeError ("Cannot read property '" +:+ k +:+ "' of undefined"))
  | HPrim PNull =>
      Throw (TypeError ("Cannot read property '" +:+ k +:+ "' of null"))
  | HPrim _ => Ok (HPrim PUndef)
  | HRef l =>
      match h !! l with
      | Some (CObj _ kvs) => Ok (default (HPrim PUndef) (lookup_prop k kvs))
      | Some (CArr rs) => Ok (default (HPrim PUndef) (lookup_prop k (indexed_from 0 rs)))
      | None => Ok (HPrim PUndef)
      end
  end.

(** [r[k] = v] on an object. *)
Definition heap_set (h : heap) (r : hval) (k : string) (v : hval) : Res heap :=
  match r with
  | HPrim PUndef =>
      Throw (TypeError ("Cannot set property '" +:+ k +:+ "' of undefined"))
  | HPrim PNull =>
      Throw (TypeError ("Cannot set property '" +:+ k +:+ "' of null"))
  | HPrim _ => Ok h
  | HRef l =>
      match h !! l with
      | Some (CObj c kvs) => Ok (<[l := CObj c (set_prop k v kvs)]> h)
      | _ => Ok h
      end
  end.

(** [delete r[k]]. *)
Definition heap_delete (h : heap) (r : hval) (k : string) : Res heap :=
  match r with
  | HPrim PUndef | HPrim PNull =>
      Throw (TypeError "Cannot convert undefined or null to object")
  | HPrim _ => Ok h
  | HRef l =>
      match h !! l with
      | Some (CObj c kvs) => Ok (<[l := CObj c (delete_prop k kvs)]> h)
      | _ => Ok h
      end
  end.

(** [Array.prototype.find]: the first element the predicate accepts, with
    its index.  The predicate sees the element as it is in the heap. *)
Fixpoint find_from (pred : value -> bool) (h : heap) (rs : list hval) (i : nat)
  : option (nat * hval) :=
  match rs with
  | [] => None
  | r :: rs' =>
      match read_all h r with
      | Some v => if pred v then Some (i, r) else find_from pred h rs' (S i)
      | None => find_from pred h rs' (S i)
      end
  end.

(** [originalDocument[subdocumentPath].find(pred)], [r] being what
    [originalDocument[subdocumentPath]] holds: [undefined] and [null] have
    no properties, and only arrays have [find].  The messages are the ones
    the engine gives at this call, which name the expression. *)
Definition heap_find (h : heap) (r : hval) (pred : value -> bool) : Res hval :=
  match r with
  | HPrim PUndef => Throw (TypeError "Cannot read property 'find' of undefined")
  | HPrim PNull => Throw (TypeError "Cannot read property 'find' of null")
  | HPrim _ =>
      Throw (TypeError "originalDocument[subdocumentPath].find is not a function")
  | HRef l =>
      match h !! l with
      | Some (CArr rs) =>
          Ok (match find_from pred h rs 0 with
              | Some (_, r') => r'
              | None => HPrim PUndef
              end)
      | _ => Throw (TypeError "originalDocument[subdocumentPath].find is not a function")
      end
  end.

Definition hval_truthy (r : hval) : bool :=
  match r with
  | HPrim p => truthy (VPrim p)
  | HRef _ => true
  end.

(** ** The world: database, heap, clock, console *)

(** A collection: its documents in insertion order and its indexes as
    [listIndexes] describes them. *)
Record Collection : Type := {
  docs : list value;
  indexes : list value
}.

(** An index command the store sent to the driver. *)
Inductive IndexCall : Type :=
| CreateIndexes (collection : string) (specs : list value)
| DropIndex (collection : string) (indexName : value).

Record World : Type := {
  w_db : gmap string Collection;
  w_heap : heap;
  w_now : Z;
  w_ids : nat;
  w_console : list string;
  w_oplog : list IndexCall
}.

Definition M (A : Type) : Type := World -> Res A * World.

Definition ret {A} (a : A) : M A := fun w => (Ok a, w).
Definition throw {A} (e : error) : M A := fun w => (Throw e, w).
Definition bind {A B} (m : M A) (k : A -> M B) : M B :=
  fun w =>
    match m w with
    | (Ok a, w') => k a w'
    | (Throw e, w') => (Throw e, w')
    end.
Definition lift {A} (r : Res A) : M A := fun w => (r, w).

Notation "x <- m ;; k" := (bind m (fun x => k))
  (at level 100, m at next level, right associativity).
Notation "m ;;; k" := (bind m (fun _ => k))
  (at level 100, right associativity).

Definition with_db (w : World) (db : gmap string Collection) : World :=
  {| w_db := db; w_heap := w_heap w; w_now := w_now w; w_ids := w_ids w;
     w_console := w_console w; w_oplog := w_oplog w |}.
Definition with_heap (w : World) (h : heap) : World :=
  {| w_db := w_db w; w_heap := h; w_now := w_now w; w_ids := w_ids w;
     w_console := w_console w; w_oplog := w_oplog w |}.

Definition get_world : M World := fun w => (Ok w, w).
Definition set_db (db : gmap string Collection) : M unit :=
  fun w => (Ok tt, with_db w db).
Definition set_heap (h : heap) : M unit :=
  fun w => (Ok tt, with_heap w h).
Definition console (msg : string) : M unit :=
  fun w => (Ok tt, {| w_db := w_db w; w_heap := w_heap w; w_now := w_now w;
                      w_ids := w_ids w; w_console := w_console w ++ [msg];
                      w_oplog := w_oplog w |}).
Definition fresh_id : M nat :=
  fun w => (Ok (w_ids w),
            {| w_db := w_db w; w_heap := w_heap w; w_now := w_now w;
               w_ids := S (w_ids w); w_console := w_console w;
               w_oplog := w_oplog w |}).
Definition log_call (c : IndexCall) : M unit :=
  fun w => (Ok tt, {| w_db := w_db w; w_heap := w_heap w; w_now := w_now w;
                      w_ids := w_ids w; w_console := w_console w;
                      w_oplog := w_oplog w ++ [c] |}).

Fixpoint forEach {A} (l : list A) (f : A -> M unit) : M unit :=
  match l with
  | [] => ret tt
  | x :: l' => f x ;;; forEach l' f
  end.

Section Storage.
Context `{Collaborators}.

(** ** The MongoDB driver, as far as the module calls it

    The server accepts every write: its own rejections (duplicate keys,
    field names it refuses, document size) are not modelled.  A write to a
    collection that does not exist creates it. *)

Definition primary_index : value :=
  obj [("v", VNum 2); ("key", obj [("_id", VNum 1)]); ("name", VStr "_id_")].

Definition new_collection : Collection :=
  {| docs := []; indexes := [primary_index] |}.

Definition coll_of (db : gmap string Collection) (name : string) : Collection :=
  default new_collection (db !! name).

Definition set_docs (c : Collection) (ds : list value) : Collection :=
  {| docs := ds; indexes := indexes c |}.

Definition set_indexes (c : Collection) (ixs : list value) : Collection :=
  {| docs := docs c; indexes := ixs |}.

(** [db.collections()] mapped to the names. *)
Definition db_collections : M (list string) :=
  w <- get_world ;; ret (map fst (map_to_list (w_db w))).

Definition db_createCollection (name : string) : M unit :=
  w <- get_world ;;
  match w_db w !! name with
  | Some _ => throw (MongoError "Collection already exists")
  | None => set_db (<[name := new_collection]> (w_db w))
  end.

Definition db_listIndexes (name : string) : M (list value) :=
  w <- get_world ;;
  match w_db w !! name with
  | Some c => ret (indexes c)
  | None => throw (MongoError "ns does not exist")
  end.

(** An index as the server records it: the specification, named after its
    key pattern when it brings no name. *)
Definition described (spec : value) : value :=
  if truthy (get spec "name") then spec
  else obj (set_prop "name" (VStr (mongo_indexName (get spec "key")))
              (enumerable_props spec)).

Definition db_createIndexes (name : string) (specs : list value) : M unit :=
  log_call (CreateIndexes name specs) ;;;
  w <- get_world ;;
  let c := coll_of (w_db w) name in
  set_db (<[name := set_indexes c (indexes c ++ map described specs)]> (w_db w)).

(** [dropIndex(indexName)]; the server refuses to drop the index on [_id]. *)
Definition db_dropIndex (name : string) (indexName : value) : M unit :=
  log_call (DropIndex name indexName) ;;;
  w <- get_world ;;
  match w_db w !! name with
  | None => throw (MongoError "ns not found")
  | Some c =>
      if value_eqb indexName (VStr "_id_")
      then throw (MongoError "cannot drop _id index")
      else if existsb (fun ix => value_eqb (get ix "name") indexName) (indexes c)
      then set_db (<[name := set_indexes c
                      (List.filter
                         (fun ix => negb (value_eqb (get ix "name") indexName))
                         (indexes c))]> (w_db w))
      else throw (MongoError "index not found with name")
  end.

(** [insertOne(doc)]: the driver gives the document an [_id] when it has
    none; the result's [ops[0]] is the document as stored. *)
Definition db_insertOne (name : string) (doc : value) : M value :=
  stored <- (match doc with
             | VObj c kvs =>
                 if has_prop "_id" kvs then ret doc
                 else n <- fresh_id ;; ret (VObj c (set_prop "_id" (mongo_newId n) kvs))
             | _ => throw (MongoError "document must be an object")
             end) ;;
  w <- get_world ;;
  let c := coll_of (w_db w) name in
  set_db (<[name := set_docs c (docs c ++ [stored])]> (w_db w)) ;;;
  ret stored.

(** [findOne(filter, {projection: {_id: 0}})]: [null] when nothing
    matches. *)
Definition db_findOne (name : string) (filter : value) : M value :=
  w <- get_world ;;
  match List.find (mongo_matches filter) (docs (coll_of (w_db w) name)) with
  | Some d => ret (omit d "_id")
  | None => ret VNull
  end.

(** [find(filter).project({_id: 0}).sort(sort).skip(skip).limit(limit)]:
    a negative skip is refused (with the server's words, on which no
    property below relies), a limit of 0 is no limit. *)
Definition db_find (name : string) (filter sort : value) (skip limit : Z)
  : M (list value) :=
  w <- get_world ;;
  if (skip <? 0)%Z then throw (MongoError "Skip value must be non-negative")
  else
    let found :=
      mongo_sort sort
        (List.filter (mongo_matches filter) (docs (coll_of (w_db w) name))) in
    let page := drop (Z.to_nat skip) found in
    let page := if (limit =? 0)%Z then page else take (Z.to_nat (Z.abs limit)) page in
    ret (map (fun d => omit d "_id") page).

(** [$set]: the fields of the update are assigned on the document. *)
Definition mongo_set (doc fields : value) : Res value :=
  match doc, fields with
  | VObj c kvs, VObj _ fs => Ok (VObj c (assign kvs fs))
  | _, _ => Throw (MongoError "Modifiers operate on fields")
  end.

(** [$push] of one entry onto an array field, created when absent. *)
Definition mongo_push (doc : value) (field : string) (entry : value) : Res value :=
  match doc with
  | VObj c kvs =>
      match lookup_prop field kvs with
      | None => Ok (VObj c (set_prop field (VArr [entry]) kvs))
      | Some (VArr l) => Ok (VObj c (set_prop field (VArr (l ++ [entry])) kvs))
      | Some _ => Throw (MongoError "The field must be an array")
      end
  | _ => Throw (MongoError "Modifiers operate on fields")
  end.

Definition mongo_update (doc fields : value) (field : string) (entry : value)
  : Res value :=
  match mongo_set doc fields with
  | Ok doc' => mongo_push doc' field entry
  | Throw e => Throw e
  end.

(** The position of the first document the filter matches. *)
Fixpoint find_index (f : value -> bool) (l : list value) (i : nat) : option nat :=
  match l with
  | [] => None
  | d :: l' => if f d then Some i else find_index f l' (S i)
  end.

(** [findOneAndUpdate(filter, {$set, $push: {changelogs}},
    {projection: {_id: 0}, returnOriginal: false})]: the first match is
    updated in place and returned as updated; [value] is [null] when
    nothing matches. *)
Definition db_findOneAndUpdate (name : string) (filter fields entry : value)
  : M value :=
  w <- get_world ;;
  let c := coll_of (w_db w) name in
  match find_index (mongo_matches filter) (docs c) 0 with
  | None => ret VNull
  | Some i =>
      match docs c !! i with
      | None => ret VNull
      | Some d =>
          d' <- lift (mongo_update d fields "changelogs" entry) ;;
          set_db (<[name := set_docs c (<[i := d']> (docs c))]> (w_db w)) ;;;
          ret (omit d' "_id")
      end
  end.

(** ** [makeStorage] *)

(** What the facade's functions close over. *)
Record Storage : Type := {
  documentName : string;
  collectionName : string;
  documentSchema : JoiObject;
  desiredIndexes : list value
}.

Variable st : Storage.

Definition ensureCollection : M unit :=
  collectionNames <- db_collections ;;
  if negb (existsb (String.eqb (collectionName st)) collectionNames)
  then
    console ("Creating new collection '" +:+ collectionName st +:+ "'") ;;;
    db_createCollection (collectionName st)
  else ret tt.

(** [ixSpecificationIdentity]: the JSON text of the key pattern. *)
Definition ixSpecificationIdentity (i : value) : option string :=
  JSON_stringify (get i "key").

Definition identity_eqb (a b : option string) : bool :=
  match a, b with
  | Some x, Some y => String.eqb x y
  | None, None => true
  | _, _ => false
  end.

(** [_.differenceBy(array, values, iteratee)]: the elements of [array]
    whose image is the image of no element of [values], in order. *)
Definition differenceBy (array values : list value)
  (iteratee : value -> option string) : list value :=
  let computed := map iteratee values in
  List.filter (fun x => negb (existsb (identity_eqb (iteratee x)) computed)) array.

Definition newIndexes (indexes existingIndexes : list value) : list value :=
  differenceBy indexes existingIndexes ixSpecificationIdentity.

Definition removedIndexes (indexes existingIndexes : list value) : list value :=
  List.filter
    (fun index =>
       (* ignore default _id index *)
       negb (identity_eqb (ixSpecificationIdentity index)
               (JSON_stringify (obj [("_id", VNum 1)]))))
    (differenceBy existingIndexes indexes ixSpecificationIdentity).

(** [{...i, background: true}]. *)
Definition in_background (i : value) : value :=
  obj (set_prop "background" (VBool true) (enumerable_props i)).

(** The two [if] blocks of [ensureIndexes]. *)
Definition createNew (new : list value) : M unit :=
  if negb (Nat.eqb (length new) 0)
  then
    console ("Creating " +:+ string_of_nat (length new) +:+ " new indexes on '"
               +:+ collectionName st +:+ "'") ;;;
    db_createIndexes (collectionName st) (map in_background new)
  else ret tt.

Definition dropRemoved (removed : list value) : M unit :=
  if negb (Nat.eqb (length removed) 0)
  then
    console ("Removing " +:+ string_of_nat (length removed) +:+ " indexes on '"
               +:+ collectionName st +:+ "'") ;;;
    forEach removed (fun index => db_dropIndex (collectionName st) (get index "name"))
  else ret tt.

Definition ensureIndexes (indexes : list value) : M unit :=
  existingIndexes <- db_listIndexes (collectionName st) ;;
  createNew (newIndexes indexes existingIndexes) ;;;
  dropRemoved (removedIndexes indexes existingIndexes).

(** [ensureCollection().then(() => ensureIndexes(indexes))]. *)
Definition bootstrap : M unit :=
  ensureCollection ;;; ensureIndexes (desiredIndexes st).

(** [validate]: the document against the schema with [changelogs] appended
    as optional, unknown keys stripped from the returned value. *)
Definition validate (document : value) : Res value :=
  let r := Joi_validate document
             (Joi_append_optional (documentSchema st) "changelogs") true in
  match joi_error r with
  | Some message =>
      Throw (Error ("Error validating '" +:+ collectionName st
                      +:+ "' document: " +:+ message))
  | None => Ok (joi_value r)
  end.

Definition mapDocumentFromDb (doc : value) : value := convertMoney doc.

Definition insertOne (rc : IRequestContext) (document : value) : M value :=
  _ <- lift (validate document) ;;
  serialized <- lift (serialize document) ;;
  w <- get_world ;;
  result <- db_insertOne (collectionName st)
              (objectAssign serialized
                 (obj [("changelogs",
                        (* add a changelog with empty changes to track
                           where the document came from in the first place *)
                        VArr [value_of_changelog
                                (createChangelog (w_now w) rc (obj []) (obj []))])])) ;;
  ret (mapDocumentFromDb (omit result "_id")).

(** The suffix [filter._id ? ` #${filter._id}` : ''] of the messages, for
    a filter that is an object, as its type [FilterQuery] has it: on
    [null] or [undefined] the code throws a [TypeError] at [filter._id],
    which [get] does not model. *)
Definition id_suffix (filter : value) : string :=
  if truthy (get filter "_id") then " #" +:+ js_String (get filter "_id") else "".

Definition findOne (filter : value) : M value :=
  foundDocument <- db_findOne (collectionName st) filter ;;
  if negb (truthy foundDocument)
  then throw (Error (documentName st +:+ id_suffix filter +:+ " doesn't exist"))
  else ret (mapDocumentFromDb foundDocument).

(** [v.toISOString()], which throws on the invalid date. *)
Definition date_toISOString (t : option Z) : Res string :=
  match t with
  | Some z => Ok (toISOString z)
  | None => Throw (RangeError "Invalid time value")
  end.

(** [dateToFilter]: a pair for the three operators, [undefined] (here
    [None]) when the [switch] falls through. *)
Definition dateToFilter (k : string) (v : option Z) : Res (option (string * value)) :=
  if String.eqb k "purchasedAfter" then
    match date_toISOString v with
    | Ok s => Ok (Some ("purchaseDate", obj [("$gt", VStr s)]))
    | Throw e => Throw e
    end
  else if String.eqb k "updatedAfter" then
    match date_toISOString v with
    | Ok s => Ok (Some ("lastChanged", obj [("$gt", VStr s)]))
    | Throw e => Throw e
    end
  else if String.eqb k "shouldShipBy" then
    match date_toISOString v with
    | Ok s => Ok (Some ("latestShipDate", obj [("$lt", VStr s)]))
    | Throw e => Throw e
    end
  else Ok None.

(** The callback of [.map] in [findMany]. *)
Definition filterPair (kv : string * value) : Res (option (string * value)) :=
  match snd kv with
  | VDate t => dateToFilter (fst kv) t
  | VArr l => Ok (Some (fst kv, obj [("$in", VArr l)]))
  | v => Ok (Some (fst kv, v))
  end.

(** [Array.prototype.map] with a callback that may throw. *)
Fixpoint mapRes {A B} (f : A -> Res B) (l : list A) : Res (list B) :=
  match l with
  | [] => Ok []
  | x :: l' =>
      match f x with
      | Throw e => Throw e
      | Ok y =>
          match mapRes f l' with
          | Throw e => Throw e
          | Ok ys => Ok (y :: ys)
          end
      end
  end.

(** [_.fromPairs]: [result[pair[0]] = pair[1]] for every pair, which reads
    a property of [undefined] when the pair is [undefined]. *)
Fixpoint fromPairs (pairs : list (option (string * value))) (result : props_t)
  : Res props_t :=
  match pairs with
  | [] => Ok result
  | Some (k, v) :: rest => fromPairs rest (set_prop k v result)
  | None :: rest => Throw (TypeError "Cannot read property '0' of undefined")
  end.

(** [Object.entries(v)]: [null] and [undefined] cannot be converted to
    an object, a string has its characters under their indices, a number
    or a boolean has no entries. *)
Definition Object_entries (v : value) : Res props_t :=
  match v with
  | VUndef | VNull => Throw (TypeError "Cannot convert undefined or null to object")
  | VStr s =>
      Ok (indexed_from 0
            (map (fun c => VStr (String c EmptyString)) (list_ascii_of_string s)))
  | _ => Ok (enumerable_props v)
  end.

Definition mongoFilter (filter : value) : Res value :=
  match Object_entries filter with
  | Throw e => Throw e
  | Ok entries =>
      match mapRes filterPair (List.filter (fun kv => truthy (snd kv)) entries) with
      | Throw e => Throw e
      | Ok pairs =>
          match fromPairs pairs [] with
          | Throw e => Throw e
          | Ok result => Ok (obj result)
          end
      end
  end.

(** A parameter with the default [{}]: the default stands in for
    [undefined], and for nothing else. *)
Definition or_empty (v : value) : value :=
  match v with
  | VUndef => obj []
  | _ => v
  end.

(** [findMany(filter = {}, sort = {}, limit, page)]; the numbers are
    given. *)
Definition findMany (filter sort : value) (limit page : Z) : M (list value) :=
  let filter := or_empty filter in
  let sort := or_empty sort in
  mf <- lift (mongoFilter filter) ;;
  found <- db_find (collectionName st) mf sort (limit * (page - 1)) limit ;;
  ret (map mapDocumentFromDb found).

(** [_.cloneDeep] of a graph in the heap: a fresh graph for the same tree
    (the graphs the store clones are the trees [findOne] returns). *)
Definition heap_cloneDeep (r : hval) : M hval :=
  w <- get_world ;;
  match read_all (w_heap w) r with
  | Some v =>
      let '(r', h') := alloc v (w_heap w) in
      set_heap h' ;;; ret r'
  | None => throw (RangeError "Maximum call stack size exceeded")
  end.

(** [serialize] of a graph in the heap; [JSON.stringify] refuses a cyclic
    one. *)
Definition heap_serialize (r : hval) : M value :=
  w <- get_world ;;
  match read_all (w_heap w) r with
  | Some v => lift (serialize v)
  | None => throw (TypeError "Converting circular structure to JSON")
  end.

(** What [commit] closes over: the document as fetched (not the copy that
    was handed out), the request context and the filter. *)
Record CommitClosure : Type := {
  cc_originalDocument : hval;
  cc_rc : IRequestContext;
  cc_filter : value
}.

Record UpdateHandle : Type := {
  originalDocument : hval;
  commit_of : CommitClosure
}.

Definition findOneAndUpdate (rc : IRequestContext) (filter : value) : M UpdateHandle :=
  found <- findOne filter ;;
  w <- get_world ;;
  let '(originalDocument, h') := alloc found (w_heap w) in
  set_heap h' ;;;
  copy <- heap_cloneDeep originalDocument ;;
  ret {| originalDocument := copy;
         commit_of := {| cc_originalDocument := originalDocument;
                         cc_rc := rc;
                         cc_filter := filter |} |}.

Definition heap_deleteM (r : hval) (k : string) : M unit :=
  w <- get_world ;;
  h' <- lift (heap_delete (w_heap w) r k) ;;
  set_heap h'.

Definition commit (cc : CommitClosure) (documentUpdate : hval) : M value :=
  (if hval_truthy (cc_originalDocument cc)
   then heap_deleteM (cc_originalDocument cc) "changelogs"
   else ret tt) ;;;
  heap_deleteM documentUpdate "changelogs" ;;;
  serializedChanges <- heap_serialize documentUpdate ;;
  serializedOriginal <- heap_serialize (cc_originalDocument cc) ;;
  w <- get_world ;;
  let changelog :=
    createChangelog (w_now w) (cc_rc cc) serializedOriginal serializedChanges in
  result <- db_findOneAndUpdate (collectionName st) (cc_filter cc)
              serializedChanges (value_of_changelog changelog) ;;
  if negb (truthy result)
  then throw (Error ("Couldn't update" +:+ documentName st
                       +:+ id_suffix (cc_filter cc)))
  else ret (mapDocumentFromDb result).

Record SubdocumentHandle : Type := {
  documentReference : hval;
  subdocumentReference : hval;
  sub_commit : CommitClosure
}.

Definition findOneSubdocumentAndUpdate (rc : IRequestContext) (filterParent : value)
  (subdocumentPath : string) (subdocumentPredicate : value -> bool)
  : M SubdocumentHandle :=
  u <- findOneAndUpdate rc filterParent ;;
  w <- get_world ;;
  array <- lift (heap_get (w_heap w) (originalDocument u) subdocumentPath) ;;
  subdocumentReference <- lift (heap_find (w_heap w) array subdocumentPredicate) ;;
  if negb (hval_truthy subdocumentReference)
  then throw (Error ("Resource doesn't exist on " +:+ documentName st
                       +:+ id_suffix filterParent))
  else ret {| documentReference := originalDocument u;
              subdocumentReference := subdocumentReference;
              sub_commit := commit_of u |}.

End Storage.

(** ** A concrete set of collaborators

    Used to run the model on examples: identifiers are the strings of
    length 24, an [ObjectId] keeps its string under [id], dates print as
    their time value, a schema is the list of its keys with whether each
    is required, money conversion changes nothing, a filter matches a
    document that has each of its fields with an equal value, and [sort]
    keeps the insertion order. *)

Definition demo_validate (document : value) (schema : list (string * bool))
  (stripUnknown : bool) : JoiResult :=
  match document with
  | VObj c kvs =>
      match List.find (fun kb => snd kb && negb (has_prop (fst kb) kvs)) schema with
      | Some (k, _) =>
          {| joi_error := Some ("child " +:+ k +:+ " fails because [" +:+ k
                                  +:+ " is required]");
             joi_value := document |}
      | None =>
          let known := List.filter (fun kv => has_prop (fst kv) schema) kvs in
          if stripUnknown then {| joi_error := None; joi_value := VObj c known |}
          else if Nat.eqb (length known) (length kvs)
          then {| joi_error := None; joi_value := document |}
          else {| joi_error := Some "unknown key is not allowed";
                  joi_value := document |}
      end
  | _ => {| joi_error := Some "value must be an object"; joi_value := document |}
  end.

Definition demo_matches (filter doc : value) : bool :=
  forallb (fun kv => value_eqb (get doc (fst kv)) (snd kv)) (enumerable_props filter).

Definition demo_indexName (key : value) : string :=
  join "_" (map (fun kv =>
                   fst kv +:+ "_" +:+
                   match snd kv with VNum n => string_of_Z n | _ => "x" end)
              (enumerable_props key)).

#[local] Instance demo : Collaborators := {|
  ObjectId_isValid v :=
    match v with VStr s => Nat.eqb (String.length s) 24 | _ => false end;
  ObjectId_new v := [("id", v)];
  ObjectId_toHexString kvs :=
    match lookup_prop "id" kvs with Some (VStr s) => s | _ => "" end;
  toISOString z := string_of_Z z;
  js_String v := match v with VStr s => s | _ => "[object]" end;
  JoiObject := list (string * bool);
  Joi_append_optional schema k := schema ++ [(k, false)];
  Joi_validate := demo_validate;
  convertMoney d := d;
  mongo_matches := demo_matches;
  mongo_sort _ l := l;
  mongo_newId n := VObj ObjectIdCls [("id", VStr ("id" +:+ string_of_nat n))];
  mongo_indexName := demo_indexName
|}.

Definition empty_world : World :=
  {| w_db := ∅; w_heap := []; w_now := 1000; w_ids := 0;
     w_console := []; w_oplog := [] |}.

(** [s.includes(sub)]. *)
Fixpoint includes (s sub : string) : bool :=
  String.prefix sub s ||
  match s with
  | EmptyString => false
  | String _ s' => includes s' sub
  end.

(** The example of the specification (the test "creating a changelog"). *)
Definition example_original : value :=
  obj [("someField", VStr "hey"); ("how", VStr "do"); ("you", VStr "do");
       ("nested", VArr [obj [("oh", VStr "no")]])].

Definition example_updates : value :=
  obj [("someField", VStr "hello"); ("how", VStr "do");
       ("nested", VArr [obj [("oh", VStr "maybe"); ("hi", VStr "howAreYou")];
                        obj [("oh", VStr "yeah")]])].

Definition example_rc : IRequestContext :=
  {| rc_ip := "192.168.0.66"; rc_token := "******X-9a8dF2";
     rc_endpoint := "POST http://localhost:3333/resources/resourceId" |}.

(** A store for the examples: document type [Order] in collection
    [orders], whose schema requires [someField]. *)
Definition example_storage : @Storage demo :=
  {| documentName := "Order";
     collectionName := "orders";
     documentSchema := [("someField", true); ("subResource", false)];
     desiredIndexes := [obj [("key", obj [("someField", VNum (-1))])]] |}.

(** ** Definitions used to state the properties of the heap *)

(** The loops of [alloc] over elements and properties. *)
Fixpoint alloc_elems (l : list value) (h : heap) : list hval * heap :=
  match l with
  | [] => ([], h)
  | x :: l' =>
      let '(r, h1) := alloc x h in
      let '(rs, h2) := alloc_elems l' h1 in
      (r :: rs, h2)
  end.

Fixpoint alloc_props (l : props_t) (h : heap) : list (string * hval) * heap :=
  match l with
  | [] => ([], h)
  | (k, x) :: l' =>
      let '(r, h1) := alloc x h in
      let '(rs, h2) := alloc_props l' h1 in
      ((k, r) :: rs, h2)
  end.

(** The number of cells on the longest way down a tree. *)
Fixpoint depth (v : value) : nat :=
  match v with
  | VPrim _ => 0
  | VArr l =>
      S ((fix go (l : list value) : nat :=
            match l with [] => 0 | x :: l' => Nat.max (depth x) (go l') end) l)
  | VObj _ kvs =>
      S ((fix go (l : props_t) : nat :=
            match l with [] => 0 | kv :: l' => Nat.max (depth (snd kv)) (go l') end) kvs)
  end.

Definition depth_elems (l : list value) : nat :=
  fold_right (fun x n => Nat.max (depth x) n) 0 l.

Definition depth_props (l : props_t) : nat :=
  fold_right (fun kv n => Nat.max (depth (snd kv)) n) 0 l.

(** Two heaps hold the same cells at the locations from [lo] up to [hi]. *)
Definition agree (lo hi : nat) (h1 h2 : heap) : Prop :=
  forall l, lo <= l < hi -> h2 !! l = h1 !! l.

Definition refs_of (c : cell) : list hval :=
  match c with
  | CArr rs => rs
  | CObj _ kvs => map snd kvs
  end.

(** A value that is a primitive or a reference to a location from [lo] up
    to [hi]. *)
Definition within (lo hi : nat) (r : hval) : Prop :=
  match r with
  | HPrim _ => True
  | HRef l => lo <= l < hi
  end.

Section Vocabulary.
Context `{Collaborators}.
Variable st : Storage.

(** The document [findOne] hands to the application for a stored one. *)
Definition fetched (d : value) : value := mapDocumentFromDb (omit d "_id").

(** The stored document a filter selects. *)
Definition first_match (filter : value) (w : World) : option value :=
  List.find (mongo_matches filter) (docs (coll_of (w_db w) (collectionName st))).

(** The identity of the primary-key index. *)
Definition primary_identity : option string :=
  JSON_stringify (obj [("_id", VNum 1)]).

(** The live index set has converged to the desired one: every desired
    key pattern is live, and every live one is desired or the primary
    key's. *)
Definition converged (desired existing : list value) : Prop :=
  (forall i, In i desired ->
     exists e, In e existing /\ ixSpecificationIdentity e = ixSpecificationIdentity i) /\
  (forall e, In e existing ->
     (exists i, In i desired /\ ixSpecificationIdentity i = ixSpecificationIdentity e) \/
     ixSpecificationIdentity e = primary_identity).

Definition index_name (e : value) : value := get e "name".

(** What the server guarantees of the indexes it lists: their names are
    unique, and [_id_] names the index on [_id]. *)
Definition server_indexes (existing : list value) : Prop :=
  NoDup (map index_name existing) /\
  forall e, In e existing -> index_name e = VStr "_id_" ->
            ixSpecificationIdentity e = primary_identity.

(** The index commands a run sends: one [createIndexes] for the new
    specifications when there are any, then one [dropIndex] for each
    removed index. *)
Definition index_calls (new removed : list value) : list IndexCall :=
  match new with
  | [] => []
  | _ => [CreateIndexes (collectionName st) (map in_background new)]
  end ++ map (fun e => DropIndex (collectionName st) (index_name e)) removed.

End Vocabulary.

Section SerializeLoops.
Context `{Collaborators}.

(** The loops of [jsonify] and [revive] over properties and elements. *)
Fixpoint jsonify_props (l : props_t) : props_t :=
  match l with
  | [] => []
  | (k, x) :: l' =>
      match jsonify x with
      | Some x' => (k, x') :: jsonify_props l'
      | None => jsonify_props l'
      end
  end.

Fixpoint jsonify_elems (l : list value) : list value :=
  match l with
  | [] => []
  | x :: l' => default VNull (jsonify x) :: jsonify_elems l'
  end.

Fixpoint revive_props (l : props_t) : props_t :=
  match l with
  | [] => []
  | (k, x) :: l' => (k, revive k x) :: revive_props l'
  end.

Fixpoint revive_elems (l : list value) (i : nat) : list value :=
  match l with
  | [] => []
  | x :: l' => revive (string_of_nat i) x :: revive_elems l' (S i)
  end.

End SerializeLoops.

(** [_.has(v, k)] for a top-level key. *)
Definition has_key (v : value) (k : string) : bool :=
  match v with
  | VObj _ kvs => has_prop k kvs
  | _ => false
  end.

(** The entry [insertOne] attaches: no changes, the request's origin, the
    time of the call. *)
Definition provenance (now : Z) (rc : IRequestContext) : IChangelog :=
  {| cl_ip := rc_ip rc; cl_token := rc_token rc; cl_endpoint := rc_endpoint rc;
     cl_timestamp := now; cl_changes := [] |}.

Section Stored.
Context `{Collaborators}.

(** The document [insertOne] sends to the driver for the input [obj kvs],
    and the document the driver stores for it in the world [w]. *)
Definition outgoing (rc : IRequestContext) (kvs : props_t) (w : World)
  : props_t :=
  set_prop "changelogs" (VArr [value_of_changelog (provenance (w_now w) rc)])
    (revive_props (jsonify_props kvs)).

Definition stored_document (rc : IRequestContext) (kvs : props_t)
  (w : World) : value :=
  let out := outgoing rc kvs w in
  if has_prop "_id" out then obj out
  else obj (set_prop "_id" (mongo_newId (w_ids w)) out).

End Stored.

(** ** What a caller can do with a document it was handed *)

(** [arr[k] = v] for an index [k] up to the length of the array (an
    assignment beyond the length, which leaves holes, is not modelled). *)
Fixpoint set_index {A} (k : string) (v : A) (i : nat) (l : list A) : list A :=
  match l with
  | [] => if String.eqb k (string_of_nat i) then [v] else []
  | x :: l' =>
      if String.eqb k (string_of_nat i) then v :: l' else x :: set_index k v (S i) l'
  end.

(** [r[k] = v] on an object or an array. *)
Definition heap_assign (h : heap) (r : hval) (k : string) (v : hval) : Res heap :=
  match r with
  | HRef l =>
      match h !! l with
      | Some (CArr rs) => Ok (<[l := CArr (set_index k v 0 rs)]> h)
      | _ => heap_set h r k v
      end
  | _ => heap_set h r k v
  end.

(** [root.p1.p2...pn]. *)
Fixpoint navigate (h : heap) (r : hval) (p : list string) : Res hval :=
  match p with
  | [] => Ok r
  | k :: p' =>
      match heap_get h r k with
      | Ok r' => navigate h r' p'
      | Throw e => Throw e
      end
  end.

(** A statement of the caller, [root] being the reference it was given:
    - [MSet p k v]: [root.p[k] = v] for a structure [v] built on the spot;
    - [MCopy p k q]: [root.p[k] = root.q], which shares what [root.q]
      refers to;
    - [MDelete p k]: [delete root.p[k]]. *)
Inductive mutation : Type :=
| MSet (p : list string) (k : string) (v : value)
| MCopy (p : list string) (k : string) (q : list string)
| MDelete (p : list string) (k : string).

(** The heap after one statement; a statement that throws changes
    nothing the caller can reach. *)
Definition apply_mutation (root : hval) (m : mutation) (h : heap) : heap :=
  match m with
  | MSet p k v =>
      match navigate h root p with
      | Ok target =>
          let '(r, h1) := alloc v h in
          match heap_assign h1 target k r with Ok h2 => h2 | Throw _ => h1 end
      | Throw _ => h
      end
  | MCopy p k q =>
      match navigate h root p, navigate h root q with
      | Ok target, Ok source =>
          match heap_assign h target k source with Ok h2 => h2 | Throw _ => h end
      | _, _ => h
      end
  | MDelete p k =>
      match navigate h root p with
      | Ok target =>
          match heap_delete h target k with Ok h2 => h2 | Throw _ => h end
      | Throw _ => h
      end
  end.

Definition run_mutations (root : hval) (ms : list mutation) (h : heap) : heap :=
  fold_left (fun h m => apply_mutation root m h) ms h.

(** The argument the caller passes to [commit]: something reached from
    the document it was given (the document itself for the empty path), or
    a structure built on the spot. *)
Inductive supplied : Type :=
| SPath (q : list string)
| SFresh (v : value).

Definition supply (root : hval) (s : supplied) (h : heap) : Res (hval * heap) :=
  match s with
  | SPath q =>
      match navigate h root q with
      | Ok r => Ok (r, h)
      | Throw e => Throw e
      end
  | SFresh v => Ok (alloc v h)
  end.

(** [delete v[k]] on a tree. *)
Definition delete_top (k : string) (v : value) : value :=
  match v with
  | VObj c kvs => VObj c (delete_prop k kvs)
  | _ => v
  end.

(** The heap after [if (r) delete r['changelogs']]. *)
Definition forget_changelogs (h : heap) (r : hval) : heap :=
  if hval_truthy r
  then match heap_delete h r "changelogs" with Ok h' => h' | Throw _ => h end
  else h.

Section CommitOnTrees.
Context `{Collaborators}.
Variable st : Storage.

(** [commit] after its two [delete]s, on trees: [before] is the captured
    document and [update] the supplied one, both without [changelogs];
    [None] stands for a supplied graph that is cyclic. *)
Definition commit_on_trees (rc : IRequestContext) (filter before : value)
  (update : option value) : M value :=
  match update with
  | None => throw (TypeError "Converting circular structure to JSON")
  | Some u =>
      serializedChanges <- lift (serialize u) ;;
      serializedOriginal <- lift (serialize before) ;;
      w <- get_world ;;
      result <- db_findOneAndUpdate (collectionName st) filter serializedChanges
                  (value_of_changelog
                     (createChangelog (w_now w) rc serializedOriginal serializedChanges)) ;;
      if negb (truthy result)
      then throw (Error ("Couldn't update" +:+ documentName st +:+ id_suffix filter))
      else ret (mapDocumentFromDb result)
  end.

End CommitOnTrees.

(** ** Definitions used to state the properties of the differ *)

Section DiffLoops.
Variable p : path.

(** The loops of [deepDiff] over array elements and object
    properties. *)
Fixpoint diff_news (ra : list value) (i : nat) : list change :=
  match ra with
  | [] => []
  | r :: ra' => diff_news ra' (S i) ++ [DiffArray p i (DiffNew [] r)]
  end.

Fixpoint diff_elems (la ra : list value) (i : nat) : list change :=
  match la, ra with
  | [], [] => []
  | [], r :: ra' => diff_news (r :: ra') i
  | l :: la', [] => diff_elems la' [] (S i) ++ [DiffArray p i (DiffDeleted [] l)]
  | l :: la', r :: ra' => diff_elems la' ra' (S i) ++ deepDiff l r (p ++ [PIdx i])
  end.

Variable rk : props_t.

Fixpoint diff_props (lk : props_t) (pkeys : list (option string)) : list change :=
  match lk with
  | [] => new_keys p rk pkeys
  | (k, lv) :: lk' =>
      match take_key k pkeys with
      | Some pkeys' =>
          deepDiff lv (default VUndef (lookup_prop k rk)) (p ++ [PKey k])
            ++ diff_props lk' pkeys'
      | None => DiffDeleted (p ++ [PKey k]) lv :: diff_props lk' pkeys
      end
  end.

End DiffLoops.

(** No invalid date anywhere in a tree. *)
Fixpoint dates_valid (v : value) : Prop :=
  match v with
  | VDate None => False
  | VPrim _ => True
  | VArr l => (fix all (l : list value) : Prop :=
                 match l with [] => True | x :: l' => dates_valid x /\ all l' end) l
  | VObj _ kvs =>
      (fix all (l : props_t) : Prop :=
         match l with [] => True | kv :: l' => dates_valid (snd kv) /\ all l' end) kvs
  end.

(** A tree as JavaScript builds them: no object repeats a key, and no
    date is invalid. *)
Definition regular (v : value) : Prop := wf_value v /\ dates_valid v.

(** The primitives JSON has: [null], booleans, numbers and strings. *)
Definition json_prim (p : prim) : bool :=
  match p with
  | PNull | PBool _ | PNum _ | PStr _ => true
  | PUndef | PDate _ => false
  end.

(** A key on which the reviver of [serialize] looks for an identifier. *)
Definition id_key (k : string) : bool := endsWith k "Id" || String.eqb k "_id".

(** A number sits, at some depth of [v], under a key on which the
    reviver looks for an identifier.  [ObjectId.isValid] accepts every
    number and [new ObjectId(number)] draws on the counter of the
    process, so that two passes of [serialize] over such a document
    build different identifiers. *)
Fixpoint numeric_id (v : value) : bool :=
  match v with
  | VPrim _ => false
  | VArr l => (fix any (l : list value) : bool :=
                 match l with [] => false | x :: l' => numeric_id x || any l' end) l
  | VObj _ kvs =>
      (fix any (l : props_t) : bool :=
         match l with
         | [] => false
         | (k, x) :: l' =>
             (id_key k && match x with VNum _ => true | _ => false end)
             || numeric_id x || any l'
         end) kvs
  end.

(** The first element a predicate accepts, with its index. *)
Fixpoint find_elem (pred : value -> bool) (l : list value) (i : nat)
  : option (nat * value) :=
  match l with
  | [] => None
  | x :: l' => if pred x then Some (i, x) else find_elem pred l' (S i)
  end.

(** An [Edited] record as [changes] stores it. *)
Definition edited (p : list value) (lhs rhs : value) : value :=
  obj [("kind", VStr "E"); ("path", VArr p); ("lhs", lhs); ("rhs", rhs)].

Section Revived.
Context `{Collaborators}.

(** The reviver of [serialize] replaces [v] under the key [k] by an
    [ObjectId]. *)
Definition revived (k : string) (v : value) : bool :=
  id_key k && ObjectId_isValid v.

End Revived.

(** ** Definitions used to state the isolation of the fetched document *)

(** The tree [x] is read back from the graph [alloc] builds for it, in
    every heap that keeps the cells of that graph, with fuel for its
    depth. *)
Definition reads_back (x : value) : Prop :=
  forall h r h1 h2 fuel,
    alloc x h = (r, h1) ->
    agree (length h) (length h1) h1 h2 ->
    depth x < fuel ->
    read fuel h2 r = Some x.

(** Every reference held in a cell from [lo] on points at [lo] or above,
    inside the heap. *)
Definition closed_above (lo : nat) (h : heap) : Prop :=
  forall l c, lo <= l -> h !! l = Some c -> Forall (within lo (length h)) (refs_of c).

(** The heap [h] has grown from [h0] without touching the cells below
    [n1] and without letting a cell from [n1] on refer below [n1]. *)
Definition separated (n1 : nat) (h0 h : heap) : Prop :=
  length h0 <= length h /\ agree 0 n1 h0 h /\ closed_above n1 h.

(** ** A stored document for the examples *)

Definition example_subdocuments : list value :=
  [obj [("id", VStr "5eccd9fdb9f8a700231b8a40"); ("hello", VStr "it's me")];
   obj [("id", VStr "5eccd9fdb9f8a700231b8a41"); ("hello", VStr "how are you")]].

Definition example_document : props_t :=
  [("someField", VStr "yomama"); ("subResource", VArr example_subdocuments)].

Definition example_world : World :=
  snd (insertOne example_storage example_rc (obj example_document) empty_world).

Definition example_filter : value := obj [("someField", VStr "yomama")].

Definition example_predicate (subdocument : value) : bool :=
  value_eqb (get subdocument "id") (VStr "5eccd9fdb9f8a700231b8a41").

Definition example_provenance : value :=
  value_of_changelog (provenance 1000 example_rc).

Definition example_stored : props_t :=
  example_document ++
  [("changelogs", VArr [example_provenance]);
   ("_id", VObj ObjectIdCls [("id", VStr "id0")])].

(** A stored document whose subdocuments hold an identifier under
    [fooId]. *)
Definition example_keyed_subdocuments : list value :=
  [obj [("fooId", VStr "5eccd9fdb9f8a700231b8a40"); ("hello", VStr "it's me")];
   obj [("fooId", VStr "5eccd9fdb9f8a700231b8a41"); ("hello", VStr "how are you")]].

Definition example_keyed_document : props_t :=
  [("someField", VStr "yomama"); ("subResource", VArr example_keyed_subdocuments)].

Definition example_keyed_world : World :=
  snd (insertOne example_storage example_rc (obj example_keyed_document) empty_world).

Definition example_keyed_predicate (subdocument : value) : bool :=
  value_eqb (get subdocument "hello") (VStr "how are you").

(** The same subdocuments as the database holds them, their identifiers
    revived. *)
Definition example_keyed_revived : list value :=
  [obj [("fooId", VObj ObjectIdCls [("id", VStr "5eccd9fdb9f8a700231b8a40")]);
        ("hello", VStr "it's me")];
   obj [("fooId", VObj ObjectIdCls [("id", VStr "5eccd9fdb9f8a700231b8a41")]);
        ("hello", VStr "how are you")]].

Definition example_keyed_fetched : props_t :=
  [("someField", VStr "yomama"); ("subResource", VArr example_keyed_revived);
   ("changelogs", VArr [example_provenance])].

Definition example_keyed_stored : props_t :=
  example_keyed_fetched ++ [("_id", VObj ObjectIdCls [("id", VStr "id0")])].


(** The world after [ensureCollection]: the collection exists, with the
    index on [_id] only. *)
Definition example_created : World :=
  snd (ensureCollection example_storage empty_world).

(** [v == null]: [v] is [null] or [undefined]. *)
Definition nullish (v : value) : bool :=
  match v with
  | VUndef | VNull => true
  | _ => false
  end.

(** ** Applying changes

    The store records changes and never applies them; a reader of the
    changelog does.  The interpretation is the one the specification
    gives, which is also that of [applyChange] in deep-diff: [New]
    inserts, [Deleted] removes, [Edited] replaces, and an array change
    inserts or removes at its index. *)

(** The paths of the differ lead through objects by property name and
    through arrays by index. *)
Definition child (k : pkey) (v : value) : option value :=
  match k, v with
  | PKey s, VObj _ kvs => lookup_prop s kvs
  | PIdx i, VArr l => l !! i
  | _, _ => None
  end.

(** [arr[i] = x]: beyond the end the array grows, the elements skipped
    reading as [undefined]. *)
Definition set_elem (i : nat) (x : value) (l : list value) : list value :=
  if Nat.ltb i (length l) then <[i := x]> l
  else l ++ repeat VUndef (i - length l) ++ [x].

(** [it[k] = x]. *)
Definition put (k : pkey) (x : value) (v : value) : value :=
  match k, v with
  | PKey s, VObj c kvs => VObj c (set_prop s x kvs)
  | PIdx i, VArr l => VArr (set_elem i x l)
  | _, _ => v
  end.

(** [delete it[k]]. *)
Definition drop (k : pkey) (v : value) : value :=
  match k, v with
  | PKey s, VObj c kvs => VObj c (delete_prop s kvs)
  | _, _ => v
  end.

(** What a path leads to. *)
Fixpoint at_path (q : path) (v : value) : option value :=
  match q with
  | [] => Some v
  | k :: q' =>
      match child k v with
      | Some x => at_path q' x
      | None => None
      end
  end.

(** The value with what the path leads to replaced by its image under
    [f]; unchanged when the path leads nowhere. *)
Fixpoint within_path (q : path) (f : value -> value) (v : value) : value :=
  match q with
  | [] => f v
  | k :: q' =>
      match child k v with
      | Some x => put k (within_path q' f x) v
      | None => v
      end
  end.

(** A path as its last step and the steps before it. *)
Definition split_last (p : path) : option (path * pkey) :=
  match rev p with
  | [] => None
  | k :: rq => Some (rev rq, k)
  end.

(** An array change: its item, a [New] or a [Deleted] without path, is
    an assignment or a removal at the index. *)
Definition applyArrayChange (i : nat) (item : change) (v : value) : value :=
  match v with
  | VArr l =>
      match item with
      | DiffNew _ r | DiffEdit _ _ r => VArr (set_elem i r l)
      | DiffDeleted _ _ => VArr (delete i l)
      | DiffArray _ _ _ => v
      end
  | _ => v
  end.

(** Applying one change: [New] inserts at the last step of its path,
    [Deleted] removes there, [Edited] replaces what its path leads to, and
    an array change acts on the array its path leads to. *)
Definition applyChange (c : change) (v : value) : value :=
  match c with
  | DiffNew p r =>
      match split_last p with
      | Some (q, k) => within_path q (put k r) v
      | None => r
      end
  | DiffDeleted p _ =>
      match split_last p with
      | Some (q, k) => within_path q (drop k) v
      | None => v
      end
  | DiffEdit p _ r => within_path p (fun _ => r) v
  | DiffArray p i item => within_path p (applyArrayChange i item) v
  end.

Definition applyChanges (cs : list change) (v : value) : value :=
  fold_left (fun v c => applyChange c v) cs v.

(** Two values are the same in JSON: the same scalars, arrays with the
    same elements in the same order, objects with the same properties in
    any order. *)
Fixpoint same (a b : value) {struct a} : Prop :=
  match a, b with
  | VPrim p, VPrim q => p = q
  | VArr la, VArr lb =>
      (fix all (la lb : list value) {struct la} : Prop :=
         match la, lb with
         | [], [] => True
         | x :: la', y :: lb' => same x y /\ all la' lb'
         | _, _ => False
         end) la lb
  | VObj c ka, VObj d kb =>
      c = d /\
      (fix all (ka : props_t) : Prop :=
         match ka with
         | [] => True
         | kx :: ka' =>
             match lookup_prop (fst kx) kb with
             | Some y => same (snd kx) y
             | None => False
             end /\ all ka'
         end) ka /\
      forall k, has_prop k kb = true -> has_prop k ka = true
  | _, _ => False
  end.

(** A JSON value as [deep-diff] handles it faithfully: scalars of JSON,
    plain objects that repeat no property name and have none named by the
    empty string. *)
Fixpoint plain_json (v : value) : Prop :=
  match v with
  | VPrim p => json_prim p = true
  | VArr l =>
      (fix all (l : list value) : Prop :=
         match l with [] => True | x :: l' => plain_json x /\ all l' end) l
  | VObj c kvs =>
      c = Plain /\ NoDup (keys kvs) /\ ~ In EmptyString (keys kvs) /\
      (fix all (l : props_t) : Prop :=
         match l with [] => True | kv :: l' => plain_json (snd kv) /\ all l' end) kvs
  end.

(** A change is said to act at [q], taking [o] to [o'], when applying it
    to any value in which [q] leads to [o] replaces that [o] by [o'] and
    nothing else. *)
Definition acts (q : path) (cs : list change) (o o' : value) : Prop :=
  forall root, at_path q root = Some o ->
               applyChanges cs root = within_path q (fun _ => o') root.

(** The keys among [ks] that [pkeys] still holds after those of [seen]
    were blanked. *)
Definition mask (seen : list string) (ks : list string) : list (option string) :=
  map (fun k => if existsb (String.eqb k) seen then None else Some k) ks.

(** ** Reading the stored changes back *)

Definition pkey_of_json (v : value) : option pkey :=
  match v with
  | VStr s => Some (PKey s)
  | VNum n => if (0 <=? n)%Z then Some (PIdx (Z.to_nat n)) else None
  | _ => None
  end.

(** The [path] of a record; a record without one has the empty path. *)
Definition path_of_record (kvs : props_t) : option path :=
  match lookup_prop "path" kvs with
  | None => Some []
  | Some (VArr l) => mapM pkey_of_json l
  | Some _ => None
  end.

(** A record of kind N, D or E. *)
Definition leaf_of_record (kvs : props_t) : option change :=
  match path_of_record kvs, lookup_prop "kind" kvs with
  | Some p, Some (VStr kind) =>
      if String.eqb kind "N" then DiffNew p <$> lookup_prop "rhs" kvs
      else if String.eqb kind "D" then DiffDeleted p <$> lookup_prop "lhs" kvs
      else if String.eqb kind "E" then
        match lookup_prop "lhs" kvs, lookup_prop "rhs" kvs with
        | Some l, Some r => Some (DiffEdit p l r)
        | _, _ => None
        end
      else None
  | _, _ => None
  end.

(** A record of [changes] as a change; the item of a record of kind A is
    a record of kind N or D. *)
Definition change_of_json (v : value) : option change :=
  match v with
  | VObj _ kvs =>
      match lookup_prop "kind" kvs with
      | Some (VStr kind) =>
          if String.eqb kind "A" then
            match path_of_record kvs, lookup_prop "index" kvs, lookup_prop "item" kvs with
            | Some p, Some (VNum n), Some (VObj _ item) =>
                if (0 <=? n)%Z then DiffArray p (Z.to_nat n) <$> leaf_of_record item
                else None
            | _, _, _ => None
            end
          else leaf_of_record kvs
      | _ => None
      end
  | _ => None
  end.

(** The changes whose values JSON carries as they are, an array change
    holding a [New] or a [Deleted] without path. *)
Definition encodable (c : change) : Prop :=
  match c with
  | DiffNew _ r => plain_json r
  | DiffDeleted _ l => plain_json l
  | DiffEdit _ l r => plain_json l /\ plain_json r
  | DiffArray _ _ (DiffNew [] r) => plain_json r
  | DiffArray _ _ (DiffDeleted [] l) => plain_json l
  | DiffArray _ _ _ => False
  end.

(** An array of [lhs] with the elements [ra] that only [rhs] has
    assigned from the last down to index [i]: before the first of them
    is assigned, the elements skipped read as [undefined]. *)
Definition grown (pre : list value) (i : nat) (ra : list value) : list value :=
  match ra with
  | [] => pre
  | _ => pre ++ repeat VUndef (i - length pre) ++ ra
  end.

(** What the main induction says of one value: its differences with any
    other, applied to it, give the other. *)
Definition round_trips (l : value) : Prop :=
  forall r q, plain_json l -> plain_json r ->
              exists x', acts q (deepDiff l r q) l x' /\ same x' r.

(** ** Definitions used to state the properties of [serialize] *)

(** A tree that [JSON.parse] builds: [null], booleans, numbers, strings,
    arrays and plain objects. *)
Fixpoint json_tree (v : value) : Prop :=
  match v with
  | VPrim p => json_prim p = true
  | VArr l => (fix all (l : list value) : Prop :=
                 match l with [] => True | x :: l' => json_tree x /\ all l' end) l
  | VObj Plain kvs =>
      (fix all (l : props_t) : Prop :=
         match l with [] => True | kv :: l' => json_tree (snd kv) /\ all l' end) kvs
  | VObj ObjectIdCls _ => False
  end.

(** ** Definitions used to state the properties of [findMany] *)

(** What the callback of [findMany] makes of a value that is no date:
    nothing when it is falsy, a membership test for an array. *)
Definition translated (v : value) : option value :=
  match v with
  | VArr l => Some (obj [("$in", VArr l)])
  | _ => if truthy v then Some v else None
  end.

Fixpoint translate_props (kvs : props_t) : props_t :=
  match kvs with
  | [] => []
  | (k, v) :: rest =>
      match translated v with
      | Some v' => (k, v') :: translate_props rest
      | None => translate_props rest
      end
  end.

(** ** Definitions used to state where the changes of a changelog lie *)

Definition change_path (c : change) : path :=
  match c with
  | DiffNew p _ | DiffDeleted p _ | DiffEdit p _ _ | DiffArray p _ _ => p
  end.

(** The change lies at [q] or below it, and strictly below when it
    reports a property as new or as deleted. *)
Definition below (q : path) (c : change) : Prop :=
  exists rest,
    change_path c = q ++ rest /\
    match c with
    | DiffNew _ _ | DiffDeleted _ _ => rest <> []
    | _ => True
    end.

(** ** The connection: [db], [connectDb], [disconnectDb]

    The module of the connector keeps one variable, [GLOBAL_CONNECTION].
    An [async] function runs up to its next [await] without
    interruption, so [connectDb] is modelled in two steps: up to
    [await client.connect()], and from there on once the driver has
    settled the connection.  The timer by which a pending [db()] polls
    is an event, [timer_fires].  What the driver does with a client
    (whether [connect] succeeds, what it emits on [close]) is the
    driver's: the outcome of [connect] is an input of the second step,
    and the listener on [close] is recorded, never run. *)
Module Connector.

(** A [MongoClient] the module constructed. *)
Record Client : Type := {
  uri : string;
  connected : bool;
  closed : bool;
  listening : bool
}.

(** Clients are named by the order of their construction; [waiting]
    holds the requests whose timer is running, and [answered] the
    requests resolved so far, each with the client whose database it was
    given. *)
Record State : Type := {
  clients : list Client;
  GLOBAL_CONNECTION : option nat;
  MONGODB_URI : option string;
  console : list string;
  requests : nat;
  waiting : list nat;
  answered : list (nat * nat)
}.

Definition log (msg : string) (s : State) : State :=
  {| clients := clients s; GLOBAL_CONNECTION := GLOBAL_CONNECTION s;
     MONGODB_URI := MONGODB_URI s; console := console s ++ [msg];
     requests := requests s; waiting := waiting s; answered := answered s |}.

Definition with_clients (s : State) (cs : list Client) : State :=
  {| clients := cs; GLOBAL_CONNECTION := GLOBAL_CONNECTION s;
     MONGODB_URI := MONGODB_URI s; console := console s;
     requests := requests s; waiting := waiting s; answered := answered s |}.

Definition with_connection (s : State) (c : nat) : State :=
  {| clients := clients s; GLOBAL_CONNECTION := Some c;
     MONGODB_URI := MONGODB_URI s; console := console s;
     requests := requests s; waiting := waiting s; answered := answered s |}.

(** What [db()] returns: a promise already resolved with the database of
    a client, or a pending one, named by its request. *)
Inductive DbPromise : Type :=
| Resolved (client : nat)
| Pending (request : nat).

Definition db (s : State) : DbPromise * State :=
  match GLOBAL_CONNECTION s with
  | None =>
      let s1 := log "Requesting database access, not connected yet" s in
      (Pending (requests s),
       {| clients := clients s1; GLOBAL_CONNECTION := GLOBAL_CONNECTION s1;
          MONGODB_URI := MONGODB_URI s1; console := console s1;
          requests := S (requests s1); waiting := waiting s1 ++ [requests s1];
          answered := answered s1 |})
  | Some c => (Resolved c, s)
  end.

(** The callback of [setInterval] for one pending request. *)
Definition timer_fires (request : nat) (s : State) : State :=
  if existsb (Nat.eqb request) (waiting s) then
    match GLOBAL_CONNECTION s with
    | Some c =>
        {| clients := clients s; GLOBAL_CONNECTION := GLOBAL_CONNECTION s;
           MONGODB_URI := MONGODB_URI s; console := console s;
           requests := requests s;
           waiting := List.filter (fun r => negb (Nat.eqb request r)) (waiting s);
           answered := answered s ++ [(request, c)] |}
    | None => s
    end
  else s.

(** [a || b] on strings that may be [undefined]. *)
Definition or_else (a : option string) (b : string) : string :=
  match a with
  | Some (String c rest) => String c rest
  | _ => b
  end.

(** [connectDb] up to [await client.connect()]: the client it
    constructed. *)
Definition connectDb_begin (uri : option string) (s : State) : Res nat * State :=
  match GLOBAL_CONNECTION s with
  | Some _ => (Throw (Error "There's already an existing database connection"), s)
  | None =>
      let client := {| uri := or_else uri (or_else (MONGODB_URI s) EmptyString);
                       connected := false; closed := false; listening := false |} in
      (Ok (length (clients s)),
       log "Connecting database..." (with_clients s (clients s ++ [client])))
  end.

Definition update_client (c : nat) (f : Client -> Client) (s : State) : State :=
  with_clients s
    (match clients s !! c with
     | Some cl => <[c := f cl]> (clients s)
     | None => clients s
     end).

(** [connectDb] from the point where [client.connect()] has settled,
    with [outcome]. *)
Definition connectDb_resume (client : nat) (outcome : Res unit) (s : State)
  : Res unit * State :=
  match outcome with
  | Throw e => (Throw e, s)
  | Ok _ =>
      let s1 := update_client client
                  (fun cl => {| uri := uri cl; connected := true;
                                closed := closed cl; listening := listening cl |}) s in
      let s2 := with_connection (log "Database connected" s1) client in
      match db s2 with
      | (Resolved c, s3) =>
          (Ok tt,
           update_client c
             (fun cl => {| uri := uri cl; connected := connected cl;
                           closed := closed cl; listening := true |}) s3)
      | (Pending _, s3) => (Ok tt, s3)
      end
  end.

(** A call of [connectDb] that no other call overlaps. *)
Definition connectDb (uri : option string) (outcome : Res unit) (s : State)
  : Res unit * State :=
  match connectDb_begin uri s with
  | (Ok client, s1) => connectDb_resume client outcome s1
  | (Throw e, s1) => (Throw e, s1)
  end.

Definition disconnectDb (s : State) : State :=
  match GLOBAL_CONNECTION s with
  | None => s
  | Some c =>
      update_client c
        (fun cl => {| uri := uri cl; connected := connected cl;
                      closed := true; listening := listening cl |})
        (log "Disconnecting database..." s)
  end.

Definition initial (env : option string) : State :=
  {| clients := []; GLOBAL_CONNECTION := None; MONGODB_URI := env;
     console := []; requests := 0; waiting := []; answered := [] |}.

End Connector.

(** ** [findManySubdocuments] and [findOneSubdocument]

    The pipeline [$match], [$unwind], [$match], [$project] of the
    driver's [aggregate], for a [subdocumentPath] that names a top-level
    field (a path with dots reaches into nested documents on the server
    and is outside this model).  Matching, also of the dotted keys of
    the second [$match], is the server's, [mongo_matches]. *)
Section Subdocuments.
Context `{Collaborators}.
Variable st : Storage.

(** [$unwind]: one document per element of the array, the field
    replaced by the element; none when the field is missing, [null] or
    an empty array; the document itself when the field holds anything
    else. *)
Definition mongo_unwind (path : string) (d : value) : list value :=
  match d with
  | VObj c kvs =>
      match lookup_prop path kvs with
      | None | Some VUndef | Some VNull => []
      | Some (VArr l) => map (fun x => VObj c (set_prop path x kvs)) l
      | Some _ => [d]
      end
  | _ => []
  end.

(** [$project: {[path]: 1}]: the field and [_id]. *)
Definition mongo_project (path : string) (d : value) : value :=
  match d with
  | VObj c kvs =>
      VObj c (List.filter
                (fun kv => String.eqb (fst kv) "_id" || String.eqb (fst kv) path) kvs)
  | _ => d
  end.

Definition db_aggregate (name : string) (filterParent : value) (path : string)
  (subdocumentMatch : value) : M (list value) :=
  w <- get_world ;;
  match filterParent with
  | VObj _ _ =>
      ret (map (mongo_project path)
             (List.filter (mongo_matches subdocumentMatch)
                (flat_map (mongo_unwind path)
                   (List.filter (mongo_matches filterParent)
                      (docs (coll_of (w_db w) name))))))
  | _ => throw (MongoError "the match filter must be an expression in an object")
  end.

(** [_.mapKeys(object, iteratee)]. *)
Definition mapKeys (object : value) (iteratee : string -> string) : props_t :=
  fold_left (fun result kv => set_prop (iteratee (fst kv)) (snd kv) result)
    (enumerable_props object) [].

Definition findManySubdocuments (subdocumentPath : string)
  (filterParent filterSubdocuments : value) : M (list value) :=
  let filterParent := or_empty filterParent in
  let filterSubdocuments := or_empty filterSubdocuments in
  let subdocumentMatch :=
    obj (mapKeys filterSubdocuments (fun k => subdocumentPath +:+ "." +:+ k)) in
  found <- db_aggregate (collectionName st) filterParent subdocumentPath
             subdocumentMatch ;;
  ret (map (fun doc => get doc subdocumentPath) (map mapDocumentFromDb found)).

Definition findOneSubdocument (subdocumentPath : string)
  (filterParent filterSubdocuments : value) : M value :=
  let filterParent := or_empty filterParent in
  subdocs <- findManySubdocuments subdocumentPath filterParent filterSubdocuments ;;
  let subdoc := hd VUndef subdocs in
  if negb (truthy subdoc)
  then throw (Error ("Resource"
                       +:+ (if truthy (get filterSubdocuments "id")
                            then " #" +:+ js_String (get filterSubdocuments "id")
                            else EmptyString)
                       +:+ " doesn't exist on " +:+ documentName st
                       +:+ id_suffix filterParent))
  else ret subdoc.

End Subdocuments.

(** ** [validate] in the module's other copy ([src/unnamed/part_005])

    The copy passes [allowUnknown: false], Joi's default, beside
    [stripUnknown: true], and words its message with the document
    type. *)
Module Part005.
Section Validate.
Context `{Collaborators}.
Variable st : Storage.

Definition validate (document : value) : Res value :=
  let r := Joi_validate document
             (Joi_append_optional (documentSchema st) "changelogs") true in
  match joi_error r with
  | Some message =>
      Throw (Error ("Error validating '" +:+ documentName st +:+ "': " +:+ message))
  | None => Ok (joi_value r)
  end.

End Validate.
End Part005.

(** * Properties *)

(** Evaluation of the world monad's plumbing. *)
Ltac run :=
  cbv [bind ret throw lift get_world set_db set_heap console fresh_id log_call];
  cbn [fst snd w_db w_heap w_now w_ids w_console w_oplog with_db with_heap].

(** ** Equality tests, the heap *)

Lemma prim_eqb_eq a b : prim_eqb a b = true <-> a = b.
Proof.
  destruct a as [| | x | x | x | [x|]], b as [| | y | y | y | [y|]]; simpl;
    split; intros E; try discriminate; try reflexivity.
  - apply Bool.eqb_prop in E. congruence.
  - injection E as ->. apply Bool.eqb_reflx.
  - apply Z.eqb_eq in E. congruence.
  - injection E as ->. apply Z.eqb_refl.
  - apply String.eqb_eq in E. congruence.
  - injection E as ->. apply String.eqb_refl.
  - apply Z.eqb_eq in E. congruence.
  - injection E as ->. apply Z.eqb_refl.
Qed.

Lemma value_eqb_eq a : forall b, value_eqb a b = true <-> a = b.
Proof.
  induction a as [p | l IH | c kvs IH] using value_induction; intros [q | l' | d kvs'];
    simpl; try (split; intros; discriminate).
  - rewrite prim_eqb_eq. split; congruence.
  - revert l'. induction IH as [| x l Hx _ IHl]; intros [| y l']; simpl;
      try (split; intros; congruence).
    rewrite andb_true_iff, Hx, IHl. split.
    + intros [-> E]. now injection E as ->.
    + intros E. injection E as -> ->. auto.
  - transitivity (c = d /\ kvs = kvs'); [|split; [intros [-> ->]; reflexivity | intros E; injection E; auto]].
    rewrite andb_true_iff.
    assert (cls_eqb c d = true <-> c = d) as ->.
    { destruct c, d; simpl; split; congruence. }
    apply and_iff_compat_l.
    revert kvs'. induction IH as [| [k x] l Hx _ IHl]; intros [| [k' y] l']; simpl;
      try (split; intros; congruence).
    rewrite !andb_true_iff, String.eqb_eq. simpl in Hx. rewrite Hx, IHl. split.
    + intros [[-> ->] ->]. reflexivity.
    + intros E. injection E as -> -> ->. auto.
Qed.

Lemma value_eqb_refl a : value_eqb a a = true.
Proof. now apply value_eqb_eq. Qed.

Lemma value_eqb_neq a b : a <> b -> value_eqb a b = false.
Proof.
  intros Hne. destruct (value_eqb a b) eqn:E; [|reflexivity].
  now apply value_eqb_eq in E.
Qed.


(** ** Building and reading graphs *)

Lemma alloc_arr l h :
  alloc (VArr l) h =
  let '(rs, h') := alloc_elems l h in (HRef (length h'), h' ++ [CArr rs]).
Proof. reflexivity. Qed.

Lemma alloc_obj c kvs h :
  alloc (VObj c kvs) h =
  let '(rs, h') := alloc_props kvs h in (HRef (length h'), h' ++ [CObj c rs]).
Proof. reflexivity. Qed.

Lemma depth_arr l : depth (VArr l) = S (depth_elems l).
Proof. reflexivity. Qed.

Lemma depth_obj c kvs : depth (VObj c kvs) = S (depth_props kvs).
Proof. reflexivity. Qed.

(** [alloc] only appends cells. *)
Lemma alloc_app v : forall h r h1, alloc v h = (r, h1) -> exists cs, h1 = h ++ cs.
Proof.
  induction v as [p | l IH | c kvs IH] using value_induction; intros h r h1 Ha.
  - inversion Ha; subst. exists []. now rewrite app_nil_r.
  - rewrite alloc_arr in Ha.
    destruct (alloc_elems l h) as [rs h'] eqn:He. inversion Ha; subst; clear Ha.
    assert (exists cs, h' = h ++ cs) as [cs ->].
    { clear -IH He. revert h rs h' He.
      induction IH as [| x l Hx _ IHl]; intros h rs h' He; simpl in He.
      - inversion He; subst. exists []. now rewrite app_nil_r.
      - destruct (alloc x h) as [r ha] eqn:Hx'.
        destruct (alloc_elems l ha) as [rs' hb] eqn:Hl.
        inversion He; subst; clear He.
        destruct (Hx _ _ _ Hx') as [c1 ->].
        destruct (IHl _ _ _ Hl) as [c2 ->].
        exists (c1 ++ c2). now rewrite app_assoc. }
    exists (cs ++ [CArr rs]). now rewrite app_assoc.
  - rewrite alloc_obj in Ha.
    destruct (alloc_props kvs h) as [rs h'] eqn:He. inversion Ha; subst; clear Ha.
    assert (exists cs, h' = h ++ cs) as [cs ->].
    { clear -IH He. revert h rs h' He.
      induction IH as [| [k x] l Hx _ IHl]; intros h rs h' He; simpl in He.
      - inversion He; subst. exists []. now rewrite app_nil_r.
      - destruct (alloc x h) as [r ha] eqn:Hx'.
        destruct (alloc_props l ha) as [rs' hb] eqn:Hl.
        inversion He; subst; clear He.
        destruct (Hx _ _ _ Hx') as [c1 ->].
        destruct (IHl _ _ _ Hl) as [c2 ->].
        exists (c1 ++ c2). now rewrite app_assoc. }
    exists (cs ++ [CObj c rs]). now rewrite app_assoc.
Qed.

Lemma alloc_elems_app l : forall h rs h1, alloc_elems l h = (rs, h1) -> exists cs, h1 = h ++ cs.
Proof.
  induction l as [| x l IHl]; intros h rs h1 He; simpl in He.
  - inversion He; subst. exists []. now rewrite app_nil_r.
  - destruct (alloc x h) as [r ha] eqn:Hx.
    destruct (alloc_elems l ha) as [rs' hb] eqn:Hl.
    inversion He; subst; clear He.
    destruct (alloc_app _ _ _ _ Hx) as [c1 ->].
    destruct (IHl _ _ _ Hl) as [c2 ->].
    exists (c1 ++ c2). now rewrite app_assoc.
Qed.

Lemma alloc_props_app l : forall h rs h1, alloc_props l h = (rs, h1) -> exists cs, h1 = h ++ cs.
Proof.
  induction l as [| [k x] l IHl]; intros h rs h1 He; simpl in He.
  - inversion He; subst. exists []. now rewrite app_nil_r.
  - destruct (alloc x h) as [r ha] eqn:Hx.
    destruct (alloc_props l ha) as [rs' hb] eqn:Hl.
    inversion He; subst; clear He.
    destruct (alloc_app _ _ _ _ Hx) as [c1 ->].
    destruct (IHl _ _ _ Hl) as [c2 ->].
    exists (c1 ++ c2). now rewrite app_assoc.
Qed.

Lemma agree_sub lo hi lo' hi' h1 h2 :
  agree lo hi h1 h2 -> lo <= lo' -> hi' <= hi -> agree lo' hi' h1 h2.
Proof. intros Ha ? ? l Hl. apply Ha. lia. Qed.

Lemma agree_app_l lo hi h cs h2 :
  agree lo hi (h ++ cs) h2 -> hi <= length h -> agree lo hi h h2.
Proof.
  intros Ha Hhi l Hl. rewrite (Ha l Hl). apply lookup_app_l. lia.
Qed.

Lemma agree_trans_app lo (h cs : heap) h2 :
  agree lo (length h) (h ++ cs) h2 -> agree lo (length h) h h2.
Proof. intros Ha l Hl. rewrite (Ha l Hl). apply lookup_app_l. lia. Qed.

Lemma alloc_elems_read l :
  Forall reads_back l ->
  forall h rs h1 h2 fuel,
    alloc_elems l h = (rs, h1) ->
    agree (length h) (length h1) h1 h2 ->
    depth_elems l < fuel ->
    mapM (read fuel h2) rs = Some l.
Proof.
  induction 1 as [| x l Hx _ IHl]; intros h rs h1 h2 fuel He Hag Hd; simpl in He.
  - injection He as <- <-. reflexivity.
  - destruct (alloc x h) as [r ha] eqn:Hx'.
    destruct (alloc_elems l ha) as [rs' hb] eqn:Hl.
    injection He as <- <-.
    destruct (alloc_app _ _ _ _ Hx') as [c1 ->].
    destruct (alloc_elems_app _ _ _ _ Hl) as [c2 ->].
    unfold depth_elems in *. simpl in Hd. rewrite !length_app in Hag.
    simpl. rewrite (Hx _ _ _ h2 fuel Hx').
    + simpl. rewrite (IHl _ _ _ h2 fuel Hl); [reflexivity| |lia].
      intros j Hj. rewrite !length_app in Hj. apply Hag. lia.
    + intros j Hj. rewrite length_app in Hj. rewrite (Hag j) by lia.
      apply lookup_app_l. rewrite length_app. lia.
    + lia.
Qed.

Lemma alloc_props_read l :
  Forall (fun kv => reads_back (snd kv)) l ->
  forall h rs h1 h2 fuel,
    alloc_props l h = (rs, h1) ->
    agree (length h) (length h1) h1 h2 ->
    depth_props l < fuel ->
    mapM (fun kr => pair (fst kr) <$> read fuel h2 (snd kr)) rs = Some l.
Proof.
  induction 1 as [| [k x] l Hx _ IHl]; intros h rs h1 h2 fuel He Hag Hd; simpl in He.
  - injection He as <- <-. reflexivity.
  - destruct (alloc x h) as [r ha] eqn:Hx'.
    destruct (alloc_props l ha) as [rs' hb] eqn:Hl.
    injection He as <- <-.
    destruct (alloc_app _ _ _ _ Hx') as [c1 ->].
    destruct (alloc_props_app _ _ _ _ Hl) as [c2 ->].
    unfold depth_props in *. simpl in Hd, Hx. rewrite !length_app in Hag.
    simpl. rewrite (Hx _ _ _ h2 fuel Hx').
    + simpl. rewrite (IHl _ _ _ h2 fuel Hl); [reflexivity| |lia].
      intros j Hj. rewrite !length_app in Hj. apply Hag. lia.
    + intros j Hj. rewrite length_app in Hj. rewrite (Hag j) by lia.
      apply lookup_app_l. rewrite length_app. lia.
    + lia.
Qed.

(** Reading back what [alloc] built, in any heap that still holds the
    cells [alloc] appended. *)
Lemma alloc_read v : reads_back v.
Proof.
  induction v as [p | l IH | c kvs IH] using value_induction;
    intros h r h1 h2 fuel Ha Hag Hf.
  - injection Ha as <- <-. destruct fuel; reflexivity.
  - rewrite alloc_arr in Ha.
    destruct (alloc_elems l h) as [rs h'] eqn:He. injection Ha as <- <-.
    rewrite depth_arr in Hf. destruct fuel as [| fuel]; [lia|].
    rewrite length_app in Hag. simpl in Hag.
    simpl. rewrite (Hag (length h')).
    2:{ destruct (alloc_elems_app _ _ _ _ He) as [cs ->]. rewrite length_app. lia. }
    rewrite lookup_app_r by lia. rewrite Nat.sub_diag. simpl.
    rewrite (alloc_elems_read l IH _ _ _ h2 fuel He); [reflexivity| |lia].
    intros j Hj. rewrite (Hag j) by lia. apply lookup_app_l. lia.
  - rewrite alloc_obj in Ha.
    destruct (alloc_props kvs h) as [rs h'] eqn:He. injection Ha as <- <-.
    rewrite depth_obj in Hf. destruct fuel as [| fuel]; [lia|].
    rewrite length_app in Hag. simpl in Hag.
    simpl. rewrite (Hag (length h')).
    2:{ destruct (alloc_props_app _ _ _ _ He) as [cs ->]. rewrite length_app. lia. }
    rewrite lookup_app_r by lia. rewrite Nat.sub_diag. simpl.
    rewrite (alloc_props_read kvs IH _ _ _ h2 fuel He); [reflexivity| |lia].
    intros j Hj. rewrite (Hag j) by lia. apply lookup_app_l. lia.
Qed.

(** [alloc] uses at least as many cells as the tree is deep. *)
Lemma alloc_depth v : forall h r h1, alloc v h = (r, h1) -> length h + depth v <= length h1.
Proof.
  induction v as [p | l IH | c kvs IH] using value_induction; intros h r h1 Ha.
  - injection Ha as <- <-. simpl. lia.
  - rewrite alloc_arr in Ha.
    destruct (alloc_elems l h) as [rs h'] eqn:He. injection Ha as <- <-.
    rewrite depth_arr, length_app. simpl.
    enough (length h + depth_elems l <= length h') by lia.
    clear -IH He. revert h rs h' He.
    induction IH as [| x l Hx _ IHl]; intros h rs h' He; simpl in He.
    + injection He as <- <-. simpl. lia.
    + destruct (alloc x h) as [r ha] eqn:Hx'.
      destruct (alloc_elems l ha) as [rs' hb] eqn:Hl.
      injection He as <- <-.
      specialize (Hx _ _ _ Hx'). specialize (IHl _ _ _ Hl).
      destruct (alloc_app _ _ _ _ Hx') as [c1 ->].
      unfold depth_elems in *. simpl. rewrite length_app in *. lia.
  - rewrite alloc_obj in Ha.
    destruct (alloc_props kvs h) as [rs h'] eqn:He. injection Ha as <- <-.
    rewrite depth_obj, length_app. simpl.
    enough (length h + depth_props kvs <= length h') by lia.
    clear -IH He. revert h rs h' He.
    induction IH as [| [k x] l Hx _ IHl]; intros h rs h' He; simpl in He.
    + injection He as <- <-. simpl. lia.
    + destruct (alloc x h) as [r ha] eqn:Hx'.
      destruct (alloc_props l ha) as [rs' hb] eqn:Hl.
      injection He as <- <-.
      specialize (Hx _ _ _ Hx'). specialize (IHl _ _ _ Hl).
      destruct (alloc_app _ _ _ _ Hx') as [c1 ->].
      unfold depth_props in *. simpl in *. rewrite length_app in *. lia.
Qed.

Lemma agree_refl lo hi h : agree lo hi h h.
Proof. now intros l _. Qed.

(** The whole tree is read back from the heap [alloc] returns, and from
    every heap that extends it. *)
Lemma alloc_read_all v h r h1 h2 :
  alloc v h = (r, h1) ->
  agree (length h) (length h1) h1 h2 ->
  length h1 <= length h2 ->
  read_all h2 r = Some v.
Proof.
  intros Ha Hag Hlen. unfold read_all.
  apply (alloc_read v h r h1 h2 _ Ha Hag).
  pose proof (alloc_depth _ _ _ _ Ha). lia.
Qed.

(** What [read] found below a reference, [heap_get] finds one step down. *)
Lemma lookup_prop_read {A B} (f : A -> option B) k :
  forall (rs : list (string * A)) (kvs : list (string * B)),
    mapM (fun kr => pair (fst kr) <$> f (snd kr)) rs = Some kvs ->
    match lookup_prop k rs with
    | Some r => exists x, lookup_prop k kvs = Some x /\ f r = Some x
    | None => lookup_prop k kvs = None
    end.
Proof.
  induction rs as [| [k' r] rs IH]; intros kvs Hm; simpl in Hm.
  - injection Hm as <-. reflexivity.
  - destruct (f r) as [x|] eqn:Hr; simpl in Hm; [|discriminate].
    destruct (mapM _ rs) as [kvs'|] eqn:Hrs; simpl in Hm; [|discriminate].
    injection Hm as <-. simpl.
    destruct (String.eqb k k'); [eauto|]. now apply IH.
Qed.

Lemma indexed_from_read {A B} (f : A -> option B) k :
  forall (rs : list A) (vs : list B) i,
    mapM f rs = Some vs ->
    match lookup_prop k (indexed_from i rs) with
    | Some r => exists x, lookup_prop k (indexed_from i vs) = Some x /\ f r = Some x
    | None => lookup_prop k (indexed_from i vs) = None
    end.
Proof.
  induction rs as [| r rs IH]; intros vs i Hm; simpl in Hm.
  - injection Hm as <-. reflexivity.
  - destruct (f r) as [x|] eqn:Hr; simpl in Hm; [|discriminate].
    destruct (mapM f rs) as [vs'|] eqn:Hrs; simpl in Hm; [|discriminate].
    injection Hm as <-. simpl.
    destruct (String.eqb k (string_of_nat i)); [eauto|]. now apply IH.
Qed.

Lemma read_prim fuel h p : read fuel h (HPrim p) = Some (VPrim p).
Proof. now destruct fuel. Qed.

Lemma read_get fuel h r v k r' :
  read (S fuel) h r = Some v ->
  heap_get h r k = Ok r' ->
  read fuel h r' = Some (get v k).
Proof.
  intros Hr Hg. destruct r as [p | l].
  - simpl in Hr. injection Hr as <-.
    destruct p; simpl in Hg; try discriminate; injection Hg as <-; apply read_prim.
  - simpl in Hr, Hg. destruct (h !! l) as [[rs | c rs]|] eqn:Hl; [| |discriminate].
    + destruct (mapM (read fuel h) rs) as [vs|] eqn:Hm; [|discriminate].
      injection Hr as <-. injection Hg as <-. simpl.
      pose proof (indexed_from_read (read fuel h) k rs vs 0 Hm) as Hk.
      destruct (lookup_prop k (indexed_from 0 rs)) as [r|].
      * destruct Hk as (x & -> & Hx). exact Hx.
      * rewrite Hk. apply read_prim.
    + destruct (mapM _ rs) as [kvs|] eqn:Hm; [|discriminate].
      injection Hr as <-. injection Hg as <-. simpl.
      pose proof (lookup_prop_read (read fuel h) k rs kvs Hm) as Hk.
      destruct (lookup_prop k rs) as [r|].
      * destruct Hk as (x & -> & Hx). exact Hx.
      * rewrite Hk. apply read_prim.
Qed.

(** A reference never reads as a primitive. *)
Lemma read_ref_not_prim fuel h l p : read fuel h (HRef l) <> Some (VPrim p).
Proof.
  destruct fuel; simpl; [discriminate|].
  destruct (h !! l) as [[rs | c rs]|]; [| |discriminate].
  - destruct (mapM _ rs); discriminate.
  - destruct (mapM _ rs); discriminate.
Qed.

Lemma read_prim_inv fuel h r p : read fuel h r = Some (VPrim p) -> r = HPrim p.
Proof.
  destruct r as [q | l]; intros Hr.
  - rewrite read_prim in Hr. congruence.
  - now apply read_ref_not_prim in Hr.
Qed.


Section Properties.
Context `{Collaborators}.

(** ** The example of the specification *)

(** The differences [diff] finds on the example, before
    [createChangelog] stores them. *)
Lemma diff_example :
  diff example_original (objectAssign (cloneDeep example_original) example_updates)
  = Some [DiffEdit [PKey "someField"] (VStr "hey") (VStr "hello");
          DiffArray [PKey "nested"] 1 (DiffNew [] (obj [("oh", VStr "yeah")]));
          DiffEdit [PKey "nested"; PIdx 0; PKey "oh"] (VStr "no") (VStr "maybe");
          DiffNew [PKey "nested"; PIdx 0; PKey "hi"] (VStr "howAreYou")].
Proof. reflexivity. Qed.

(** C3: on the specification's example, whatever the request context
    and the clock, [createChangelog] yields an entry stamped with the
    request context whose [changes] are exactly four records, in this
    order: [{kind: 'E', path: ['someField'], lhs: 'hey', rhs: 'hello'}],
    [{kind: 'A', path: ['nested'], index: 1, item: {kind: 'N', rhs:
    {oh: 'yeah'}}}], [{kind: 'E', path: ['nested', 0, 'oh'], lhs: 'no',
    rhs: 'maybe'}], [{kind: 'N', path: ['nested', 0, 'hi'], rhs:
    'howAreYou'}].  No record of kind [D] is among them: nothing is
    reported for the untouched key [you]. *)
Theorem createChangelog_example (now : Z) (rc : IRequestContext) :
  let before :=
    obj [("someField", VStr "hey"); ("how", VStr "do"); ("you", VStr "do");
         ("nested", VArr [obj [("oh", VStr "no")]])] in
  let afterPartial :=
    obj [("someField", VStr "hello"); ("how", VStr "do");
         ("nested", VArr [obj [("oh", VStr "maybe"); ("hi", VStr "howAreYou")];
                          obj [("oh", VStr "yeah")]])] in
  createChangelog now rc before afterPartial =
  {| cl_ip := rc_ip rc;
     cl_token := rc_token rc;
     cl_endpoint := rc_endpoint rc;
     cl_timestamp := now;
     cl_changes :=
       [VObj Plain
          [("kind", VStr "E"); ("path", VArr [VStr "someField"]);
           ("lhs", VStr "hey"); ("rhs", VStr "hello")];
        VObj Plain
          [("kind", VStr "A"); ("path", VArr [VStr "nested"]); ("index", VNum 1);
           ("item", VObj Plain [("kind", VStr "N");
                                ("rhs", VObj Plain [("oh", VStr "yeah")])])];
        VObj Plain
          [("kind", VStr "E"); ("path", VArr [VStr "nested"; VNum 0; VStr "oh"]);
           ("lhs", VStr "no"); ("rhs", VStr "maybe")];
        VObj Plain
          [("kind", VStr "N"); ("path", VArr [VStr "nested"; VNum 0; VStr "hi"]);
           ("rhs", VStr "howAreYou")]] |}.
Proof. reflexivity. Qed.

(** ** The round trip, for a property named by the empty string *)

(** C2, at the failing input: the document [{}] updated with one
    property, named by the empty string, of value [1].  The merge has the
    new property, and the differ's loop over
    the keys only [rhs] has tests each key for truthiness, which skips the
    empty name: no change is recorded.  Applying the empty sequence of
    changes to [before] leaves [{}], which is not the merge. *)
Theorem createChangelog_blank_key (now : Z) (rc : IRequestContext) :
  let before := obj [] in
  let afterPartial := obj [(EmptyString, VNum 1)] in
  objectAssign (cloneDeep before) afterPartial = obj [(EmptyString, VNum 1)] /\
  diff before (objectAssign (cloneDeep before) afterPartial) = None /\
  cl_changes (createChangelog now rc before afterPartial) = [] /\
  applyChanges [] before = before /\
  ~ same before (objectAssign (cloneDeep before) afterPartial).
Proof.
  repeat split. intros Hsame. simpl in Hsame.
  destruct Hsame as (_ & _ & Hkeys). discriminate (Hkeys EmptyString eq_refl).
Qed.

(** Under any other name the new property is recorded. *)
Lemma createChangelog_named_key (now : Z) (rc : IRequestContext) :
  cl_changes (createChangelog now rc (obj []) (obj [("a", VNum 1)]))
  = [obj [("kind", VStr "N"); ("path", VArr [VStr "a"]); ("rhs", VNum 1)]].
Proof. reflexivity. Qed.

(** ** Filter translation in [findMany] *)

Lemma dateToFilter_operators (t : Z) :
  dateToFilter "purchasedAfter" (Some t)
    = Ok (Some ("purchaseDate", obj [("$gt", VStr (toISOString t))])) /\
  dateToFilter "updatedAfter" (Some t)
    = Ok (Some ("lastChanged", obj [("$gt", VStr (toISOString t))])) /\
  dateToFilter "shouldShipBy" (Some t)
    = Ok (Some ("latestShipDate", obj [("$lt", VStr (toISOString t))])).
Proof. repeat split. Qed.

(** Any other name falls through the [switch]: the callback returns
    [undefined]. *)
Lemma dateToFilter_fallthrough (k : string) (t : option Z) :
  k <> "purchasedAfter" -> k <> "updatedAfter" -> k <> "shouldShipBy" ->
  dateToFilter k t = Ok None.
Proof.
  intros H1 H2 H3. unfold dateToFilter.
  apply String.eqb_neq in H1, H2, H3. now rewrite H1, H2, H3.
Qed.

(** X2: a filter made of one of the three operators is translated to the
    strict comparison on its target field. *)
Lemma mongoFilter_operators (t : Z) :
  mongoFilter (obj [("purchasedAfter", VDate (Some t))])
    = Ok (obj [("purchaseDate", obj [("$gt", VStr (toISOString t))])]) /\
  mongoFilter (obj [("updatedAfter", VDate (Some t))])
    = Ok (obj [("lastChanged", obj [("$gt", VStr (toISOString t))])]) /\
  mongoFilter (obj [("shouldShipBy", VDate (Some t))])
    = Ok (obj [("latestShipDate", obj [("$lt", VStr (toISOString t))])]).
Proof. repeat split. Qed.

(** X4: a date under any other name is not passed through: [_.fromPairs]
    dereferences the [undefined] pair. *)
Lemma mongoFilter_other_date (k : string) (t : option Z) :
  k <> "purchasedAfter" -> k <> "updatedAfter" -> k <> "shouldShipBy" ->
  mongoFilter (obj [(k, VDate t)])
    = Throw (TypeError "Cannot read property '0' of undefined").
Proof.
  intros H1 H2 H3. unfold mongoFilter. cbn -[dateToFilter].
  rewrite (dateToFilter_fallthrough k t H1 H2 H3). reflexivity.
Qed.

(** C6, at the failing input: a filter [{createdAt: <date>}] makes
    [findMany] throw a [TypeError] before any query is sent, instead of
    querying for equality on [createdAt]. *)
Theorem findMany_date_equality_throws (st : Storage) (t : option Z)
  (sort : value) (limit page : Z) (w : World) :
  findMany st (obj [("createdAt", VDate t)]) sort limit page w
  = (Throw (TypeError "Cannot read property '0' of undefined"), w).
Proof. reflexivity. Qed.

(** ** Validation in [insertOne] *)

(** C7: what [insertOne] of [src/lib/storage.ts] does when the schema
    rejects the document.  It throws at once, and the world is left as
    it was: no document and no changelog entry is written.  The message
    is made of the collection name and of Joi's message; the document
    type, which the specification and the module's other messages name,
    is not in it. *)
Theorem insertOne_invalid (st : Storage) (rc : IRequestContext)
  (document : value) (w : World) (message : string) :
  joi_error (Joi_validate document
               (Joi_append_optional (documentSchema st) "changelogs") true)
    = Some message ->
  insertOne st rc document w
  = (Throw (Error ("Error validating '" +:+ collectionName st
                     +:+ "' document: " +:+ message)), w).
Proof.
  intros Hjoi. unfold insertOne, bind, lift, validate. now rewrite Hjoi.
Qed.

End Properties.

(** [validate] of the module's other copy names the document type. *)
Lemma part005_validate_invalid `{Collaborators} (st : Storage)
  (document : value) (message : string) :
  joi_error (Joi_validate document
               (Joi_append_optional (documentSchema st) "changelogs") true)
    = Some message ->
  Part005.validate st document
  = Throw (Error ("Error validating '" +:+ documentName st +:+ "': " +:+ message)).
Proof.
  intros Hjoi. unfold Part005.validate. now rewrite Hjoi.
Qed.

(** C7, the divergence: the store for document type [Order] in
    collection [orders] rejects the empty document with a message that
    names the collection and does not contain the document type, where
    [validate] of the module's other copy gives, for the same store and
    document, a message that contains the document type. *)
Lemma insertOne_invalid_names_collection :
  (exists message,
     fst (insertOne example_storage example_rc (obj []) empty_world)
       = Throw (Error message) /\
     includes message (collectionName example_storage) = true /\
     includes message (documentName example_storage) = false) /\
  (exists message,
     Part005.validate example_storage (obj []) = Throw (Error message) /\
     includes message (documentName example_storage) = true).
Proof.
  split.
  - eexists. split; [reflexivity|]. split; reflexivity.
  - eexists. split; reflexivity.
Qed.

Lemma insertOne_invalid_witness :
  insertOne example_storage example_rc (obj []) empty_world
  = (Throw (Error ("Error validating '" +:+ "orders" +:+ "' document: "
                     +:+ "child someField fails because [someField is required]")),
     empty_world).
Proof.
  apply (insertOne_invalid example_storage example_rc (obj []) empty_world).
  reflexivity.
Defined.

(** ** Fetching for update *)

Section Fetch.
Context `{Collaborators}.
Variable st : Storage.

Lemma omit_truthy d k : truthy (omit d k) = true.
Proof. now destruct d. Qed.

Lemma findOne_found filter w d :
  first_match st filter w = Some d ->
  findOne st filter w = (Ok (fetched d), w).
Proof.
  intros Hf. unfold findOne, db_findOne. run. unfold first_match in Hf.
  rewrite Hf. now rewrite omit_truthy.
Qed.

(** X3: [findOne] when no document matches: an [Error] that names the
    document type, and the identifier the filter asks for when it asks
    for one; nothing is written. *)
Lemma findOne_missing filter w :
  first_match st filter w = None ->
  findOne st filter w
  = (Throw (Error (documentName st +:+ id_suffix filter +:+ " doesn't exist")), w).
Proof.
  intros Hf. unfold findOne, db_findOne. run. unfold first_match in Hf.
  now rewrite Hf.
Qed.

(** [findOneAndUpdate] on a matched document: the fetched tree is built
    twice in the heap, once for the closure and once for the caller. *)
Lemma findOneAndUpdate_found rc filter w d :
  first_match st filter w = Some d ->
  exists orig h1 copy h2,
    alloc (fetched d) (w_heap w) = (orig, h1) /\
    alloc (fetched d) h1 = (copy, h2) /\
    findOneAndUpdate st rc filter w
    = (Ok {| originalDocument := copy;
             commit_of := {| cc_originalDocument := orig;
                             cc_rc := rc; cc_filter := filter |} |},
       with_heap w h2).
Proof.
  intros Hf.
  destruct (alloc (fetched d) (w_heap w)) as [orig h1] eqn:Ha1.
  destruct (alloc (fetched d) h1) as [copy h2] eqn:Ha2.
  exists orig, h1, copy, h2. split; [reflexivity|]. split; [exact Ha2|].
  unfold findOneAndUpdate, bind at 1. rewrite (findOne_found _ _ _ Hf).
  unfold heap_cloneDeep. run. rewrite Ha1. run.
  rewrite (alloc_read_all _ _ _ _ h1 Ha1 (agree_refl _ _ _) (Nat.le_refl _)).
  rewrite Ha2. reflexivity.
Qed.

(** C10: when the matched parent has nothing at [subdocumentPath],
    [findOneSubdocumentAndUpdate] throws a [TypeError], raised where
    [find] is read off [undefined], and not the [Error] that says the
    resource does not exist; nothing is written. *)
Theorem findOneSubdocumentAndUpdate_absent_field
  (rc : IRequestContext) (filterParent : value) (subdocumentPath : string)
  (subdocumentPredicate : value -> bool) (w : World) (d : value) :
  first_match st filterParent w = Some d ->
  get (fetched d) subdocumentPath = VUndef ->
  exists msg w',
    findOneSubdocumentAndUpdate st rc filterParent subdocumentPath
      subdocumentPredicate w = (Throw (TypeError msg), w') /\
    w_db w' = w_db w /\
    (nullish (fetched d) = false ->
     msg = "Cannot read property 'find' of undefined").
Proof.
  intros Hf Hget.
  destruct (findOneAndUpdate_found rc filterParent w d Hf)
    as (orig & h1 & copy & h2 & Ha1 & Ha2 & Hrun).
  unfold findOneSubdocumentAndUpdate, bind at 1. rewrite Hrun.
  run. cbn [originalDocument].
  pose proof (alloc_read_all _ _ _ _ h2 Ha2 (agree_refl _ _ _) (Nat.le_refl _)) as Hr.
  destruct (heap_get h2 copy subdocumentPath) as [arr | e] eqn:Hg.
  - unfold read_all in Hr.
    pose proof (read_get _ _ _ _ _ _ Hr Hg) as Harr. rewrite Hget in Harr.
    apply read_prim_inv in Harr. subst arr. simpl. eauto.
  - assert (Hnull : nullish (fetched d) = true).
    { destruct copy as [p | l].
      - unfold read_all in Hr. rewrite read_prim in Hr. injection Hr as <-.
        destruct p; simpl in Hg; try discriminate; reflexivity.
      - simpl in Hg. destruct (h2 !! l) as [[]|]; discriminate. }
    destruct copy as [[]|]; simpl in Hg; try discriminate.
    + injection Hg as <-. eexists _, _. split; [reflexivity|]. split; [reflexivity|].
      congruence.
    + injection Hg as <-. eexists _, _. split; [reflexivity|]. split; [reflexivity|].
      congruence.
    + destruct (h2 !! l) as [[]|]; discriminate.
Qed.

End Fetch.

(** ** Index reconciliation *)

Section Indexes.
Context `{Collaborators}.
Variable st : Storage.

Lemma identity_eqb_eq a b : identity_eqb a b = true <-> a = b.
Proof.
  destruct a, b; simpl; split; try congruence.
  - intros E. apply String.eqb_eq in E. congruence.
  - intros E. injection E as ->. apply String.eqb_refl.
Qed.

(** [differenceBy] keeps, in order, the elements whose identity is the
    identity of no element of the other list. *)
Lemma differenceBy_In (array values : list value) (x : value) :
  In x (differenceBy array values ixSpecificationIdentity) <->
  In x array /\
  forall y, In y values -> ixSpecificationIdentity y <> ixSpecificationIdentity x.
Proof.
  unfold differenceBy. rewrite filter_In, negb_true_iff.
  apply and_iff_compat_l. split.
  - intros Hex y Hy Heq.
    assert (existsb (identity_eqb (ixSpecificationIdentity x))
              (map ixSpecificationIdentity values) = true) as E; [|congruence].
    apply existsb_exists. exists (ixSpecificationIdentity y). split.
    + now apply in_map.
    + now apply identity_eqb_eq.
  - intros Hall. destruct (existsb _ _) eqn:E; [|reflexivity].
    apply existsb_exists in E. destruct E as (i & Hi & Heq).
    apply in_map_iff in Hi. destruct Hi as (y & <- & Hy).
    apply identity_eqb_eq in Heq. now destruct (Hall y Hy).
Qed.

Lemma newIndexes_In desired existing i :
  In i (newIndexes desired existing) <->
  In i desired /\
  forall e, In e existing -> ixSpecificationIdentity e <> ixSpecificationIdentity i.
Proof. apply differenceBy_In. Qed.

Lemma removedIndexes_In desired existing e :
  In e (removedIndexes desired existing) <->
  In e existing /\
  (forall i, In i desired -> ixSpecificationIdentity i <> ixSpecificationIdentity e) /\
  ixSpecificationIdentity e <> primary_identity.
Proof.
  unfold removedIndexes. rewrite filter_In, differenceBy_In, negb_true_iff.
  fold primary_identity. split.
  - intros [[Hin Hall] E]. repeat split; [exact Hin | exact Hall |].
    intros Heq. rewrite Heq in E.
    assert (identity_eqb primary_identity primary_identity = true) by now apply identity_eqb_eq.
    congruence.
  - intros (Hin & Hall & Hne). repeat split; [exact Hin | exact Hall |].
    destruct (identity_eqb _ _) eqn:E; [|reflexivity].
    now apply identity_eqb_eq in E.
Qed.

Lemma empty_by_In {A} (l : list A) : (forall x, ~ In x l) -> l = [].
Proof. destruct l as [| x l]; [reflexivity|]. intros Hn. destruct (Hn x). now left. Qed.

Lemma converged_nothing_to_do desired existing :
  converged desired existing ->
  newIndexes desired existing = [] /\ removedIndexes desired existing = [].
Proof.
  intros [Hd He]. split; apply empty_by_In; intros x Hx.
  - apply newIndexes_In in Hx. destruct Hx as [Hx Hall].
    destruct (Hd x Hx) as (e & Hin & Heq). now apply (Hall e Hin).
  - apply removedIndexes_In in Hx. destruct Hx as (Hx & Hall & Hp).
    destruct (He x Hx) as [(i & Hin & Heq) | Heq]; [now apply (Hall i Hin) | now apply Hp].
Qed.

Lemma NoDup_map_filter {A B} (f : A -> B) (p : A -> bool) l :
  NoDup (map f l) -> NoDup (map f (List.filter p l)).
Proof.
  induction l as [| x l IH]; simpl; intros Hnd; [constructor|].
  apply NoDup_cons in Hnd. destruct Hnd as [Hx Hnd].
  destruct (p x); simpl; [|now apply IH].
  apply NoDup_cons. split; [|now apply IH].
  rewrite list_elem_of_In, in_map_iff in *. intros (y & Hy & Hin). apply Hx.
  exists y. split; [exact Hy|]. now apply filter_In in Hin.
Qed.

Lemma filter_all {A} (p : A -> bool) l :
  (forall x, p x = true) -> List.filter p l = l.
Proof. intros Hp. induction l as [| x l IH]; simpl; [|rewrite Hp, IH]; reflexivity. Qed.

(** The loop of [dropIndex] calls succeeds when every index to drop is
    live under a name of its own that is not [_id_]; it leaves the other
    indexes alone. *)
Lemma drop_loop (removed : list value) :
  forall (w : World) (c : Collection),
    w_db w !! collectionName st = Some c ->
    NoDup (map index_name removed) ->
    (forall e, In e removed -> index_name e <> VStr "_id_") ->
    (forall e, In e removed -> exists ix, In ix (indexes c) /\ index_name ix = index_name e) ->
    exists w',
      forEach removed (fun index => db_dropIndex (collectionName st) (get index "name")) w
        = (Ok tt, w') /\
      w_oplog w' = w_oplog w ++ map (fun e => DropIndex (collectionName st) (index_name e)) removed /\
      w_db w' !! collectionName st
        = Some (set_indexes c
                  (List.filter
                     (fun ix => negb (existsb (fun e => value_eqb (index_name ix) (index_name e)) removed))
                     (indexes c))) /\
      w_heap w' = w_heap w /\ w_console w' = w_console w.
Proof.
  unfold index_name.
  induction removed as [| e removed IH]; intros w c Hc Hnd Hid Hlive.
  - exists w. simpl. run. split; [reflexivity|]. rewrite app_nil_r. split; [reflexivity|].
    split; [|split; reflexivity]. rewrite Hc. f_equal. destruct c as [ds ixs].
    unfold set_indexes. simpl. now rewrite filter_all.
  - simpl in Hnd. apply NoDup_cons in Hnd. destruct Hnd as [He Hnd].
    destruct (Hlive e (or_introl eq_refl)) as (ix & Hix & Hname).
    cbn [forEach]. unfold db_dropIndex at 1. run. rewrite Hc.
    rewrite (value_eqb_neq _ _ (Hid e (or_introl eq_refl))).
    assert (existsb (fun ix => value_eqb (get ix "name") (get e "name")) (indexes c) = true) as ->.
    { apply existsb_exists. exists ix. split; [exact Hix|]. apply value_eqb_eq. exact Hname. }
    set (c' := set_indexes c _).
    set (w1 := with_db _ _).
    destruct (IH w1 c') as (w' & Hrun & Hlog & Hdb & Hheap & Hcons).
    + subst w1. simpl. apply lookup_insert_eq.
    + exact Hnd.
    + intros e' He'. apply Hid. now right.
    + intros e' He'. destruct (Hlive e' (or_intror He')) as (ix' & Hix' & Hname').
      exists ix'. split; [|exact Hname'].
      subst c'. cbn [indexes set_indexes]. apply filter_In. split; [exact Hix'|].
      apply negb_true_iff, value_eqb_neq.
      rewrite Hname'. intros Heq. apply He. rewrite list_elem_of_In, in_map_iff.
      exists e'. split; [now rewrite Heq | exact He'].
    + exists w'. rewrite Hrun. split; [reflexivity|].
      split; [rewrite Hlog; subst w1; simpl; now rewrite <- app_assoc|].
      split; [|split; [rewrite Hheap | rewrite Hcons]; reflexivity].
      rewrite Hdb. f_equal. subst c'. unfold set_indexes. simpl. f_equal.
      clear. induction (indexes c) as [| ix ixs IHx]; simpl; [reflexivity|].
      destruct (value_eqb (get ix "name") (get e "name")); simpl; [exact IHx|].
      destruct (existsb _ removed); simpl; [exact IHx | now rewrite IHx].
Qed.

Lemma removed_names_NoDup desired existing :
  NoDup (map index_name existing) ->
  NoDup (map index_name (removedIndexes desired existing)).
Proof.
  intros Hnd. unfold removedIndexes, differenceBy.
  now do 2 apply NoDup_map_filter.
Qed.

Lemma bind_ok {A B} (m : M A) (k : A -> M B) w a w1 :
  m w = (Ok a, w1) -> bind m k w = k a w1.
Proof. intros Hm. unfold bind. now rewrite Hm. Qed.

Lemma listIndexes_run w c :
  w_db w !! collectionName st = Some c ->
  db_listIndexes (collectionName st) w = (Ok (indexes c), w).
Proof. intros Hc. unfold db_listIndexes. run. now rewrite Hc. Qed.

Lemma createNew_run new w c :
  w_db w !! collectionName st = Some c ->
  exists w1 c1,
    createNew st new w = (Ok tt, w1) /\
    w_oplog w1 = w_oplog w ++ match new with
                              | [] => []
                              | _ => [CreateIndexes (collectionName st) (map in_background new)]
                              end /\
    w_db w1 !! collectionName st = Some c1 /\
    c1 = set_indexes c (indexes c ++ map described (map in_background new)).
Proof.
  intros Hc. unfold createNew. destruct new as [| i new].
  - exists w, c. cbn. run. rewrite app_nil_r. split; [reflexivity|]. split; [reflexivity|].
    split; [exact Hc|]. destruct c. unfold set_indexes. cbn. now rewrite app_nil_r.
  - cbn [length Nat.eqb negb]. unfold db_createIndexes. run.
    eexists _, _. split; [reflexivity|]. cbn [w_oplog w_db].
    split; [reflexivity|]. split; [apply lookup_insert_eq|].
    unfold coll_of. now rewrite Hc.
Qed.

Lemma dropRemoved_run desired existing w c :
  w_db w !! collectionName st = Some c ->
  NoDup (map index_name existing) ->
  (forall e, In e existing -> index_name e = VStr "_id_" ->
             ixSpecificationIdentity e = primary_identity) ->
  (forall e, In e existing -> In e (indexes c)) ->
  let removed := removedIndexes desired existing in
  exists w',
    dropRemoved st removed w = (Ok tt, w') /\
    w_oplog w' = w_oplog w
                   ++ map (fun e => DropIndex (collectionName st) (index_name e)) removed /\
    w_db w' !! collectionName st
      = Some (set_indexes c
                (List.filter
                   (fun ix => negb (existsb (fun e => value_eqb (index_name ix) (index_name e))
                                      removed))
                   (indexes c))).
Proof.
  intros Hc Hnd Hid Hsub removed. unfold dropRemoved.
  destruct removed as [| e0 removed0] eqn:Hrem.
  - exists w. cbn. run. rewrite app_nil_r. split; [reflexivity|]. split; [reflexivity|].
    rewrite Hc. destruct c. unfold set_indexes. cbn. now rewrite filter_all.
  - rewrite <- Hrem. replace (negb (Nat.eqb (length removed) 0)) with true
      by (subst removed; rewrite Hrem; reflexivity).
    unfold bind at 1, console at 1.
    set (w2 := Build_World _ _ _ _ _ _).
    destruct (drop_loop removed w2 c) as (w' & Hrun & Hlog & Hdb & _).
    + exact Hc.
    + apply removed_names_NoDup, Hnd.
    + intros e He Hname. apply removedIndexes_In in He. destruct He as (He & _ & Hp).
      apply Hp, Hid; assumption.
    + intros e He. apply removedIndexes_In in He. destruct He as (He & _).
      exists e. split; [now apply Hsub | reflexivity].
    + exists w'. split; [exact Hrun|]. split; [exact Hlog | exact Hdb].
Qed.

(** C8: [ensureIndexes] computes as new the desired specifications whose
    key pattern no live index has, and as removed the live indexes whose
    key pattern no desired specification has and is not that of the index
    on [_id]; identities are the JSON of the key patterns, names play no
    part.  It sends one [createIndexes] for the new ones and one
    [dropIndex] per removed one, after which the live indexes are the old
    ones and the new ones without the removed.  On a converged set it
    changes nothing: no command is sent and the world is as before. *)
Theorem ensureIndexes_reconciles (desired : list value) (w : World) (c : Collection) :
  w_db w !! collectionName st = Some c ->
  server_indexes (indexes c) ->
  let new := newIndexes desired (indexes c) in
  let removed := removedIndexes desired (indexes c) in
  (forall i, In i new <->
     In i desired /\
     forall e, In e (indexes c) ->
               ixSpecificationIdentity e <> ixSpecificationIdentity i) /\
  (forall e, In e removed <->
     In e (indexes c) /\
     (forall i, In i desired ->
                ixSpecificationIdentity i <> ixSpecificationIdentity e) /\
     ixSpecificationIdentity e <> primary_identity) /\
  (exists w',
     ensureIndexes st desired w = (Ok tt, w') /\
     w_oplog w' = w_oplog w ++ index_calls st new removed /\
     w_db w' !! collectionName st
       = Some (set_indexes c
                 (List.filter
                    (fun ix => negb (existsb (fun e => value_eqb (index_name ix) (index_name e))
                                       removed))
                    (indexes c ++ map described (map in_background new))))) /\
  (converged desired (indexes c) -> ensureIndexes st desired w = (Ok tt, w)).
Proof.
  intros Hc [Hnd Hid] new removed.
  split; [intros i; apply newIndexes_In|].
  split; [intros e; apply removedIndexes_In|].
  split.
  - destruct (createNew_run new w c Hc) as (w1 & c1 & Hcreate & Hlog1 & Hdb1 & Hc1).
    destruct (dropRemoved_run desired (indexes c) w1 c1) as (w' & Hdrop & Hlog & Hdb).
    + now rewrite Hdb1.
    + exact Hnd.
    + exact Hid.
    + intros e He. rewrite Hc1. cbn. apply in_or_app. now left.
    + exists w'. split; [|split].
      * unfold ensureIndexes.
        rewrite (bind_ok _ _ _ _ _ (listIndexes_run w c Hc)).
        fold new removed. rewrite (bind_ok _ _ _ _ _ Hcreate). exact Hdrop.
      * rewrite Hlog, Hlog1. unfold index_calls. now rewrite <- app_assoc.
      * rewrite Hdb, Hc1. reflexivity.
  - intros Hconv. destruct (converged_nothing_to_do _ _ Hconv) as [Hn Hr].
    unfold ensureIndexes.
    rewrite (bind_ok _ _ _ _ _ (listIndexes_run w c Hc)). rewrite Hn, Hr. reflexivity.
Qed.

End Indexes.

(** ** Own properties *)

Lemma lookup_set_prop_eq {A} k (v : A) kvs : lookup_prop k (set_prop k v kvs) = Some v.
Proof.
  induction kvs as [| [k' v'] kvs IH]; simpl.
  - now rewrite String.eqb_refl.
  - destruct (String.eqb k k') eqn:E; simpl; rewrite ?String.eqb_refl, ?E; auto.
Qed.

Lemma lookup_set_prop_ne {A} k k' (v : A) kvs :
  k <> k' -> lookup_prop k (set_prop k' v kvs) = lookup_prop k kvs.
Proof.
  intros Hne. apply String.eqb_neq in Hne.
  induction kvs as [| [k2 v2] kvs IH]; simpl.
  - now rewrite Hne.
  - destruct (String.eqb k' k2) eqn:E; simpl.
    + apply String.eqb_eq in E. subst k2. now rewrite Hne.
    + now rewrite IH.
Qed.

Lemma lookup_delete_prop_ne {A} k k' (kvs : list (string * A)) :
  k <> k' -> lookup_prop k (delete_prop k' kvs) = lookup_prop k kvs.
Proof.
  intros Hne. apply String.eqb_neq in Hne.
  induction kvs as [| [k2 v2] kvs IH]; simpl; [reflexivity|].
  destruct (String.eqb k' k2) eqn:E; simpl.
  - apply String.eqb_eq in E. subst k2. now rewrite Hne.
  - now rewrite IH.
Qed.

Lemma lookup_prop_None {A} k (kvs : list (string * A)) :
  lookup_prop k kvs = None <-> ~ In k (keys kvs).
Proof.
  induction kvs as [| [k' v] kvs IH]; simpl; [tauto|].
  destruct (String.eqb k k') eqn:E.
  - apply String.eqb_eq in E. subst. split; [discriminate | intros Hn; destruct Hn; now left].
  - apply String.eqb_neq in E. rewrite IH. split; [intros Hn [Heq | Hin]; congruence | tauto].
Qed.

Lemma keys_delete_prop_sub {A} k (kvs : list (string * A)) x :
  In x (keys (delete_prop k kvs)) -> In x (keys kvs).
Proof.
  induction kvs as [| [k' v] kvs IH]; simpl; [tauto|].
  destruct (String.eqb k k'); simpl; tauto.
Qed.

Lemma lookup_delete_prop_eq {A} k (kvs : list (string * A)) :
  NoDup (keys kvs) -> lookup_prop k (delete_prop k kvs) = None.
Proof.
  induction kvs as [| [k' v] kvs IH]; simpl; intros Hnd; [reflexivity|].
  apply NoDup_cons in Hnd. destruct Hnd as [Hk Hnd].
  destruct (String.eqb k k') eqn:E; simpl.
  - apply String.eqb_eq in E. subst k'. apply lookup_prop_None.
    now rewrite <- list_elem_of_In.
  - rewrite E. now apply IH.
Qed.

Lemma keys_set_prop {A} k (v : A) kvs :
  keys (set_prop k v kvs) = if has_prop k kvs then keys kvs else keys kvs ++ [k].
Proof.
  unfold has_prop. induction kvs as [| [k' v'] kvs IH]; simpl; [reflexivity|].
  destruct (String.eqb k k') eqn:E; simpl.
  - apply String.eqb_eq in E. now subst.
  - rewrite IH. now destruct (lookup_prop k kvs).
Qed.

Lemma NoDup_set_prop {A} k (v : A) kvs :
  NoDup (keys kvs) -> NoDup (keys (set_prop k v kvs)).
Proof.
  intros Hnd. rewrite keys_set_prop. unfold has_prop.
  destruct (lookup_prop k kvs) eqn:E; [exact Hnd|].
  apply NoDup_app. split; [exact Hnd|]. split.
  - intros x Hx Hk. apply list_elem_of_In in Hk. destruct Hk as [<- | []].
    apply lookup_prop_None in E. apply E. now apply list_elem_of_In.
  - apply NoDup_singleton.
Qed.

(** ** Serialization and [insertOne] *)

Section Insert.
Context `{Collaborators}.
Variable st : Storage.

Lemma jsonify_obj kvs : jsonify (obj kvs) = Some (obj (jsonify_props kvs)).
Proof. reflexivity. Qed.

Lemma jsonify_arr l : jsonify (VArr l) = Some (VArr (jsonify_elems l)).
Proof. reflexivity. Qed.

Lemma revive_obj key c kvs : revive key (VObj c kvs) = reviver key (VObj c (revive_props kvs)).
Proof. reflexivity. Qed.

Lemma revive_arr key l : revive key (VArr l) = reviver key (VArr (revive_elems l 0)).
Proof. reflexivity. Qed.

Lemma reviver_root v : reviver "" v = v.
Proof. reflexivity. Qed.

(** [serialize] of a plain object is a plain object. *)
Lemma serialize_obj kvs :
  serialize (obj kvs) = Ok (obj (revive_props (jsonify_props kvs))).
Proof. reflexivity. Qed.

Lemma keys_jsonify_props kvs x : In x (keys (jsonify_props kvs)) -> In x (keys kvs).
Proof.
  induction kvs as [| [k v] kvs IH]; simpl; [tauto|].
  destruct (jsonify v); simpl; tauto.
Qed.

Lemma NoDup_jsonify_props kvs : NoDup (keys kvs) -> NoDup (keys (jsonify_props kvs)).
Proof.
  induction kvs as [| [k v] kvs IH]; simpl; intros Hnd; [constructor|].
  apply NoDup_cons in Hnd. destruct Hnd as [Hk Hnd].
  destruct (jsonify v); simpl; [|now apply IH].
  apply NoDup_cons. split; [|now apply IH].
  rewrite list_elem_of_In in *. intros Hin. apply Hk. now apply keys_jsonify_props.
Qed.

Lemma keys_revive_props kvs : keys (revive_props kvs) = keys kvs.
Proof. induction kvs as [| [k v] kvs IH]; simpl; congruence. Qed.

Lemma lookup_jsonify_props k kvs v j :
  lookup_prop k kvs = Some v -> jsonify v = Some j ->
  lookup_prop k (jsonify_props kvs) = Some j.
Proof.
  intros Hl Hj. induction kvs as [| [k' v'] kvs IH]; simpl in *; [discriminate|].
  destruct (String.eqb k k') eqn:E.
  - injection Hl as ->. rewrite Hj. simpl. now rewrite E.
  - destruct (jsonify v'); simpl; rewrite ?E; auto.
Qed.

Lemma lookup_revive_props k kvs :
  lookup_prop k (revive_props kvs) = revive k <$> lookup_prop k kvs.
Proof.
  induction kvs as [| [k' v'] kvs IH]; simpl; [reflexivity|].
  destruct (String.eqb k k') eqn:E; [|exact IH].
  apply String.eqb_eq in E. now subst.
Qed.

(** [insertOne] on a document the schema accepts: the document sent to
    the driver is made from the input itself, whatever value Joi
    returned. *)
Lemma insertOne_valid rc kvs w :
  joi_error (Joi_validate (obj kvs)
               (Joi_append_optional (documentSchema st) "changelogs") true) = None ->
  exists w',
    insertOne st rc (obj kvs) w
      = (Ok (mapDocumentFromDb (omit (stored_document rc kvs w) "_id")), w') /\
    w_db w' = <[collectionName st :=
                  set_docs (coll_of (w_db w) (collectionName st))
                    (docs (coll_of (w_db w) (collectionName st))
                       ++ [stored_document rc kvs w])]> (w_db w).
Proof.
  intros Hjoi. unfold insertOne, validate. rewrite Hjoi, serialize_obj.
  unfold db_insertOne. run. cbn [objectAssign enumerable_props assign fold_left fst snd].
  unfold stored_document, outgoing, provenance, createChangelog. cbn.
  destruct (has_prop "_id" _); run; eexists; split; reflexivity.
Qed.

Lemma stored_docs rc kvs w w' :
  w_db w' = <[collectionName st :=
                set_docs (coll_of (w_db w) (collectionName st))
                  (docs (coll_of (w_db w) (collectionName st))
                     ++ [stored_document rc kvs w])]> (w_db w) ->
  docs (coll_of (w_db w') (collectionName st))
  = docs (coll_of (w_db w) (collectionName st)) ++ [stored_document rc kvs w].
Proof. intros ->. unfold coll_of at 1. now rewrite lookup_insert_eq. Qed.

Lemma NoDup_outgoing rc kvs w : NoDup (keys kvs) -> NoDup (keys (outgoing rc kvs w)).
Proof.
  intros Hnd. unfold outgoing. apply NoDup_set_prop.
  rewrite keys_revive_props. now apply NoDup_jsonify_props.
Qed.

Lemma stored_document_get rc kvs w k :
  k <> "_id" ->
  get (stored_document rc kvs w) k = default VUndef (lookup_prop k (outgoing rc kvs w)).
Proof.
  intros Hk. unfold stored_document. destruct (has_prop "_id" _); simpl; [reflexivity|].
  now rewrite lookup_set_prop_ne.
Qed.

Lemma stored_document_no_id rc kvs w :
  NoDup (keys kvs) -> has_key (omit (stored_document rc kvs w) "_id") "_id" = false.
Proof.
  intros Hnd. pose proof (NoDup_outgoing rc kvs w Hnd) as Hout.
  unfold stored_document. destruct (has_prop "_id" _); simpl; unfold has_prop.
  - now rewrite lookup_delete_prop_eq.
  - rewrite lookup_delete_prop_eq; [reflexivity|]. now apply NoDup_set_prop.
Qed.

(** C4: for a document the schema accepts, [insertOne] stores the
    serialized document with a [changelogs] field made of one entry, whose
    changes are empty and whose token, ip and endpoint are the request's;
    the stored document is appended to the collection, and the document
    returned has no [_id] (the money conversion adding none). *)
Theorem insertOne_provenance (rc : IRequestContext) (kvs : props_t) (w : World) :
  joi_error (Joi_validate (obj kvs)
               (Joi_append_optional (documentSchema st) "changelogs") true) = None ->
  NoDup (keys kvs) ->
  (forall d, has_key d "_id" = false -> has_key (convertMoney d) "_id" = false) ->
  exists stored returned serialized w',
    insertOne st rc (obj kvs) w = (Ok returned, w') /\
    docs (coll_of (w_db w') (collectionName st))
      = docs (coll_of (w_db w) (collectionName st)) ++ [stored] /\
    get stored "changelogs"
      = VArr [obj [("ip", VStr (rc_ip rc));
                   ("token", VStr (rc_token rc));
                   ("endpoint", VStr (rc_endpoint rc));
                   ("timestamp", VDate (Some (w_now w)));
                   ("changes", VArr [])]] /\
    serialize (obj kvs) = Ok serialized /\
    (forall k, k <> "changelogs" -> k <> "_id" -> get stored k = get serialized k) /\
    has_key returned "_id" = false.
Proof.
  intros Hjoi Hnd Hmoney.
  destruct (insertOne_valid rc kvs w Hjoi) as (w' & Hrun & Hdb).
  exists (stored_document rc kvs w), (mapDocumentFromDb (omit (stored_document rc kvs w) "_id")),
    (obj (revive_props (jsonify_props kvs))), w'.
  split; [exact Hrun|]. split; [now apply stored_docs|]. split.
  - rewrite stored_document_get by discriminate. unfold outgoing.
    now rewrite lookup_set_prop_eq.
  - split; [apply serialize_obj|]. split.
    + intros k Hk Hid. rewrite stored_document_get by exact Hid. unfold outgoing.
      now rewrite lookup_set_prop_ne.
    + apply Hmoney. now apply stored_document_no_id.
Qed.


End Insert.

(** * Isolation of the fetched document *)

(** ** Separation of the copy from the captured document *)

Lemma within_mono lo hi lo' hi' r :
  within lo hi r -> lo' <= lo -> hi <= hi' -> within lo' hi' r.
Proof. destruct r; simpl; [trivial | lia]. Qed.

Lemma Forall_within_mono lo hi lo' hi' rs :
  Forall (within lo hi) rs -> lo' <= lo -> hi <= hi' -> Forall (within lo' hi') rs.
Proof. intros Hf ? ?. eapply Forall_impl; [exact Hf|]. intros r Hr. now apply (within_mono lo hi). Qed.

(** The cells [alloc] appends refer to each other only. *)
Lemma alloc_within v :
  forall h r h1,
    alloc v h = (r, h1) ->
    within (length h) (length h1) r /\
    forall l c, length h <= l -> h1 !! l = Some c ->
                Forall (within (length h) (length h1)) (refs_of c).
Proof.
  induction v as [p | l IH | c kvs IH] using value_induction; intros h r h1 Ha.
  - injection Ha as <- <-. split; [exact I|]. intros l c Hl Hc.
    apply lookup_lt_Some in Hc. lia.
  - rewrite alloc_arr in Ha.
    destruct (alloc_elems l h) as [rs h'] eqn:He. injection Ha as <- <-.
    assert (Hloop : length h <= length h' /\ Forall (within (length h) (length h')) rs /\
                    forall j c, length h <= j -> h' !! j = Some c ->
                                Forall (within (length h) (length h')) (refs_of c)).
    { clear -IH He. revert h rs h' He.
      induction IH as [| x l Hx _ IHl]; intros h rs h' He; simpl in He.
      - injection He as <- <-. split; [lia|]. split; [constructor|].
        intros j c Hj Hc. apply lookup_lt_Some in Hc. lia.
      - destruct (alloc x h) as [r ha] eqn:Hx'.
        destruct (alloc_elems l ha) as [rs' hb] eqn:Hl.
        injection He as <- <-.
        destruct (Hx _ _ _ Hx') as [Hr Hcells].
        destruct (IHl _ _ _ Hl) as (Hlen & Hrs & Hcells').
        destruct (alloc_app _ _ _ _ Hx') as [c1 Hc1].
        destruct (alloc_elems_app _ _ _ _ Hl) as [c2 Hc2].
        assert (length h <= length ha) by (rewrite Hc1, length_app; lia).
        split; [lia|]. split.
        + constructor; [apply (within_mono _ _ _ _ _ Hr); lia|].
          apply (Forall_within_mono _ _ _ _ _ Hrs); lia.
        + intros j c Hj Hc. destruct (Nat.lt_ge_cases j (length ha)) as [Hlt | Hge].
          * rewrite Hc2, lookup_app_l in Hc by exact Hlt.
            apply (Forall_within_mono _ _ _ _ _ (Hcells j c Hj Hc)); lia.
          * apply (Forall_within_mono _ _ _ _ _ (Hcells' j c Hge Hc)); lia. }
    destruct Hloop as (Hlen & Hrs & Hcells).
    rewrite length_app. simpl. split; [lia|].
    intros j c Hj Hc. destruct (Nat.lt_ge_cases j (length h')) as [Hlt | Hge].
    + rewrite lookup_app_l in Hc by exact Hlt.
      apply (Forall_within_mono _ _ _ _ _ (Hcells j c Hj Hc)); lia.
    + rewrite lookup_app_r in Hc by exact Hge.
      destruct (j - length h') as [| n] eqn:E; simpl in Hc; [|now destruct n].
      injection Hc as <-. simpl. apply (Forall_within_mono _ _ _ _ _ Hrs); lia.
  - rewrite alloc_obj in Ha.
    destruct (alloc_props kvs h) as [rs h'] eqn:He. injection Ha as <- <-.
    assert (Hloop : length h <= length h' /\
                    Forall (within (length h) (length h')) (map snd rs) /\
                    forall j c, length h <= j -> h' !! j = Some c ->
                                Forall (within (length h) (length h')) (refs_of c)).
    { clear -IH He. revert h rs h' He.
      induction IH as [| [k x] l Hx _ IHl]; intros h rs h' He; simpl in He.
      - injection He as <- <-. split; [lia|]. split; [constructor|].
        intros j c Hj Hc. apply lookup_lt_Some in Hc. lia.
      - destruct (alloc x h) as [r ha] eqn:Hx'.
        destruct (alloc_props l ha) as [rs' hb] eqn:Hl.
        injection He as <- <-.
        destruct (Hx _ _ _ Hx') as [Hr Hcells].
        destruct (IHl _ _ _ Hl) as (Hlen & Hrs & Hcells').
        destruct (alloc_app _ _ _ _ Hx') as [c1 Hc1].
        destruct (alloc_props_app _ _ _ _ Hl) as [c2 Hc2].
        assert (length h <= length ha) by (rewrite Hc1, length_app; lia).
        split; [lia|]. split.
        + simpl. constructor; [apply (within_mono _ _ _ _ _ Hr); lia|].
          apply (Forall_within_mono _ _ _ _ _ Hrs); lia.
        + intros j c Hj Hc. destruct (Nat.lt_ge_cases j (length ha)) as [Hlt | Hge].
          * rewrite Hc2, lookup_app_l in Hc by exact Hlt.
            apply (Forall_within_mono _ _ _ _ _ (Hcells j c Hj Hc)); lia.
          * apply (Forall_within_mono _ _ _ _ _ (Hcells' j c Hge Hc)); lia. }
    destruct Hloop as (Hlen & Hrs & Hcells).
    rewrite length_app. simpl. split; [lia|].
    intros j c0 Hj Hc. destruct (Nat.lt_ge_cases j (length h')) as [Hlt | Hge].
    + rewrite lookup_app_l in Hc by exact Hlt.
      apply (Forall_within_mono _ _ _ _ _ (Hcells j c0 Hj Hc)); lia.
    + rewrite lookup_app_r in Hc by exact Hge.
      destruct (j - length h') as [| n] eqn:E; simpl in Hc; [|now destruct n].
      injection Hc as <-. simpl. apply (Forall_within_mono _ _ _ _ _ Hrs); lia.
Qed.

Lemma lookup_prop_In {A} k (kvs : list (string * A)) r :
  lookup_prop k kvs = Some r -> In r (map snd kvs).
Proof.
  induction kvs as [| [k' v] kvs IH]; simpl; [discriminate|].
  destruct (String.eqb k k'); [intros [= ->]; now left | right; auto].
Qed.

Lemma lookup_indexed_In {A} k (l : list A) r :
  forall i, lookup_prop k (indexed_from i l) = Some r -> In r l.
Proof.
  induction l as [| x l IH]; simpl; intros i; [discriminate|].
  destruct (String.eqb k (string_of_nat i)); [intros [= ->]; now left | right; eauto].
Qed.

Lemma heap_get_within n1 h r k r' :
  closed_above n1 h -> within n1 (length h) r ->
  heap_get h r k = Ok r' -> within n1 (length h) r'.
Proof.
  intros Hcl Hr Hg. destruct r as [p | l].
  - destruct p; simpl in Hg; try discriminate; now injection Hg as <-.
  - simpl in Hr, Hg. destruct (h !! l) as [[rs | c kvs]|] eqn:Hl; injection Hg as <-.
    + destruct (lookup_prop k (indexed_from 0 rs)) as [r|] eqn:E; simpl; [|exact I].
      apply lookup_indexed_In in E. pose proof (Hcl l _ (proj1 Hr) Hl) as Hf.
      rewrite Forall_forall in Hf. apply Hf. now apply list_elem_of_In.
    + destruct (lookup_prop k kvs) as [r|] eqn:E; simpl; [|exact I].
      apply lookup_prop_In in E. pose proof (Hcl l _ (proj1 Hr) Hl) as Hf.
      rewrite Forall_forall in Hf. apply Hf. now apply list_elem_of_In.
    + exact I.
Qed.

Lemma navigate_within n1 h p : forall r r',
  closed_above n1 h -> within n1 (length h) r ->
  navigate h r p = Ok r' -> within n1 (length h) r'.
Proof.
  induction p as [| k p IH]; intros r r' Hcl Hr Hn; simpl in Hn.
  - now injection Hn as <-.
  - destruct (heap_get h r k) as [r1|] eqn:Hg; [|discriminate].
    exact (IH r1 r' Hcl (heap_get_within _ _ _ _ _ Hcl Hr Hg) Hn).
Qed.

Lemma Forall_set_prop {A} (P : A -> Prop) k v kvs :
  P v -> Forall P (map snd kvs) -> Forall P (map snd (set_prop k v kvs)).
Proof.
  intros Hv. induction kvs as [| [k' v'] kvs IH]; simpl; intros Hf.
  - now constructor.
  - apply Forall_cons in Hf. destruct Hf as [Hv' Hf].
    destruct (String.eqb k k'); simpl; constructor; auto.
Qed.

Lemma Forall_delete_prop {A} (P : A -> Prop) k kvs :
  Forall P (map snd kvs) -> Forall P (map snd (delete_prop k kvs)).
Proof.
  induction kvs as [| [k' v'] kvs IH]; simpl; intros Hf; [constructor|].
  apply Forall_cons in Hf. destruct Hf as [Hv' Hf].
  destruct (String.eqb k k'); simpl; [exact Hf | constructor; auto].
Qed.

Lemma Forall_set_index {A} (P : A -> Prop) k v l :
  P v -> forall i, Forall P l -> Forall P (set_index k v i l).
Proof.
  intros Hv. induction l as [| x l IH]; simpl; intros i Hf.
  - destruct (String.eqb k (string_of_nat i)); [now constructor | constructor].
  - apply Forall_cons in Hf. destruct Hf as [Hx Hf].
    destruct (String.eqb k (string_of_nat i)); constructor; auto.
Qed.

(** Overwriting a cell from [n1] on with references that stay above. *)
Lemma separated_insert n1 h0 h l c c' :
  separated n1 h0 h -> n1 <= l -> h !! l = Some c ->
  Forall (within n1 (length h)) (refs_of c') ->
  separated n1 h0 (<[l := c']> h).
Proof.
  intros (Hlen & Hag & Hcl) Hl Hc Hrefs. split; [now rewrite length_insert|]. split.
  - intros j Hj. rewrite list_lookup_insert_ne by lia. now apply Hag.
  - intros j cj Hj Hcj. rewrite length_insert.
    destruct (decide (l = j)) as [-> | Hne].
    + rewrite list_lookup_insert_eq in Hcj by (now apply lookup_lt_Some in Hc).
      now injection Hcj as <-.
    + rewrite list_lookup_insert_ne in Hcj by exact Hne. now apply (Hcl j).
Qed.

Lemma heap_assign_separated n1 h0 h target k v h' :
  separated n1 h0 h -> within n1 (length h) target -> within n1 (length h) v ->
  heap_assign h target k v = Ok h' -> separated n1 h0 h'.
Proof.
  intros Hsep Ht Hv Ha. pose proof Hsep as (_ & _ & Hcl).
  destruct target as [p | l].
  - destruct p; simpl in Ha; try discriminate; now injection Ha as <-.
  - simpl in Ht, Ha. destruct (h !! l) as [[rs | c kvs]|] eqn:Hl.
    + injection Ha as <-. eapply separated_insert; eauto; [lia|]. simpl.
      apply Forall_set_index; [exact Hv|]. exact (Hcl l _ (proj1 Ht) Hl).
    + simpl in Ha. rewrite ?Hl in Ha. injection Ha as <-.
      eapply separated_insert; eauto; [lia|]. simpl.
      apply Forall_set_prop; [exact Hv|]. exact (Hcl l _ (proj1 Ht) Hl).
    + simpl in Ha. rewrite ?Hl in Ha. now injection Ha as <-.
Qed.

Lemma heap_delete_separated n1 h0 h target k h' :
  separated n1 h0 h -> within n1 (length h) target ->
  heap_delete h target k = Ok h' -> separated n1 h0 h'.
Proof.
  intros Hsep Ht Ha. pose proof Hsep as (_ & _ & Hcl).
  destruct target as [p | l].
  - destruct p; simpl in Ha; try discriminate; now injection Ha as <-.
  - simpl in Ht, Ha. destruct (h !! l) as [[rs | c kvs]|] eqn:Hl; injection Ha as <-;
      [exact Hsep | | exact Hsep].
    eapply separated_insert; eauto; [lia|]. simpl.
    apply Forall_delete_prop. exact (Hcl l _ (proj1 Ht) Hl).
Qed.

Lemma alloc_separated n1 h0 h v r h' :
  separated n1 h0 h -> n1 <= length h ->
  alloc v h = (r, h') ->
  separated n1 h0 h' /\ within n1 (length h') r /\ length h <= length h'.
Proof.
  intros (Hlen & Hag & Hcl) Hn Ha.
  destruct (alloc_within _ _ _ _ Ha) as [Hr Hcells].
  destruct (alloc_app _ _ _ _ Ha) as [cs ->].
  assert (length h <= length (h ++ cs)) by (rewrite length_app; lia).
  split; [|split; [apply (within_mono _ _ _ _ _ Hr); lia | assumption]].
  split; [lia|]. split.
  - intros j Hj. rewrite lookup_app_l by lia. now apply Hag.
  - intros j c Hj Hc. destruct (Nat.lt_ge_cases j (length h)) as [Hlt | Hge].
    + rewrite lookup_app_l in Hc by exact Hlt.
      apply (Forall_within_mono _ _ _ _ _ (Hcl j c Hj Hc)); lia.
    + apply (Forall_within_mono _ _ _ _ _ (Hcells j c Hge Hc)); lia.
Qed.

Lemma within_grow n1 (h h' : heap) r :
  within n1 (length h) r -> length h <= length h' -> within n1 (length h') r.
Proof. intros Hr Hl. apply (within_mono _ _ _ _ _ Hr); lia. Qed.

Lemma separated_length n1 h0 h : separated n1 h0 h -> length h0 <= length h.
Proof. now intros [? _]. Qed.

Lemma heap_assign_length h target k v h' :
  heap_assign h target k v = Ok h' -> length h <= length h'.
Proof.
  destruct target as [p | l]; simpl.
  - destruct p; intros E; try discriminate; now injection E as <-.
  - destruct (h !! l) as [[rs | c kvs]|] eqn:Hl; simpl; rewrite ?Hl; intros E;
      injection E as <-; rewrite ?length_insert; lia.
Qed.

Lemma heap_delete_length h target k h' :
  heap_delete h target k = Ok h' -> length h' = length h.
Proof.
  destruct target as [p | l]; simpl.
  - destruct p; intros E; try discriminate; now injection E as <-.
  - destruct (h !! l) as [[rs | c kvs]|] eqn:Hl; intros E;
      injection E as <-; rewrite ?length_insert; lia.
Qed.

(** One statement of the caller keeps the separation. *)
Lemma apply_mutation_separated n1 h0 h root m :
  separated n1 h0 h -> n1 <= length h0 -> within n1 (length h0) root ->
  separated n1 h0 (apply_mutation root m h).
Proof.
  intros Hsep Hn Hroot. pose proof (separated_length _ _ _ Hsep) as Hlen.
  pose proof Hsep as (_ & _ & Hcl).
  assert (Hroot' : within n1 (length h) root) by (apply (within_mono _ _ _ _ _ Hroot); lia).
  destruct m as [p k v | p k q | p k]; simpl.
  - destruct (navigate h root p) as [target|] eqn:Hnav; [|exact Hsep].
    pose proof (navigate_within _ _ _ _ _ Hcl Hroot' Hnav) as Ht.
    destruct (alloc v h) as [r h1] eqn:Ha.
    destruct (alloc_separated _ _ _ _ _ _ Hsep ltac:(lia) Ha) as (Hsep1 & Hr & Hl1).
    destruct (heap_assign h1 target k r) as [h2|] eqn:Hs; [|exact Hsep1].
    exact (heap_assign_separated n1 h0 h1 target k r h2 Hsep1 (within_grow _ h _ _ Ht Hl1) Hr Hs).
  - destruct (navigate h root p) as [target|] eqn:Hnav; [|exact Hsep].
    destruct (navigate h root q) as [source|] eqn:Hnav'; [|exact Hsep].
    destruct (heap_assign h target k source) as [h2|] eqn:Hs; [|exact Hsep].
    exact (heap_assign_separated n1 h0 h target k source h2 Hsep
             (navigate_within _ _ _ _ _ Hcl Hroot' Hnav)
             (navigate_within _ _ _ _ _ Hcl Hroot' Hnav') Hs).
  - destruct (navigate h root p) as [target|] eqn:Hnav; [|exact Hsep].
    destruct (heap_delete h target k) as [h2|] eqn:Hs; [|exact Hsep].
    exact (heap_delete_separated n1 h0 h target k h2 Hsep
             (navigate_within _ _ _ _ _ Hcl Hroot' Hnav) Hs).
Qed.

Lemma run_mutations_separated n1 h0 root ms : forall h,
  separated n1 h0 h -> n1 <= length h0 -> within n1 (length h0) root ->
  separated n1 h0 (run_mutations root ms h).
Proof.
  induction ms as [| m ms IH]; intros h Hsep Hn Hroot; simpl; [exact Hsep|].
  apply IH; auto using apply_mutation_separated.
Qed.

(** ** [commit] *)

Lemma mapM_delete_prop {A B} (f : A -> option B) k :
  forall (rs : list (string * A)) (kvs : list (string * B)),
    mapM (fun kr => pair (fst kr) <$> f (snd kr)) rs = Some kvs ->
    mapM (fun kr => pair (fst kr) <$> f (snd kr)) (delete_prop k rs)
      = Some (delete_prop k kvs).
Proof.
  induction rs as [| [k' r] rs IH]; intros kvs Hm; simpl in Hm.
  - injection Hm as <-. reflexivity.
  - destruct (f r) as [x|] eqn:Hr; simpl in Hm; [|discriminate].
    destruct (mapM _ rs) as [kvs'|] eqn:Hrs; simpl in Hm; [|discriminate].
    injection Hm as <-. simpl. destruct (String.eqb k k'); [exact Hrs|].
    simpl. rewrite Hr. simpl. now rewrite (IH _ eq_refl).
Qed.

Lemma all_read_back_props (kvs : props_t) : Forall (fun kv => reads_back (snd kv)) kvs.
Proof. apply Forall_forall. intros x _. apply alloc_read. Qed.

(** The captured document after [delete originalDocument['changelogs']]:
    in every heap that keeps its cells, it reads as the fetched tree
    without [changelogs]. *)
Lemma captured_forgets v h0 orig h1 h :
  alloc v h0 = (orig, h1) ->
  agree (length h0) (length h1) h1 h ->
  length h1 <= length h ->
  let h4 := forget_changelogs h orig in
  length h4 = length h /\
  (forall j, length h1 <= j -> h4 !! j = h !! j) /\
  (forall j, j < length h0 -> h4 !! j = h !! j) /\
  forall h5,
    agree (length h0) (length h1) h4 h5 -> length h4 <= length h5 ->
    read_all h5 orig = Some (delete_top "changelogs" v).
Proof.
  intros Ha Hag Hlen. unfold forget_changelogs.
  destruct v as [p | l | c kvs].
  - injection Ha as <- <-.
    assert (Hh : (if hval_truthy (HPrim p)
                  then match heap_delete h (HPrim p) "changelogs" with
                       | Ok h' => h' | Throw _ => h end
                  else h) = h).
    { unfold hval_truthy, truthy. destruct p; simpl;
        repeat match goal with |- context [if ?b then _ else _] => destruct b end;
        reflexivity. }
    rewrite Hh. cbn zeta. repeat split; trivial.
  - pose proof Ha as Ha'. rewrite alloc_arr in Ha.
    destruct (alloc_elems l h0) as [rs h'] eqn:He. injection Ha as <- <-.
    assert (Hl1 : length (h' ++ [CArr rs]) = S (length h'))
      by (rewrite length_app; simpl; lia).
    rewrite Hl1 in Hag, Hlen |- *.
    assert (Hcell : h !! length h' = Some (CArr rs)).
    { rewrite Hag.
      - rewrite lookup_app_r by lia. now rewrite Nat.sub_diag.
      - destruct (alloc_elems_app _ _ _ _ He) as [cs ->]. rewrite length_app. lia. }
    cbn [hval_truthy heap_delete]. rewrite Hcell. cbn zeta. repeat split; trivial.
    intros h5 Hag5 Hlen5.
    apply (alloc_read_all _ _ _ _ h5 Ha').
    + intros j Hj. rewrite Hl1 in Hj. rewrite Hag5 by lia. now apply Hag.
    + rewrite Hl1. lia.
  - pose proof (alloc_depth _ _ _ _ Ha) as Hd. rewrite depth_obj in Hd.
    rewrite alloc_obj in Ha.
    destruct (alloc_props kvs h0) as [rs h'] eqn:He. injection Ha as <- <-.
    assert (Hl1 : length (h' ++ [CObj c rs]) = S (length h'))
      by (rewrite length_app; simpl; lia).
    rewrite Hl1 in Hag, Hlen, Hd |- *.
    destruct (alloc_props_app _ _ _ _ He) as [cs Hcs].
    assert (Hh' : length h0 <= length h') by (rewrite Hcs, length_app; lia).
    assert (Hcell : h !! length h' = Some (CObj c rs)).
    { rewrite Hag by lia. rewrite lookup_app_r by lia. now rewrite Nat.sub_diag. }
    cbn [hval_truthy heap_delete]. rewrite Hcell. cbn zeta.
    split; [now rewrite length_insert|].
    split; [intros j Hj; apply list_lookup_insert_ne; lia|].
    split; [intros j Hj; apply list_lookup_insert_ne; lia|].
    intros h5 Hag5 Hlen5. rewrite length_insert in Hlen5.
    unfold read_all. cbn [read delete_top]. rewrite Hag5 by lia.
    rewrite list_lookup_insert_eq by lia.
    rewrite (mapM_delete_prop (read (length h5) h5) "changelogs" rs kvs); [reflexivity|].
    apply (alloc_props_read kvs (all_read_back_props kvs) h0 rs h' h5 (length h5) He).
    + intros j Hj. rewrite Hag5 by lia. rewrite list_lookup_insert_ne by lia.
      rewrite Hag by lia. apply lookup_app_l. lia.
    + lia.
Qed.

Lemma heap_delete_above n1 (h : heap) upd k h' :
  within n1 (length h) upd -> heap_delete h upd k = Ok h' ->
  length h' = length h /\ forall j, j < n1 -> h' !! j = h !! j.
Proof.
  intros Hw Hd. split; [now apply heap_delete_length in Hd|].
  intros j Hj. destruct upd as [p | l].
  - destruct p; simpl in Hd; try discriminate; now injection Hd as <-.
  - simpl in Hw, Hd. destruct (h !! l) as [[rs | c kvs]|]; injection Hd as <-; trivial.
    apply list_lookup_insert_ne. lia.
Qed.

Lemma with_heap_same w : with_heap w (w_heap w) = w.
Proof. now destruct w. Qed.

Section Commit.
Context `{Collaborators}.
Variable st : Storage.

(** [commit] in a heap that still holds the captured document: the
    before-state it serializes is the fetched tree without [changelogs],
    whatever the supplied update is. *)
Lemma commit_run rc filter m h0 orig h1 upd w :
  alloc m h0 = (orig, h1) ->
  agree (length h0) (length h1) h1 (w_heap w) ->
  length h1 <= length (w_heap w) ->
  within (length h1) (length (w_heap w)) upd ->
  let h4 := forget_changelogs (w_heap w) orig in
  commit st {| cc_originalDocument := orig; cc_rc := rc; cc_filter := filter |} upd w
  = match heap_delete h4 upd "changelogs" with
    | Throw e => (Throw e, with_heap w h4)
    | Ok h5 =>
        commit_on_trees st rc filter (delete_top "changelogs" m)
          (read_all h5 upd) (with_heap w h5)
    end.
Proof.
  intros Ha Hag Hlen Hupd h4.
  destruct (captured_forgets m h0 orig h1 (w_heap w) Ha Hag Hlen)
    as (Hlen4 & Habove & Hbelow & Hread). fold h4 in Hlen4, Habove, Hbelow, Hread.
  assert (Hstep1 : (if hval_truthy orig
                    then heap_deleteM orig "changelogs" else ret tt) w
                   = (Ok tt, with_heap w h4)).
  { subst h4. unfold forget_changelogs, heap_deleteM. destruct (hval_truthy orig) eqn:Ht.
    - run. destruct orig as [p | l].
      + destruct p; simpl in Ht; try discriminate; reflexivity.
      + simpl. destruct (w_heap w !! l) as [[]|]; reflexivity.
    - unfold ret. now rewrite with_heap_same. }
  unfold commit. cbn [cc_originalDocument cc_rc cc_filter].
  rewrite (bind_ok _ _ _ _ _ Hstep1).
  unfold heap_deleteM at 1. unfold bind at 1 2, get_world at 1, lift at 1.
  cbn [w_heap with_heap].
  destruct (heap_delete h4 upd "changelogs") as [h5 | e] eqn:Hd; [|reflexivity].
  unfold bind at 1, set_heap at 1. cbn [with_heap w_db w_heap w_now w_ids w_console w_oplog].
  change (with_heap (with_heap w h4) h5) with (with_heap w h5).
  destruct (heap_delete_above (length h1) h4 upd "changelogs" h5) as [Hlen5 Hsame];
    [|exact Hd|].
  { rewrite Hlen4. exact Hupd. }
  unfold commit_on_trees, heap_serialize. unfold bind at 1 2, get_world at 1.
  cbn [w_heap with_heap].
  destruct (read_all h5 upd) as [u|]; [|reflexivity].
  unfold bind at 2. destruct (lift (serialize u) (with_heap w h5)) as [[sC | e] w'] eqn:Hs;
    unfold lift in Hs; injection Hs as Hs <-; rewrite Hs;
    unfold bind at 1, lift at 1; [|reflexivity].
  unfold bind at 1 2, get_world at 1. cbn [w_heap with_heap].
  rewrite (Hread h5); [reflexivity| |lia].
  intros j Hj. apply Hsame. lia.
Qed.

End Commit.

Section Isolation.
Context `{Collaborators}.
Variable st : Storage.

(** The heap right after [findOneAndUpdate]: the captured document
    occupies the cells from [length h0] to [length h1], the copy the cells
    after them. *)
Lemma fetched_separated m h0 orig h1 copy h2 :
  alloc m h0 = (orig, h1) -> alloc m h1 = (copy, h2) ->
  separated (length h1) h2 h2 /\ length h1 <= length h2 /\
  within (length h1) (length h2) copy /\
  agree (length h0) (length h1) h1 h2.
Proof.
  intros Ha1 Ha2. destruct (alloc_within _ _ _ _ Ha2) as [Hcopy Hcells].
  destruct (alloc_app _ _ _ _ Ha2) as [cs ->].
  assert (length h1 <= length (h1 ++ cs)) by (rewrite length_app; lia).
  split; [|split; [assumption | split; [exact Hcopy|]]].
  - split; [lia|]. split; [apply agree_refl|]. exact Hcells.
  - intros j Hj. apply lookup_app_l. lia.
Qed.

(** C5: [findOneAndUpdate] writes nothing and hands out a deep copy: the
    document returned and the document the [commit] closure keeps read as
    the same fetched tree.  Whatever statements the caller then runs on
    the document it was given, the captured document still reads as the
    fetched tree; and [commit], called with anything the caller can
    supply, runs as [commit_on_trees] does on the fetched tree without
    [changelogs] and the supplied update: the changelog it builds is
    [createChangelog] of the serialized pristine state and the serialized
    update. *)
Theorem findOneAndUpdate_isolated (rc : IRequestContext) (filter : value)
  (w : World) (d : value) :
  first_match st filter w = Some d ->
  exists u w1,
    findOneAndUpdate st rc filter w = (Ok u, w1) /\
    w_db w1 = w_db w /\
    cc_rc (commit_of u) = rc /\ cc_filter (commit_of u) = filter /\
    read_all (w_heap w1) (originalDocument u) = Some (fetched d) /\
    read_all (w_heap w1) (cc_originalDocument (commit_of u)) = Some (fetched d) /\
    forall ms : list mutation,
      let h := run_mutations (originalDocument u) ms (w_heap w1) in
      read_all h (cc_originalDocument (commit_of u)) = Some (fetched d) /\
      forall s : supplied,
        match supply (originalDocument u) s h with
        | Throw _ => True
        | Ok (upd, h') =>
            let h4 := forget_changelogs h' (cc_originalDocument (commit_of u)) in
            commit st (commit_of u) upd (with_heap w1 h')
            = match heap_delete h4 upd "changelogs" with
              | Throw e => (Throw e, with_heap w1 h4)
              | Ok h5 =>
                  commit_on_trees st rc filter (delete_top "changelogs" (fetched d))
                    (read_all h5 upd) (with_heap w1 h5)
              end
        end.
Proof.
  intros Hf.
  destruct (findOneAndUpdate_found st rc filter w d Hf)
    as (orig & h1 & copy & h2 & Ha1 & Ha2 & Hrun).
  set (h0 := w_heap w) in *.
  destruct (fetched_separated _ _ _ _ _ _ Ha1 Ha2) as (Hsep & Hlen & Hcopy & Hag).
  eexists _, _. split; [exact Hrun|].
  cbn [originalDocument commit_of cc_originalDocument cc_rc cc_filter w_heap w_db with_heap].
  split; [reflexivity|]. split; [reflexivity|]. split; [reflexivity|].
  split; [exact (alloc_read_all _ _ _ _ h2 Ha2 (agree_refl _ _ _) (Nat.le_refl _))|].
  split; [exact (alloc_read_all _ _ _ _ h2 Ha1 Hag Hlen)|].
  intros ms. set (h := run_mutations copy ms h2).
  assert (Hsep3 : separated (length h1) h2 h)
    by (apply run_mutations_separated; assumption).
  assert (Hag3 : forall h', separated (length h1) h2 h' ->
                            agree (length h0) (length h1) h1 h' /\ length h1 <= length h').
  { intros h' (Hl & Ha & _). split; [|lia].
    intros j Hj. rewrite <- (Hag j Hj). apply Ha. lia. }
  split.
  - destruct (Hag3 h Hsep3) as [Hag' Hlen'].
    exact (alloc_read_all _ _ _ _ h Ha1 Hag' Hlen').
  - intros s. pose proof Hsep3 as (Hl3 & _ & Hcl3).
    assert (Hcopy3 : within (length h1) (length h) copy)
      by (apply (within_mono _ _ _ _ _ Hcopy); lia).
    destruct s as [q | v]; simpl.
    + destruct (navigate h copy q) as [upd|] eqn:Hnav; [|exact I].
      destruct (Hag3 h Hsep3) as [Hag' Hlen'].
      apply (commit_run st rc filter (fetched d) h0 orig h1 upd (with_heap w h) Ha1 Hag' Hlen').
      exact (navigate_within _ _ _ _ _ Hcl3 Hcopy3 Hnav).
    + destruct (alloc v h) as [upd h'] eqn:Hav.
      destruct (alloc_separated _ _ _ _ _ _ Hsep3 ltac:(lia) Hav) as (Hsep' & Hupd & _).
      destruct (Hag3 h' Hsep') as [Hag' Hlen'].
      exact (commit_run st rc filter (fetched d) h0 orig h1 upd (with_heap w h') Ha1 Hag' Hlen' Hupd).
Qed.

End Isolation.

(** * The differ *)

Lemma deepDiff_arr la ra p : deepDiff (VArr la) (VArr ra) p = diff_elems p la ra 0.
Proof. reflexivity. Qed.

Lemma deepDiff_obj c lk d rk p :
  deepDiff (VObj c lk) (VObj d rk) p = diff_props p rk lk (map Some (keys rk)).
Proof. reflexivity. Qed.

Lemma wf_value_arr l : wf_value (VArr l) <-> Forall wf_value l.
Proof.
  simpl. induction l as [| x l IH]; [split; [constructor | trivial]|].
  rewrite Forall_cons, <- IH. reflexivity.
Qed.

Lemma wf_value_obj c kvs :
  wf_value (VObj c kvs) <-> NoDup (keys kvs) /\ Forall (fun kv => wf_value (snd kv)) kvs.
Proof.
  simpl. apply and_iff_compat_l.
  induction kvs as [| x l IH]; [split; [constructor | trivial]|].
  rewrite Forall_cons, <- IH. reflexivity.
Qed.

Lemma dates_valid_arr l : dates_valid (VArr l) <-> Forall dates_valid l.
Proof.
  simpl. induction l as [| x l IH]; [split; [constructor | trivial]|].
  rewrite Forall_cons, <- IH. reflexivity.
Qed.

Lemma dates_valid_obj c kvs :
  dates_valid (VObj c kvs) <-> Forall (fun kv => dates_valid (snd kv)) kvs.
Proof.
  simpl. induction kvs as [| x l IH]; [split; [constructor | trivial]|].
  rewrite Forall_cons, <- IH. reflexivity.
Qed.

Lemma regular_arr l : regular (VArr l) <-> Forall regular l.
Proof.
  unfold regular. rewrite wf_value_arr, dates_valid_arr, !Forall_forall. firstorder.
Qed.

Lemma regular_obj c kvs :
  regular (VObj c kvs) <-> NoDup (keys kvs) /\ Forall (fun kv => regular (snd kv)) kvs.
Proof.
  unfold regular. rewrite wf_value_obj, dates_valid_obj, !Forall_forall. firstorder.
Qed.

Lemma prim_eqb_refl p : prim_eqb p p = true.
Proof. now apply prim_eqb_eq. Qed.

(** The blanked prefix of [pkeys] grows by one at each key of [lhs] that
    [rhs] has at the same place. *)
Lemma take_key_aligned k n rest :
  take_key k (repeat None n ++ Some k :: rest) = Some (repeat None (S n) ++ rest).
Proof.
  induction n as [| n IH]; simpl.
  - now rewrite String.eqb_refl.
  - now rewrite IH.
Qed.

Lemma new_keys_blank p rk n : new_keys p rk (repeat None n) = [].
Proof. induction n; simpl; auto. Qed.

(** When [rhs] has the keys of [lhs] in the same order, the object loop
    compares the values key by key and reports nothing else. *)
Lemma diff_props_aligned p rk : forall lk n,
  diff_props p rk lk (repeat None n ++ map Some (keys lk))
  = flat_map (fun kv => deepDiff (snd kv) (default VUndef (lookup_prop (fst kv) rk))
                          (p ++ [PKey (fst kv)])) lk.
Proof.
  induction lk as [| [k lv] lk IH]; intros n; simpl.
  - rewrite app_nil_r. apply new_keys_blank.
  - rewrite take_key_aligned. now rewrite IH.
Qed.

Lemma lookup_prop_NoDup {A} k (v : A) kvs :
  NoDup (keys kvs) -> In (k, v) kvs -> lookup_prop k kvs = Some v.
Proof.
  induction kvs as [| [k' v'] kvs IH]; simpl; intros Hnd Hin; [destruct Hin|].
  apply NoDup_cons in Hnd. destruct Hnd as [Hk Hnd].
  destruct Hin as [[= -> ->] | Hin]; [now rewrite String.eqb_refl|].
  destruct (String.eqb k k') eqn:E; [|now apply IH].
  apply String.eqb_eq in E. subst k'. destruct Hk.
  apply list_elem_of_In, in_map_iff. now exists (k, v).
Qed.

Lemma flat_map_nil {A B} (f : A -> list B) l :
  (forall x, In x l -> f x = []) -> flat_map f l = [].
Proof.
  induction l as [| x l IH]; simpl; intros Hf; [reflexivity|].
  rewrite Hf by now left. apply IH. intros y Hy. apply Hf. now right.
Qed.

(** A regular tree differs from itself nowhere. *)
Lemma deepDiff_refl v : regular v -> forall p, deepDiff v v p = [].
Proof.
  induction v as [q | l IH | c kvs IH] using value_induction; intros Hreg p.
  - destruct Hreg as [_ Hd].
    destruct q as [| | b | n | s | [t|]]; simpl in *;
      rewrite ?Bool.eqb_reflx, ?Z.eqb_refl, ?String.eqb_refl; try reflexivity.
    + unfold strict_differs. simpl. now rewrite Bool.eqb_reflx.
    + unfold strict_differs. simpl. now rewrite Z.eqb_refl.
    + unfold strict_differs. simpl. now rewrite String.eqb_refl.
    + destruct Hd.
  - rewrite deepDiff_arr. apply regular_arr in Hreg. generalize 0.
    induction IH as [| x l Hx _ IHl]; intros i; simpl; [reflexivity|].
    apply Forall_cons in Hreg. destruct Hreg as [Hrx Hrl].
    now rewrite IHl, Hx.
  - rewrite deepDiff_obj. apply regular_obj in Hreg. destruct Hreg as [Hnd Hreg].
    rewrite (diff_props_aligned p kvs kvs 0
               : diff_props p kvs kvs (map Some (keys kvs)) = _).
    apply flat_map_nil. intros [k lv] Hin. simpl.
    rewrite (lookup_prop_NoDup k lv kvs Hnd Hin). simpl.
    rewrite Forall_forall in IH, Hreg. apply list_elem_of_In in Hin.
    apply (IH (k, lv) Hin). apply (Hreg (k, lv) Hin).
Qed.

Lemma diff_elems_refl p l : Forall regular l -> forall i, diff_elems p l l i = [].
Proof.
  induction 1 as [| x l Hx _ IH]; intros i; simpl; [reflexivity|].
  now rewrite IH, deepDiff_refl.
Qed.

(** Two arrays that differ in one element differ as the two elements
    do. *)
Lemma diff_elems_point p l : forall i0 i x x',
  l !! i = Some x -> Forall regular l ->
  diff_elems p l (<[i := x']> l) i0 = deepDiff x x' (p ++ [PIdx (i0 + i)]).
Proof.
  induction l as [| y l IH]; intros i0 i x x' Hi Hreg; [discriminate|].
  apply Forall_cons in Hreg. destruct Hreg as [Hy Hl].
  destruct i as [| i]; simpl in *.
  - injection Hi as ->. rewrite diff_elems_refl by exact Hl. now rewrite Nat.add_0_r.
  - rewrite (IH (S i0) i x x' Hi Hl), deepDiff_refl by exact Hy.
    rewrite app_nil_r. now replace (S i0 + i) with (i0 + S i) by lia.
Qed.

Lemma keys_set_prop_present {A} k (v x : A) kvs :
  lookup_prop k kvs = Some x -> keys (set_prop k v kvs) = keys kvs.
Proof. intros Hl. rewrite keys_set_prop. unfold has_prop. now rewrite Hl. Qed.

Lemma flat_map_point {B} (f : string * value -> list B) k x (kvs : props_t) :
  NoDup (keys kvs) -> lookup_prop k kvs = Some x ->
  (forall k0 lv, In (k0, lv) kvs -> k0 <> k -> f (k0, lv) = []) ->
  flat_map f kvs = f (k, x).
Proof.
  induction kvs as [| [k' v'] kvs IH]; simpl; intros Hnd Hl Hf; [discriminate|].
  apply NoDup_cons in Hnd. destruct Hnd as [Hk Hnd].
  destruct (String.eqb k k') eqn:E.
  - apply String.eqb_eq in E. subst k'. injection Hl as ->.
    rewrite flat_map_nil; [now rewrite app_nil_r|].
    intros [k0 lv] Hin. apply Hf; [now right|]. intros ->. apply Hk.
    apply list_elem_of_In, in_map_iff. now exists (k, lv).
  - apply String.eqb_neq in E. rewrite (Hf k' v' (or_introl eq_refl));
      [|congruence].
    simpl. apply IH; auto.
Qed.

(** Two objects that differ in the value of one key differ as the two
    values do. *)
Lemma diff_props_point p c kvs k x x' :
  regular (VObj c kvs) -> lookup_prop k kvs = Some x ->
  deepDiff (VObj c kvs) (VObj c (set_prop k x' kvs)) p = deepDiff x x' (p ++ [PKey k]).
Proof.
  intros Hreg Hl. apply regular_obj in Hreg. destruct Hreg as [Hnd Hreg].
  rewrite deepDiff_obj, (keys_set_prop_present k x' x kvs Hl).
  rewrite (diff_props_aligned p (set_prop k x' kvs) kvs 0
           : diff_props p _ kvs (map Some (keys kvs)) = _).
  rewrite (flat_map_point _ k x kvs Hnd Hl).
  - simpl. now rewrite lookup_set_prop_eq.
  - intros k0 lv Hin Hne. simpl. rewrite lookup_set_prop_ne by exact Hne.
    rewrite (lookup_prop_NoDup k0 lv kvs Hnd Hin). simpl.
    apply deepDiff_refl. rewrite Forall_forall in Hreg.
    apply (Hreg (k0, lv)). now apply list_elem_of_In.
Qed.

Lemma deepDiff_prims old new p :
  old <> new -> deepDiff (VPrim old) (VPrim new) p = [DiffEdit p (VPrim old) (VPrim new)].
Proof.
  intros Hne. unfold deepDiff.
  destruct (String.eqb (realTypeOf (VPrim old)) (realTypeOf (VPrim new))) eqn:E;
    [|reflexivity].
  simpl. destruct old as [| | a | a | a | [a|]], new as [| | b | b | b | [b|]];
    try discriminate; try congruence; cbn;
    unfold strict_differs; cbn.
  - destruct (Bool.eqb a b) eqn:Eb; [|reflexivity].
    apply Bool.eqb_prop in Eb. congruence.
  - destruct (Z.eqb a b) eqn:Eb; [|reflexivity]. apply Z.eqb_eq in Eb. congruence.
  - destruct (String.eqb a b) eqn:Eb; [|reflexivity]. apply String.eqb_eq in Eb. congruence.
  - destruct (Z.eqb a b) eqn:Eb; [|reflexivity]. apply Z.eqb_eq in Eb. congruence.
  - reflexivity.
  - reflexivity.
Qed.

Lemma regular_lookup c kvs k x :
  regular (VObj c kvs) -> lookup_prop k kvs = Some x -> regular x.
Proof.
  intros Hreg Hl. apply regular_obj in Hreg. destruct Hreg as [_ Hreg].
  rewrite Forall_forall in Hreg.
  assert (Hin : In (k, x) kvs).
  { clear Hreg. induction kvs as [| [k' v'] kvs IH]; simpl in *; [discriminate|].
    destruct (String.eqb k k') eqn:E; [|right; auto].
    apply String.eqb_eq in E. injection Hl as ->. subst. now left. }
  apply (Hreg (k, x)). now apply list_elem_of_In.
Qed.

Lemma regular_elem l i x : regular (VArr l) -> l !! i = Some x -> regular x.
Proof.
  intros Hreg Hi. apply regular_arr in Hreg. rewrite Forall_forall in Hreg.
  apply Hreg. eapply list_elem_of_lookup_2. exact Hi.
Qed.

(** * Serialization of a point update *)

(** Assigning the properties of an object that has the same keys in the
    same order gives that object. *)
Lemma set_prop_app_new {A} k (v t : A) pre rest :
  ~ In k (keys pre) ->
  set_prop k v (pre ++ (k, t) :: rest) = pre ++ (k, v) :: rest.
Proof.
  induction pre as [| [k' v'] pre IH]; simpl; intros Hk.
  - now rewrite String.eqb_refl.
  - destruct (String.eqb k k') eqn:E.
    + apply String.eqb_eq in E. subst k'. destruct Hk. now left.
    + rewrite IH; [reflexivity|]. intros Hin. apply Hk. now right.
Qed.

Lemma assign_aligned {A} (source : list (string * A)) : forall pre target,
  keys target = keys source -> NoDup (keys pre ++ keys source) ->
  assign (pre ++ target) source = pre ++ source.
Proof.
  unfold assign.
  induction source as [| [k v] source IH]; intros pre [| [k' t] target] Hk Hnd;
    try discriminate; simpl in *.
  - reflexivity.
  - injection Hk as -> Hk.
    rewrite set_prop_app_new.
    2:{ apply NoDup_app in Hnd. destruct Hnd as (_ & Hd & _).
        intros Hin. apply (Hd k); [now apply list_elem_of_In | left]. }
    change (pre ++ (k, v) :: target) with (pre ++ [(k, v)] ++ target).
    change (pre ++ (k, v) :: source) with (pre ++ [(k, v)] ++ source).
    rewrite !app_assoc. apply IH; [exact Hk|].
    unfold keys. rewrite map_app. simpl. now rewrite <- app_assoc.
Qed.

Lemma assign_same_keys {A} (target source : list (string * A)) :
  keys target = keys source -> NoDup (keys target) -> assign target source = source.
Proof.
  intros Hk Hnd. apply (assign_aligned source [] target Hk). simpl. now rewrite <- Hk.
Qed.

(** The decimal numeral of an index is no identifier key. *)
Lemma id_key_digits d : id_key (NilEmpty.string_of_uint d) = false.
Proof.
  induction d as [| d IH | d IH | d IH | d IH | d IH | d IH | d IH | d IH | d IH | d IH];
    [reflexivity | ..];
    unfold id_key in *; apply orb_false_iff in IH; destruct IH as [IH _];
    cbn [NilEmpty.string_of_uint endsWith]; rewrite IH; reflexivity.
Qed.

Lemma id_key_index i : id_key (string_of_nat i) = false.
Proof.
  unfold string_of_nat, NilZero.string_of_uint.
  destruct (Nat.to_uint i) eqn:E; try (rewrite <- E; apply id_key_digits).
  reflexivity.
Qed.

Section Serialize.
Context `{Collaborators}.

Lemma reviver_kept k v : revived k v = false -> reviver k v = v.
Proof. unfold reviver, revived, id_key. now intros ->. Qed.

Lemma revived_index i v : revived (string_of_nat i) v = false.
Proof. unfold revived. now rewrite id_key_index. Qed.

Lemma jsonify_props_set k x x' jx' kvs :
  lookup_prop k kvs = Some x -> jsonify x <> None -> jsonify x' = Some jx' ->
  jsonify_props (set_prop k x' kvs) = set_prop k jx' (jsonify_props kvs).
Proof.
  intros Hl Hx Hx'. induction kvs as [| [k' v'] kvs IH]; simpl in *; [discriminate|].
  destruct (String.eqb k k') eqn:E.
  - apply String.eqb_eq in E. subst k'. injection Hl as ->. simpl. rewrite Hx'.
    destruct (jsonify x); [|congruence]. simpl. now rewrite String.eqb_refl.
  - simpl. destruct (jsonify v'); simpl; rewrite ?E, IH; auto.
Qed.

Lemma jsonify_elems_insert i x' l :
  jsonify_elems (<[i := x']> l) = <[i := default VNull (jsonify x')]> (jsonify_elems l).
Proof.
  revert i. induction l as [| y l IH]; intros [| i]; simpl; try reflexivity.
  now rewrite IH.
Qed.

Lemma lookup_jsonify_elems i l :
  jsonify_elems l !! i = (fun x => default VNull (jsonify x)) <$> l !! i.
Proof. revert i. induction l as [| y l IH]; intros [| i]; simpl; auto. Qed.

Lemma revive_props_set k x' kvs :
  revive_props (set_prop k x' kvs) = set_prop k (revive k x') (revive_props kvs).
Proof.
  induction kvs as [| [k' v'] kvs IH]; simpl; [reflexivity|].
  destruct (String.eqb k k') eqn:E; simpl; [reflexivity|]. now rewrite IH.
Qed.

Lemma revive_elems_insert i x' l : forall i0,
  revive_elems (<[i := x']> l) i0
  = <[i := revive (string_of_nat (i0 + i)) x']> (revive_elems l i0).
Proof.
  revert i. induction l as [| y l IH]; intros [| i] i0; simpl; try reflexivity.
  - now rewrite Nat.add_0_r.
  - rewrite IH. now replace (S i0 + i) with (i0 + S i) by lia.
Qed.

Lemma lookup_revive_elems i l : forall i0,
  revive_elems l i0 !! i = revive (string_of_nat (i0 + i)) <$> l !! i.
Proof.
  revert i. induction l as [| y l IH]; intros [| i] i0; simpl; try reflexivity.
  - now rewrite Nat.add_0_r.
  - rewrite IH. now replace (S i0 + i) with (i0 + S i) by lia.
Qed.

(** What [JSON.parse(JSON.stringify(v))] returns has no date in it, and
    no object of it repeats a key when none of [v] does. *)
Lemma jsonify_regular v : wf_value v -> forall j, jsonify v = Some j -> regular j.
Proof.
  induction v as [p | l IH | c kvs IH] using value_induction; intros Hwf j Hj.
  - destruct p as [| | b | n | s | [t|]]; simpl in Hj; try discriminate;
      injection Hj as <-; split; exact I.
  - rewrite jsonify_arr in Hj. injection Hj as <-. apply regular_arr.
    apply wf_value_arr in Hwf. clear -IH Hwf.
    induction IH as [| x l Hx _ IHl]; simpl; [constructor|].
    apply Forall_cons in Hwf. destruct Hwf as [Hwx Hwl].
    apply Forall_cons. split; [|now apply IHl].
    destruct (jsonify x) as [jx|] eqn:E; simpl; [now apply Hx | split; exact I].
  - destruct c.
    + rewrite jsonify_obj in Hj. injection Hj as <-. apply regular_obj.
      apply wf_value_obj in Hwf. destruct Hwf as [Hnd Hwf].
      split; [now apply NoDup_jsonify_props|]. clear -IH Hwf.
      induction IH as [| [k x] l Hx _ IHl]; simpl; [constructor|].
      apply Forall_cons in Hwf. destruct Hwf as [Hwx Hwl].
      destruct (jsonify x) as [jx|] eqn:E; [|now apply IHl].
      apply Forall_cons. split; [now apply Hx | now apply IHl].
    + simpl in Hj. injection Hj as <-. split; exact I.
Qed.

(** What the driver guarantees of the identifiers it builds. *)
Hypothesis ObjectId_regular :
  forall v, ObjectId_isValid v = true -> regular (VObj ObjectIdCls (ObjectId_new v)).

Lemma reviver_regular k v : regular v -> regular (reviver k v).
Proof using ObjectId_regular.
  intros Hv. unfold reviver. destruct (endsWith k "Id" || String.eqb k "_id"); simpl; [|exact Hv].
  destruct (ObjectId_isValid v) eqn:E; auto.
Qed.

Lemma revive_regular v : regular v -> forall k, regular (revive k v).
Proof using ObjectId_regular.
  induction v as [p | l IH | c kvs IH] using value_induction; intros Hv k.
  - simpl. now apply reviver_regular.
  - rewrite revive_arr. apply reviver_regular, regular_arr.
    apply regular_arr in Hv. clear -IH Hv. generalize 0.
    induction IH as [| x l Hx _ IHl]; intros i0; simpl; [constructor|].
    apply Forall_cons in Hv. destruct Hv as [Hvx Hvl].
    apply Forall_cons. split; [now apply Hx | now apply IHl].
  - rewrite revive_obj. apply reviver_regular, regular_obj.
    apply regular_obj in Hv. destruct Hv as [Hnd Hv].
    split; [now rewrite keys_revive_props|]. clear -IH Hv.
    induction IH as [| [k' x] l Hx _ IHl]; simpl; [constructor|].
    apply Forall_cons in Hv. destruct Hv as [Hvx Hvl].
    apply Forall_cons. split; [now apply Hx | now apply IHl].
Qed.

(** [serialize] returns regular trees. *)
Lemma serialize_regular v s : wf_value v -> serialize v = Ok s -> regular s.
Proof using ObjectId_regular.
  unfold serialize. intros Hwf Hs. destruct (jsonify v) as [j|] eqn:Hj; [|discriminate].
  injection Hs as <-. apply revive_regular. now apply (jsonify_regular v).
Qed.

Lemma jsonify_prim p : json_prim p = true -> jsonify (VPrim p) = Some (VPrim p).
Proof. destruct p; simpl; congruence. Qed.

(** [serialize] goes through the assignment of a scalar to a key of an
    element of an array of the document: the reviver sees the old and
    the new value under that key. *)
Lemma serialize_subdocument_assign kvs field l i ekvs key x old new :
  lookup_prop field kvs = Some (VArr l) ->
  l !! i = Some (obj ekvs) ->
  lookup_prop key ekvs = Some x ->
  jsonify x = Some (VPrim old) -> json_prim new = true ->
  (forall l', revived field (VArr l') = false) ->
  let kvs_s := revive_props (jsonify_props kvs) in
  exists l_s ekvs_s,
    lookup_prop field kvs_s = Some (VArr l_s) /\
    l_s !! i = Some (obj ekvs_s) /\
    lookup_prop key ekvs_s = Some (reviver key (VPrim old)) /\
    revive_props (jsonify_props
      (set_prop field (VArr (<[i := obj (set_prop key (VPrim new) ekvs)]> l)) kvs))
    = set_prop field
        (VArr (<[i := obj (set_prop key (reviver key (VPrim new)) ekvs_s)]> l_s)) kvs_s.
Proof.
  intros Hfield Hi Hkey Hold Hnew Hidf kvs_s.
  exists (revive_elems (jsonify_elems l) 0), (revive_props (jsonify_props ekvs)).
  split; [|split; [|split]].
  - unfold kvs_s. rewrite lookup_revive_props.
    rewrite (lookup_jsonify_props _ _ _ _ Hfield (jsonify_arr l)). simpl.
    now rewrite reviver_kept.
  - rewrite lookup_revive_elems, lookup_jsonify_elems, Hi. simpl.
    now rewrite reviver_kept by apply revived_index.
  - rewrite lookup_revive_props.
    rewrite (lookup_jsonify_props _ _ _ _ Hkey Hold). reflexivity.
  - rewrite (jsonify_props_set field (VArr l) _ _ kvs Hfield ltac:(discriminate)
               (jsonify_arr _)).
    rewrite revive_props_set, revive_arr, reviver_kept by apply Hidf.
    rewrite jsonify_elems_insert, revive_elems_insert, jsonify_obj. cbn [default Nat.add].
    unfold id. rewrite revive_obj, reviver_kept by apply revived_index.
    rewrite (jsonify_props_set key x _ _ ekvs Hkey
               ltac:(rewrite Hold; discriminate)
               (jsonify_prim new Hnew)).
    rewrite revive_props_set. reflexivity.
Qed.

(** The changes [createChangelog] records between a document and the
    document with another value under one key of one subdocument: the
    differences of the two values, reported against
    [field, index, key]. *)
Lemma createChangelog_subdocument_assign now rc kvs field l i ekvs key v v' :
  regular (obj kvs) ->
  lookup_prop field kvs = Some (VArr l) ->
  l !! i = Some (obj ekvs) ->
  lookup_prop key ekvs = Some v ->
  cl_changes
    (createChangelog now rc (obj kvs)
       (obj (set_prop field (VArr (<[i := obj (set_prop key v' ekvs)]> l)) kvs)))
  = map json_of_change (deepDiff v v' [PKey field; PIdx i; PKey key]).
Proof.
  intros Hreg Hfield Hi Hkey.
  pose proof (regular_lookup _ _ _ _ Hreg Hfield) as Hl.
  pose proof (regular_elem _ _ _ Hl Hi) as He.
  unfold createChangelog, cloneDeep, objectAssign. cbn [cl_changes enumerable_props].
  rewrite assign_same_keys.
  2:{ symmetry. eapply keys_set_prop_present. exact Hfield. }
  2:{ now apply regular_obj in Hreg. }
  unfold diff.
  rewrite (diff_props_point [] Plain kvs field (VArr l) _ Hreg Hfield).
  rewrite deepDiff_arr.
  rewrite (diff_elems_point _ l 0 i (obj ekvs) _ Hi (proj1 (regular_arr l) Hl)).
  rewrite (diff_props_point _ Plain ekvs key v _ He Hkey).
  cbn [app Nat.add].
  now destruct (deepDiff v v' _).
Qed.

Lemma json_of_edit p old new :
  json_prim old = true -> json_prim new = true ->
  json_of_change (DiffEdit p (VPrim old) (VPrim new))
  = obj ([("kind", VStr "E")] ++ json_path p ++ [("lhs", VPrim old); ("rhs", VPrim new)]).
Proof.
  intros Hold Hnew. cbn [json_of_change]. unfold json_field.
  now rewrite !jsonify_prim by assumption.
Qed.

End Serialize.

(** * A point update in the heap *)

Lemma alloc_prefix v h r h1 : alloc v h = (r, h1) -> h `prefix_of` h1.
Proof. intros Ha. destruct (alloc_app _ _ _ _ Ha) as [cs ->]. now exists cs. Qed.

Lemma alloc_props_prefix l h rs h1 : alloc_props l h = (rs, h1) -> h `prefix_of` h1.
Proof. intros Ha. destruct (alloc_props_app _ _ _ _ Ha) as [cs ->]. now exists cs. Qed.

Lemma alloc_elems_prefix l h rs h1 : alloc_elems l h = (rs, h1) -> h `prefix_of` h1.
Proof. intros Ha. destruct (alloc_elems_app _ _ _ _ Ha) as [cs ->]. now exists cs. Qed.

Lemma prefix_agree (h h' : heap) j : h `prefix_of` h' -> j < length h -> h' !! j = h !! j.
Proof. intros [cs ->] Hj. now apply lookup_app_l. Qed.

Lemma prefix_le (h h' : heap) : h `prefix_of` h' -> length h <= length h'.
Proof. intros [cs ->]. rewrite length_app. lia. Qed.

(** The cells of one property of an object lie between those of the
    properties before it and those of the properties after it; a heap
    that differs from the one [alloc] returned only in the cells of that
    property reads the object with that property replaced by what it
    reads there. *)
Lemma alloc_props_context kvs : forall h rs h',
  alloc_props kvs h = (rs, h') ->
  forall k x, lookup_prop k kvs = Some x ->
  exists r ha hb,
    lookup_prop k rs = Some r /\ alloc x ha = (r, hb) /\
    h `prefix_of` ha /\ hb `prefix_of` h' /\
    forall (g : heap) fuel x',
      (forall j, length h <= j < length h' ->
                 ~ (length ha <= j < length hb) -> g !! j = h' !! j) ->
      depth_props kvs < fuel ->
      read fuel g r = Some x' ->
      mapM (fun kr => pair (fst kr) <$> read fuel g (snd kr)) rs
      = Some (set_prop k x' kvs).
Proof.
  induction kvs as [| [k' v'] kvs IH]; intros h rs h' Ha k x Hl; [discriminate|].
  simpl in Ha, Hl.
  destruct (alloc v' h) as [r0 h_a] eqn:Hv.
  destruct (alloc_props kvs h_a) as [rs' h_b] eqn:Hrest.
  injection Ha as <- <-.
  pose proof (alloc_prefix _ _ _ _ Hv) as Hp1.
  pose proof (alloc_props_prefix _ _ _ _ Hrest) as Hp2.
  pose proof (prefix_le _ _ Hp1). pose proof (prefix_le _ _ Hp2).
  destruct (String.eqb k k') eqn:E.
  - apply String.eqb_eq in E. subst k'. injection Hl as ->.
    exists r0, h, h_a. simpl. rewrite String.eqb_refl.
    split; [reflexivity|]. split; [exact Hv|]. split; [reflexivity|]. split; [exact Hp2|].
    intros g fuel x' Hsame Hf Hr. rewrite Hr. simpl.
    rewrite (alloc_props_read kvs (all_read_back_props kvs)
               _ _ _ g fuel Hrest).
    + reflexivity.
    + intros j Hj. apply Hsame; lia.
    + unfold depth_props in *. simpl in Hf. lia.
  - destruct (IH _ _ _ Hrest k x Hl) as (r & ha & hb & Hlr & Hax & Hpa & Hpb & Hctx).
    pose proof (prefix_le _ _ Hpa). pose proof (prefix_le _ _ Hpb).
    exists r, ha, hb. simpl. rewrite E.
    split; [exact Hlr|]. split; [exact Hax|].
    split; [now transitivity h_a|]. split; [exact Hpb|].
    intros g fuel x' Hsame Hf Hr.
    unfold depth_props in *. simpl in Hf.
    rewrite (alloc_read v' _ _ _ g fuel Hv); [| |lia].
    + simpl. rewrite (Hctx g fuel x'); [reflexivity| |lia|exact Hr].
      intros j Hj Hn. apply Hsame; [lia | exact Hn].
    + intros j Hj. rewrite Hsame by lia. apply prefix_agree; [exact Hp2 | lia].
Qed.

Lemma all_read_back_elems (l : list value) : Forall reads_back l.
Proof. apply Forall_forall. intros x _. apply alloc_read. Qed.

(** The same for one element of an array. *)
Lemma alloc_elems_context l : forall h rs h',
  alloc_elems l h = (rs, h') ->
  forall i x, l !! i = Some x ->
  exists r ha hb,
    rs !! i = Some r /\ alloc x ha = (r, hb) /\
    h `prefix_of` ha /\ hb `prefix_of` h' /\
    forall (g : heap) fuel x',
      (forall j, length h <= j < length h' ->
                 ~ (length ha <= j < length hb) -> g !! j = h' !! j) ->
      depth_elems l < fuel ->
      read fuel g r = Some x' ->
      mapM (read fuel g) rs = Some (<[i := x']> l).
Proof.
  induction l as [| v' l IH]; intros h rs h' Ha i x Hl; [discriminate|].
  simpl in Ha.
  destruct (alloc v' h) as [r0 h_a] eqn:Hv.
  destruct (alloc_elems l h_a) as [rs' h_b] eqn:Hrest.
  injection Ha as <- <-.
  pose proof (alloc_prefix _ _ _ _ Hv) as Hp1.
  pose proof (alloc_elems_prefix _ _ _ _ Hrest) as Hp2.
  pose proof (prefix_le _ _ Hp1). pose proof (prefix_le _ _ Hp2).
  destruct i as [| i]; simpl in Hl.
  - injection Hl as ->.
    exists r0, h, h_a. simpl.
    split; [reflexivity|]. split; [exact Hv|]. split; [reflexivity|]. split; [exact Hp2|].
    intros g fuel x' Hsame Hf Hr. rewrite Hr. simpl.
    rewrite (alloc_elems_read l (all_read_back_elems l) _ _ _ g fuel Hrest).
    + reflexivity.
    + intros j Hj. apply Hsame; lia.
    + unfold depth_elems in *. simpl in Hf. lia.
  - destruct (IH _ _ _ Hrest i x Hl) as (r & ha & hb & Hlr & Hax & Hpa & Hpb & Hctx).
    pose proof (prefix_le _ _ Hpa). pose proof (prefix_le _ _ Hpb).
    exists r, ha, hb. simpl.
    split; [exact Hlr|]. split; [exact Hax|].
    split; [now transitivity h_a|]. split; [exact Hpb|].
    intros g fuel x' Hsame Hf Hr.
    unfold depth_elems in *. simpl in Hf.
    rewrite (alloc_read v' _ _ _ g fuel Hv); [| |lia].
    + simpl. rewrite (Hctx g fuel x'); [reflexivity| |lia|exact Hr].
      intros j Hj Hn. apply Hsame; [lia | exact Hn].
    + intros j Hj. rewrite Hsame by lia. apply prefix_agree; [exact Hp2 | lia].
Qed.

Lemma mapM_set_prop {A B} (f : A -> option B) k r x :
  forall (rs : list (string * A)) (kvs : list (string * B)),
    mapM (fun kr => pair (fst kr) <$> f (snd kr)) rs = Some kvs ->
    f r = Some x ->
    mapM (fun kr => pair (fst kr) <$> f (snd kr)) (set_prop k r rs)
      = Some (set_prop k x kvs).
Proof.
  induction rs as [| [k' r'] rs IH]; intros kvs Hm Hr; simpl in Hm.
  - injection Hm as <-. simpl. now rewrite Hr.
  - destruct (f r') as [x'|] eqn:Hr'; simpl in Hm; [|discriminate].
    destruct (mapM _ rs) as [kvs'|] eqn:Hrs; simpl in Hm; [|discriminate].
    injection Hm as <-. simpl. destruct (String.eqb k k').
    + simpl. rewrite Hr. simpl. now rewrite Hrs.
    + simpl. rewrite Hr'. simpl. now rewrite (IH kvs' eq_refl Hr).
Qed.

Lemma depth_lookup_prop k (kvs : props_t) x :
  lookup_prop k kvs = Some x -> depth x <= depth_props kvs.
Proof.
  unfold depth_props.
  induction kvs as [| [k' v'] kvs IH]; simpl; [discriminate|].
  destruct (String.eqb k k'); [intros [= ->]; lia|].
  intros Hl. specialize (IH Hl). lia.
Qed.

Lemma depth_lookup_elem i (l : list value) x :
  l !! i = Some x -> depth x <= depth_elems l.
Proof.
  unfold depth_elems. revert i.
  induction l as [| v' l IH]; intros [| i]; simpl; try discriminate.
  - intros [= ->]. lia.
  - intros Hl. specialize (IH i Hl). lia.
Qed.

Lemma alloc_obj_inv c kvs h r h1 :
  alloc (VObj c kvs) h = (r, h1) ->
  exists rs h', alloc_props kvs h = (rs, h') /\ r = HRef (length h') /\
                h1 = h' ++ [CObj c rs].
Proof.
  rewrite alloc_obj. destruct (alloc_props kvs h) as [rs h'].
  intros [= <- <-]. eauto.
Qed.

Lemma alloc_arr_inv l h r h1 :
  alloc (VArr l) h = (r, h1) ->
  exists rs h', alloc_elems l h = (rs, h') /\ r = HRef (length h') /\
                h1 = h' ++ [CArr rs].
Proof.
  rewrite alloc_arr. destruct (alloc_elems l h) as [rs h'].
  intros [= <- <-]. eauto.
Qed.

Lemma lookup_last_cell (h : heap) c : (h ++ [c]) !! length h = Some c.
Proof. now apply list_lookup_middle. Qed.

(** The graph [alloc] builds for a document with an array of
    subdocuments: the cell of the document, the cell of the array in it,
    the cell of the subdocument in that.  A heap that differs from the
    one [alloc] returned in the cell of the subdocument, where one key
    was assigned a primitive, and possibly in the cell of the document,
    reads the properties of the document with that one change. *)
Lemma alloc_subdocument kvs field l i ekvs h1 copy h2 :
  alloc (obj kvs) h1 = (copy, h2) ->
  lookup_prop field kvs = Some (VArr l) ->
  l !! i = Some (obj ekvs) ->
  exists lc rs la ers le eprs,
    copy = HRef lc /\ h2 !! lc = Some (CObj Plain rs) /\
    lookup_prop field rs = Some (HRef la) /\ h2 !! la = Some (CArr ers) /\
    ers !! i = Some (HRef le) /\ h2 !! le = Some (CObj Plain eprs) /\
    length h1 <= le /\ le < lc /\ lc < length h2 /\
    mapM (read_all h2) ers = Some l /\
    forall (g : heap) key new fuel,
      (forall j, length h1 <= j < length h2 -> j <> le -> j <> lc ->
                 g !! j = h2 !! j) ->
      g !! le = Some (CObj Plain (set_prop key (HPrim new) eprs)) ->
      depth_props kvs < fuel ->
      mapM (fun kr => pair (fst kr) <$> read fuel g (snd kr)) rs
      = Some (set_prop field
                (VArr (<[i := obj (set_prop key (VPrim new) ekvs)]> l)) kvs).
Proof.
  intros Ha Hfield Hi.
  destruct (alloc_obj_inv _ _ _ _ _ Ha) as (rs & h' & Hprops & -> & ->).
  destruct (alloc_props_context _ _ _ _ Hprops field _ Hfield)
    as (ra & ha & hb & Hlr & Hax & Hp1 & Hp2 & Hctx1).
  destruct (alloc_arr_inv _ _ _ _ Hax) as (ers & he' & Helems & -> & ->).
  destruct (alloc_elems_context _ _ _ _ Helems i _ Hi)
    as (re & hc & hd & Hle & Hae & Hp3 & Hp4 & Hctx2).
  destruct (alloc_obj_inv _ _ _ _ _ Hae) as (eprs & hp' & Heprops & -> & ->).
  pose proof (alloc_props_prefix _ _ _ _ Heprops) as Hp5.
  pose proof (prefix_le _ _ Hp1) as L1. pose proof (prefix_le _ _ Hp2) as L2.
  pose proof (prefix_le _ _ Hp3) as L3. pose proof (prefix_le _ _ Hp4) as L4.
  pose proof (prefix_le _ _ Hp5) as L5.
  rewrite !length_app in L2, L4. simpl in L2, L4.
  assert (Hp6 : h' `prefix_of` h' ++ [CObj Plain rs]) by now eexists.
  assert (Hp7 : he' `prefix_of` he' ++ [CArr ers]) by now eexists.
  assert (Hp8 : hp' `prefix_of` hp' ++ [CObj Plain eprs]) by now eexists.
  pose proof (depth_lookup_prop _ _ _ Hfield) as D1.
  pose proof (depth_lookup_elem _ _ _ Hi) as D2.
  rewrite depth_arr in D1. rewrite depth_obj in D2.
  exists (length h'), rs, (length he'), ers, (length hp'), eprs.
  split; [reflexivity|]. split; [apply lookup_last_cell|]. split; [exact Hlr|].
  assert (Hla : (h' ++ [CObj Plain rs]) !! length he' = Some (CArr ers)).
  { eapply prefix_lookup_Some; [|exact Hp6].
    eapply prefix_lookup_Some; [|exact Hp2]. apply lookup_last_cell. }
  assert (Hlle : (h' ++ [CObj Plain rs]) !! length hp' = Some (CObj Plain eprs)).
  { eapply prefix_lookup_Some; [|exact Hp6].
    eapply prefix_lookup_Some; [|exact Hp2].
    eapply prefix_lookup_Some; [|exact Hp7].
    eapply prefix_lookup_Some; [|exact Hp4]. apply lookup_last_cell. }
  split; [exact Hla|]. split; [exact Hle|]. split; [exact Hlle|].
  rewrite length_app. simpl.
  split; [lia|]. split; [lia|]. split; [lia|].
  assert (Hbelow : forall (h : heap) j, h `prefix_of` h' -> j < length h ->
                                       (h' ++ [CObj Plain rs]) !! j = h !! j).
  { intros h j Hp Hj. rewrite (prefix_agree h' _ j Hp6).
    - now apply prefix_agree.
    - pose proof (prefix_le _ _ Hp). lia. }
  assert (Hhe : he' `prefix_of` h') by (transitivity (he' ++ [CArr ers]); assumption).
  assert (Hhp : hp' `prefix_of` h').
  { transitivity (hp' ++ [CObj Plain eprs]); [assumption|]. now transitivity he'. }
  split.
  - apply (alloc_elems_read l (all_read_back_elems l) _ _ _ _ _ Helems).
    + intros j Hj. apply Hbelow; [exact Hhe | lia].
    + pose proof (alloc_depth _ _ _ _ Hax) as Hd. rewrite depth_arr, length_app in Hd.
      simpl in Hd. rewrite ?length_app. simpl. lia.
  - intros g key new fuel Hsame Hcell Hf.
    rewrite ?length_app in Hsame. simpl in Hsame.
    apply (Hctx1 g fuel); [| exact Hf |].
    + intros j Hj Hn. rewrite length_app in Hn. simpl in Hn.
      rewrite Hsame by lia. apply prefix_agree; [exact Hp6 | lia].
    + destruct fuel as [| f]; [lia|]. simpl.
      rewrite Hsame, Hla by lia. simpl.
      rewrite (Hctx2 g f (obj (set_prop key (VPrim new) ekvs))); [reflexivity| |lia|].
      * intros j Hj Hn. rewrite length_app in Hn. simpl in Hn.
        rewrite Hsame by lia. apply Hbelow; [exact Hhe | lia].
      * destruct f as [| f']; [lia|]. simpl. rewrite Hcell. simpl.
        rewrite (mapM_set_prop (read f' g) key (HPrim new) (VPrim new) eprs ekvs);
          [reflexivity| |apply read_prim].
        apply (alloc_props_read ekvs (all_read_back_props ekvs) _ _ _ g f' Heprops);
          [|lia].
        intros j Hj. rewrite Hsame by lia. apply Hbelow; [exact Hhp | lia].
Qed.

Lemma find_elem_lookup pred (l : list value) : forall i0 i x,
  find_elem pred l i0 = Some (i, x) -> i0 <= i /\ l !! (i - i0) = Some x.
Proof.
  induction l as [| y l IH]; intros i0 i x Hf; simpl in Hf; [discriminate|].
  destruct (pred y).
  - injection Hf as <- <-. split; [lia|]. now rewrite Nat.sub_diag.
  - destruct (IH _ _ _ Hf) as [Hle Hl]. split; [lia|].
    replace (i - i0) with (S (i - S i0)) by lia. exact Hl.
Qed.

(** [find] on an array in the heap returns the reference held at the
    index of the first element the predicate accepts. *)
Lemma find_from_read pred (h : heap) : forall rs l i0 i x,
  mapM (read_all h) rs = Some l ->
  find_elem pred l i0 = Some (i, x) ->
  exists r, find_from pred h rs i0 = Some (i, r) /\ rs !! (i - i0) = Some r.
Proof.
  induction rs as [| r rs IH]; intros l i0 i x Hm Hf; simpl in Hm.
  - injection Hm as <-. discriminate.
  - destruct (read_all h r) as [y|] eqn:Hr; simpl in Hm; [|discriminate].
    destruct (mapM (read_all h) rs) as [l'|] eqn:Hrs; simpl in Hm; [|discriminate].
    injection Hm as <-. simpl in Hf. simpl. rewrite Hr.
    destruct (pred y).
    + injection Hf as <- <-. exists r. now rewrite Nat.sub_diag.
    + destruct (find_elem_lookup _ _ _ _ _ Hf) as [Hle _].
      destruct (IH l' (S i0) i x eq_refl Hf) as (r' & Hfr & Hl).
      exists r'. split; [exact Hfr|].
      replace (i - i0) with (S (i - S i0)) by lia. exact Hl.
Qed.

(** * Updating a subdocument *)

Lemma find_index_find (f : value -> bool) (l : list value) d : forall i0,
  List.find f l = Some d ->
  exists idx, find_index f l i0 = Some (i0 + idx) /\ l !! idx = Some d.
Proof.
  induction l as [| x l IH]; intros i0 Hf; simpl in *; [discriminate|].
  destruct (f x).
  - injection Hf as ->. exists 0. now rewrite Nat.add_0_r.
  - destruct (IH (S i0) Hf) as (idx & Hi & Hl). exists (S idx).
    split; [|exact Hl]. rewrite Hi. f_equal. lia.
Qed.

Lemma lookup_assign_absent {A} k (source : list (string * A)) : forall target,
  lookup_prop k source = None ->
  lookup_prop k (assign target source) = lookup_prop k target.
Proof.
  unfold assign.
  induction source as [| [k' v'] source IH]; intros target Hl; simpl in *; [reflexivity|].
  destruct (String.eqb k k') eqn:E; [discriminate|].
  rewrite (IH _ Hl). apply lookup_set_prop_ne. now apply String.eqb_neq.
Qed.

Lemma lookup_assign_present {A} k (v : A) (source : list (string * A)) : forall target,
  NoDup (keys source) -> lookup_prop k source = Some v ->
  lookup_prop k (assign target source) = Some v.
Proof.
  induction source as [| [k' v'] source IH]; intros target Hnd Hl; simpl in *;
    [discriminate|].
  apply NoDup_cons in Hnd. destruct Hnd as [Hk Hnd].
  destruct (String.eqb k k') eqn:E.
  - apply String.eqb_eq in E. subst k'. injection Hl as ->.
    change (assign target ((k, v) :: source)) with (assign (set_prop k v target) source).
    rewrite lookup_assign_absent; [apply lookup_set_prop_eq|].
    apply lookup_prop_None. now rewrite <- list_elem_of_In.
  - change (assign target ((k', v') :: source))
      with (assign (set_prop k' v' target) source).
    now apply IH.
Qed.

Lemma delete_set_prop_comm {A} k k' (v : A) (kvs : list (string * A)) x :
  k <> k' -> lookup_prop k kvs = Some x ->
  delete_prop k' (set_prop k v kvs) = set_prop k v (delete_prop k' kvs).
Proof.
  intros Hne Hl. pose proof Hne as Hne'. apply String.eqb_neq in Hne.
  induction kvs as [| [k2 v2] kvs IH]; simpl in *; [discriminate|].
  destruct (String.eqb k k2) eqn:E.
  - apply String.eqb_eq in E. subst k2. simpl.
    assert (E' : String.eqb k' k = false) by (apply String.eqb_neq; congruence).
    rewrite E'. simpl. now rewrite String.eqb_refl.
  - simpl. destruct (String.eqb k' k2) eqn:E2; simpl; [reflexivity|].
    rewrite E. now rewrite IH.
Qed.

Lemma NoDup_delete_prop {A} k (kvs : list (string * A)) :
  NoDup (keys kvs) -> NoDup (keys (delete_prop k kvs)).
Proof.
  induction kvs as [| [k' v] kvs IH]; simpl; intros Hnd; [constructor|].
  apply NoDup_cons in Hnd. destruct Hnd as [Hk Hnd].
  destruct (String.eqb k k'); simpl; [exact Hnd|].
  apply NoDup_cons. split; [|now apply IH].
  rewrite list_elem_of_In in *. intros Hin. apply Hk.
  now apply keys_delete_prop_sub in Hin.
Qed.

Lemma wf_delete_prop c k kvs :
  wf_value (VObj c kvs) -> wf_value (VObj c (delete_prop k kvs)).
Proof.
  rewrite !wf_value_obj. intros [Hnd Hwf]. split; [now apply NoDup_delete_prop|].
  clear Hnd. induction Hwf as [| [k' v] kvs Hv Hrest IH]; simpl; [constructor|].
  destruct (String.eqb k k'); [exact Hrest|]. now constructor.
Qed.

Lemma mapM_lookup {A B} (f : A -> option B) (rs : list A) (l : list B) i r :
  mapM f rs = Some l -> rs !! i = Some r ->
  exists x, l !! i = Some x /\ f r = Some x.
Proof.
  intros Hm Hr. apply mapM_Some in Hm.
  destruct (Forall2_lookup_l _ _ _ _ _ Hm Hr) as (x & Hx & Hf). eauto.
Qed.

Section Subdocument.
Context `{Collaborators}.
Variable st : Storage.

Lemma createChangelog_fields now rc a b :
  createChangelog now rc a b
  = {| cl_ip := rc_ip rc; cl_token := rc_token rc; cl_endpoint := rc_endpoint rc;
       cl_timestamp := now; cl_changes := cl_changes (createChangelog now rc a b) |}.
Proof. reflexivity. Qed.

(** The driver's [findOneAndUpdate] on a stored document that has a
    [changelogs] array, for an update that does not set [changelogs]. *)
Lemma db_findOneAndUpdate_run filter fields entry w dc dkvs logs :
  first_match st filter w = Some (VObj dc dkvs) ->
  lookup_prop "changelogs" dkvs = Some (VArr logs) ->
  lookup_prop "changelogs" fields = None ->
  let d' := VObj dc (set_prop "changelogs" (VArr (logs ++ [entry])) (assign dkvs fields)) in
  exists idx,
    docs (coll_of (w_db w) (collectionName st)) !! idx = Some (VObj dc dkvs) /\
    db_findOneAndUpdate (collectionName st) filter (obj fields) entry w
    = (Ok (omit d' "_id"),
       with_db w (<[collectionName st :=
                     set_docs (coll_of (w_db w) (collectionName st))
                       (<[idx := d']> (docs (coll_of (w_db w) (collectionName st))))]>
                    (w_db w))).
Proof.
  intros Hf Hlogs Hfields d'. unfold first_match in Hf.
  destruct (find_index_find _ _ _ 0 Hf) as (idx & Hi & Hl). simpl in Hi.
  exists idx. split; [exact Hl|].
  unfold db_findOneAndUpdate. run. rewrite Hi, Hl.
  unfold mongo_update, mongo_set, mongo_push.
  rewrite (lookup_assign_absent _ _ _ Hfields), Hlogs. reflexivity.
Qed.

(** What [findOneSubdocumentAndUpdate], an assignment through the
    subdocument reference and [commit] do, for a matched parent whose
    array at [subdocumentPath] has an element the predicate accepts: the
    changes of the appended entry are the differences between the old
    and the new value of the key as [serialize] revives them. *)
Lemma findOneSubdocumentAndUpdate_assign
  (rc : IRequestContext) (filterParent : value) (subdocumentPath : string)
  (subdocumentPredicate : value -> bool) (w : World)
  (dc : cls) (dkvs : props_t) (logs : list value)
  (kvs : props_t) (elems : list value) (i : nat) (ekvs : props_t)
  (key : string) (x : value) (old new : prim) :
  (forall v, ObjectId_isValid v = true ->
             regular (VObj ObjectIdCls (ObjectId_new v))) ->
  first_match st filterParent w = Some (VObj dc dkvs) ->
  lookup_prop "changelogs" dkvs = Some (VArr logs) ->
  fetched (VObj dc dkvs) = obj kvs ->
  wf_value (obj kvs) ->
  lookup_prop subdocumentPath kvs = Some (VArr elems) ->
  find_elem subdocumentPredicate elems 0 = Some (i, obj ekvs) ->
  lookup_prop key ekvs = Some x ->
  jsonify x = Some (VPrim old) -> json_prim new = true ->
  subdocumentPath <> "changelogs" ->
  (forall l, revived subdocumentPath (VArr l) = false) ->
  exists sub w1 la ers,
    findOneSubdocumentAndUpdate st rc filterParent subdocumentPath
      subdocumentPredicate w = (Ok sub, w1) /\
    w_db w1 = w_db w /\
    heap_get (w_heap w1) (documentReference sub) subdocumentPath = Ok (HRef la) /\
    w_heap w1 !! la = Some (CArr ers) /\
    ers !! i = Some (subdocumentReference sub) /\
    read_all (w_heap w1) (subdocumentReference sub) = Some (obj ekvs) /\
    exists h3,
      heap_set (w_heap w1) (subdocumentReference sub) key (HPrim new) = Ok h3 /\
      read_all h3 (documentReference sub)
      = Some (obj (set_prop subdocumentPath
                     (VArr (<[i := obj (set_prop key (VPrim new) ekvs)]> elems)) kvs)) /\
      exists d' w2 idx elems' ekvs',
        commit st (sub_commit sub) (documentReference sub) (with_heap w1 h3)
        = (Ok (fetched d'), w2) /\
        docs (coll_of (w_db w) (collectionName st)) !! idx = Some (VObj dc dkvs) /\
        docs (coll_of (w_db w2) (collectionName st))
        = <[idx := d']> (docs (coll_of (w_db w) (collectionName st))) /\
        get d' "changelogs"
        = VArr (logs ++
                [value_of_changelog
                   {| cl_ip := rc_ip rc; cl_token := rc_token rc;
                      cl_endpoint := rc_endpoint rc; cl_timestamp := w_now w;
                      cl_changes :=
                        map json_of_change
                          (deepDiff (reviver key (VPrim old)) (reviver key (VPrim new))
                             [PKey subdocumentPath; PIdx i; PKey key]) |}]) /\
        get d' subdocumentPath = VArr elems' /\
        elems' !! i = Some (obj ekvs') /\
        lookup_prop key ekvs' = Some (reviver key (VPrim new)).
Proof.
  intros Hoid Hmatch Hlogs Hfetched Hwf Hfield Hfind Hkey Hold Hnew Hpath Hidf.
  destruct (findOneAndUpdate_found st rc filterParent w _ Hmatch)
    as (orig & h1 & copy & h2 & Ha1 & Ha2 & Hrun).
  rewrite Hfetched in Ha1, Ha2.
  destruct (find_elem_lookup _ _ _ _ _ Hfind) as [_ Hi]. rewrite Nat.sub_0_r in Hi.
  destruct (alloc_subdocument _ _ _ _ _ _ _ _ Ha2 Hfield Hi)
    as (lc & rs & la & ers & le & eprs & -> & Hlc & Hrs & Hla & Hers & Hle
        & Hb1 & Hb2 & Hb3 & Hread & Hctx).
  destruct (find_from_read subdocumentPredicate h2 _ _ _ _ _ Hread Hfind)
    as (r & Hfrom & Hr). rewrite Nat.sub_0_r, Hers in Hr. injection Hr as <-.
  pose proof (alloc_prefix _ _ _ _ Ha2) as Hp12.
  pose proof (alloc_depth _ _ _ _ Ha2) as Hdepth. rewrite depth_obj in Hdepth.
  set (sub := {| documentReference := HRef lc; subdocumentReference := HRef le;
                 sub_commit := {| cc_originalDocument := orig; cc_rc := rc;
                                  cc_filter := filterParent |} |}).
  exists sub, (with_heap w h2), la, ers.
  split.
  { unfold findOneSubdocumentAndUpdate, bind at 1. rewrite Hrun.
    run. cbn [originalDocument commit_of heap_get]. rewrite Hlc, Hrs.
    cbn [default from_option id heap_find]. unfold default, from_option, id.
    cbn [heap_find]. rewrite Hla, Hfrom. reflexivity. }
  cbn [w_db w_heap with_heap documentReference subdocumentReference sub_commit sub].
  split; [reflexivity|].
  split; [cbn [heap_get]; now rewrite Hlc, Hrs|].
  split; [exact Hla|]. split; [exact Hers|].
  split.
  { destruct (mapM_lookup _ _ _ _ _ Hread Hers) as (y & Hy & Hry). congruence. }
  set (cell' := CObj Plain (set_prop key (HPrim new) eprs)).
  set (h3 := <[le := cell']> h2).
  assert (Hlen3 : length h3 = length h2) by apply length_insert.
  assert (H3le : h3 !! le = Some cell') by (apply list_lookup_insert_eq; lia).
  assert (H3ne : forall j, j <> le -> h3 !! j = h2 !! j)
    by (intros j Hj; apply list_lookup_insert_ne; congruence).
  set (kvs' := set_prop subdocumentPath
                 (VArr (<[i := obj (set_prop key (VPrim new) ekvs)]> elems)) kvs).
  exists h3. split; [cbn [heap_set]; now rewrite Hle|].
  split.
  { unfold read_all. cbn [read]. rewrite H3ne, Hlc by lia. cbn [fmap option_fmap option_map].
    rewrite (Hctx h3 key new (length h3)); [reflexivity| |exact H3le|lia].
    intros j _ Hj _. now apply H3ne. }
  (* commit *)
  set (w3 := with_heap (with_heap w h2) h3).
  assert (Hag : agree (length (w_heap w)) (length h1) h1 (w_heap w3)).
  { intros j Hj. cbn [w3 w_heap with_heap]. rewrite H3ne by lia.
    apply prefix_agree; [exact Hp12 | lia]. }
  pose proof (prefix_le _ _ Hp12) as Hl12.
  assert (Hlen13 : length h1 <= length (w_heap w3)) by (cbn [w3 w_heap with_heap]; lia).
  assert (Hupd : within (length h1) (length (w_heap w3)) (HRef lc))
    by (cbn [w3 w_heap with_heap within]; lia).
  pose proof (commit_run st rc filterParent (obj kvs) (w_heap w) orig h1 (HRef lc) w3
                Ha1 Hag Hlen13 Hupd) as Hcommit.
  destruct (captured_forgets (obj kvs) (w_heap w) orig h1 (w_heap w3) Ha1 Hag Hlen13)
    as (Hlen4 & Habove & _ & _).
  cbv zeta in Hcommit. cbn [w3 w_heap with_heap] in Hcommit, Hlen4, Habove.
  set (h4 := forget_changelogs h3 orig) in *.
  assert (H4lc : h4 !! lc = Some (CObj Plain rs)) by (rewrite Habove, H3ne, Hlc; [reflexivity|lia|lia]).
  cbn [heap_delete] in Hcommit. rewrite H4lc in Hcommit.
  set (h5 := <[lc := CObj Plain (delete_prop "changelogs" rs)]> h4) in *.
  assert (Hlen5 : length h5 = length h2) by (unfold h5; rewrite length_insert; lia).
  assert (Hr5 : read_all h5 (HRef lc) = Some (obj (delete_prop "changelogs" kvs'))).
  { assert (H5lc : h5 !! lc = Some (CObj Plain (delete_prop "changelogs" rs)))
      by (apply list_lookup_insert_eq; lia).
    unfold read_all. cbn [read]. rewrite H5lc.
    cbn [fmap option_fmap option_map].
    rewrite (mapM_delete_prop (read (length h5) h5) "changelogs" rs kvs'); [reflexivity|].
    apply (Hctx h5 key new (length h5)); [| |lia].
    - intros j Hj Hjle Hjlc. unfold h5. rewrite list_lookup_insert_ne by congruence.
      rewrite Habove by lia. now apply H3ne.
    - unfold h5. rewrite list_lookup_insert_ne by lia. rewrite Habove by lia. exact H3le. }
  rewrite Hr5 in Hcommit. clear Hr5.
  (* on trees *)
  set (kvs0 := delete_prop "changelogs" kvs).
  assert (Hk0 : delete_prop "changelogs" kvs'
                = set_prop subdocumentPath
                    (VArr (<[i := obj (set_prop key (VPrim new) ekvs)]> elems)) kvs0).
  { unfold kvs'. now apply (delete_set_prop_comm _ _ _ _ (VArr elems)). }
  rewrite Hk0 in Hcommit. clear Hk0.
  assert (Hfield0 : lookup_prop subdocumentPath kvs0 = Some (VArr elems)).
  { unfold kvs0. now rewrite lookup_delete_prop_ne. }
  assert (Hwf0 : wf_value (obj kvs0)) by now apply wf_delete_prop.
  destruct (serialize_subdocument_assign kvs0 subdocumentPath elems i ekvs key x old new
              Hfield0 Hi Hkey Hold Hnew Hidf)
    as (elems_s & ekvs_s & Hfs & His & Hks & Hser).
  assert (Hreg0 : regular (obj (revive_props (jsonify_props kvs0)))).
  { apply (serialize_regular Hoid (obj kvs0)); [exact Hwf0 | apply serialize_obj]. }
  pose proof (createChangelog_subdocument_assign (w_now w) rc _ subdocumentPath
                elems_s i ekvs_s key _ (reviver key (VPrim new)) Hreg0 Hfs His Hks)
    as Hchanges.
  rewrite <- Hser in Hchanges.
  unfold commit_on_trees in Hcommit. cbn [delete_top] in Hcommit.
  rewrite !serialize_obj in Hcommit. fold kvs0 in Hcommit.
  unfold bind at 1 2 3, lift at 1 2, get_world at 1 in Hcommit.
  cbn [w_now with_heap] in Hcommit.
  subst w3. cbn [w_now with_heap] in Hcommit.
  rewrite createChangelog_fields, Hchanges in Hcommit.
  set (entry := value_of_changelog _) in *.
  set (fields := revive_props (jsonify_props (set_prop subdocumentPath _ kvs0))) in *.
  assert (Hnd : NoDup (keys fields)).
  { rewrite Hser. apply NoDup_set_prop. now apply regular_obj in Hreg0. }
  assert (Hnolog : lookup_prop "changelogs" fields = None).
  { apply lookup_prop_None. unfold fields. rewrite keys_revive_props.
    intros Hin. apply keys_jsonify_props in Hin.
    rewrite (keys_set_prop_present _ _ _ _ Hfield0) in Hin.
    apply (proj1 (lookup_prop_None "changelogs" kvs0)); [|exact Hin].
    apply lookup_delete_prop_eq. now apply wf_value_obj in Hwf. }
  destruct (db_findOneAndUpdate_run filterParent fields entry
              (with_heap (with_heap (with_heap w h2) h3) h5) dc dkvs logs
              Hmatch Hlogs Hnolog) as (idx & Hidx & Hdb).
  cbv zeta in Hdb. cbn [w_db with_heap] in Hidx, Hdb.
  set (d' := VObj dc (set_prop "changelogs" (VArr (logs ++ [entry])) (assign dkvs fields)))
    in *.
  unfold bind at 1 in Hcommit. rewrite Hdb in Hcommit.
  rewrite omit_truthy in Hcommit. cbn [negb] in Hcommit. unfold ret in Hcommit.
  exists d'. eexists.
  exists idx, (<[i := obj (set_prop key (reviver key (VPrim new)) ekvs_s)]> elems_s),
    (set_prop key (reviver key (VPrim new)) ekvs_s).
  split; [exact Hcommit|]. split; [exact Hidx|].
  split.
  { cbn [w_db with_db]. unfold coll_of at 1. rewrite lookup_insert_eq. reflexivity. }
  split.
  { unfold d'. cbn [get]. now rewrite lookup_set_prop_eq. }
  split.
  { unfold d'. cbn [get]. rewrite lookup_set_prop_ne by exact Hpath.
    rewrite (lookup_assign_present subdocumentPath
               (VArr (<[i := obj (set_prop key (reviver key (VPrim new)) ekvs_s)]> elems_s))
               fields dkvs Hnd).
    - reflexivity.
    - rewrite Hser. apply lookup_set_prop_eq. }
  split.
  - apply list_lookup_insert_eq. now apply lookup_lt_Some in His.
  - apply lookup_set_prop_eq.
Qed.

(** X25: a scalar changed through the subdocument reference, under a
    key that is not named as an identifier.  The stored parent has a
    [changelogs] array, as [insertOne] writes it, and holds no number
    under a key named as an identifier; its array at [subdocumentPath],
    a field other than [changelogs], has an element the predicate
    accepts.  Then [findOneSubdocumentAndUpdate] writes nothing and
    returns as [subdocumentReference] the very reference the array of
    [documentReference] holds at the element's index, so that the two
    name one object.  Assigning another JSON scalar to a key of it whose
    name neither ends in [Id] nor is [_id] is seen through
    [documentReference], and [commit(documentReference)] then stores the
    change and appends a changelog entry whose changes are one [Edited]
    record, with path [subdocumentPath, index, key], the old value and
    the new one. *)
Theorem findOneSubdocumentAndUpdate_edit
  (rc : IRequestContext) (filterParent : value) (subdocumentPath : string)
  (subdocumentPredicate : value -> bool) (w : World)
  (dc : cls) (dkvs : props_t) (logs : list value)
  (kvs : props_t) (elems : list value) (i : nat) (ekvs : props_t)
  (key : string) (old new : prim) :
  (forall v, ObjectId_isValid v = true ->
             regular (VObj ObjectIdCls (ObjectId_new v))) ->
  first_match st filterParent w = Some (VObj dc dkvs) ->
  lookup_prop "changelogs" dkvs = Some (VArr logs) ->
  fetched (VObj dc dkvs) = obj kvs ->
  wf_value (obj kvs) ->
  numeric_id (obj kvs) = false ->
  lookup_prop subdocumentPath kvs = Some (VArr elems) ->
  find_elem subdocumentPredicate elems 0 = Some (i, obj ekvs) ->
  lookup_prop key ekvs = Some (VPrim old) ->
  json_prim old = true -> json_prim new = true -> old <> new ->
  subdocumentPath <> "changelogs" ->
  (forall l, revived subdocumentPath (VArr l) = false) ->
  id_key key = false ->
  exists sub w1 la ers,
    findOneSubdocumentAndUpdate st rc filterParent subdocumentPath
      subdocumentPredicate w = (Ok sub, w1) /\
    w_db w1 = w_db w /\
    heap_get (w_heap w1) (documentReference sub) subdocumentPath = Ok (HRef la) /\
    w_heap w1 !! la = Some (CArr ers) /\
    ers !! i = Some (subdocumentReference sub) /\
    read_all (w_heap w1) (subdocumentReference sub) = Some (obj ekvs) /\
    exists h3,
      heap_set (w_heap w1) (subdocumentReference sub) key (HPrim new) = Ok h3 /\
      read_all h3 (documentReference sub)
      = Some (obj (set_prop subdocumentPath
                     (VArr (<[i := obj (set_prop key (VPrim new) ekvs)]> elems)) kvs)) /\
      exists d' w2 idx elems' ekvs',
        commit st (sub_commit sub) (documentReference sub) (with_heap w1 h3)
        = (Ok (fetched d'), w2) /\
        docs (coll_of (w_db w) (collectionName st)) !! idx = Some (VObj dc dkvs) /\
        docs (coll_of (w_db w2) (collectionName st))
        = <[idx := d']> (docs (coll_of (w_db w) (collectionName st))) /\
        get d' "changelogs"
        = VArr (logs ++
                [value_of_changelog
                   {| cl_ip := rc_ip rc; cl_token := rc_token rc;
                      cl_endpoint := rc_endpoint rc; cl_timestamp := w_now w;
                      cl_changes :=
                        [edited [VStr subdocumentPath; VNum (Z.of_nat i); VStr key]
                           (VPrim old) (VPrim new)] |}]) /\
        get d' subdocumentPath = VArr elems' /\
        elems' !! i = Some (obj ekvs') /\
        lookup_prop key ekvs' = Some (VPrim new).
Proof.
  intros Hoid Hmatch Hlogs Hfetched Hwf _ Hfield Hfind Hkey Hold Hnew Hne Hpath
    Hidf Hidk.
  destruct (findOneSubdocumentAndUpdate_assign rc filterParent subdocumentPath
              subdocumentPredicate w dc dkvs logs kvs elems i ekvs key (VPrim old)
              old new Hoid Hmatch Hlogs Hfetched Hwf Hfield Hfind Hkey
              (jsonify_prim old Hold) Hnew Hpath Hidf)
    as (sub & w1 & la & ers & Hrun & Hdb & Hget & Hla & Hers & Hsub & h3 & Hset & Hseen
        & d' & w2 & idx & elems' & ekvs' & Hcommit & Hidx & Hdocs & Hentry
        & Hstored & Helem & Hnewkey).
  assert (Hkept : forall v, reviver key v = v).
  { intros v. apply reviver_kept. unfold revived. now rewrite Hidk. }
  rewrite (Hkept (VPrim old)), (Hkept (VPrim new)) in Hentry.
  rewrite Hkept in Hnewkey.
  rewrite (deepDiff_prims old new _ Hne) in Hentry.
  cbn [map] in Hentry. rewrite (json_of_edit _ old new Hold Hnew) in Hentry.
  exists sub, w1, la, ers. repeat (split; [assumption|]).
  exists h3. repeat (split; [assumption|]).
  exists d', w2, idx, elems', ekvs'. repeat (split; [assumption|]). exact Hnewkey.
Qed.

End Subdocument.

(** * The round trip of the differ *)

(** ** Paths *)

Lemma set_elem_lt i x (l : list value) : i < length l -> set_elem i x l = <[i := x]> l.
Proof. intros Hi. unfold set_elem. now destruct (Nat.ltb_spec i (length l)); [|lia]. Qed.

Lemma child_put k x v y : child k v = Some y -> child k (put k x v) = Some x.
Proof.
  destruct k as [s | i], v as [p | l | c kvs]; simpl; try discriminate.
  - intros _. apply lookup_set_prop_eq.
  - intros Hl. unfold set_elem. apply lookup_lt_Some in Hl.
    destruct (Nat.ltb_spec i (length l)); [|lia]. now apply list_lookup_insert_eq.
Qed.

Lemma set_prop_twice {A} k (x y : A) kvs :
  set_prop k y (set_prop k x kvs) = set_prop k y kvs.
Proof.
  induction kvs as [| [k' v'] kvs IH]; simpl.
  - now rewrite String.eqb_refl.
  - destruct (String.eqb k k') eqn:E; simpl.
    + now rewrite String.eqb_refl.
    + now rewrite E, IH.
Qed.

Lemma put_put k x y v z : child k v = Some z -> put k y (put k x v) = put k y v.
Proof.
  destruct k as [s | i], v as [p | l | c kvs]; simpl; try discriminate.
  - intros _. now rewrite set_prop_twice.
  - intros Hl. apply lookup_lt_Some in Hl.
    rewrite !(set_elem_lt i _ l Hl), set_elem_lt by now rewrite length_insert.
    now rewrite list_insert_insert_eq.
Qed.

Lemma set_prop_same {A} k (x : A) kvs :
  lookup_prop k kvs = Some x -> set_prop k x kvs = kvs.
Proof.
  induction kvs as [| [k' v'] kvs IH]; simpl; [discriminate|].
  destruct (String.eqb k k') eqn:E.
  - apply String.eqb_eq in E. now intros [= ->]; subst.
  - intros Hl. now rewrite IH.
Qed.

Lemma put_child k v x : child k v = Some x -> put k x v = v.
Proof.
  destruct k as [s | i], v as [p | l | c kvs]; simpl; try discriminate.
  - intros Hl. now rewrite set_prop_same.
  - intros Hl. unfold set_elem. pose proof (lookup_lt_Some _ _ _ Hl).
    destruct (Nat.ltb_spec i (length l)); [|lia]. now rewrite list_insert_id.
Qed.

(** Only the image of what the path leads to matters. *)
Lemma within_path_ext q : forall f g root o,
  at_path q root = Some o -> f o = g o -> within_path q f root = within_path q g root.
Proof.
  induction q as [| k q IH]; intros f g root o Hat Hfg; simpl in *.
  - injection Hat as ->. exact Hfg.
  - destruct (child k root) as [x|]; [|discriminate].
    now rewrite (IH f g x o Hat Hfg).
Qed.

Lemma within_path_id q : forall root o,
  at_path q root = Some o -> within_path q (fun _ => o) root = root.
Proof.
  induction q as [| k q IH]; intros root o Hat; simpl in *.
  - now injection Hat as ->.
  - destruct (child k root) as [x|] eqn:Hc; [|discriminate].
    rewrite (IH x o Hat). now apply put_child.
Qed.

Lemma at_within q : forall f root o,
  at_path q root = Some o -> at_path q (within_path q f root) = Some (f o).
Proof.
  induction q as [| k q IH]; intros f root o Hat; simpl in *.
  - now injection Hat as ->.
  - destruct (child k root) as [x|] eqn:Hc; [|discriminate].
    rewrite (child_put _ _ _ _ Hc). now apply IH.
Qed.

Lemma within_within q : forall f g root o,
  at_path q root = Some o ->
  within_path q g (within_path q f root) = within_path q (fun _ => g (f o)) root.
Proof.
  induction q as [| k q IH]; intros f g root o Hat; simpl in *.
  - now injection Hat as ->.
  - destruct (child k root) as [x|] eqn:Hc; [|discriminate].
    rewrite (child_put _ _ _ _ Hc), (IH f g x o Hat).
    now rewrite (put_put _ _ _ _ _ Hc).
Qed.

Lemma at_path_app q k : forall root,
  at_path (q ++ [k]) root
  = match at_path q root with Some o => child k o | None => None end.
Proof.
  induction q as [| k' q IH]; intros root; simpl.
  - now destruct (child k root).
  - destruct (child k' root) as [x|]; [apply IH | reflexivity].
Qed.

Lemma within_path_app q k f : forall root,
  within_path (q ++ [k]) f root
  = within_path q (fun o => match child k o with
                            | Some y => put k (f y) o
                            | None => o
                            end) root.
Proof.
  induction q as [| k' q IH]; intros root; simpl; [reflexivity|].
  destruct (child k' root) as [x|]; [now rewrite IH | reflexivity].
Qed.

Lemma split_last_app q k : split_last (q ++ [k]) = Some (q, k).
Proof. unfold split_last. rewrite rev_app_distr. simpl. now rewrite rev_involutive. Qed.

(** ** How the changes of the differ act *)

Lemma applyChanges_app cs1 cs2 v :
  applyChanges (cs1 ++ cs2) v = applyChanges cs2 (applyChanges cs1 v).
Proof. apply fold_left_app. Qed.

Lemma acts_nil q o : acts q [] o o.
Proof. intros root Hat. simpl. symmetry. now apply within_path_id. Qed.

Lemma acts_app q cs1 cs2 o o1 o2 :
  acts q cs1 o o1 -> acts q cs2 o1 o2 -> acts q (cs1 ++ cs2) o o2.
Proof.
  intros H1 H2 root Hat. rewrite applyChanges_app, (H1 root Hat).
  rewrite (H2 _ (at_within q _ root o Hat)).
  now rewrite (within_within q _ _ root o Hat).
Qed.

Lemma acts_child q k cs o x x' :
  child k o = Some x -> acts (q ++ [k]) cs x x' -> acts q cs o (put k x' o).
Proof.
  intros Hc Hacts root Hat. rewrite (Hacts root).
  - rewrite within_path_app. apply (within_path_ext q _ _ root o Hat). now rewrite Hc.
  - now rewrite at_path_app, Hat.
Qed.

Lemma acts_edit q l r o : acts q [DiffEdit q l r] o r.
Proof. intros root _. reflexivity. Qed.

Lemma acts_new q k r o : acts q [DiffNew (q ++ [k]) r] o (put k r o).
Proof.
  intros root Hat. simpl. rewrite split_last_app.
  now apply (within_path_ext q _ _ root o Hat).
Qed.

Lemma acts_deleted q k l o : acts q [DiffDeleted (q ++ [k]) l] o (drop k o).
Proof.
  intros root Hat. simpl. rewrite split_last_app.
  now apply (within_path_ext q _ _ root o Hat).
Qed.

Lemma acts_array q i item o : acts q [DiffArray q i item] o (applyArrayChange i item o).
Proof. intros root Hat. simpl. now apply (within_path_ext q _ _ root o Hat). Qed.

(** ** Sameness *)

Lemma same_arr la lb : same (VArr la) (VArr lb) <-> Forall2 same la lb.
Proof.
  simpl. revert lb. induction la as [| x la IH]; intros [| y lb]; simpl.
  - split; [constructor | trivial].
  - split; [tauto | inversion 1].
  - split; [tauto | inversion 1].
  - rewrite IH. split; [intros [? ?]; now constructor | inversion 1; now subst].
Qed.

Lemma same_obj c ka d kb :
  same (VObj c ka) (VObj d kb) <->
  c = d /\
  Forall (fun kx => exists y, lookup_prop (fst kx) kb = Some y /\ same (snd kx) y) ka /\
  (forall k, has_prop k kb = true -> has_prop k ka = true).
Proof.
  simpl. apply and_iff_compat_l, and_iff_compat_r.
  induction ka as [| kx ka IH]; [split; [constructor | trivial]|].
  rewrite Forall_cons, <- IH. apply and_iff_compat_r.
  destruct (lookup_prop (fst kx) kb) as [y|].
  - split; [eauto | now intros (y' & [= <-] & Hs)].
  - split; [tauto | now intros (y' & [=] & _)].
Qed.

Lemma plain_json_arr l : plain_json (VArr l) <-> Forall plain_json l.
Proof.
  simpl. induction l as [| x l IH]; [split; [constructor | trivial]|].
  rewrite Forall_cons, <- IH. reflexivity.
Qed.

Lemma plain_json_obj c kvs :
  plain_json (VObj c kvs) <->
  c = Plain /\ NoDup (keys kvs) /\ ~ In EmptyString (keys kvs) /\
  Forall (fun kv => plain_json (snd kv)) kvs.
Proof.
  simpl. do 3 apply and_iff_compat_l.
  induction kvs as [| x l IH]; [split; [constructor | trivial]|].
  rewrite Forall_cons, <- IH. reflexivity.
Qed.

Lemma same_refl v : plain_json v -> same v v.
Proof.
  induction v as [p | l IH | c kvs IH] using value_induction; intros Hv.
  - reflexivity.
  - apply same_arr. apply plain_json_arr in Hv.
    induction IH as [| x l Hx _ IHl]; [constructor|].
    apply Forall_cons in Hv. destruct Hv as [Hvx Hvl]. constructor; auto.
  - apply same_obj. apply plain_json_obj in Hv. destruct Hv as (_ & Hnd & _ & Hv).
    split; [reflexivity|]. split; [|trivial].
    rewrite Forall_forall in *. intros [k x] Hin. simpl.
    exists x. split.
    + apply lookup_prop_NoDup; [exact Hnd | now apply list_elem_of_In].
    + apply (IH (k, x) Hin). apply (Hv (k, x) Hin).
Qed.

Lemma Forall2_same_refl l : Forall plain_json l -> Forall2 same l l.
Proof. induction 1; constructor; auto using same_refl. Qed.

(** ** Arrays *)

Lemma acts_to q cs o o1 o2 : acts q cs o o1 -> o1 = o2 -> acts q cs o o2.
Proof. now intros H <-. Qed.

Lemma acts_from q cs o1 o2 o' : acts q cs o1 o' -> o1 = o2 -> acts q cs o2 o'.
Proof. now intros H <-. Qed.

Lemma set_elem_grown pre i r ra :
  length pre <= i -> set_elem i r (grown pre (S i) ra) = grown pre i (r :: ra).
Proof.
  intros Hi. unfold grown. destruct ra as [| r' ra].
  - unfold set_elem. destruct (Nat.ltb_spec i (length pre)); [lia | reflexivity].
  - rewrite set_elem_lt.
    2:{ rewrite !length_app, repeat_length. simpl. lia. }
    replace (S i - length pre) with (S (i - length pre)) by lia.
    change (repeat VUndef (S (i - length pre)))
      with (VUndef :: repeat VUndef (i - length pre)).
    rewrite repeat_cons, <- app_assoc.
    replace i with (length pre + (length (repeat VUndef (i - length pre)) + 0)) at 1
      by (rewrite repeat_length; lia).
    now rewrite !insert_app_r.
Qed.

Lemma acts_news q : forall ra i pre,
  length pre <= i ->
  acts q (diff_news q ra i) (VArr pre) (VArr (grown pre i ra)).
Proof.
  induction ra as [| r ra IH]; intros i pre Hi.
  - apply acts_nil.
  - simpl diff_news. eapply acts_app; [apply (IH (S i) pre); lia|].
    eapply acts_to; [apply acts_array|]. simpl. now rewrite set_elem_grown.
Qed.

Lemma acts_elems q la :
  Forall round_trips la -> Forall plain_json la ->
  forall ra pre, Forall plain_json ra ->
  exists ra',
    acts q (diff_elems q la ra (length pre)) (VArr (pre ++ la)) (VArr (pre ++ ra')) /\
    Forall2 same ra' ra.
Proof.
  intros IH Hla. induction IH as [| l la Hl _ IHla]; intros ra pre Hra.
  - destruct ra as [| r ra].
    + exists []. split; [apply acts_nil | constructor].
    + exists (r :: ra). split; [|now apply Forall2_same_refl].
      rewrite app_nil_r. eapply acts_to; [apply (acts_news q (r :: ra)); lia|].
      unfold grown. now rewrite Nat.sub_diag.
  - apply Forall_cons in Hla. destruct Hla as [Hpl Hpla].
    assert (Hlen : length (pre ++ [l]) = S (length pre))
      by (rewrite length_app; simpl; lia).
    destruct ra as [| r ra]; simpl diff_elems.
    + destruct (IHla Hpla [] (pre ++ [l]) Hra) as (ra' & Hacts & Hsame).
      inversion Hsame; subst. rewrite Hlen in Hacts.
      exists []. split; [|constructor].
      eapply acts_app; [eapply acts_from; [exact Hacts | now rewrite <- app_assoc]|].
      eapply acts_to; [apply acts_array|]. simpl. rewrite !app_nil_r.
      f_equal. rewrite delete_middle. apply app_nil_r.
    + apply Forall_cons in Hra. destruct Hra as [Hpr Hpra].
      destruct (IHla Hpla ra (pre ++ [l]) Hpra) as (ra' & Hacts & Hsame).
      rewrite Hlen in Hacts.
      destruct (Hl r (q ++ [PIdx (length pre)]) Hpl Hpr) as (x' & Hx & Hsx).
      exists (x' :: ra'). split; [|now constructor].
      eapply acts_app; [eapply acts_from; [exact Hacts | now rewrite <- app_assoc]|].
      eapply acts_to; [eapply (acts_child q (PIdx (length pre))); [|exact Hx]|].
      * simpl. rewrite <- app_assoc. simpl. now apply list_lookup_middle.
      * simpl. rewrite set_elem_lt by (rewrite !length_app; simpl; lia).
        rewrite <- app_assoc. simpl. f_equal.
        replace (length pre) with (length pre + 0) at 1 by lia.
        now rewrite insert_app_r.
Qed.

(** ** Objects *)

Lemma inb_In k (l : list string) : existsb (String.eqb k) l = true <-> In k l.
Proof.
  rewrite existsb_exists. split.
  - intros (x & Hin & E). apply String.eqb_eq in E. now subst.
  - intros Hin. exists k. split; [exact Hin | apply String.eqb_refl].
Qed.

Lemma inb_not_In k (l : list string) : existsb (String.eqb k) l = false <-> ~ In k l.
Proof. rewrite <- inb_In. now destruct (existsb _ l). Qed.

Lemma has_prop_In {A} k (kvs : list (string * A)) : has_prop k kvs = true <-> In k (keys kvs).
Proof.
  unfold has_prop. destruct (lookup_prop k kvs) eqn:E.
  - split; [|trivial]. intros _.
    destruct (in_dec string_dec k (keys kvs)) as [Hin | Hn]; [exact Hin|].
    apply lookup_prop_None in Hn. congruence.
  - apply lookup_prop_None in E. split; [discriminate | tauto].
Qed.

Lemma mask_nil ks : mask [] ks = map Some ks.
Proof. reflexivity. Qed.

Lemma mask_other k seen ks : ~ In k ks -> mask (k :: seen) ks = mask seen ks.
Proof.
  intros Hk. unfold mask. apply map_ext_in. intros k' Hin. simpl.
  destruct (String.eqb k' k) eqn:E; [|reflexivity].
  apply String.eqb_eq in E. now subst.
Qed.

(** [take_key] on the keys of [rhs], those of [seen] blanked: a key not
    seen so far is found when [rhs] has it, and is then blanked. *)
Lemma take_key_mask k seen ks :
  NoDup ks -> existsb (String.eqb k) seen = false ->
  take_key k (mask seen ks)
  = if existsb (String.eqb k) ks then Some (mask (k :: seen) ks) else None.
Proof.
  intros Hnd Hk. induction ks as [| k' ks IH]; [reflexivity|].
  apply NoDup_cons in Hnd. destruct Hnd as [Hk' Hnd]. specialize (IH Hnd).
  rewrite list_elem_of_In in Hk'.
  change (mask seen (k' :: ks))
    with ((if existsb (String.eqb k') seen then None else Some k') :: mask seen ks).
  change (mask (k :: seen) (k' :: ks))
    with ((if String.eqb k' k || existsb (String.eqb k') seen then None else Some k')
            :: mask (k :: seen) ks).
  simpl existsb. destruct (String.eqb k k') eqn:E.
  - apply String.eqb_eq in E. subst k'. rewrite Hk, String.eqb_refl. simpl.
    rewrite String.eqb_refl. now rewrite mask_other.
  - assert (E' : String.eqb k' k = false) by now rewrite String.eqb_sym.
    rewrite E'. simpl orb.
    destruct (existsb (String.eqb k') seen); simpl; rewrite ?E, IH;
      now destruct (existsb (String.eqb k) ks).
Qed.

Lemma set_prop_absent {A} k (v : A) kvs :
  ~ In k (keys kvs) -> set_prop k v kvs = kvs ++ [(k, v)].
Proof.
  induction kvs as [| [k' v'] kvs IH]; simpl; intros Hk; [reflexivity|].
  destruct (String.eqb k k') eqn:E.
  - apply String.eqb_eq in E. subst. destruct Hk. now left.
  - rewrite IH; [reflexivity|]. intros Hin. apply Hk. now right.
Qed.

(** The second loop: each key of [rhs] not seen in [lhs], the empty one
    apart, is added at the end. *)
Lemma acts_new_keys q c rk seen : forall ks cur,
  NoDup ks ->
  (forall k, In k ks -> existsb (String.eqb k) seen = false -> ~ In k (keys cur)) ->
  exists news,
    acts q (new_keys q rk (mask seen ks)) (VObj c cur) (VObj c (cur ++ news)) /\
    (forall kx, In kx news ->
       In (fst kx) ks /\ snd kx = default VUndef (lookup_prop (fst kx) rk)) /\
    (forall k, In k ks -> existsb (String.eqb k) seen = false -> k <> EmptyString ->
       In k (keys news)).
Proof.
  induction ks as [| k ks IH]; intros cur Hnd Hcur.
  - exists []. rewrite app_nil_r. split; [apply acts_nil|]. split; intros ? [].
  - apply NoDup_cons in Hnd. destruct Hnd as [Hk Hnd]. rewrite list_elem_of_In in Hk.
    change (mask seen (k :: ks))
      with ((if existsb (String.eqb k) seen then None else Some k) :: mask seen ks).
    destruct (existsb (String.eqb k) seen) eqn:Hseen; simpl new_keys.
    + destruct (IH cur Hnd) as (news & Hacts & Hn1 & Hn2).
      { intros k' Hin. apply Hcur. now right. }
      exists news. split; [exact Hacts|]. split.
      * intros kx Hin. destruct (Hn1 kx Hin). split; [now right | assumption].
      * intros k' [<- | Hin] Hs Hne; [congruence | now apply Hn2].
    + destruct (String.eqb k EmptyString) eqn:Hblank.
      * apply String.eqb_eq in Hblank.
        destruct (IH cur Hnd) as (news & Hacts & Hn1 & Hn2).
        { intros k' Hin. apply Hcur. now right. }
        exists news. split; [exact Hacts|]. split.
        -- intros kx Hin. destruct (Hn1 kx Hin). split; [now right | assumption].
        -- intros k' [<- | Hin] Hs Hne; [congruence | now apply Hn2].
      * set (v := default VUndef (lookup_prop k rk)).
        destruct (IH (cur ++ [(k, v)]) Hnd) as (news & Hacts & Hn1 & Hn2).
        { intros k' Hin Hs. unfold keys. rewrite map_app, in_app_iff. simpl.
          intros [Hc | [<- | []]]; [|contradiction].
          now apply (Hcur k' (or_intror Hin) Hs). }
        exists ((k, v) :: news). split; [|split].
        -- change (?x :: ?l) with ([x] ++ l) at 1.
           eapply acts_app; [eapply acts_to; [apply acts_new|]|].
           ++ simpl. rewrite set_prop_absent; [reflexivity|].
              apply Hcur; [now left | exact Hseen].
           ++ eapply acts_to; [exact Hacts|]. now rewrite <- app_assoc.
        -- intros kx [<- | Hin]; [split; [now left | reflexivity]|].
           destruct (Hn1 kx Hin). split; [now right | assumption].
        -- intros k' [<- | Hin] Hs Hne; [now left|]. right. now apply Hn2.
Qed.

Lemma lookup_prop_app_new {A} k (v : A) pre rest :
  ~ In k (keys pre) -> lookup_prop k (pre ++ (k, v) :: rest) = Some v.
Proof.
  induction pre as [| [k' v'] pre IH]; simpl; intros Hk.
  - now rewrite String.eqb_refl.
  - destruct (String.eqb k k') eqn:E.
    + apply String.eqb_eq in E. subst k'. destruct Hk. now left.
    + apply IH. intros Hin. apply Hk. now right.
Qed.

Lemma delete_prop_app_new {A} k (v : A) pre rest :
  ~ In k (keys pre) -> delete_prop k (pre ++ (k, v) :: rest) = pre ++ rest.
Proof.
  induction pre as [| [k' v'] pre IH]; simpl; intros Hk.
  - now rewrite String.eqb_refl.
  - destruct (String.eqb k k') eqn:E.
    + apply String.eqb_eq in E. subst k'. destruct Hk. now left.
    + rewrite IH; [reflexivity|]. intros Hin. apply Hk. now right.
Qed.

Lemma lookup_prop_In_keys {A} k (kvs : list (string * A)) :
  In k (keys kvs) -> exists v, lookup_prop k kvs = Some v /\ In (k, v) kvs.
Proof.
  induction kvs as [| [k' v'] kvs IH]; simpl; [tauto|].
  destruct (String.eqb k k') eqn:E.
  - apply String.eqb_eq in E. subst k'. intros _. exists v'. split; [reflexivity | now left].
  - apply String.eqb_neq in E. intros [-> | Hin]; [congruence|].
    destruct (IH Hin) as (v & Hl & Hv). exists v. split; [exact Hl | now right].
Qed.

(** The loop over the keys of [lhs], then the loop over the keys left in
    [rhs]: the object becomes one that is the same as [rhs]. *)
Lemma acts_props q c rk :
  NoDup (keys rk) -> ~ In EmptyString (keys rk) ->
  Forall (fun kv => plain_json (snd kv)) rk ->
  forall todo,
    Forall (fun kv => round_trips (snd kv)) todo ->
    Forall (fun kv => plain_json (snd kv)) todo ->
    forall done seen,
      NoDup (keys done ++ keys todo) ->
      (forall k, In k (keys todo) -> existsb (String.eqb k) seen = false) ->
      (forall k, In k (keys done) -> existsb (String.eqb k) seen = true) ->
      (forall k, existsb (String.eqb k) seen = true -> In k (keys rk) ->
                 In k (keys done)) ->
      Forall (fun kx => exists y, lookup_prop (fst kx) rk = Some y /\ same (snd kx) y)
        done ->
      exists final,
        acts q (diff_props q rk todo (mask seen (keys rk)))
          (VObj c (done ++ todo)) (VObj c final) /\
        same (VObj c final) (VObj c rk).
Proof.
  intros Hnd Hblank Hprk todo IH.
  induction IH as [| [k lv] todo Hlv _ IHtodo];
    intros Hptodo done seen Hnd2 I4 I3 I2 I1.
  - simpl diff_props. rewrite app_nil_r.
    destruct (acts_new_keys q c rk seen (keys rk) done Hnd) as (news & Hacts & Hn1 & Hn2).
    { intros k Hin Hs Hd. rewrite (I3 k Hd) in Hs. discriminate. }
    exists (done ++ news). split; [exact Hacts|].
    apply same_obj. split; [reflexivity|]. split.
    + apply Forall_app. split; [exact I1|].
      apply Forall_forall. intros kx Hin. apply list_elem_of_In in Hin.
      destruct (Hn1 kx Hin) as [Hk Hv].
      destruct (lookup_prop_In_keys _ _ Hk) as (y & Hl & Hy).
      exists y. split; [exact Hl|]. rewrite Hv, Hl. simpl.
      apply same_refl. rewrite Forall_forall in Hprk.
      apply (Hprk (fst kx, y)). now apply list_elem_of_In.
    + intros k Hk. apply has_prop_In in Hk. apply has_prop_In.
      unfold keys. rewrite map_app, in_app_iff.
      destruct (existsb (String.eqb k) seen) eqn:Hs.
      * left. now apply I2.
      * right. apply Hn2; [exact Hk | exact Hs |]. intros ->. contradiction.
  - apply Forall_cons in Hptodo. destruct Hptodo as [Hplv Hptodo]. simpl in Hplv.
    assert (Hkd : ~ In k (keys done)).
    { intros Hin. apply NoDup_app in Hnd2. destruct Hnd2 as (_ & Hd & _).
      apply (Hd k); [now apply list_elem_of_In | left]. }
    simpl diff_props. rewrite (take_key_mask k seen (keys rk) Hnd (I4 k (or_introl eq_refl))).
    destruct (existsb (String.eqb k) (keys rk)) eqn:Hin.
    + apply inb_In in Hin. destruct (lookup_prop_In_keys _ _ Hin) as (rv & Hl & Hrv).
      rewrite Hl. simpl default.
      assert (Hprv : plain_json rv).
      { rewrite Forall_forall in Hprk. apply (Hprk (k, rv)). now apply list_elem_of_In. }
      destruct (Hlv rv (q ++ [PKey k]) Hplv Hprv) as (x' & Hx & Hsx).
      destruct (IHtodo Hptodo (done ++ [(k, x')]) (k :: seen)) as (final & Hacts & Hsame).
      * unfold keys in *. rewrite map_app, <- app_assoc. exact Hnd2.
      * intros k2 Hk2. simpl. rewrite (I4 k2 (or_intror Hk2)), orb_false_r.
        apply String.eqb_neq. intros ->.
        apply NoDup_app in Hnd2. destruct Hnd2 as (_ & _ & Hd).
        apply NoDup_cons in Hd. destruct Hd as [Hd _]. apply Hd.
        now apply list_elem_of_In.
      * intros k2. unfold keys. rewrite map_app, in_app_iff. simpl.
        intros [Hk2 | [<- | []]]; [now rewrite (I3 k2 Hk2), orb_true_r|].
        now rewrite String.eqb_refl.
      * intros k2. simpl. unfold keys. rewrite map_app, in_app_iff. simpl.
        destruct (String.eqb k2 k) eqn:E.
        -- apply String.eqb_eq in E. subst. intros _ _. right. now left.
        -- simpl. intros Hs Hr. left. now apply I2.
      * apply Forall_app. split; [exact I1|]. constructor; [|constructor]. eauto.
      * exists final. split; [|exact Hsame].
        eapply acts_app; [|eapply acts_from; [exact Hacts | now rewrite <- app_assoc]].
        eapply acts_to; [eapply (acts_child q (PKey k)); [|exact Hx]|].
        -- simpl. now apply lookup_prop_app_new.
        -- simpl. now rewrite set_prop_app_new.
    + destruct (IHtodo Hptodo done seen) as (final & Hacts & Hsame).
      * apply NoDup_app in Hnd2. destruct Hnd2 as (Hn1 & Hn2 & Hn3).
        apply NoDup_cons in Hn3. destruct Hn3 as [_ Hn3].
        apply NoDup_app. split; [exact Hn1|]. split; [|exact Hn3].
        intros x Hx Hx'. apply (Hn2 x Hx). now right.
      * intros k2 Hk2. apply I4. now right.
      * exact I3.
      * exact I2.
      * exact I1.
      * exists final. split; [|exact Hsame].
        change (?x :: ?l) with ([x] ++ l) at 1.
        eapply acts_app; [|exact Hacts].
        eapply acts_to; [apply acts_deleted|]. simpl. now rewrite delete_prop_app_new.
Qed.

(** ** The round trip *)

Lemma deepDiff_types l r q :
  String.eqb (realTypeOf l) (realTypeOf r) = false ->
  deepDiff l r q = [DiffEdit q l r].
Proof.
  intros E. destruct l as [a | la | c lk].
  - change (deepDiff (VPrim a) r q)
      with (if negb (String.eqb (realTypeOf (VPrim a)) (realTypeOf r))
            then [DiffEdit q (VPrim a) r]
            else match VPrim a, r with
                 | VDate x, VDate y =>
                     if date_differs x y then [DiffEdit q (VPrim a) r] else []
                 | VPrim x, VPrim y =>
                     if strict_differs x y then [DiffEdit q (VPrim a) r] else []
                 | _, _ => []
                 end).
    now rewrite E.
  - destruct r as [[| | | | | []] | ra | d rk]; try reflexivity. discriminate E.
  - destruct r as [[| | | | | []] | ra | d rk]; try reflexivity. discriminate E.
Qed.

Lemma plain_json_regular v : plain_json v -> regular v.
Proof.
  induction v as [a | la IH | c lk IH] using value_induction; intros Hv.
  - destruct a as [| | | | | []]; try discriminate Hv; split; exact I.
  - apply regular_arr. apply plain_json_arr in Hv.
    induction IH as [| x l Hx _ IHl]; [constructor|].
    apply Forall_cons in Hv. destruct Hv. constructor; auto.
  - apply regular_obj. apply plain_json_obj in Hv. destruct Hv as (_ & Hnd & _ & Hv).
    split; [exact Hnd|]. clear Hnd.
    induction IH as [| x l Hx _ IHl]; [constructor|].
    apply Forall_cons in Hv. destruct Hv. constructor; auto.
Qed.

(** Applying to a value its differences with another gives the other:
    the same scalars and elements, the same properties in some order. *)
Theorem deepDiff_round_trips v : round_trips v.
Proof.
  induction v as [a | la IH | c lk IH] using value_induction; intros r q Hl Hr.
  - destruct r as [b | ra | d rk].
    + destruct (prim_eqb a b) eqn:E.
      * apply prim_eqb_eq in E. subst b. exists (VPrim a). split; [|reflexivity].
        rewrite deepDiff_refl by now apply plain_json_regular. apply acts_nil.
      * exists (VPrim b). split; [|reflexivity].
        rewrite deepDiff_prims; [apply acts_edit|].
        intros ->. now rewrite prim_eqb_refl in E.
    + exists (VArr ra). split; [|now apply same_refl].
      rewrite deepDiff_types; [apply acts_edit | now destruct a].
    + exists (VObj d rk). split; [|now apply same_refl].
      rewrite deepDiff_types; [apply acts_edit | now destruct a].
  - destruct r as [b | ra | d rk].
    + exists (VPrim b). split; [|reflexivity].
      rewrite deepDiff_types; [apply acts_edit | now destruct b as [| | | | | []]].
    + rewrite deepDiff_arr.
      apply plain_json_arr in Hl, Hr.
      destruct (acts_elems q la IH Hl ra [] Hr) as (ra' & Hacts & Hsame).
      exists (VArr ra'). split; [exact Hacts | now apply same_arr].
    + exists (VObj d rk). split; [|now apply same_refl].
      rewrite deepDiff_types; [apply acts_edit | reflexivity].
  - destruct r as [b | ra | d rk].
    + exists (VPrim b). split; [|reflexivity].
      rewrite deepDiff_types; [apply acts_edit | now destruct b as [| | | | | []]].
    + exists (VArr ra). split; [|now apply same_refl].
      rewrite deepDiff_types; [apply acts_edit | reflexivity].
    + rewrite deepDiff_obj.
      apply plain_json_obj in Hl, Hr.
      destruct Hl as (-> & Hndl & _ & Hpl), Hr as (-> & Hndr & Hblank & Hpr).
      destruct (acts_props q Plain rk Hndr Hblank Hpr lk IH Hpl [] [])
        as (final & Hacts & Hsame).
      * exact Hndl.
      * reflexivity.
      * intros k [].
      * discriminate.
      * constructor.
      * exists (obj final). split; [exact Hacts | exact Hsame].
Qed.

(** ** The encoding of the changes *)

Lemma encodable_news q : forall ra i,
  Forall plain_json ra -> Forall encodable (diff_news q ra i).
Proof.
  induction ra as [| r ra IH]; intros i Hra; simpl; [constructor|].
  apply Forall_cons in Hra. destruct Hra as [Hr Hra].
  apply Forall_app. split; [now apply IH|]. constructor; [exact Hr | constructor].
Qed.

Lemma encodable_elems q la :
  Forall (fun l => forall r q, plain_json l -> plain_json r ->
                               Forall encodable (deepDiff l r q)) la ->
  Forall plain_json la ->
  forall ra i, Forall plain_json ra -> Forall encodable (diff_elems q la ra i).
Proof.
  intros IH Hla. induction IH as [| l la Hl _ IHla]; intros ra i Hra.
  - destruct ra as [| r ra]; [constructor|]. now apply (encodable_news q (r :: ra)).
  - apply Forall_cons in Hla. destruct Hla as [Hpl Hpla].
    destruct ra as [| r ra]; simpl.
    + apply Forall_app. split; [now apply IHla|]. constructor; [exact Hpl | constructor].
    + apply Forall_cons in Hra. destruct Hra as [Hpr Hpra].
      apply Forall_app. split; [now apply IHla | now apply Hl].
Qed.

Lemma take_key_sub k (ks : list string) : forall pkeys pkeys',
  Forall (fun ok => match ok with Some k' => In k' ks | None => True end) pkeys ->
  take_key k pkeys = Some pkeys' ->
  In k ks /\
  Forall (fun ok => match ok with Some k' => In k' ks | None => True end) pkeys'.
Proof.
  induction pkeys as [| [k'|] pkeys IH]; intros pkeys' Hall Ht; simpl in Ht;
    [discriminate| |]; apply Forall_cons in Hall; destruct Hall as [Hk' Hall].
  - destruct (String.eqb k k') eqn:E.
    + apply String.eqb_eq in E. subst k'. injection Ht as <-.
      split; [exact Hk'|]. now constructor.
    + destruct (take_key k pkeys) as [pk|]; [|discriminate]. injection Ht as <-.
      destruct (IH pk Hall eq_refl) as [Hin Hpk]. split; [exact Hin|]. now constructor.
  - destruct (take_key k pkeys) as [pk|]; [|discriminate]. injection Ht as <-.
    destruct (IH pk Hall eq_refl) as [Hin Hpk]. split; [exact Hin|]. now constructor.
Qed.

Lemma plain_lookup k (rk : props_t) :
  Forall (fun kv => plain_json (snd kv)) rk -> In k (keys rk) ->
  plain_json (default VUndef (lookup_prop k rk)).
Proof.
  intros Hrk Hin. destruct (lookup_prop_In_keys _ _ Hin) as (v & -> & Hv).
  rewrite Forall_forall in Hrk. apply (Hrk (k, v)). now apply list_elem_of_In.
Qed.

Lemma encodable_new_keys q rk : forall pkeys,
  Forall (fun kv => plain_json (snd kv)) rk ->
  Forall (fun ok => match ok with Some k' => In k' (keys rk) | None => True end) pkeys ->
  Forall encodable (new_keys q rk pkeys).
Proof.
  induction pkeys as [| [k|] pkeys IH]; intros Hrk Hall; simpl; [constructor| |];
    apply Forall_cons in Hall; destruct Hall as [Hk Hall]; [|now apply IH].
  destruct (String.eqb k EmptyString); [now apply IH|].
  constructor; [now apply plain_lookup | now apply IH].
Qed.

Lemma encodable_props q rk lk :
  Forall (fun kv => forall r q, plain_json (snd kv) -> plain_json r ->
                                Forall encodable (deepDiff (snd kv) r q)) lk ->
  Forall (fun kv => plain_json (snd kv)) lk ->
  Forall (fun kv => plain_json (snd kv)) rk ->
  forall pkeys,
    Forall (fun ok => match ok with Some k' => In k' (keys rk) | None => True end) pkeys ->
    Forall encodable (diff_props q rk lk pkeys).
Proof.
  intros IH Hlk Hrk. induction IH as [| [k lv] lk Hlv _ IHlk]; intros pkeys Hall.
  - now apply encodable_new_keys.
  - apply Forall_cons in Hlk. destruct Hlk as [Hplv Hlk]. simpl.
    destruct (take_key k pkeys) as [pkeys'|] eqn:Ht.
    + destruct (take_key_sub _ _ _ _ Hall Ht) as [Hin Hall'].
      apply Forall_app. split; [|now apply IHlk].
      apply Hlv; [exact Hplv | now apply plain_lookup].
    + constructor; [exact Hplv | now apply IHlk].
Qed.

Lemma deepDiff_encodable l : forall r q,
  plain_json l -> plain_json r -> Forall encodable (deepDiff l r q).
Proof.
  induction l as [a | la IH | c lk IH] using value_induction; intros r q Hl Hr.
  - destruct r as [b | ra | d rk].
    + destruct (prim_eqb a b) eqn:E.
      * apply prim_eqb_eq in E. subst b.
        rewrite deepDiff_refl by now apply plain_json_regular. constructor.
      * rewrite deepDiff_prims; [constructor; [split; assumption | constructor]|].
        intros ->. now rewrite prim_eqb_refl in E.
    + rewrite deepDiff_types; [constructor; [split; assumption | constructor] | now destruct a].
    + rewrite deepDiff_types; [constructor; [split; assumption | constructor] | now destruct a].
  - destruct r as [b | ra | d rk].
    + rewrite deepDiff_types;
        [constructor; [split; assumption | constructor] | now destruct b as [| | | | | []]].
    + rewrite deepDiff_arr. apply plain_json_arr in Hl, Hr.
      now apply encodable_elems.
    + rewrite deepDiff_types; [constructor; [split; assumption | constructor] | reflexivity].
  - destruct r as [b | ra | d rk].
    + rewrite deepDiff_types;
        [constructor; [split; assumption | constructor] | now destruct b as [| | | | | []]].
    + rewrite deepDiff_types; [constructor; [split; assumption | constructor] | reflexivity].
    + rewrite deepDiff_obj. apply plain_json_obj in Hl, Hr.
      destruct Hl as (_ & _ & _ & Hpl), Hr as (_ & _ & _ & Hpr).
      apply encodable_props; try assumption.
      apply Forall_forall. intros [k|] Hin; [|exact I].
      apply list_elem_of_In, in_map_iff in Hin. now destruct Hin as (k' & [= ->] & Hin).
Qed.

Lemma path_of_json_of_path p : mapM pkey_of_json (map json_of_pkey p) = Some p.
Proof.
  induction p as [| [s | i] p IH]; simpl; [reflexivity | now rewrite IH |].
  destruct (Z.leb_spec 0 (Z.of_nat i)); [|lia]. rewrite Nat2Z.id. simpl. now rewrite IH.
Qed.

Section Encoding.
Context `{Collaborators}.

Lemma jsonify_plain v : plain_json v -> jsonify v = Some v.
Proof.
  induction v as [a | la IH | c lk IH] using value_induction; intros Hv.
  - now apply jsonify_prim.
  - rewrite jsonify_arr. do 2 f_equal. apply plain_json_arr in Hv.
    induction IH as [| x l Hx _ IHl]; [reflexivity|].
    apply Forall_cons in Hv. destruct Hv as [Hvx Hvl]. simpl.
    now rewrite (Hx Hvx), (IHl Hvl).
  - apply plain_json_obj in Hv. destruct Hv as (-> & _ & _ & Hv).
    rewrite jsonify_obj. do 2 f_equal.
    induction IH as [| [k x] l Hx _ IHl]; [reflexivity|].
    apply Forall_cons in Hv. destruct Hv as [Hvx Hvl]. simpl in *.
    now rewrite (Hx Hvx), (IHl Hvl).
Qed.

Lemma json_field_plain k v : plain_json v -> json_field k v = [(k, v)].
Proof. intros Hv. unfold json_field. now rewrite jsonify_plain. Qed.

(** A record of [changes] reads back as the change it was made of. *)
Lemma change_of_json_of_change c :
  encodable c -> change_of_json (json_of_change c) = Some c.
Proof.
  assert (Hidx : forall i, (0 <=? Z.of_nat i)%Z = true)
    by (intros i; apply Z.leb_le; lia).
  assert (Hpath : forall k p js, js = map json_of_pkey (k :: p) ->
                                 mapM pkey_of_json js = Some (k :: p))
    by (intros k p js ->; apply path_of_json_of_path).
  destruct c as [p r | p l | p l r | p i item]; simpl encodable.
  - intros Hr. simpl json_of_change. rewrite (json_field_plain _ _ Hr).
    destruct p as [| k p]; [reflexivity|]. unfold json_path.
    remember (map json_of_pkey (k :: p)) as js eqn:Ejs.
    unfold change_of_json, leaf_of_record, path_of_record. simpl.
    now rewrite (Hpath k p js Ejs).
  - intros Hl. simpl json_of_change. rewrite (json_field_plain _ _ Hl).
    destruct p as [| k p]; [reflexivity|]. unfold json_path.
    remember (map json_of_pkey (k :: p)) as js eqn:Ejs.
    unfold change_of_json, leaf_of_record, path_of_record. simpl.
    now rewrite (Hpath k p js Ejs).
  - intros [Hl Hr]. simpl json_of_change.
    rewrite (json_field_plain _ _ Hl), (json_field_plain _ _ Hr).
    destruct p as [| k p]; [reflexivity|]. unfold json_path.
    remember (map json_of_pkey (k :: p)) as js eqn:Ejs.
    unfold change_of_json, leaf_of_record, path_of_record. simpl.
    now rewrite (Hpath k p js Ejs).
  - destruct item as [[| ? ?] r | [| ? ?] l | |]; try contradiction; intros Hv;
      simpl json_of_change; rewrite (json_field_plain _ _ Hv);
      (destruct p as [| k p];
       [unfold change_of_json, leaf_of_record, path_of_record, json_path; simpl;
        now rewrite Hidx, Nat2Z.id
       |unfold json_path; remember (map json_of_pkey (k :: p)) as js eqn:Ejs;
        unfold change_of_json, leaf_of_record, path_of_record; simpl;
        now rewrite (Hpath k p js Ejs), Hidx, Nat2Z.id]).
Qed.

Lemma changes_of_json_of_changes cs :
  Forall encodable cs -> mapM change_of_json (map json_of_change cs) = Some cs.
Proof.
  induction 1 as [| c cs Hc _ IH]; [reflexivity|].
  simpl. now rewrite (change_of_json_of_change c Hc), IH.
Qed.

End Encoding.

(** ** The round trip of [createChangelog] *)

Lemma plain_json_set_prop k v kvs :
  k <> EmptyString -> plain_json v -> plain_json (obj kvs) ->
  plain_json (obj (set_prop k v kvs)).
Proof.
  rewrite !plain_json_obj. intros Hk Hv (_ & Hnd & Hblank & Hall).
  split; [reflexivity|]. split; [now apply NoDup_set_prop|]. split.
  - rewrite keys_set_prop. destruct (has_prop k kvs); [exact Hblank|].
    rewrite in_app_iff. intros [Hin | [-> | []]]; [now apply Hblank | now apply Hk].
  - clear Hnd Hblank. induction Hall as [| [k' v'] kvs Hv' Hrest IH]; simpl.
    + now repeat constructor.
    + destruct (String.eqb k k'); constructor; auto.
Qed.

Lemma plain_json_assign pk : forall lk,
  plain_json (obj lk) -> plain_json (obj pk) -> plain_json (obj (assign lk pk)).
Proof.
  induction pk as [| [k v] pk IH]; intros lk Hlk Hpk; [exact Hlk|].
  change (assign lk ((k, v) :: pk)) with (assign (set_prop k v lk) pk).
  apply plain_json_obj in Hpk. destruct Hpk as (_ & Hnd & Hblank & Hall).
  apply NoDup_cons in Hnd. destruct Hnd as [_ Hnd].
  apply Forall_cons in Hall. destruct Hall as [Hv Hall].
  apply IH.
  - apply plain_json_set_prop; [|exact Hv | exact Hlk].
    intros ->. apply Hblank. now left.
  - apply plain_json_obj. split; [reflexivity|]. split; [exact Hnd|].
    split; [|exact Hall]. intros Hin. apply Hblank. now right.
Qed.

Section RoundTrip.
Context `{Collaborators}.

(** X1: the law of the round trip, for documents that are JSON values whose
    objects have unique property names, none named by the empty string:
    the records of [changes] read back as changes, and applying these to
    [before] in order gives the merge of [afterPartial] over [before], up
    to the order of properties. *)
Theorem createChangelog_round_trip (now : Z) (rc : IRequestContext)
  (before afterPartial : props_t) :
  plain_json (obj before) -> plain_json (obj afterPartial) ->
  exists cs,
    mapM change_of_json
      (cl_changes (createChangelog now rc (obj before) (obj afterPartial))) = Some cs /\
    same (applyChanges cs (obj before))
      (objectAssign (cloneDeep (obj before)) (obj afterPartial)).
Proof.
  intros Hb Ha.
  pose proof (plain_json_assign afterPartial before Hb Ha) as Hm.
  exists (deepDiff (obj before) (obj (assign before afterPartial)) []).
  split.
  - unfold createChangelog, cloneDeep, objectAssign, diff. cbn [cl_changes enumerable_props].
    assert (E : forall cs : list change,
               default [] match cs with [] => None | _ :: _ => Some cs end = cs)
      by now intros [].
    rewrite E.
    apply changes_of_json_of_changes. now apply deepDiff_encodable.
  - destruct (deepDiff_round_trips (obj before) (obj (assign before afterPartial)) [] Hb Hm)
      as (x' & Hacts & Hsame).
    now rewrite (Hacts (obj before) eq_refl).
Qed.

End RoundTrip.

(** * Failures of the update entry points *)

Lemma read_mono h : forall fuel fuel' r v,
  read fuel h r = Some v -> fuel <= fuel' -> read fuel' h r = Some v.
Proof.
  induction fuel as [| fuel IH]; intros fuel' r v Hr Hle.
  - destruct r; simpl in Hr; [|discriminate]. injection Hr as <-. apply read_prim.
  - destruct r as [p | l]; [simpl in Hr; injection Hr as <-; apply read_prim|].
    destruct fuel' as [| fuel']; [lia|]. simpl in Hr |- *.
    destruct (h !! l) as [[rs | c kvs]|]; [| |discriminate].
    + destruct (mapM (read fuel h) rs) as [vs|] eqn:Hm; [|discriminate].
      injection Hr as <-.
      assert (Hm' : mapM (read fuel' h) rs = Some vs).
      { apply mapM_Some. apply mapM_Some in Hm.
        eapply Forall2_impl; [exact Hm|]. intros x y Hxy. apply (IH fuel' _ _ Hxy). lia. }
      now rewrite Hm'.
    + destruct (mapM _ kvs) as [vs|] eqn:Hm; [|discriminate].
      injection Hr as <-.
      assert (Hm' : mapM (fun kr => pair (fst kr) <$> read fuel' h (snd kr)) kvs = Some vs).
      { apply mapM_Some. apply mapM_Some in Hm.
        eapply Forall2_impl; [exact Hm|]. intros x y Hxy. cbn beta in *.
        destruct (read fuel h (snd x)) as [z|] eqn:Hz; [|discriminate].
        rewrite (IH fuel' _ _ Hz); [exact Hxy | lia]. }
      now rewrite Hm'.
Qed.

(** A reference that reads as an array points at an array cell whose
    elements read as the elements. *)
Lemma read_all_arr h r l :
  read (length h) h r = Some (VArr l) ->
  exists la rs, r = HRef la /\ h !! la = Some (CArr rs) /\
                mapM (read_all h) rs = Some l.
Proof.
  intros Hr. destruct r as [p | la].
  - rewrite read_prim in Hr. discriminate.
  - destruct (length h) as [| fuel] eqn:Hlen; [discriminate|]. simpl in Hr.
    destruct (h !! la) as [[rs | c kvs]|] eqn:Hl; [| |discriminate].
    + destruct (mapM (read fuel h) rs) as [vs|] eqn:Hm; [|discriminate].
      injection Hr as <-. exists la, rs. split; [reflexivity|]. split; [exact Hl|].
      apply mapM_Some. apply mapM_Some in Hm.
      eapply Forall2_impl; [exact Hm|]. intros x y Hxy. unfold read_all.
      apply (read_mono _ _ _ _ _ Hxy). lia.
    + destruct (mapM _ kvs); discriminate.
Qed.

Lemma find_from_none pred (h : heap) : forall rs l i0,
  mapM (read_all h) rs = Some l ->
  find_elem pred l i0 = None ->
  find_from pred h rs i0 = None.
Proof.
  induction rs as [| r rs IH]; intros l i0 Hm Hf; [reflexivity|]. simpl in Hm.
  destruct (read_all h r) as [y|] eqn:Hr; simpl in Hm; [|discriminate].
  destruct (mapM (read_all h) rs) as [l'|] eqn:Hrs; simpl in Hm; [|discriminate].
  injection Hm as <-. simpl in Hf. simpl. rewrite Hr.
  destruct (pred y); [discriminate|]. now apply (IH l').
Qed.

Section Failures.
Context `{Collaborators}.
Variable st : Storage.

(** X5: when no stored document matches the filter, [findOneAndUpdate]
    and [findOneSubdocumentAndUpdate] fail as [findOne] does, with the
    [Error] that says the document does not exist; no copy is made and
    nothing is written. *)
Theorem findOneAndUpdate_missing (rc : IRequestContext) (filter : value) (w : World) :
  first_match st filter w = None ->
  findOneAndUpdate st rc filter w
  = (Throw (Error (documentName st +:+ id_suffix filter +:+ " doesn't exist")), w) /\
  forall (subdocumentPath : string) (subdocumentPredicate : value -> bool),
    findOneSubdocumentAndUpdate st rc filter subdocumentPath subdocumentPredicate w
    = (Throw (Error (documentName st +:+ id_suffix filter +:+ " doesn't exist")), w).
Proof.
  intros Hf.
  assert (Hone : findOne st filter w
                 = (Throw (Error (documentName st +:+ id_suffix filter
                                    +:+ " doesn't exist")), w)).
  { unfold findOne, db_findOne. run. unfold first_match in Hf. now rewrite Hf. }
  assert (Hupd : findOneAndUpdate st rc filter w
                 = (Throw (Error (documentName st +:+ id_suffix filter
                                    +:+ " doesn't exist")), w)).
  { unfold findOneAndUpdate, bind at 1. now rewrite Hone. }
  split; [exact Hupd|]. intros path pred.
  unfold findOneSubdocumentAndUpdate, bind at 1. now rewrite Hupd.
Qed.

(** X6: when the matched parent has an array at [subdocumentPath] and the
    predicate accepts none of its elements, [findOneSubdocumentAndUpdate]
    throws the [Error] that says the resource does not exist on the
    document, with the parent's identifier when the filter asks for one;
    nothing is written. *)
Theorem findOneSubdocumentAndUpdate_no_element
  (rc : IRequestContext) (filterParent : value) (subdocumentPath : string)
  (subdocumentPredicate : value -> bool) (w : World) (d : value) (elems : list value) :
  first_match st filterParent w = Some d ->
  get (fetched d) subdocumentPath = VArr elems ->
  find_elem subdocumentPredicate elems 0 = None ->
  exists w',
    findOneSubdocumentAndUpdate st rc filterParent subdocumentPath
      subdocumentPredicate w
    = (Throw (Error ("Resource doesn't exist on " +:+ documentName st
                       +:+ id_suffix filterParent)), w') /\
    w_db w' = w_db w.
Proof.
  intros Hf Hget Hnone.
  destruct (findOneAndUpdate_found st rc filterParent w d Hf)
    as (orig & h1 & copy & h2 & Ha1 & Ha2 & Hrun).
  unfold findOneSubdocumentAndUpdate, bind at 1. rewrite Hrun.
  run. cbn [originalDocument].
  pose proof (alloc_read_all _ _ _ _ h2 Ha2 (agree_refl _ _ _) (Nat.le_refl _)) as Hr.
  unfold read_all in Hr.
  destruct (heap_get h2 copy subdocumentPath) as [arr | e] eqn:Hg.
  - pose proof (read_get _ _ _ _ _ _ Hr Hg) as Harr. rewrite Hget in Harr.
    destruct (read_all_arr _ _ _ Harr) as (la & rs & -> & Hcell & Hm).
    simpl. rewrite Hcell. rewrite (find_from_none _ _ _ _ _ Hm Hnone). simpl.
    eexists. split; reflexivity.
  - exfalso. destruct copy as [p | l].
    + rewrite read_prim in Hr. injection Hr as Hr. rewrite <- Hr in Hget.
      destruct p; discriminate.
    + simpl in Hg. destruct (h2 !! l) as [[]|]; discriminate.
Qed.

(** X24: when the matched parent holds anything but an array at
    [subdocumentPath] (nothing, [null], a string, a number, an object),
    [findOneSubdocumentAndUpdate] throws a [TypeError] and never the
    [Error] that says the resource does not exist; for a value that is
    neither [null] nor [undefined] the message is the engine's for a call
    of what is no function, [originalDocument[subdocumentPath].find is
    not a function].  Nothing is written. *)
Theorem findOneSubdocumentAndUpdate_not_array
  (rc : IRequestContext) (filterParent : value) (subdocumentPath : string)
  (subdocumentPredicate : value -> bool) (w : World) (d v : value) :
  first_match st filterParent w = Some d ->
  get (fetched d) subdocumentPath = v ->
  (forall l, v <> VArr l) ->
  exists msg w',
    findOneSubdocumentAndUpdate st rc filterParent subdocumentPath
      subdocumentPredicate w = (Throw (TypeError msg), w') /\
    w_db w' = w_db w /\
    (nullish v = false ->
     msg = "originalDocument[subdocumentPath].find is not a function").
Proof.
  intros Hf Hget Hnot.
  destruct (findOneAndUpdate_found st rc filterParent w d Hf)
    as (orig & h1 & copy & h2 & Ha1 & Ha2 & Hrun).
  unfold findOneSubdocumentAndUpdate, bind at 1. rewrite Hrun.
  run. cbn [originalDocument].
  pose proof (alloc_read_all _ _ _ _ h2 Ha2 (agree_refl _ _ _) (Nat.le_refl _)) as Hr.
  unfold read_all in Hr.
  destruct (heap_get h2 copy subdocumentPath) as [arr | e] eqn:Hg.
  - pose proof (read_get _ _ _ _ _ _ Hr Hg) as Harr. rewrite Hget in Harr.
    destruct arr as [p | la].
    + rewrite read_prim in Harr. injection Harr as <-.
      destruct p; simpl; eexists _, _; (split; [reflexivity|]);
        (split; [reflexivity|]); intros Hn; try discriminate Hn; reflexivity.
    + destruct (length h2) as [| fuel]; [discriminate|]. simpl in Harr. simpl.
      destruct (h2 !! la) as [[rs | c kvs]|]; [| |discriminate].
      * destruct (mapM (read fuel h2) rs) as [vs|]; [|discriminate].
        injection Harr as <-. now destruct (Hnot vs).
      * eexists _, _. split; [reflexivity|]. split; [reflexivity|]. reflexivity.
  - assert (Hv : v = VUndef).
    { destruct copy as [p | l].
      - rewrite read_prim in Hr. injection Hr as Hr. rewrite <- Hr in Hget.
        now destruct p.
      - simpl in Hg. destruct (h2 !! l) as [[]|]; discriminate. }
    rewrite Hv.
    destruct copy as [[]|]; simpl in Hg; try discriminate.
    + injection Hg as <-. eexists _, _. split; [reflexivity|]. split; [reflexivity|].
      intros Hn. discriminate Hn.
    + injection Hg as <-. eexists _, _. split; [reflexivity|]. split; [reflexivity|].
      intros Hn. discriminate Hn.
    + destruct (h2 !! l) as [[]|]; discriminate.
Qed.

End Failures.

(** * What [commit] stores *)

Lemma find_index_none (f : value -> bool) (l : list value) : forall i0,
  List.find f l = None -> find_index f l i0 = None.
Proof.
  induction l as [| d l IH]; intros i0 Hf; [reflexivity|]. simpl in Hf |- *.
  destruct (f d); [discriminate|]. now apply IH.
Qed.

Section CommitOutcome.
Context `{Collaborators}.
Variable st : Storage.

(** [commit] with an object that was allocated after the captured
    document and is still as it was allocated. *)
Lemma commit_allocated rc filter m h0 orig h1 ukvs hx upd hy w :
  alloc m h0 = (orig, h1) ->
  agree (length h0) (length h1) h1 (w_heap w) ->
  length h1 <= length hx ->
  alloc (obj ukvs) hx = (upd, hy) ->
  agree (length hx) (length hy) hy (w_heap w) ->
  length hy <= length (w_heap w) ->
  exists h5,
    read_all h5 upd = Some (obj (delete_prop "changelogs" ukvs)) /\
    commit st {| cc_originalDocument := orig; cc_rc := rc; cc_filter := filter |} upd w
    = commit_on_trees st rc filter (delete_top "changelogs" m)
        (Some (obj (delete_prop "changelogs" ukvs))) (with_heap w h5).
Proof.
  intros Ha1 Hag Hle Hau Hagu Hleu.
  destruct (alloc_within _ _ _ _ Hau) as [Hupd _].
  destruct (alloc_app _ _ _ _ Hau) as [cs Hcs].
  assert (Hxy : length hx <= length hy) by (rewrite Hcs, length_app; lia).
  assert (Hle1 : length h1 <= length (w_heap w)) by lia.
  rewrite (commit_run st rc filter m h0 orig h1 upd w Ha1 Hag Hle1);
    [|apply (within_mono _ _ _ _ _ Hupd); lia].
  destruct (captured_forgets _ _ _ _ (w_heap w) Ha1 Hag Hle1)
    as (Hlen4 & Habove & _ & _).
  set (h4 := forget_changelogs (w_heap w) orig) in *.
  destruct (captured_forgets (obj ukvs) hx upd hy h4 Hau) as (_ & _ & _ & Hread).
  { intros j Hj. rewrite Habove by lia. now apply Hagu. }
  { lia. }
  assert (Href : exists lu, upd = HRef lu).
  { rewrite alloc_obj in Hau. destruct (alloc_props ukvs hx). injection Hau as <- _. eauto. }
  destruct Href as [lu ->].
  unfold forget_changelogs in Hread. cbn [hval_truthy] in Hread.
  destruct (heap_delete h4 (HRef lu) "changelogs") as [h5 | e] eqn:Hd.
  - exists h5. pose proof (Hread h5 (agree_refl _ _ _) (Nat.le_refl _)) as Hr5.
    split; [exact Hr5|]. rewrite Hr5. reflexivity.
  - simpl in Hd. destruct (h4 !! lu) as [[]|]; discriminate.
Qed.

(** [commit] with an object built on the spot after [findOneAndUpdate],
    in any world that holds the heap as the caller left it: the database
    may have changed since the document was fetched. *)
Lemma commit_fresh rc filter w d ukvs :
  first_match st filter w = Some d ->
  exists u w1,
    findOneAndUpdate st rc filter w = (Ok u, w1) /\
    w_db w1 = w_db w /\ w_now w1 = w_now w /\
    forall w2 upd,
      alloc (obj ukvs) (w_heap w1) = (upd, w_heap w2) ->
      exists h5,
        read_all h5 upd = Some (obj (delete_prop "changelogs" ukvs)) /\
        commit st (commit_of u) upd w2
        = commit_on_trees st rc filter (delete_top "changelogs" (fetched d))
            (Some (obj (delete_prop "changelogs" ukvs))) (with_heap w2 h5).
Proof.
  intros Hf.
  destruct (findOneAndUpdate_found st rc filter w d Hf)
    as (orig & h1 & copy & h2 & Ha1 & Ha2 & Hrun).
  destruct (fetched_separated _ _ _ _ _ _ Ha1 Ha2) as (Hsep & Hlen & Hcopy & Hag).
  eexists _, _. split; [exact Hrun|]. split; [reflexivity|]. split; [reflexivity|].
  cbn [commit_of w_heap with_heap]. intros w2 upd Hav.
  destruct (alloc_separated _ _ _ _ _ _ Hsep Hlen Hav) as (Hsep' & _ & Hlen').
  apply (commit_allocated rc filter (fetched d) (w_heap w) orig h1 ukvs h2 upd (w_heap w2));
    try assumption.
  - destruct Hsep' as (_ & Ha & _). intros j Hj. rewrite <- (Hag j Hj). apply Ha. lia.
  - apply agree_refl.
  - lia.
Qed.

(** X7: [commit] when no stored document matches the filter any more
    (the document was deleted, or changed so that the filter misses it,
    after it was fetched): the [Error] whose message is
    [Couldn't update] followed, without a space, by the document name and
    the identifier the filter asks for; the database is left as it is. *)
Theorem commit_vanished (rc : IRequestContext) (filter : value) (w : World)
  (d : value) (kvs ukvs : props_t) :
  first_match st filter w = Some d ->
  fetched d = obj kvs ->
  exists u w1,
    findOneAndUpdate st rc filter w = (Ok u, w1) /\
    forall w2 upd,
      alloc (obj ukvs) (w_heap w1) = (upd, w_heap w2) ->
      first_match st filter w2 = None ->
      exists w3,
        commit st (commit_of u) upd w2
        = (Throw (Error ("Couldn't update" +:+ documentName st +:+ id_suffix filter)), w3) /\
        w_db w3 = w_db w2.
Proof.
  intros Hf Hkvs.
  destruct (commit_fresh rc filter w d ukvs Hf) as (u & w1 & Hrun & _ & _ & Hcommit).
  exists u, w1. split; [exact Hrun|]. intros w2 upd Hav Hnone.
  destruct (Hcommit w2 upd Hav) as (h5 & _ & ->). rewrite Hkvs.
  unfold commit_on_trees. cbn [delete_top]. rewrite !serialize_obj.
  unfold db_findOneAndUpdate. run. unfold first_match in Hnone.
  rewrite (find_index_none _ _ 0 Hnone). simpl. eexists. split; reflexivity.
Qed.

(** X8: [commit] on a document that is still stored and has its
    [changelogs] array.  For an update object built by the caller, of
    which at least one property other than [changelogs] survives
    serialization, the stored document is replaced by the stored one with
    the serialized properties of the update assigned on it and one entry
    appended to [changelogs]: the earlier entries are kept as they are, a
    [changelogs] property of the update is ignored, a property the update
    does not name keeps its stored value, and the entry is the changelog
    of the serialized fetched document (without [changelogs]) against the
    serialized update.  The updated document is returned without [_id],
    and the object the caller handed to [commit] has lost its
    [changelogs] property. *)
Theorem commit_appends_changelog (rc : IRequestContext) (filter : value) (w : World)
  (dc : cls) (dkvs : props_t) (logs : list value) (kvs ukvs : props_t) :
  first_match st filter w = Some (VObj dc dkvs) ->
  lookup_prop "changelogs" dkvs = Some (VArr logs) ->
  fetched (VObj dc dkvs) = obj kvs ->
  NoDup (keys ukvs) ->
  jsonify_props (delete_prop "changelogs" ukvs) <> [] ->
  exists u w1,
    findOneAndUpdate st rc filter w = (Ok u, w1) /\
    forall upd h',
      alloc (obj ukvs) (w_heap w1) = (upd, h') ->
      let fields := revive_props (jsonify_props (delete_prop "changelogs" ukvs)) in
      let entry :=
        value_of_changelog
          (createChangelog (w_now w) rc
             (obj (revive_props (jsonify_props (delete_prop "changelogs" kvs))))
             (obj fields)) in
      let stored := set_prop "changelogs" (VArr (logs ++ [entry])) (assign dkvs fields) in
      let c := coll_of (w_db w) (collectionName st) in
      lookup_prop "changelogs" stored = Some (VArr (logs ++ [entry])) /\
      (forall k v, lookup_prop k fields = Some v -> lookup_prop k stored = Some v) /\
      (forall k, k <> "changelogs" -> lookup_prop k ukvs = None ->
                 lookup_prop k stored = lookup_prop k dkvs) /\
      exists idx h5,
        docs c !! idx = Some (VObj dc dkvs) /\
        read_all h5 upd = Some (obj (delete_prop "changelogs" ukvs)) /\
        commit st (commit_of u) upd (with_heap w1 h')
        = (Ok (fetched (VObj dc stored)),
           with_db (with_heap w1 h5)
             (<[collectionName st := set_docs c (<[idx := VObj dc stored]> (docs c))]>
                (w_db w))).
Proof.
  intros Hf Hlogs Hkvs Hnd _.
  destruct (commit_fresh rc filter w (VObj dc dkvs) ukvs Hf)
    as (u & w1 & Hrun & Hdb & Hnow & Hcommit).
  exists u, w1. split; [exact Hrun|]. intros upd h' Hav fields entry stored c.
  assert (Hcl : lookup_prop "changelogs" fields = None).
  { subst fields. rewrite lookup_revive_props.
    assert (Hn : lookup_prop "changelogs" (jsonify_props (delete_prop "changelogs" ukvs))
                 = None).
    { apply lookup_prop_None. intros Hin. apply keys_jsonify_props in Hin.
      apply lookup_prop_None in Hin; [exact Hin|]. now apply lookup_delete_prop_eq. }
    now rewrite Hn. }
  assert (Hndf : NoDup (keys fields)).
  { subst fields. rewrite keys_revive_props. apply NoDup_jsonify_props.
    now apply NoDup_delete_prop. }
  split; [apply lookup_set_prop_eq|].
  split.
  { intros k v Hk. subst stored.
    assert (k <> "changelogs") by (intros ->; congruence).
    rewrite lookup_set_prop_ne by assumption.
    now apply lookup_assign_present. }
  split.
  { intros k Hk Hnone. subst stored. rewrite lookup_set_prop_ne by assumption.
    apply lookup_assign_absent. subst fields. rewrite lookup_revive_props.
    assert (Hn : lookup_prop k (jsonify_props (delete_prop "changelogs" ukvs)) = None).
    { apply lookup_prop_None. intros Hin. apply keys_jsonify_props in Hin.
      apply keys_delete_prop_sub in Hin. now apply lookup_prop_None in Hnone. }
    now rewrite Hn. }
  destruct (Hcommit (with_heap w1 h') upd Hav) as (h5 & Hread5 & Hc).
  assert (Hf1 : first_match st filter (with_heap (with_heap w1 h') h5)
                = Some (VObj dc dkvs)).
  { unfold first_match in Hf |- *. cbn [w_db with_heap]. now rewrite Hdb. }
  destruct (db_findOneAndUpdate_run st filter fields entry
              (with_heap (with_heap w1 h') h5) dc dkvs logs Hf1 Hlogs Hcl)
    as (idx & Hidx & Hupd).
  cbn [w_db with_heap] in Hidx, Hupd. rewrite Hdb in Hidx, Hupd.
  exists idx, h5. split; [exact Hidx|]. split; [exact Hread5|].
  rewrite Hc, Hkvs. unfold commit_on_trees. cbn [delete_top]. rewrite !serialize_obj.
  unfold bind at 1 2, lift at 1 2. unfold bind at 1, get_world at 1.
  cbn [w_now with_heap]. rewrite Hnow. fold fields. fold entry.
  unfold bind at 1. rewrite Hupd. fold stored. fold c.
  rewrite omit_truthy. reflexivity.
Qed.

Lemma assign_stored {A} (source : list (string * A)) : forall target,
  (forall k v, In (k, v) source -> lookup_prop k target = Some v) ->
  assign target source = target.
Proof.
  induction source as [| [k v] source IH]; intros target Hall; [reflexivity|].
  change (assign target ((k, v) :: source)) with (assign (set_prop k v target) source).
  rewrite set_prop_same by (apply Hall; now left).
  apply IH. intros k' v' Hin. apply Hall. now right.
Qed.

Lemma lookup_prop_member {A} k (v : A) kvs : lookup_prop k kvs = Some v -> In (k, v) kvs.
Proof.
  induction kvs as [| [k' v'] kvs IH]; simpl; [discriminate|].
  destruct (String.eqb k k') eqn:E.
  - apply String.eqb_eq in E. intros [= ->]. subst. now left.
  - intros Hl. right. now apply IH.
Qed.

Lemma In_delete_prop {A} k (kv : string * A) kvs :
  In kv (delete_prop k kvs) -> In kv kvs.
Proof.
  induction kvs as [| [k' v'] kvs IH]; simpl; [tauto|].
  destruct (String.eqb k k'); simpl; tauto.
Qed.

Lemma regular_delete_prop c k kvs :
  regular (VObj c kvs) -> regular (obj (delete_prop k kvs)).
Proof.
  rewrite !regular_obj. intros [Hnd Hall]. split; [now apply NoDup_delete_prop|].
  rewrite Forall_forall in *. intros kv Hin. apply Hall.
  apply list_elem_of_In. apply list_elem_of_In in Hin. now apply In_delete_prop in Hin.
Qed.

(** X23: committing the document as it was handed out.  For a stored
    document whose fields are in serialized form and which the money
    conversion leaves as it is, [commit(originalDocument)] right after
    [findOneAndUpdate] changes no field of the stored document and
    appends one changelog entry, whose changes are empty: an entry is
    recorded also when nothing changed. *)
Theorem commit_unchanged (rc : IRequestContext) (filter : value) (w : World)
  (dc : cls) (dkvs : props_t) (logs : list value) :
  first_match st filter w = Some (VObj dc dkvs) ->
  regular (VObj dc dkvs) ->
  lookup_prop "changelogs" dkvs = Some (VArr logs) ->
  convertMoney (omit (VObj dc dkvs) "_id") = omit (VObj dc dkvs) "_id" ->
  let fields := delete_prop "changelogs" (delete_prop "_id" dkvs) in
  serialize (obj fields) = Ok (obj fields) ->
  fields <> [] ->
  exists u w1,
    findOneAndUpdate st rc filter w = (Ok u, w1) /\
    exists idx w2,
      let c := coll_of (w_db w) (collectionName st) in
      let stored :=
        VObj dc (set_prop "changelogs"
                   (VArr (logs ++ [value_of_changelog (provenance (w_now w) rc)])) dkvs) in
      docs c !! idx = Some (VObj dc dkvs) /\
      commit st (commit_of u) (originalDocument u) w1 = (Ok (fetched stored), w2) /\
      w_db w2 = <[collectionName st := set_docs c (<[idx := stored]> (docs c))]> (w_db w).
Proof.
  intros Hf Hreg Hlogs Hmoney fields Hser _.
  destruct (findOneAndUpdate_found st rc filter w (VObj dc dkvs) Hf)
    as (orig & h1 & copy & h2 & Ha1 & Ha2 & Hrun).
  destruct (fetched_separated _ _ _ _ _ _ Ha1 Ha2) as (Hsep & Hlen & Hcopy & Hag).
  assert (Hfetched : fetched (VObj dc dkvs) = obj (delete_prop "_id" dkvs)).
  { unfold fetched, mapDocumentFromDb. rewrite Hmoney. reflexivity. }
  rewrite Hfetched in Ha1, Ha2.
  eexists _, _. split; [exact Hrun|].
  cbn [commit_of originalDocument].
  destruct (commit_allocated rc filter (obj (delete_prop "_id" dkvs)) (w_heap w) orig h1
              (delete_prop "_id" dkvs) h1 copy h2 (with_heap w h2))
    as (h5 & _ & Hcommit); try assumption; try apply agree_refl; try lia.
  { cbn [w_heap with_heap]. lia. }
  pose proof Hreg as Hreg'. apply regular_obj in Hreg'. destruct Hreg' as [Hnd Hall].
  assert (Hnone : lookup_prop "changelogs" fields = None).
  { subst fields. apply lookup_delete_prop_eq. now apply NoDup_delete_prop. }
  assert (Hin : forall k v, In (k, v) fields -> lookup_prop k dkvs = Some v).
  { intros k v Hin. subst fields. do 2 apply In_delete_prop in Hin.
    now apply lookup_prop_NoDup. }
  assert (Hregf : regular (obj fields)).
  { subst fields. apply (regular_delete_prop Plain).
    now apply (regular_delete_prop dc). }
  assert (Hentry : createChangelog (w_now w) rc (obj fields) (obj fields)
                   = provenance (w_now w) rc).
  { unfold createChangelog, provenance, cloneDeep, objectAssign.
    cbn [enumerable_props]. rewrite assign_stored.
    - unfold diff. rewrite (deepDiff_refl _ Hregf). reflexivity.
    - intros k v Hkv. apply lookup_prop_NoDup; [|exact Hkv].
      apply regular_obj in Hregf. tauto. }
  assert (Hf1 : first_match st filter (with_heap (with_heap w h2) h5)
                = Some (VObj dc dkvs)) by exact Hf.
  destruct (db_findOneAndUpdate_run st filter fields
              (value_of_changelog (provenance (w_now w) rc))
              (with_heap (with_heap w h2) h5) dc dkvs logs Hf1 Hlogs Hnone)
    as (idx & Hidx & Hupd).
  rewrite (assign_stored fields dkvs Hin) in Hupd.
  cbn [w_db with_heap] in Hidx, Hupd.
  exists idx. eexists. cbn zeta. split; [exact Hidx|].
  rewrite Hcommit. unfold commit_on_trees. cbn [delete_top]. fold fields.
  rewrite Hser. unfold bind at 1 2, lift at 1 2. unfold bind at 1, get_world at 1.
  cbn [w_now with_heap]. rewrite Hentry.
  unfold bind at 1. rewrite Hupd. rewrite omit_truthy. split; reflexivity.
Qed.

End CommitOutcome.

(** * [serialize] is a normal form *)

Lemma json_tree_arr l : json_tree (VArr l) <-> Forall json_tree l.
Proof.
  simpl. induction l as [| x l IH]; [split; [constructor | trivial]|].
  rewrite Forall_cons. tauto.
Qed.

Lemma json_tree_obj kvs :
  json_tree (obj kvs) <-> Forall (fun kv => json_tree (snd kv)) kvs.
Proof.
  simpl. induction kvs as [| kv kvs IH]; [split; [constructor | trivial]|].
  rewrite Forall_cons. tauto.
Qed.

Section Normal.
Context `{Collaborators}.

(** What [JSON.stringify] writes, [JSON.parse] reads as a JSON tree. *)
Lemma jsonify_json v : forall j, jsonify v = Some j -> json_tree j.
Proof.
  induction v as [p | l IH | c kvs IH] using value_induction; intros j Hj.
  - destruct p as [| | b | n | s | [t|]]; simpl in Hj; try discriminate;
      injection Hj as <-; reflexivity.
  - rewrite jsonify_arr in Hj. injection Hj as <-. apply json_tree_arr.
    induction IH as [| x l Hx _ IHl]; simpl; constructor; [|exact IHl].
    destruct (jsonify x) as [jx|] eqn:Ex; simpl; [now apply Hx | reflexivity].
  - destruct c.
    + rewrite jsonify_obj in Hj. injection Hj as <-. apply json_tree_obj.
      induction IH as [| [k x] kvs Hx _ IHl]; simpl; [constructor|].
      destruct (jsonify x) as [jx|] eqn:Ex; [|exact IHl].
      constructor; [now apply Hx | exact IHl].
    + simpl in Hj. injection Hj as <-. reflexivity.
Qed.

(** The identifier an [ObjectId] prints is valid and names the same
    [ObjectId]. *)
Hypothesis ObjectId_round_trip : forall v,
  ObjectId_isValid v = true ->
  ObjectId_isValid (VStr (ObjectId_toHexString (ObjectId_new v))) = true /\
  ObjectId_new (VStr (ObjectId_toHexString (ObjectId_new v))) = ObjectId_new v.

(** Serializing what the reviver returned for a tree that serializes to
    itself. *)
Lemma reviver_stable k a :
  (id_key k && ObjectId_isValid a = false ->
   exists j, jsonify a = Some j /\ revive k j = a) ->
  exists j, jsonify (reviver k a) = Some j /\ revive k j = reviver k a.
Proof using ObjectId_round_trip.
  intros Hkept. unfold reviver. fold (id_key k).
  destruct (id_key k && ObjectId_isValid a) eqn:Hrev.
  - apply andb_true_iff in Hrev. destruct Hrev as [Hk Hv].
    destruct (ObjectId_round_trip a Hv) as [Hv' Hnew].
    exists (VStr (ObjectId_toHexString (ObjectId_new a))). split; [reflexivity|].
    simpl. unfold reviver. fold (id_key k). now rewrite Hk, Hv', Hnew.
  - now apply Hkept.
Qed.

Lemma revive_stable j : json_tree j ->
  forall k, exists j', jsonify (revive k j) = Some j' /\ revive k j' = revive k j.
Proof using ObjectId_round_trip.
  induction j as [p | l IH | c kvs IH] using value_induction; intros Hj k.
  - change (revive k (VPrim p)) with (reviver k (VPrim p)).
    apply reviver_stable. intros Hkept. exists (VPrim p). split.
    + destruct p as [| | b | n | s | t]; try discriminate; reflexivity.
    + change (revive k (VPrim p)) with (reviver k (VPrim p)). unfold reviver.
      fold (id_key k). now rewrite Hkept.
  - rewrite revive_arr. apply reviver_stable. intros Hkept.
    apply json_tree_arr in Hj.
    assert (Hl : forall i, revive_elems (jsonify_elems (revive_elems l i)) i
                           = revive_elems l i).
    { clear Hkept. induction l as [| x l IHl]; intros i; [reflexivity|].
      apply Forall_cons in IH, Hj. destruct IH as [Hx IH], Hj as [Hjx Hj]. simpl.
      destruct (Hx Hjx (string_of_nat i)) as (j' & Ej & Er). rewrite Ej.
      unfold default, from_option, id. rewrite Er.
      now rewrite (IHl IH Hj). }
    eexists. split; [apply jsonify_arr|]. rewrite revive_arr, Hl.
    unfold reviver. fold (id_key k). now rewrite Hkept.
  - destruct c; [|contradiction]. rewrite revive_obj. apply reviver_stable. intros Hkept.
    apply json_tree_obj in Hj.
    assert (Hl : revive_props (jsonify_props (revive_props kvs)) = revive_props kvs).
    { clear Hkept. induction kvs as [| [k' x] kvs IHl]; [reflexivity|].
      apply Forall_cons in IH, Hj. destruct IH as [Hx IH], Hj as [Hjx Hj]. simpl.
      cbn [snd] in Hx, Hjx.
      destruct (Hx Hjx k') as (j' & Ej & Er). rewrite Ej.
      cbn [revive_props]. rewrite Er.
      now rewrite (IHl IH Hj). }
    eexists. split; [apply jsonify_obj|]. rewrite revive_obj, Hl.
    unfold reviver. fold (id_key k). now rewrite Hkept.
Qed.

(** X9: [serialize] is idempotent: what it returns serializes to itself.
    Dates have become strings, [undefined] properties are gone and
    identifiers are [ObjectId]s after one pass, and a second pass changes
    none of this. *)
Theorem serialize_idempotent (v s : value) :
  serialize v = Ok s -> serialize s = Ok s.
Proof using ObjectId_round_trip.
  unfold serialize. destruct (jsonify v) as [j|] eqn:Hj; [|discriminate].
  intros Hs. injection Hs as <-.
  destruct (revive_stable j (jsonify_json v j Hj) EmptyString) as (j' & -> & ->).
  reflexivity.
Qed.

End Normal.

(** * Bootstrap *)

Lemma NoDup_map_eq {A B} (f : A -> B) (l : list A) x y :
  NoDup (map f l) -> In x l -> In y l -> f x = f y -> x = y.
Proof.
  induction l as [| z l IH]; simpl; intros Hnd Hx Hy Heq; [contradiction|].
  apply NoDup_cons in Hnd. destruct Hnd as [Hz Hnd].
  rewrite list_elem_of_In, in_map_iff in Hz.
  destruct Hx as [-> | Hx], Hy as [-> | Hy]; trivial.
  - destruct Hz. eauto.
  - destruct Hz. eauto.
  - now apply IH.
Qed.

Section Bootstrap.
Context `{Collaborators}.
Variable st : Storage.

Lemma collections_known (db : gmap string Collection) (name : string) :
  existsb (String.eqb name) (map fst (map_to_list db)) = true <-> is_Some (db !! name).
Proof.
  rewrite existsb_exists. split.
  - intros (x & Hin & Heq). apply String.eqb_eq in Heq. subst x.
    apply in_map_iff in Hin. destruct Hin as ([k c] & Hk & Hin). simpl in Hk. subst k.
    apply list_elem_of_In, elem_of_map_to_list in Hin. eauto.
  - intros [c Hc]. exists name. split; [|apply String.eqb_refl].
    apply in_map_iff. exists (name, c). split; [reflexivity|].
    now apply list_elem_of_In, elem_of_map_to_list.
Qed.

Lemma ensureCollection_present w c :
  w_db w !! collectionName st = Some c -> ensureCollection st w = (Ok tt, w).
Proof.
  intros Hc. unfold ensureCollection, db_collections. run.
  assert (E : existsb (String.eqb (collectionName st)) (map fst (map_to_list (w_db w)))
              = true) by (apply collections_known; eauto).
  now rewrite E.
Qed.

Lemma ensureCollection_absent w :
  w_db w !! collectionName st = None ->
  ensureCollection st w
  = (Ok tt,
     {| w_db := <[collectionName st := new_collection]> (w_db w);
        w_heap := w_heap w; w_now := w_now w; w_ids := w_ids w;
        w_console := w_console w
                       ++ ["Creating new collection '" +:+ collectionName st +:+ "'"];
        w_oplog := w_oplog w |}).
Proof.
  intros Hc. unfold ensureCollection, db_collections, db_createCollection. run.
  destruct (existsb _ _) eqn:E.
  - apply collections_known in E. destruct E as [c E]. congruence.
  - simpl. now rewrite Hc.
Qed.

Lemma ensureCollection_run w :
  exists w0,
    ensureCollection st w = (Ok tt, w0) /\
    w_db w0 !! collectionName st = Some (coll_of (w_db w) (collectionName st)).
Proof.
  unfold coll_of. destruct (w_db w !! collectionName st) as [c|] eqn:Hc.
  - exists w. now rewrite (ensureCollection_present w c Hc).
  - eexists. rewrite (ensureCollection_absent w Hc). split; [reflexivity|].
    apply lookup_insert_eq.
Qed.

(** X10: [ensureCollection] creates the collection when the database
    has none of that name, empty and with the index on [_id] only, and
    warns on the console; when the collection exists it changes nothing.
    Either way the other collections are left alone, and a second run
    changes nothing. *)
Theorem ensureCollection_idempotent (w : World) :
  exists w',
    ensureCollection st w = (Ok tt, w') /\
    w_db w' !! collectionName st = Some (coll_of (w_db w) (collectionName st)) /\
    (forall other, other <> collectionName st -> w_db w' !! other = w_db w !! other) /\
    (is_Some (w_db w !! collectionName st) -> w' = w) /\
    (w_db w !! collectionName st = None ->
     w_console w'
     = w_console w ++ ["Creating new collection '" +:+ collectionName st +:+ "'"]) /\
    ensureCollection st w' = (Ok tt, w').
Proof.
  unfold coll_of. destruct (w_db w !! collectionName st) as [c|] eqn:Hc.
  - exists w. rewrite (ensureCollection_present w c Hc).
    repeat split; trivial. intros; discriminate.
  - eexists. rewrite (ensureCollection_absent w Hc). split; [reflexivity|].
    cbn [w_db w_console]. split; [apply lookup_insert_eq|].
    split; [intros other Ho; now apply lookup_insert_ne|].
    split; [intros [c E]; discriminate|]. split; [reflexivity|].
    apply (ensureCollection_present _ new_collection). apply lookup_insert_eq.
Qed.

Lemma get_key_set_prop k v x :
  k <> "key" -> get (obj (set_prop k v (enumerable_props x))) "key" = get x "key".
Proof.
  intros Hk. unfold get at 1. rewrite lookup_set_prop_ne by congruence.
  destruct x as [p | l | c kvs]; reflexivity.
Qed.

(** The server keeps the key pattern of a specification it is sent. *)
Lemma identity_described i :
  ixSpecificationIdentity (described (in_background i)) = ixSpecificationIdentity i.
Proof.
  unfold ixSpecificationIdentity, described.
  destruct (truthy (get (in_background i) "name")).
  - unfold in_background. now rewrite get_key_set_prop.
  - rewrite get_key_set_prop by discriminate.
    unfold in_background. now rewrite get_key_set_prop.
Qed.

(** After [ensureIndexes] the live indexes have converged, when the
    names of the indexes the server builds clash with no live name. *)
Lemma reconciled_converged desired existing :
  let new := newIndexes desired existing in
  let removed := removedIndexes desired existing in
  let built := map described (map in_background new) in
  NoDup (map index_name (existing ++ built)) ->
  converged desired
    (List.filter
       (fun ix => negb (existsb (fun e => value_eqb (index_name ix) (index_name e)) removed))
       (existing ++ built)).
Proof.
  intros new removed built Hnd.
  assert (Hkept : forall ix, In ix (existing ++ built) -> ~ In ix removed ->
            negb (existsb (fun e => value_eqb (index_name ix) (index_name e)) removed)
            = true).
  { intros ix Hix Hnot. apply negb_true_iff. destruct (existsb _ _) eqn:E; [|reflexivity].
    apply existsb_exists in E. destruct E as (e & He & Heq). apply value_eqb_eq in Heq.
    exfalso. apply Hnot.
    assert (Hin : In e (existing ++ built)).
    { apply in_or_app. left. now apply removedIndexes_In in He. }
    replace ix with e; [exact He|].
    now apply (NoDup_map_eq index_name (existing ++ built)). }
  assert (Hbuilt : forall b, In b built ->
            exists i, In i new /\ b = described (in_background i)).
  { intros b Hb. subst built. rewrite map_map in Hb. apply in_map_iff in Hb.
    destruct Hb as (i & <- & Hi). eauto. }
  assert (Hfresh : forall b, In b built -> ~ In b removed).
  { intros b Hb Hr. apply removedIndexes_In in Hr. destruct Hr as (_ & Hall & _).
    destruct (Hbuilt b Hb) as (i & Hi & ->). apply newIndexes_In in Hi.
    apply (Hall i (proj1 Hi)). now rewrite identity_described. }
  split.
  - intros i Hi.
    destruct (in_dec (fun a b : option string => decide (a = b)) (ixSpecificationIdentity i)
                (map ixSpecificationIdentity existing)) as [Hlive | Hno].
    + apply in_map_iff in Hlive. destruct Hlive as (e & Heq & He).
      exists e. split; [|exact Heq]. apply filter_In. split; [apply in_or_app; now left|].
      apply Hkept; [apply in_or_app; now left|].
      intros Hr. apply removedIndexes_In in Hr. destruct Hr as (_ & Hall & _).
      now apply (Hall i Hi).
    + exists (described (in_background i)). split; [|apply identity_described].
      assert (Hb : In (described (in_background i)) built).
      { subst built. rewrite map_map. apply in_map_iff. exists i. split; [reflexivity|].
        apply newIndexes_In. split; [exact Hi|]. intros e He Heq. apply Hno.
        apply in_map_iff. eauto. }
      apply filter_In. split; [apply in_or_app; now right|].
      apply Hkept; [apply in_or_app; now right | now apply Hfresh].
  - intros e He. apply filter_In in He. destruct He as [He Hk].
    apply in_app_or in He. destruct He as [He | He].
    + destruct (in_dec (fun a b : option string => decide (a = b)) (ixSpecificationIdentity e)
                  (map ixSpecificationIdentity desired)) as [Hd | Hno].
      * apply in_map_iff in Hd. destruct Hd as (i & Heq & Hi). left. eauto.
      * right.
        destruct (decide (ixSpecificationIdentity e = primary_identity))
          as [Hp | Hp]; [exact Hp|].
        exfalso.
        assert (Hr : In e removed).
        { apply removedIndexes_In. split; [exact He|]. split; [|exact Hp].
          intros i Hi Heq. apply Hno. apply in_map_iff. eauto. }
        apply negb_true_iff in Hk.
        assert (existsb (fun e0 => value_eqb (index_name e) (index_name e0)) removed = true)
          as E; [|congruence].
        apply existsb_exists. exists e. split; [exact Hr | apply value_eqb_refl].
    + destruct (Hbuilt e He) as (i & Hi & ->). left. exists i.
      apply newIndexes_In in Hi. split; [tauto|]. symmetry. apply identity_described.
Qed.

(** X11: the bootstrap of [makeStorage], [ensureCollection] and then
    [ensureIndexes], on any database whose server lists indexes under
    names of their own, the new ones included: it succeeds, keeps the
    documents of the collection, and leaves the live indexes converged
    to the desired ones (every desired key pattern is live, every live
    one is desired or the one on [_id]).  Run again, it changes nothing:
    nothing is created, dropped or logged. *)
Theorem bootstrap_idempotent (w : World) :
  let c := coll_of (w_db w) (collectionName st) in
  let new := newIndexes (desiredIndexes st) (indexes c) in
  server_indexes (indexes c ++ map described (map in_background new)) ->
  exists w' c',
    bootstrap st w = (Ok tt, w') /\
    w_db w' !! collectionName st = Some c' /\
    docs c' = docs c /\
    converged (desiredIndexes st) (indexes c') /\
    bootstrap st w' = (Ok tt, w').
Proof.
  intros c new [Hnd Hid].
  destruct (ensureCollection_run w) as (w0 & Hrun0 & Hc0).
  fold c in Hc0.
  assert (Hnd0 : NoDup (map index_name (indexes c))).
  { rewrite map_app in Hnd. now apply NoDup_app in Hnd. }
  destruct (createNew_run st new w0 c Hc0) as (w1 & c1 & Hcreate & _ & Hdb1 & Hc1).
  destruct (dropRemoved_run st (desiredIndexes st) (indexes c) w1 c1)
    as (w' & Hdrop & _ & Hdb).
  { exact Hdb1. }
  { exact Hnd0. }
  { intros e He. apply Hid. apply in_or_app. now left. }
  { intros e He. rewrite Hc1. cbn. apply in_or_app. now left. }
  assert (Hconv : converged (desiredIndexes st)
                    (List.filter
                       (fun ix => negb (existsb (fun e => value_eqb (index_name ix)
                                                           (index_name e))
                                          (removedIndexes (desiredIndexes st) (indexes c))))
                       (indexes c1))).
  { rewrite Hc1. cbn [indexes set_indexes]. now apply reconciled_converged. }
  eexists w', _. split; [|split; [exact Hdb | split; [|split; [exact Hconv|]]]].
  - unfold bootstrap. rewrite (bind_ok _ _ _ _ _ Hrun0). unfold ensureIndexes.
    rewrite (bind_ok _ _ _ _ _ (listIndexes_run st w0 c Hc0)).
    fold new. rewrite (bind_ok _ _ _ _ _ Hcreate). exact Hdrop.
  - rewrite Hc1. reflexivity.
  - unfold bootstrap.
    rewrite (bind_ok _ _ _ _ _ (ensureCollection_present w' _ Hdb)).
    unfold ensureIndexes.
    rewrite (bind_ok _ _ _ _ _ (listIndexes_run st w' _ Hdb)).
    cbn [indexes set_indexes].
    destruct (converged_nothing_to_do _ _ Hconv) as [-> ->]. reflexivity.
Qed.

End Bootstrap.

(** * Reading many documents *)

Lemma map_take {A B} (f : A -> B) n : forall l, map f (take n l) = take n (map f l).
Proof. induction n as [| n IH]; intros [| x l]; simpl; try reflexivity. now rewrite IH. Qed.

Lemma map_drop {A B} (f : A -> B) n : forall l,
  map f (list.drop n l) = list.drop n (map f l).
Proof. induction n as [| n IH]; intros [| x l]; simpl; try reflexivity. apply IH. Qed.

Section ReadMany.
Context `{Collaborators}.
Variable st : Storage.

(** X12: the pages of [findMany].  For a filter that the translation
    accepts once the default [{}] has been put for an omitted one (so
    not [null], whose entries cannot be listed): with a limit of 0 the
    whole result is returned, whatever the page; with a positive limit,
    page [n] (counted from 1) is the [n]-th slice of [limit] documents
    of that whole result; a page below 1 asks the driver to skip a
    negative number of documents, and the call fails.  Nothing is
    written. *)
Theorem findMany_pages (filter sort mf : value) (limit page : Z) (w : World) :
  mongoFilter (or_empty filter) = Ok mf ->
  exists all,
    (forall anyPage, findMany st filter sort 0 anyPage w = (Ok all, w)) /\
    ((0 < limit)%Z -> (1 <= page)%Z ->
     findMany st filter sort limit page w
     = (Ok (take (Z.to_nat limit) (list.drop (Z.to_nat (limit * (page - 1))) all)), w)) /\
    ((0 < limit)%Z -> (page < 1)%Z ->
     exists e, findMany st filter sort limit page w = (Throw e, w)).
Proof.
  intros Hmf.
  exists (map mapDocumentFromDb
            (map (fun d => omit d "_id")
               (mongo_sort (or_empty sort)
                  (List.filter (mongo_matches mf)
                     (docs (coll_of (w_db w) (collectionName st))))))).
  unfold findMany, db_find. cbv zeta. rewrite Hmf. run. split; [|split].
  - intros anyPage. simpl. reflexivity.
  - intros Hl Hp.
    assert (E1 : (limit * (page - 1) <? 0)%Z = false) by (apply Z.ltb_ge; nia).
    assert (E2 : (limit =? 0)%Z = false) by (apply Z.eqb_neq; lia).
    rewrite E1, E2. rewrite (Z.abs_eq limit) by lia.
    now rewrite !map_take, !map_drop.
  - intros Hl Hp.
    assert (E1 : (limit * (page - 1) <? 0)%Z = true) by (apply Z.ltb_lt; nia).
    rewrite E1. eexists. reflexivity.
Qed.

End ReadMany.

Section Filters.
Context `{Collaborators}.

Lemma fromPairs_some (pairs : list (string * value)) : forall result,
  fromPairs (map Some pairs) result = Ok (assign result pairs).
Proof.
  induction pairs as [| [k v] pairs IH]; intros result; [reflexivity|].
  simpl. apply IH.
Qed.

Lemma filterPair_translated k v :
  (forall t, v <> VDate t) -> truthy v = true ->
  exists v', translated v = Some v' /\ filterPair (k, v) = Ok (Some (k, v')).
Proof.
  intros Hv E. unfold translated, filterPair. cbn [fst snd].
  destruct v as [[| | b | n | s | t] | l | c ps]; rewrite ?E; eauto.
  now destruct (Hv t).
Qed.

Lemma translated_falsy v : truthy v = false -> translated v = None.
Proof.
  intros E. unfold translated.
  destruct v as [[| | b | n | s | t] | l | c ps]; rewrite ?E; try reflexivity.
  discriminate.
Qed.

Lemma mapRes_filterPair (kvs : props_t) :
  (forall k t, ~ In (k, VDate t) kvs) ->
  mapRes filterPair (List.filter (fun kv => truthy (snd kv)) kvs)
  = Ok (map Some (translate_props kvs)).
Proof.
  induction kvs as [| [k v] kvs IH]; intros Hd; [reflexivity|].
  assert (IH' := IH (fun k' t' Hin => Hd k' t' (or_intror Hin))).
  assert (Hv : forall t, v <> VDate t).
  { intros t ->. apply (Hd k t). now left. }
  cbn [List.filter snd translate_props]. destruct (truthy v) eqn:E.
  - destruct (filterPair_translated k v Hv E) as (v' & -> & Hfp).
    cbn [mapRes]. now rewrite Hfp, IH'.
  - now rewrite (translated_falsy v E).
Qed.

Lemma keys_translate_props kvs x : In x (keys (translate_props kvs)) -> In x (keys kvs).
Proof.
  induction kvs as [| [k v] kvs IH]; simpl; [tauto|].
  destruct (translated v); simpl; tauto.
Qed.

Lemma NoDup_translate_props kvs :
  NoDup (keys kvs) -> NoDup (keys (translate_props kvs)).
Proof.
  induction kvs as [| [k v] kvs IH]; simpl; intros Hnd; [constructor|].
  apply NoDup_cons in Hnd. destruct Hnd as [Hk Hnd].
  destruct (translated v); simpl; [|now apply IH].
  apply NoDup_cons. split; [|now apply IH].
  rewrite list_elem_of_In in *. intros Hin. apply Hk. now apply keys_translate_props.
Qed.

Lemma lookup_translate_props k (kvs : props_t) :
  NoDup (keys kvs) ->
  lookup_prop k (translate_props kvs)
  = match lookup_prop k kvs with Some v => translated v | None => None end.
Proof.
  induction kvs as [| [k' v] kvs IH]; intros Hnd; [reflexivity|].
  simpl in Hnd. apply NoDup_cons in Hnd. destruct Hnd as [Hk Hnd].
  cbn [translate_props lookup_prop]. destruct (String.eqb k k') eqn:E.
  - apply String.eqb_eq in E. subst k'.
    destruct (translated v) as [tv|]; cbn [lookup_prop].
    + now rewrite String.eqb_refl.
    + rewrite IH by assumption.
      assert (Hn : lookup_prop k kvs = None).
      { apply lookup_prop_None. now rewrite <- list_elem_of_In. }
      now rewrite Hn.
  - destruct (translated v) as [tv|]; cbn [lookup_prop]; rewrite ?E; now apply IH.
Qed.

Lemma assign_nil_NoDup {A} (source : list (string * A)) :
  NoDup (keys source) -> assign [] source = source.
Proof.
  intros Hnd. unfold assign.
  assert (Hgen : forall acc, NoDup (keys (acc ++ source)) ->
            fold_left (fun a kv => set_prop (fst kv) (snd kv) a) source acc
            = acc ++ source).
  { clear Hnd. induction source as [| [k v] source IH]; intros acc Hnd.
    - now rewrite app_nil_r.
    - cbn [fold_left fst snd]. rewrite set_prop_absent.
      + rewrite IH; rewrite <- app_assoc; [reflexivity | exact Hnd].
      + unfold keys in Hnd. rewrite map_app in Hnd. apply NoDup_app in Hnd.
        destruct Hnd as (_ & Hdisj & _). intros Hin.
        apply (Hdisj k); [now apply list_elem_of_In | simpl; left]. }
  now apply (Hgen []).
Qed.

(** X13: the translation of a filter that holds no date.  An entry
    whose value is an array becomes a membership test, [{$in: array}];
    an entry whose value is falsy ([false], [0], the empty string,
    [null], [undefined]) is dropped, so that [findMany] cannot select on
    such a value; every other entry is passed as it is. *)
Theorem mongoFilter_entries (c : cls) (kvs : props_t) :
  NoDup (keys kvs) ->
  (forall k t, ~ In (k, VDate t) kvs) ->
  exists result,
    mongoFilter (VObj c kvs) = Ok (obj result) /\
    forall k,
      lookup_prop k result
      = match lookup_prop k kvs with
        | Some (VArr l) => Some (obj [("$in", VArr l)])
        | Some v => if truthy v then Some v else None
        | None => None
        end.
Proof.
  intros Hnd Hd. exists (translate_props kvs). split.
  - unfold mongoFilter. cbn [Object_entries enumerable_props]. rewrite (mapRes_filterPair kvs Hd).
    rewrite fromPairs_some, assign_nil_NoDup; [reflexivity|].
    now apply NoDup_translate_props.
  - intros k. rewrite (lookup_translate_props k kvs Hnd).
    destruct (lookup_prop k kvs) as [[p | l | c' ps]|]; reflexivity.
Qed.

End Filters.

Section StrayDate.
Context `{Collaborators}.
Variable st : Storage.

Lemma mapRes_In {A B} (f : A -> Res B) (l : list A) ys x :
  mapRes f l = Ok ys -> In x l -> exists y, f x = Ok y /\ In y ys.
Proof.
  revert ys. induction l as [| a l IH]; intros ys Hm Hin; [contradiction|].
  simpl in Hm. destruct (f a) as [b | e] eqn:Ea; [|discriminate].
  destruct (mapRes f l) as [bs | e]; [|discriminate]. injection Hm as <-.
  destruct Hin as [-> | Hin].
  - exists b. split; [exact Ea | now left].
  - destruct (IH bs eq_refl Hin) as (y & Hy & Hiny). exists y. split; [exact Hy | now right].
Qed.

Lemma mapRes_ok {A B} (f : A -> Res B) (l : list A) :
  (forall x, In x l -> exists y, f x = Ok y) -> exists ys, mapRes f l = Ok ys.
Proof.
  induction l as [| a l IH]; intros Hall; [now exists []|].
  destruct (Hall a (or_introl eq_refl)) as (b & Hb).
  destruct IH as (bs & Hbs); [intros x Hx; apply Hall; now right|].
  exists (b :: bs). simpl. now rewrite Hb, Hbs.
Qed.

Lemma fromPairs_undefined pairs : forall result,
  In None pairs ->
  fromPairs pairs result = Throw (TypeError "Cannot read property '0' of undefined").
Proof.
  induction pairs as [| [[k v]|] pairs IH]; intros result Hin; [contradiction| |reflexivity].
  simpl. apply IH. destruct Hin as [Hin | Hin]; [discriminate | exact Hin].
Qed.

Lemma filterPair_ok kv :
  (forall k, kv <> (k, VDate None)) -> exists y, filterPair kv = Ok y.
Proof.
  intros Hv. destruct kv as [k v]. unfold filterPair. cbn [fst snd].
  destruct v as [[| | b | n | s | [t|]] | l | c ps]; eauto.
  - unfold dateToFilter.
    repeat match goal with |- context [if ?b then _ else _] => destruct b end;
      simpl; eauto.
  - now destruct (Hv k).
Qed.

(** X14: a filter that holds, anywhere among its entries, a date under
    a name other than [purchasedAfter], [updatedAfter] and
    [shouldShipBy] makes [findMany] throw before any query is sent; when
    the filter holds no invalid date, the error is the [TypeError] of
    [_.fromPairs] reading the [undefined] pair. *)
Theorem findMany_stray_date (c : cls) (kvs : props_t) (k : string) (t : option Z)
  (sort : value) (limit page : Z) (w : World) :
  In (k, VDate t) kvs ->
  k <> "purchasedAfter" -> k <> "updatedAfter" -> k <> "shouldShipBy" ->
  exists e,
    findMany st (VObj c kvs) sort limit page w = (Throw e, w) /\
    ((forall k', ~ In (k', VDate None) kvs) ->
     e = TypeError "Cannot read property '0' of undefined").
Proof.
  intros Hin H1 H2 H3.
  set (entries := List.filter (fun kv => truthy (snd kv)) kvs).
  assert (Hent : In (k, VDate t) entries).
  { subst entries. apply filter_In. split; [exact Hin | reflexivity]. }
  assert (Hpair : filterPair (k, VDate t) = Ok None).
  { unfold filterPair. cbn [fst snd]. now apply dateToFilter_fallthrough. }
  assert (Hthrows : forall pairs, mapRes filterPair entries = Ok pairs ->
            fromPairs pairs []
            = Throw (TypeError "Cannot read property '0' of undefined")).
  { intros pairs Hm. apply fromPairs_undefined.
    destruct (mapRes_In _ _ _ _ Hm Hent) as (y & Hy & Hiny). congruence. }
  unfold findMany, mongoFilter. cbn [or_empty Object_entries enumerable_props]. fold entries.
  destruct (mapRes filterPair entries) as [pairs | e] eqn:Hm.
  - rewrite (Hthrows pairs eq_refl). eexists. split; [reflexivity|]. trivial.
  - exists e. split; [reflexivity|]. intros Hvalid. exfalso.
    destruct (mapRes_ok filterPair entries) as (ys & Hys); [|congruence].
    intros kv Hkv. apply filterPair_ok. intros k' ->.
    subst entries. apply filter_In in Hkv. now apply (Hvalid k').
Qed.

End StrayDate.

(** * Reading back what was inserted *)

Lemma find_app_last {A} (f : A -> bool) (l : list A) x :
  (forall y, In y l -> f y = false) -> f x = true -> List.find f (l ++ [x]) = Some x.
Proof.
  intros Hl Hx. induction l as [| y l IH]; simpl; [now rewrite Hx|].
  rewrite (Hl y (or_introl eq_refl)). apply IH. intros z Hz. apply Hl. now right.
Qed.

Section InsertThenFind.
Context `{Collaborators}.
Variable st : Storage.

(** X15: a document [insertOne] has stored is read back by [findOne]:
    for a filter that selects the stored document and none of the
    documents stored before it, [findOne] returns what [insertOne]
    returned, and [findOneAndUpdate] hands out a copy of it. *)
Theorem insertOne_findOne (rc : IRequestContext) (kvs : props_t) (filter : value)
  (w : World) :
  joi_error (Joi_validate (obj kvs)
               (Joi_append_optional (documentSchema st) "changelogs") true) = None ->
  (forall d, In d (docs (coll_of (w_db w) (collectionName st))) ->
             mongo_matches filter d = false) ->
  mongo_matches filter (stored_document rc kvs w) = true ->
  exists inserted w',
    insertOne st rc (obj kvs) w = (Ok inserted, w') /\
    findOne st filter w' = (Ok inserted, w') /\
    exists u w'',
      findOneAndUpdate st rc filter w' = (Ok u, w'') /\
      w_db w'' = w_db w' /\
      read_all (w_heap w'') (originalDocument u) = Some inserted.
Proof.
  intros Hjoi Hold Hnew.
  destruct (insertOne_valid st rc kvs w Hjoi) as (w' & Hrun & Hdb).
  pose proof (stored_docs st rc kvs w w' Hdb) as Hdocs.
  assert (Hf : first_match st filter w' = Some (stored_document rc kvs w)).
  { unfold first_match. rewrite Hdocs. now apply find_app_last. }
  eexists _, w'. split; [exact Hrun|].
  split; [exact (findOne_found st filter w' _ Hf)|].
  destruct (findOneAndUpdate_found st rc filter w' _ Hf)
    as (orig & h1 & copy & h2 & Ha1 & Ha2 & Hupd).
  eexists _, _. split; [exact Hupd|]. split; [reflexivity|].
  cbn [originalDocument w_heap with_heap].
  exact (alloc_read_all _ _ _ _ h2 Ha2 (agree_refl _ _ _) (Nat.le_refl _)).
Qed.

End InsertThenFind.

(** * Where the changes of a changelog lie *)

Lemma below_here q c :
  change_path c = q ->
  match c with DiffNew _ _ | DiffDeleted _ _ => False | _ => True end ->
  below q c.
Proof. intros Hp Hk. exists []. rewrite app_nil_r. split; [exact Hp|]. now destruct c. Qed.

Lemma below_step q k c : below (q ++ [k]) c -> below q c.
Proof.
  intros (rest & Hp & Hk). exists (k :: rest). rewrite <- app_assoc in Hp.
  split; [exact Hp|]. destruct c; trivial; discriminate.
Qed.

Lemma below_news q ra : forall i, Forall (below q) (diff_news q ra i).
Proof.
  induction ra as [| r ra IH]; intros i; simpl; [constructor|].
  apply Forall_app. split; [apply IH|]. constructor; [|constructor].
  now apply below_here.
Qed.

Lemma below_new_keys q rk pkeys : Forall (below q) (new_keys q rk pkeys).
Proof.
  induction pkeys as [| [k|] pkeys IH]; simpl; [constructor| |exact IH].
  destruct (String.eqb k EmptyString); [exact IH|]. constructor; [|exact IH].
  exists [PKey k]. split; [reflexivity | discriminate].
Qed.

(** Every change [deepDiff] reports against the path [q] lies at [q] or
    below it. *)
Lemma deepDiff_below l : forall r q, Forall (below q) (deepDiff l r q).
Proof.
  induction l as [a | la IH | c lk IH] using value_induction; intros r q.
  - destruct (String.eqb (realTypeOf (VPrim a)) (realTypeOf r)) eqn:E.
    + destruct r as [b | ra | d rk]; [|now destruct a as [| | | | | []]..].
      destruct a as [| | x | x | x | x], b as [| | y | y | y | y]; try discriminate E;
        simpl; try constructor;
        repeat match goal with |- context [if ?b then _ else _] => destruct b end;
        repeat constructor; now apply below_here.
    + rewrite deepDiff_types by exact E. constructor; [|constructor]. now apply below_here.
  - destruct r as [b | ra | d rk].
    + rewrite deepDiff_types by now destruct b as [| | | | | []].
      constructor; [|constructor]. now apply below_here.
    + rewrite deepDiff_arr. generalize 0. revert ra.
      induction IH as [| l la Hl _ IHla]; intros ra i.
      * destruct ra as [| r ra]; [constructor|]. apply (below_news q (r :: ra)).
      * destruct ra as [| r ra]; simpl.
        -- apply Forall_app. split; [apply IHla|]. constructor; [|constructor].
           now apply below_here.
        -- apply Forall_app. split; [apply IHla|].
           eapply Forall_impl; [apply Hl|]. intros ch. apply below_step.
    + rewrite deepDiff_types by reflexivity.
      constructor; [|constructor]. now apply below_here.
  - destruct r as [b | ra | d rk].
    + rewrite deepDiff_types by now destruct b as [| | | | | []].
      constructor; [|constructor]. now apply below_here.
    + rewrite deepDiff_types by reflexivity.
      constructor; [|constructor]. now apply below_here.
    + rewrite deepDiff_obj. generalize (map Some (keys rk)).
      induction IH as [| [k lv] lk Hlv _ IHlk]; intros pkeys.
      * apply below_new_keys.
      * simpl. destruct (take_key k pkeys) as [pkeys'|].
        -- apply Forall_app. split; [|apply IHlk].
           eapply Forall_impl; [apply Hlv|]. intros ch. apply below_step.
        -- constructor; [|apply IHlk]. exists [PKey k]. split; [reflexivity | discriminate].
Qed.

Lemma new_keys_In q rk ch : forall pkeys,
  In ch (new_keys q rk pkeys) ->
  exists k, In (Some k) pkeys /\
            ch = DiffNew (q ++ [PKey k]) (default VUndef (lookup_prop k rk)).
Proof.
  induction pkeys as [| [k|] pkeys IH]; simpl; intros Hin; [contradiction| |].
  - destruct (String.eqb k EmptyString).
    + destruct (IH Hin) as (k' & Hk' & ->). eauto.
    + destruct Hin as [<- | Hin]; [eauto|]. destruct (IH Hin) as (k' & Hk' & ->). eauto.
  - destruct (IH Hin) as (k' & Hk' & ->). eauto.
Qed.

Lemma mask_In k seen ks :
  In (Some k) (mask seen ks) -> In k ks /\ existsb (String.eqb k) seen = false.
Proof.
  unfold mask. rewrite in_map_iff. intros (k' & Hk' & Hin).
  destruct (existsb (String.eqb k') seen) eqn:E; [discriminate|].
  injection Hk' as <-. now split.
Qed.

(** What the object loop reports: the differences of the values under
    the keys of [lhs], and a new property for each key that only [rhs]
    has. *)
Lemma diff_props_In q rk ch : forall lk seen,
  NoDup (keys rk) -> NoDup (keys lk) ->
  (forall k, In k (keys lk) -> existsb (String.eqb k) seen = false) ->
  (forall k, In k (keys lk) -> In k (keys rk)) ->
  In ch (diff_props q rk lk (mask seen (keys rk))) ->
  (exists k lv, In (k, lv) lk /\
     In ch (deepDiff lv (default VUndef (lookup_prop k rk)) (q ++ [PKey k]))) \/
  (exists k, In k (keys rk) /\ ~ In k (keys lk) /\
             existsb (String.eqb k) seen = false /\
             ch = DiffNew (q ++ [PKey k]) (default VUndef (lookup_prop k rk))).
Proof.
  induction lk as [| [k lv] lk IH]; intros seen Hrk Hlk Hseen Hsub Hin.
  - right. simpl in Hin. destruct (new_keys_In _ _ _ _ Hin) as (k & Hk & ->).
    apply mask_In in Hk. destruct Hk as [Hk Hs]. exists k. repeat split; auto.
  - simpl in Hlk. apply NoDup_cons in Hlk. destruct Hlk as [Hk Hlk].
    rewrite list_elem_of_In in Hk.
    cbn [diff_props] in Hin.
    rewrite (take_key_mask k seen (keys rk) Hrk (Hseen k (or_introl eq_refl))) in Hin.
    assert (E : existsb (String.eqb k) (keys rk) = true)
      by (apply inb_In, Hsub; now left).
    rewrite E in Hin. apply in_app_or in Hin. destruct Hin as [Hin | Hin].
    + left. exists k, lv. split; [now left | exact Hin].
    + assert (Hseen' : forall k', In k' (keys lk) ->
                existsb (String.eqb k') (k :: seen) = false).
      { intros k' Hk'. simpl. rewrite (Hseen k' (or_intror Hk')), orb_false_r.
        apply String.eqb_neq. intros ->. contradiction. }
      assert (Hsub' : forall k', In k' (keys lk) -> In k' (keys rk)).
      { intros k' Hk'. apply Hsub. now right. }
      destruct (IH (k :: seen) Hrk Hlk Hseen' Hsub' Hin)
        as [(k' & lv' & Hin' & Hch) | (k' & Hk' & Hnot & Hs & ->)].
      * left. exists k', lv'. split; [now right | exact Hch].
      * right. exists k'. simpl in Hs. apply orb_false_iff in Hs. destruct Hs as [Hne Hs].
        apply String.eqb_neq in Hne.
        repeat split; auto. simpl. intros [-> | Hin']; [now apply Hne | contradiction].
Qed.

Lemma keys_assign {A} (source : list (string * A)) : forall target k,
  In k (keys (assign target source)) <-> In k (keys target) \/ In k (keys source).
Proof.
  induction source as [| [k' v] source IH]; intros target k; [simpl; tauto|].
  change (assign target ((k', v) :: source)) with (assign (set_prop k' v target) source).
  rewrite IH, keys_set_prop. destruct (has_prop k' target) eqn:E; simpl.
  - apply has_prop_In in E. split; [tauto|]. intros [Ht | [<- | Hs]]; auto.
  - rewrite in_app_iff. simpl. tauto.
Qed.

Lemma NoDup_assign {A} (source : list (string * A)) : forall target,
  NoDup (keys target) -> NoDup (keys (assign target source)).
Proof.
  induction source as [| [k v] source IH]; intros target Hnd; [exact Hnd|].
  change (assign target ((k, v) :: source)) with (assign (set_prop k v target) source).
  now apply IH, NoDup_set_prop.
Qed.

Section Scope.
Context `{Collaborators}.

(** X16: the changes [createChangelog] records lie under the properties
    the update names.  For a regular original (no repeated key, no
    invalid date), every change has a path that starts with the name of
    a property of [updates], and none reports such a property itself as
    deleted: a property the update does not name is never mentioned, and
    an update cannot record the removal of a top-level property. *)
Theorem createChangelog_scope (now : Z) (rc : IRequestContext)
  (c d : cls) (lk pk : props_t) :
  regular (VObj c lk) ->
  exists changes,
    cl_changes (createChangelog now rc (VObj c lk) (VObj d pk))
    = map json_of_change changes /\
    forall ch, In ch changes ->
      exists k rest,
        change_path ch = PKey k :: rest /\
        In k (keys pk) /\
        (forall lhs, ch <> DiffDeleted [PKey k] lhs).
Proof.
  intros Hreg.
  exists (default [] (diff (VObj c lk) (objectAssign (cloneDeep (VObj c lk)) (VObj d pk)))).
  split; [reflexivity|]. intros ch Hin.
  unfold cloneDeep, objectAssign in Hin. cbn [enumerable_props] in Hin.
  set (rk := assign lk pk) in *.
  assert (Hin' : In ch (deepDiff (VObj c lk) (VObj c rk) [])).
  { unfold diff in Hin. destruct (deepDiff (VObj c lk) (VObj c rk) []); exact Hin. }
  clear Hin. rewrite deepDiff_obj in Hin'.
  pose proof Hreg as Hreg'. apply regular_obj in Hreg'. destruct Hreg' as [Hnd Hall].
  assert (Hndr : NoDup (keys rk)) by (subst rk; now apply NoDup_assign).
  assert (Hsub : forall k, In k (keys lk) -> In k (keys rk)).
  { intros k Hk. subst rk. apply keys_assign. now left. }
  destruct (diff_props_In [] rk ch lk [] Hndr Hnd (fun _ _ => eq_refl) Hsub Hin')
    as [(k & lv & Hkv & Hch) | (k & Hk & Hnot & _ & ->)].
  - pose proof (deepDiff_below lv (default VUndef (lookup_prop k rk)) ([] ++ [PKey k]))
      as Hb.
    rewrite Forall_forall in Hb.
    destruct (Hb ch (proj2 (list_elem_of_In _ _) Hch)) as (rest & Hp & Hkind).
    cbn [app] in Hp.
    exists k, rest. split; [exact Hp|]. split.
    + destruct (in_dec string_dec k (keys pk)) as [Hpk | Hpk]; [exact Hpk|].
      exfalso. apply lookup_prop_None in Hpk.
      subst rk. rewrite (lookup_assign_absent _ _ lk Hpk) in Hch.
      rewrite (lookup_prop_NoDup k lv lk Hnd Hkv) in Hch. simpl in Hch.
      rewrite deepDiff_refl in Hch; [destruct Hch|].
      rewrite Forall_forall in Hall. apply (Hall (k, lv)). now apply list_elem_of_In.
    + intros lhs ->. cbn [change_path] in Hp.
      assert (rest = []) by congruence. contradiction.
  - exists k, []. split; [reflexivity|]. split; [|discriminate].
    subst rk. apply keys_assign in Hk. tauto.
Qed.

End Scope.

(** * An identifier changed in a subdocument *)

(** The differences between two objects are reported against their
    properties, never against the objects themselves. *)
Lemma deepDiff_objects_inside c lk d rk q ch :
  In ch (deepDiff (VObj c lk) (VObj d rk) q) ->
  exists k rest, change_path ch = q ++ PKey k :: rest.
Proof.
  rewrite deepDiff_obj. generalize (map Some (keys rk)).
  induction lk as [| [k lv] lk IH]; intros pkeys Hin.
  - simpl in Hin. induction pkeys as [| [k|] pkeys IHp]; simpl in Hin; [destruct Hin | |auto].
    destruct (String.eqb k EmptyString); [auto|].
    destruct Hin as [<- | Hin]; [|auto]. now exists k, [].
  - simpl in Hin. destruct (take_key k pkeys) as [pkeys'|].
    + apply in_app_or in Hin. destruct Hin as [Hin | Hin]; [|eauto].
      pose proof (deepDiff_below lv (default VUndef (lookup_prop k rk)) (q ++ [PKey k])) as Hb.
      rewrite Forall_forall in Hb.
      destruct (Hb ch (proj2 (list_elem_of_In _ _) Hin)) as (rest & Hp & _).
      exists k, rest. now rewrite Hp, <- app_assoc.
    + destruct Hin as [<- | Hin]; [|eauto]. now exists k, [].
Qed.

Section Paths.
Context `{Collaborators}.

Lemma json_of_change_path ch k p :
  change_path ch = k :: p ->
  get (json_of_change ch) "path" = VArr (map json_of_pkey (k :: p)).
Proof.
  destruct ch as [q rhs | q lhs | q lhs rhs | q i item]; simpl; intros ->; reflexivity.
Qed.

End Paths.

Section Identifier.
Context `{Collaborators}.
Variable st : Storage.

(** C1: an identifier changed through the subdocument reference.  For a
    stored parent that has a [changelogs] array, as [insertOne] writes
    it, that holds no number under a key named as an identifier, and
    whose array at [subdocumentPath], a field other than [changelogs],
    has an element the predicate accepts,
    [findOneSubdocumentAndUpdate] writes nothing and returns as
    [subdocumentReference] the very reference the array of
    [documentReference] holds at the element's index: the two name one
    object, so that a mutation through either is seen through the other.
    When the caller assigns, to a key of it that is named as an
    identifier and holds one, another identifier, the assignment is seen
    through [documentReference] and [commit(documentReference)] stores
    it.  But [serialize] has revived both values as [ObjectId] objects
    before they are compared, and the differ descends into them: every
    record of the appended entry has a path that goes on below
    [subdocumentPath, index, key], into a property of the identifier,
    and none has that path itself. *)
Theorem findOneSubdocumentAndUpdate_identifier_edit
  (rc : IRequestContext) (filterParent : value) (subdocumentPath : string)
  (subdocumentPredicate : value -> bool) (w : World)
  (dc : cls) (dkvs : props_t) (logs : list value)
  (kvs : props_t) (elems : list value) (i : nat) (ekvs : props_t)
  (key : string) (x : value) (old new : prim) :
  (forall v, ObjectId_isValid v = true ->
             regular (VObj ObjectIdCls (ObjectId_new v))) ->
  first_match st filterParent w = Some (VObj dc dkvs) ->
  lookup_prop "changelogs" dkvs = Some (VArr logs) ->
  fetched (VObj dc dkvs) = obj kvs ->
  wf_value (obj kvs) ->
  numeric_id (obj kvs) = false ->
  lookup_prop subdocumentPath kvs = Some (VArr elems) ->
  find_elem subdocumentPredicate elems 0 = Some (i, obj ekvs) ->
  lookup_prop key ekvs = Some x ->
  jsonify x = Some (VPrim old) -> json_prim new = true ->
  subdocumentPath <> "changelogs" ->
  (forall l, revived subdocumentPath (VArr l) = false) ->
  revived key (VPrim old) = true -> revived key (VPrim new) = true ->
  exists sub w1 la ers,
    findOneSubdocumentAndUpdate st rc filterParent subdocumentPath
      subdocumentPredicate w = (Ok sub, w1) /\
    w_db w1 = w_db w /\
    heap_get (w_heap w1) (documentReference sub) subdocumentPath = Ok (HRef la) /\
    w_heap w1 !! la = Some (CArr ers) /\
    ers !! i = Some (subdocumentReference sub) /\
    read_all (w_heap w1) (subdocumentReference sub) = Some (obj ekvs) /\
    exists h3,
      heap_set (w_heap w1) (subdocumentReference sub) key (HPrim new) = Ok h3 /\
      read_all h3 (documentReference sub)
      = Some (obj (set_prop subdocumentPath
                     (VArr (<[i := obj (set_prop key (VPrim new) ekvs)]> elems)) kvs)) /\
      exists d' w2 idx elems' ekvs' changes,
        commit st (sub_commit sub) (documentReference sub) (with_heap w1 h3)
        = (Ok (fetched d'), w2) /\
        docs (coll_of (w_db w) (collectionName st)) !! idx = Some (VObj dc dkvs) /\
        docs (coll_of (w_db w2) (collectionName st))
        = <[idx := d']> (docs (coll_of (w_db w) (collectionName st))) /\
        get d' "changelogs"
        = VArr (logs ++
                [value_of_changelog
                   {| cl_ip := rc_ip rc; cl_token := rc_token rc;
                      cl_endpoint := rc_endpoint rc; cl_timestamp := w_now w;
                      cl_changes := changes |}]) /\
        get d' subdocumentPath = VArr elems' /\
        elems' !! i = Some (obj ekvs') /\
        lookup_prop key ekvs' = Some (VObj ObjectIdCls (ObjectId_new (VPrim new))) /\
        forall record, In record changes ->
          get record "path" <> VArr [VStr subdocumentPath; VNum (Z.of_nat i); VStr key] /\
          exists name rest,
            get record "path"
            = VArr (VStr subdocumentPath :: VNum (Z.of_nat i) :: VStr key
                      :: VStr name :: rest).
Proof.
  intros Hoid Hmatch Hlogs Hfetched Hwf _ Hfield Hfind Hkey Hold Hnew Hpath Hidf
    Hido Hidn.
  destruct (findOneSubdocumentAndUpdate_assign st rc filterParent subdocumentPath
              subdocumentPredicate w dc dkvs logs kvs elems i ekvs key x
              old new Hoid Hmatch Hlogs Hfetched Hwf Hfield Hfind Hkey
              Hold Hnew Hpath Hidf)
    as (sub & w1 & la & ers & Hrun & Hdb & Hget & Hla & Hers & Hsub & h3 & Hset & Hseen
        & d' & w2 & idx & elems' & ekvs' & Hcommit & Hidx & Hdocs & Hentry
        & Hstored & Helem & Hnewkey).
  exists sub, w1, la, ers. repeat (split; [assumption|]).
  exists h3. repeat (split; [assumption|]).
  unfold reviver, revived, id_key in *. rewrite Hido, Hidn in Hentry.
  rewrite Hidn in Hnewkey.
  eexists d', w2, idx, elems', ekvs', _. repeat (split; [eassumption|]).
  intros record Hin. apply in_map_iff in Hin. destruct Hin as (ch & <- & Hin).
  destruct (deepDiff_objects_inside _ _ _ _ _ _ Hin) as (name & rest & Hp).
  rewrite (json_of_change_path ch (PKey subdocumentPath)
             ([PIdx i; PKey key] ++ PKey name :: rest) Hp).
  split; [discriminate|]. exists name, (map json_of_pkey rest). reflexivity.
Qed.

End Identifier.


(** * The connection *)

Section Connection.
Import Connector.

Lemma update_client_connection c f s :
  GLOBAL_CONNECTION (update_client c f s) = GLOBAL_CONNECTION s.
Proof. reflexivity. Qed.

Lemma update_client_lookup c f s cl :
  clients s !! c = Some cl -> clients (update_client c f s) !! c = Some (f cl).
Proof.
  intros Hc. unfold update_client. cbn [clients with_clients]. rewrite Hc.
  apply list_lookup_insert_eq. now apply lookup_lt_Some in Hc.
Qed.

Lemma update_client_other c c' f s :
  c <> c' -> clients (update_client c f s) !! c' = clients s !! c'.
Proof.
  intros Hne. unfold update_client. cbn [clients with_clients].
  destruct (clients s !! c); [|reflexivity]. now apply list_lookup_insert_ne.
Qed.

(** [connectDb] on a module that holds no connection, the driver
    connecting. *)
Lemma connectDb_run s u :
  GLOBAL_CONNECTION s = None ->
  exists s1 cl,
    connectDb u (Ok tt) s = (Ok tt, s1) /\
    GLOBAL_CONNECTION s1 = Some (length (clients s)) /\
    clients s1 !! length (clients s) = Some cl /\
    uri cl = or_else u (or_else (MONGODB_URI s) EmptyString) /\
    connected cl = true /\ closed cl = false /\
    console s1 = console s ++ ["Connecting database..."; "Database connected"] /\
    waiting s1 = waiting s /\ answered s1 = answered s.
Proof.
  intros Hg. unfold connectDb, connectDb_begin. rewrite Hg.
  unfold connectDb_resume, db.
  cbn [GLOBAL_CONNECTION with_connection].
  set (cl0 := {| uri := or_else u (or_else (MONGODB_URI s) EmptyString);
                 connected := false; closed := false; listening := false |}).
  assert (Hl : (clients s ++ [cl0]) !! length (clients s) = Some cl0).
  { rewrite lookup_app_r by lia. now rewrite Nat.sub_diag. }
  eexists _, _. split; [reflexivity|]. split; [reflexivity|].
  split.
  { apply update_client_lookup. cbn [clients with_connection log].
    apply update_client_lookup. cbn [clients with_clients log]. exact Hl. }
  cbn [uri connected closed]. repeat split; trivial.
  cbn [console update_client with_clients with_connection log]. now rewrite <- app_assoc.
Qed.

Lemma disconnectDb_connection s : GLOBAL_CONNECTION (disconnectDb s) = GLOBAL_CONNECTION s.
Proof.
  unfold disconnectDb. destruct (GLOBAL_CONNECTION s) eqn:E; [|exact E].
  cbn [GLOBAL_CONNECTION update_client with_clients log]. exact E.
Qed.

Lemma disconnectDb_closes s c cl :
  GLOBAL_CONNECTION s = Some c -> clients s !! c = Some cl ->
  exists cl', clients (disconnectDb s) !! c = Some cl' /\ closed cl' = true.
Proof.
  intros Hg Hc. unfold disconnectDb. rewrite Hg. eexists. split.
  - apply update_client_lookup. exact Hc.
  - reflexivity.
Qed.

Lemma disconnected_many n s c cl :
  GLOBAL_CONNECTION s = Some c -> clients s !! c = Some cl ->
  GLOBAL_CONNECTION (Nat.iter n disconnectDb s) = Some c /\
  exists cl', clients (Nat.iter n disconnectDb s) !! c = Some cl' /\
              (0 < n -> closed cl' = true).
Proof.
  intros Hg Hc. induction n as [| n [IHg (cl' & IHc & _)]].
  - split; [exact Hg|]. exists cl. split; [exact Hc | lia].
  - rewrite Nat.iter_succ. rewrite disconnectDb_connection. split; [exact IHg|].
    destruct (disconnectDb_closes _ _ _ IHg IHc) as (cl'' & Hc'' & Hclosed).
    exists cl''. split; [exact Hc'' | trivial].
Qed.

(** X17: one connection, for good.  Once [connectDb] has succeeded,
    [GLOBAL_CONNECTION] holds the client it built for the first
    non-empty of its argument, [MONGODB_URI] and the empty string.  From
    then on every [connectDb] throws, and changes nothing, also after
    [disconnectDb]: [disconnectDb] closes the client but the module
    keeps it, so that no second connection can be made and [db()] goes
    on resolving with the closed client. *)
Theorem connectDb_once (s : State) (u : option string) :
  GLOBAL_CONNECTION s = None ->
  exists s1 cl,
    connectDb u (Ok tt) s = (Ok tt, s1) /\
    GLOBAL_CONNECTION s1 = Some (length (clients s)) /\
    clients s1 !! length (clients s) = Some cl /\
    uri cl = or_else u (or_else (MONGODB_URI s) EmptyString) /\
    connected cl = true /\ closed cl = false /\
    forall (n : nat) (u' : option string) (outcome : Res unit),
      let s2 := Nat.iter n disconnectDb s1 in
      connectDb u' outcome s2
      = (Throw (Error "There's already an existing database connection"), s2) /\
      db s2 = (Resolved (length (clients s)), s2) /\
      (0 < n ->
       exists cl', clients s2 !! length (clients s) = Some cl' /\ closed cl' = true).
Proof.
  intros Hg.
  destruct (connectDb_run s u Hg) as (s1 & cl & Hrun & Hg1 & Hc1 & Huri & Hconn & Hcl & _).
  exists s1, cl. repeat (split; [assumption|]).
  intros n u' outcome s2.
  destruct (disconnected_many n s1 _ cl Hg1 Hc1) as (Hg2 & cl' & Hc2 & Hclosed).
  fold s2 in Hg2, Hc2. split; [|split].
  - unfold connectDb, connectDb_begin. now rewrite Hg2.
  - unfold db. now rewrite Hg2.
  - intros Hn. exists cl'. split; [exact Hc2 | now apply Hclosed].
Qed.

(** X18: a failed connection leaves the module as unconnected as it
    was: [connectDb] rejects with the driver's error after it has
    announced the attempt, [GLOBAL_CONNECTION] stays unset, a
    [disconnectDb] then does and says nothing, and a later [connectDb]
    is free to connect. *)
Theorem connectDb_failed (s : State) (u : option string) (e : error) :
  GLOBAL_CONNECTION s = None ->
  exists s1,
    connectDb u (Throw e) s = (Throw e, s1) /\
    GLOBAL_CONNECTION s1 = None /\
    console s1 = console s ++ ["Connecting database..."] /\
    disconnectDb s1 = s1 /\
    forall u', exists s2,
      connectDb u' (Ok tt) s1 = (Ok tt, s2) /\
      GLOBAL_CONNECTION s2 = Some (S (length (clients s))).
Proof.
  intros Hg. unfold connectDb at 1, connectDb_begin. rewrite Hg.
  eexists. split; [reflexivity|].
  cbn [GLOBAL_CONNECTION console log with_clients]. split; [exact Hg|].
  split; [reflexivity|]. split.
  - unfold disconnectDb. cbn [GLOBAL_CONNECTION log with_clients]. now rewrite Hg.
  - intros u'.
    destruct (connectDb_run
                (log "Connecting database..."
                   (with_clients s
                      (clients s ++
                       [{| uri := or_else u (or_else (MONGODB_URI s) EmptyString);
                           connected := false; closed := false;
                           listening := false |}]))) u')
      as (s2 & cl & Hrun & Hg2 & _).
    + exact Hg.
    + exists s2. split; [exact Hrun|]. rewrite Hg2.
      cbn [clients log with_clients]. rewrite length_app. simpl. f_equal. lia.
Qed.

Lemma connectDb_begin_run s u :
  GLOBAL_CONNECTION s = None ->
  exists s1,
    connectDb_begin u s = (Ok (length (clients s)), s1) /\
    GLOBAL_CONNECTION s1 = None /\
    clients s1
    = clients s ++ [{| uri := or_else u (or_else (MONGODB_URI s) EmptyString);
                       connected := false; closed := false; listening := false |}].
Proof.
  intros Hg. unfold connectDb_begin. rewrite Hg. eexists. split; [reflexivity|].
  split; [exact Hg | reflexivity].
Qed.

Lemma connectDb_resume_run c s cl :
  clients s !! c = Some cl ->
  exists s1 cl1,
    connectDb_resume c (Ok tt) s = (Ok tt, s1) /\
    GLOBAL_CONNECTION s1 = Some c /\
    clients s1 !! c = Some cl1 /\
    connected cl1 = true /\ closed cl1 = closed cl /\
    forall c', c' <> c -> clients s1 !! c' = clients s !! c'.
Proof.
  intros Hc. unfold connectDb_resume, db. cbn [GLOBAL_CONNECTION with_connection].
  eexists _, _. split; [reflexivity|]. split; [reflexivity|]. split.
  { apply update_client_lookup. cbn [clients with_connection log].
    apply update_client_lookup. exact Hc. }
  cbn [connected closed]. split; [reflexivity|]. split; [reflexivity|].
  intros c' Hne. rewrite update_client_other by congruence.
  cbn [clients with_connection log]. now rewrite update_client_other by congruence.
Qed.

Lemma disconnectDb_other s c c' :
  GLOBAL_CONNECTION s = Some c -> c' <> c ->
  clients (disconnectDb s) !! c' = clients s !! c'.
Proof.
  intros Hg Hne. unfold disconnectDb. rewrite Hg.
  now rewrite update_client_other by congruence.
Qed.

Lemma disconnectDb_client s c cl :
  GLOBAL_CONNECTION s = Some c -> clients s !! c = Some cl ->
  exists cl', clients (disconnectDb s) !! c = Some cl' /\
              closed cl' = true /\ connected cl' = connected cl.
Proof.
  intros Hg Hc. unfold disconnectDb. rewrite Hg. eexists. split.
  - apply update_client_lookup. exact Hc.
  - split; reflexivity.
Qed.

(** X19: the guard of [connectDb] does not cover a call that begins
    while another one awaits the driver.  Both calls pass the test,
    both clients connect, the one that settles last becomes
    [GLOBAL_CONNECTION], and [disconnectDb] then closes that one only:
    the other client stays open and out of reach. *)
Theorem connectDb_overlap (s : State) (u1 u2 : option string) :
  GLOBAL_CONNECTION s = None ->
  exists c1 c2 s1 s2 s3 s4 cl1 cl2,
    connectDb_begin u1 s = (Ok c1, s1) /\
    connectDb_begin u2 s1 = (Ok c2, s2) /\
    connectDb_resume c1 (Ok tt) s2 = (Ok tt, s3) /\
    connectDb_resume c2 (Ok tt) s3 = (Ok tt, s4) /\
    c1 <> c2 /\
    GLOBAL_CONNECTION s4 = Some c2 /\
    clients (disconnectDb s4) !! c1 = Some cl1 /\
    connected cl1 = true /\ closed cl1 = false /\
    clients (disconnectDb s4) !! c2 = Some cl2 /\
    connected cl2 = true /\ closed cl2 = true.
Proof.
  intros Hg.
  destruct (connectDb_begin_run s u1 Hg) as (s1 & Hb1 & Hg1 & Hc1).
  destruct (connectDb_begin_run s1 u2 Hg1) as (s2 & Hb2 & Hg2 & Hc2).
  set (c1 := length (clients s)) in *.
  assert (Hlen1 : length (clients s1) = S c1) by (rewrite Hc1, length_app; simpl; lia).
  rewrite Hlen1 in Hb2.
  assert (Hl1 : exists k1, clients s2 !! c1 = Some k1 /\ closed k1 = false).
  { eexists. rewrite Hc2, Hc1, <- app_assoc. split; [now apply list_lookup_middle|].
    reflexivity. }
  assert (Hl2 : exists k2, clients s2 !! S c1 = Some k2 /\ closed k2 = false).
  { eexists. rewrite Hc2. split; [now apply list_lookup_middle|]. reflexivity. }
  destruct Hl1 as (k1 & Hk1 & Hcl1), Hl2 as (k2 & Hk2 & Hcl2).
  destruct (connectDb_resume_run c1 s2 k1 Hk1)
    as (s3 & k1' & Hr1 & Hg3 & Hk1' & Hconn1 & Hclosed1 & Hother1).
  assert (Hk2' : clients s3 !! S c1 = Some k2) by (rewrite Hother1 by lia; exact Hk2).
  destruct (connectDb_resume_run (S c1) s3 k2 Hk2')
    as (s4 & k2' & Hr2 & Hg4 & Hk2'' & Hconn2 & Hclosed2 & Hother2).
  destruct (disconnectDb_client s4 (S c1) k2' Hg4 Hk2'') as (cl2 & Hcl2' & Hclosed & Hconn).
  exists c1, (S c1), s1, s2, s3, s4, k1', cl2.
  repeat (split; [assumption|]).
  split; [lia|]. split; [exact Hg4|].
  split; [rewrite (disconnectDb_other s4 (S c1) c1 Hg4) by lia;
          rewrite Hother2 by lia; exact Hk1'|].
  split; [exact Hconn1|]. split; [congruence|].
  split; [exact Hcl2'|]. split; [congruence | exact Hclosed].
Qed.

(** X20: a request for the database made before any connection: [db()]
    warns and returns a pending promise.  Its timer leaves it pending
    for as long as [GLOBAL_CONNECTION] is unset, and answers it, once,
    with the connection that is set when it next fires. *)
Theorem db_waits (s : State) (u : option string) :
  GLOBAL_CONNECTION s = None ->
  exists s1,
    db s = (Pending (requests s), s1) /\
    console s1 = console s ++ ["Requesting database access, not connected yet"] /\
    timer_fires (requests s) s1 = s1 /\
    exists s2 c,
      connectDb u (Ok tt) s1 = (Ok tt, s2) /\
      GLOBAL_CONNECTION s2 = Some c /\
      let s3 := timer_fires (requests s) s2 in
      answered s3 = answered s ++ [(requests s, c)] /\
      ~ In (requests s) (waiting s3) /\
      timer_fires (requests s) s3 = s3.
Proof.
  intros Hg. unfold db. rewrite Hg. eexists. split; [reflexivity|].
  cbn [console log]. split; [reflexivity|].
  set (r := requests s).
  assert (Hw : existsb (Nat.eqb r) (waiting s ++ [r]) = true).
  { apply existsb_exists. exists r. split; [apply in_or_app; right; now left|].
    apply Nat.eqb_refl. }
  split.
  { unfold timer_fires. cbn [waiting requests GLOBAL_CONNECTION log]. fold r.
    now rewrite Hw, Hg. }
  match goal with |- exists s2 c, connectDb u (Ok tt) ?x = _ /\ _ => set (s1 := x) end.
  destruct (connectDb_run s1 u Hg)
    as (s2 & cl & Hrun & Hg2 & _ & _ & _ & _ & _ & Hw2 & Ha2).
  exists s2, (length (clients s1)). split; [exact Hrun|]. split; [exact Hg2|].
  change (waiting s1) with (waiting s ++ [r]) in Hw2.
  change (answered s1) with (answered s) in Ha2.
  assert (Hgone : ~ In r (List.filter (fun r' => negb (Nat.eqb r r')) (waiting s ++ [r]))).
  { intros Hin. apply filter_In in Hin. destruct Hin as [_ Hin].
    now rewrite Nat.eqb_refl in Hin. }
  assert (Hs3 : timer_fires r s2
                = {| clients := clients s2; GLOBAL_CONNECTION := GLOBAL_CONNECTION s2;
                     MONGODB_URI := MONGODB_URI s2; console := console s2;
                     requests := requests s2;
                     waiting := List.filter (fun r' => negb (Nat.eqb r r'))
                                  (waiting s ++ [r]);
                     answered := answered s ++ [(r, length (clients s1))] |}).
  { unfold timer_fires. now rewrite Hw2, Hw, Hg2, Ha2. }
  cbn zeta. rewrite Hs3. cbn [answered waiting].
  split; [reflexivity|]. split; [exact Hgone|].
  assert (Hno : existsb (Nat.eqb r)
                  (List.filter (fun r' => negb (Nat.eqb r r')) (waiting s ++ [r]))
                = false).
  { apply not_true_is_false. intros E.
    apply existsb_exists in E. destruct E as (x & Hx & Heq).
    apply Nat.eqb_eq in Heq. subst x. contradiction. }
  unfold timer_fires. cbn [waiting]. now rewrite Hno.
Qed.

End Connection.

(** * Reading subdocuments *)

Section SubdocumentReads.
Context `{Collaborators}.
Variable st : Storage.

(** X21: [findOneSubdocument] when the pipeline yields nothing: no
    parent matches, or the matching parents have nothing to unwind at
    [subdocumentPath], or no unwound subdocument matches the filter
    under its prefixed keys.  [findManySubdocuments] returns the empty
    list, and [findOneSubdocument] throws an [Error] whose message names
    the resource by the [id] of the subdocument filter and the document
    by the [_id] of the parent filter, each when it is given; nothing is
    written. *)
Theorem findOneSubdocument_missing (subdocumentPath : string)
  (filterParent filterSubdocuments : value) (c : cls) (fkvs : props_t) (w : World) :
  or_empty filterParent = VObj c fkvs ->
  (forall d x,
     In d (docs (coll_of (w_db w) (collectionName st))) ->
     mongo_matches (VObj c fkvs) d = true ->
     In x (mongo_unwind subdocumentPath d) ->
     mongo_matches
       (obj (mapKeys (or_empty filterSubdocuments)
               (fun k => subdocumentPath +:+ "." +:+ k))) x = false) ->
  findManySubdocuments st subdocumentPath filterParent filterSubdocuments w
  = (Ok [], w) /\
  findOneSubdocument st subdocumentPath filterParent filterSubdocuments w
  = (Throw (Error ("Resource"
                     +:+ (if truthy (get filterSubdocuments "id")
                          then " #" +:+ js_String (get filterSubdocuments "id")
                          else EmptyString)
                     +:+ " doesn't exist on " +:+ documentName st
                     +:+ id_suffix (VObj c fkvs))), w).
Proof.
  intros Hfp Hnone.
  assert (Hmany : findManySubdocuments st subdocumentPath filterParent
                    filterSubdocuments w = (Ok [], w)).
  { unfold findManySubdocuments, db_aggregate. rewrite Hfp. run.
    set (unwound := flat_map _ _).
    assert (Hempty : List.filter
                       (mongo_matches
                          (obj (mapKeys (or_empty filterSubdocuments)
                                  (fun k => subdocumentPath +:+ "." +:+ k))))
                       unwound = []).
    { apply empty_by_In. intros x Hx. apply filter_In in Hx. destruct Hx as [Hx Hm].
      subst unwound. apply in_flat_map in Hx. destruct Hx as (d & Hd & Hx).
      apply filter_In in Hd. destruct Hd as [Hd Hmd].
      rewrite (Hnone d x Hd Hmd Hx) in Hm. discriminate. }
    now rewrite Hempty. }
  split; [exact Hmany|].
  unfold findOneSubdocument.
  assert (Hidem : or_empty (or_empty filterParent) = or_empty filterParent)
    by (rewrite Hfp; reflexivity).
  unfold findManySubdocuments in Hmany |- *. rewrite Hidem.
  unfold bind at 1. rewrite Hmany. rewrite Hfp. reflexivity.
Qed.

Lemma get_project_unwound path x c kvs :
  get (mongo_project path (VObj c (set_prop path x kvs))) path = x.
Proof.
  unfold mongo_project, get.
  induction kvs as [| [k v] kvs IH]; cbn [set_prop List.filter fst].
  - rewrite String.eqb_refl, orb_true_r. cbn [lookup_prop]. now rewrite String.eqb_refl.
  - destruct (String.eqb path k) eqn:E; cbn [List.filter fst].
    + rewrite String.eqb_refl, orb_true_r. cbn [lookup_prop]. now rewrite String.eqb_refl.
    + rewrite (String.eqb_sym k path), E, orb_false_r.
      destruct (String.eqb k "_id") eqn:E'; [|exact IH].
      cbn [lookup_prop]. now rewrite E.
Qed.

(** X22: listing the subdocuments of one parent.  When the parent
    filter selects one stored document, which holds an array at
    [subdocumentPath], and no subdocument filter is given, then, the
    server matching every document against the empty filter and the
    money conversion leaving the unwound documents as they are,
    [findManySubdocuments] returns the elements of that array, in their
    order, and [findOneSubdocument] the first of them when it is
    truthy; nothing is written. *)
Theorem findManySubdocuments_of_parent (subdocumentPath : string)
  (filterParent : value) (fc : cls) (fkvs : props_t) (w : World)
  (c : cls) (kvs : props_t) (elems : list value) :
  or_empty filterParent = VObj fc fkvs ->
  (forall d, mongo_matches (obj []) d = true) ->
  List.filter (mongo_matches (VObj fc fkvs)) (docs (coll_of (w_db w) (collectionName st)))
  = [VObj c kvs] ->
  lookup_prop subdocumentPath kvs = Some (VArr elems) ->
  (forall x, In x (mongo_unwind subdocumentPath (VObj c kvs)) ->
             convertMoney (mongo_project subdocumentPath x)
             = mongo_project subdocumentPath x) ->
  findManySubdocuments st subdocumentPath filterParent VUndef w = (Ok elems, w) /\
  (truthy (hd VUndef elems) = true ->
   findOneSubdocument st subdocumentPath filterParent VUndef w
   = (Ok (hd VUndef elems), w)).
Proof.
  intros Hfp Hall Hparent Harr Hmoney.
  assert (Hmany : findManySubdocuments st subdocumentPath filterParent VUndef w
                  = (Ok elems, w)).
  { unfold findManySubdocuments, db_aggregate. rewrite Hfp. run.
    rewrite Hparent. cbn [flat_map or_empty mapKeys enumerable_props fold_left].
    rewrite app_nil_r. rewrite (filter_all _ _ Hall).
    do 2 f_equal. rewrite !map_map.
    assert (Hun : mongo_unwind subdocumentPath (VObj c kvs)
                  = map (fun x => VObj c (set_prop subdocumentPath x kvs)) elems).
    { unfold mongo_unwind. now rewrite Harr. }
    rewrite Hun in Hmoney |- *. rewrite map_map.
    rewrite <- (map_id elems) at 2. apply map_ext_in. intros x Hx.
    unfold mapDocumentFromDb. rewrite Hmoney.
    - apply get_project_unwound.
    - apply in_map_iff. eauto. }
  split; [exact Hmany|]. intros Ht.
  unfold findOneSubdocument.
  assert (Hidem : or_empty (or_empty filterParent) = or_empty filterParent)
    by (rewrite Hfp; reflexivity).
  unfold findManySubdocuments in Hmany |- *. rewrite Hidem.
  unfold bind at 1. rewrite Hmany. now rewrite Ht.
Qed.

End SubdocumentReads.

(** * Examples *)

Lemma NoDup_example : NoDup (keys example_document).
Proof. apply (bool_decide_unpack _). vm_compute. exact I. Qed.

Lemma demo_ObjectId_regular v :
  ObjectId_isValid v = true -> regular (VObj ObjectIdCls (ObjectId_new v)).
Proof.
  destruct v as [[| | | | s |] | |]; try discriminate. intros _.
  apply regular_obj. split; [apply NoDup_singleton|].
  constructor; [split; exact I | constructor].
Qed.

Lemma findOneSubdocumentAndUpdate_edit_witness :
  exists sub w1 h3 d' w2,
    findOneSubdocumentAndUpdate example_storage example_rc example_filter
      "subResource" example_predicate example_world = (Ok sub, w1) /\
    heap_set (w_heap w1) (subdocumentReference sub) "hello" (HPrim (PStr "fine"))
      = Ok h3 /\
    commit example_storage (sub_commit sub) (documentReference sub) (with_heap w1 h3)
      = (Ok (fetched d'), w2) /\
    get d' "changelogs"
    = VArr [example_provenance;
            value_of_changelog
              {| cl_ip := rc_ip example_rc; cl_token := rc_token example_rc;
                 cl_endpoint := rc_endpoint example_rc; cl_timestamp := 1000;
                 cl_changes :=
                   [edited [VStr "subResource"; VNum 1; VStr "hello"]
                      (VStr "how are you") (VStr "fine")] |}].
Proof.
  destruct (@findOneSubdocumentAndUpdate_edit demo example_storage example_rc
              example_filter "subResource" example_predicate example_world
              Plain example_stored [example_provenance]
              (example_document ++ [("changelogs", VArr [example_provenance])])
              example_subdocuments 1
              [("id", VStr "5eccd9fdb9f8a700231b8a41"); ("hello", VStr "how are you")]
              "hello" (PStr "how are you") (PStr "fine"))
    as (sub & w1 & la & ers & Hrun & _ & _ & _ & _ & _ & h3 & Hset & _
        & d' & w2 & idx & elems' & ekvs' & Hcommit & _ & _ & Hlogs & _).
  - exact demo_ObjectId_regular.
  - vm_compute. reflexivity.
  - reflexivity.
  - reflexivity.
  - apply wf_value_obj. split; [apply (bool_decide_unpack _); vm_compute; exact I|].
    repeat constructor; apply (bool_decide_unpack _); vm_compute; exact I.
  - reflexivity.
  - reflexivity.
  - reflexivity.
  - reflexivity.
  - reflexivity.
  - reflexivity.
  - discriminate.
  - discriminate.
  - reflexivity.
  - reflexivity.
  - exists sub, w1, h3, d', w2. repeat split; assumption.
Defined.

(** With the identifiers of the examples, which keep their string under
    [id]: the one record of the entry is an edit of [id] inside the
    identifier. *)
Lemma findOneSubdocumentAndUpdate_identifier_edit_witness :
  exists sub w1 h3 d' w2,
    findOneSubdocumentAndUpdate example_storage example_rc example_filter
      "subResource" example_keyed_predicate example_keyed_world = (Ok sub, w1) /\
    heap_set (w_heap w1) (subdocumentReference sub) "fooId"
      (HPrim (PStr "5eccd9fdb9f8a700231b8a42")) = Ok h3 /\
    commit example_storage (sub_commit sub) (documentReference sub) (with_heap w1 h3)
      = (Ok (fetched d'), w2) /\
    get d' "changelogs"
    = VArr [example_provenance;
            value_of_changelog
              {| cl_ip := rc_ip example_rc; cl_token := rc_token example_rc;
                 cl_endpoint := rc_endpoint example_rc; cl_timestamp := 1000;
                 cl_changes :=
                   [edited [VStr "subResource"; VNum 1; VStr "fooId"; VStr "id"]
                      (VStr "5eccd9fdb9f8a700231b8a41")
                      (VStr "5eccd9fdb9f8a700231b8a42")] |}].
Proof.
  destruct (@findOneSubdocumentAndUpdate_identifier_edit demo example_storage example_rc
              example_filter "subResource" example_keyed_predicate example_keyed_world
              Plain example_keyed_stored [example_provenance]
              example_keyed_fetched example_keyed_revived 1
              [("fooId", VObj ObjectIdCls [("id", VStr "5eccd9fdb9f8a700231b8a41")]);
               ("hello", VStr "how are you")]
              "fooId" (VObj ObjectIdCls [("id", VStr "5eccd9fdb9f8a700231b8a41")])
              (PStr "5eccd9fdb9f8a700231b8a41") (PStr "5eccd9fdb9f8a700231b8a42"))
    as (sub & w1 & la & ers & Hrun & _ & _ & _ & _ & _ & h3 & Hset & _
        & d' & w2 & idx & elems' & ekvs' & changes & Hcommit & Hidx & Hdocs & _).
  - exact demo_ObjectId_regular.
  - vm_compute. reflexivity.
  - reflexivity.
  - reflexivity.
  - apply wf_value_obj. split; [apply (bool_decide_unpack _); vm_compute; exact I|].
    repeat constructor; apply (bool_decide_unpack _); vm_compute; exact I.
  - reflexivity.
  - reflexivity.
  - reflexivity.
  - reflexivity.
  - reflexivity.
  - reflexivity.
  - discriminate.
  - reflexivity.
  - reflexivity.
  - reflexivity.
  - exists sub, w1, h3, d', w2. split; [exact Hrun|]. split; [exact Hset|].
    split; [exact Hcommit|].
    vm_compute in Hrun. injection Hrun as <- <-.
    vm_compute in Hset. injection Hset as <-.
    eassert (Hstored : docs (coll_of (w_db w2) "orders") = _).
    { change (docs (coll_of (w_db w2) "orders"))
        with (docs (coll_of (w_db (snd (Ok (fetched d'), w2))) "orders")).
      rewrite <- Hcommit. vm_compute. reflexivity. }
    destruct idx as [| idx]; [|vm_compute in Hidx; discriminate Hidx].
    change (collectionName example_storage) with "orders" in Hdocs.
    rewrite Hstored in Hdocs. vm_compute in Hdocs. injection Hdocs as <-.
    vm_compute. reflexivity.
Defined.

(** The store's own array.  When [subdocumentPath] is [changelogs], the
    field is deleted from both sides before they are compared: the
    caller's change of [token] in the first changelog is seen through
    [documentReference], and the entry [commit] appends records no
    change. *)
Lemma findOneSubdocumentAndUpdate_changelogs_unrecorded :
  exists sub w1 h3 result w2 stored before after,
    findOneSubdocumentAndUpdate example_storage example_rc example_filter
      "changelogs" (fun _ => true) example_world = (Ok sub, w1) /\
    read_all (w_heap w1) (subdocumentReference sub) = Some example_provenance /\
    heap_set (w_heap w1) (subdocumentReference sub) "token" (HPrim (PStr "forged"))
      = Ok h3 /\
    read_all (w_heap w1) (documentReference sub) = Some before /\
    read_all h3 (documentReference sub) = Some after /\
    get (get (get before "changelogs") "0") "token" = VStr (rc_token example_rc) /\
    get (get (get after "changelogs") "0") "token" = VStr "forged" /\
    commit example_storage (sub_commit sub) (documentReference sub) (with_heap w1 h3)
      = (Ok result, w2) /\
    docs (coll_of (w_db w2) "orders") = [stored] /\
    get stored "changelogs"
    = VArr [example_provenance;
            value_of_changelog
              {| cl_ip := rc_ip example_rc; cl_token := rc_token example_rc;
                 cl_endpoint := rc_endpoint example_rc; cl_timestamp := 1000;
                 cl_changes := [] |}].
Proof.
  do 8 eexists.
  split; [vm_compute; reflexivity|].
  repeat split; vm_compute; reflexivity.
Qed.

Lemma insertOne_provenance_witness :
  exists stored returned w',
    insertOne example_storage example_rc (obj example_document) empty_world
      = (Ok returned, w') /\
    docs (coll_of (w_db w') "orders") = [stored] /\
    get stored "changelogs" = VArr [example_provenance] /\
    get stored "someField" = VStr "yomama" /\
    has_key returned "_id" = false.
Proof.
  destruct (@insertOne_provenance demo example_storage example_rc example_document
              empty_world)
    as (stored & returned & serialized & w' & Hrun & Hdocs & Hlogs & Hser & Hsame & Hid).
  - reflexivity.
  - exact NoDup_example.
  - intros d Hd. exact Hd.
  - exists stored, returned, w'.
    split; [exact Hrun|]. split; [exact Hdocs|]. split; [exact Hlogs|].
    split; [|exact Hid].
    rewrite (Hsame "someField") by discriminate.
    vm_compute in Hser. injection Hser as <-. reflexivity.
Defined.


Lemma findOneAndUpdate_isolated_witness :
  exists u w1,
    findOneAndUpdate example_storage example_rc example_filter example_world
      = (Ok u, w1) /\
    w_db w1 = w_db example_world /\
    let h := run_mutations (originalDocument u)
               [MSet [] "someField" (VStr "changed"); MDelete [] "subResource"]
               (w_heap w1) in
    read_all h (cc_originalDocument (commit_of u))
    = Some (obj (example_document ++ [("changelogs", VArr [example_provenance])])).
Proof.
  destruct (@findOneAndUpdate_isolated demo example_storage example_rc example_filter
              example_world (obj example_stored))
    as (u & w1 & Hrun & Hdb & _ & _ & _ & _ & Hms).
  - vm_compute. reflexivity.
  - exists u, w1. split; [exact Hrun|]. split; [exact Hdb|].
    exact (proj1 (Hms [MSet [] "someField" (VStr "changed"); MDelete [] "subResource"])).
Defined.

Lemma findOneSubdocumentAndUpdate_absent_field_witness :
  exists w',
    findOneSubdocumentAndUpdate example_storage example_rc example_filter
      "lineItems" example_predicate example_world
    = (Throw (TypeError "Cannot read property 'find' of undefined"), w') /\
    w_db w' = w_db example_world.
Proof.
  destruct (@findOneSubdocumentAndUpdate_absent_field demo example_storage example_rc
              example_filter "lineItems" example_predicate example_world
              (obj example_stored)) as (msg & w' & Hrun & Hdb & Hmsg).
  - vm_compute. reflexivity.
  - reflexivity.
  - exists w'. rewrite <- (Hmsg eq_refl). split; [exact Hrun | exact Hdb].
Defined.

Lemma ensureIndexes_reconciles_witness :
  exists w',
    ensureIndexes example_storage (desiredIndexes example_storage) example_created
      = (Ok tt, w') /\
    w_oplog w'
    = [CreateIndexes "orders"
         [obj [("key", obj [("someField", VNum (-1))]); ("background", VBool true)]]] /\
    ensureIndexes example_storage (desiredIndexes example_storage) w' = (Ok tt, w').
Proof.
  destruct (@ensureIndexes_reconciles demo example_storage
              (desiredIndexes example_storage) example_created new_collection)
    as (_ & _ & (w' & Hrun & Hlog & Hdb) & _).
  - vm_compute. reflexivity.
  - split; [apply NoDup_singleton|].
    intros e [<- | []] _. reflexivity.
  - exists w'. split; [exact Hrun|]. split; [rewrite Hlog; reflexivity|].
    vm_compute in Hrun. injection Hrun as <-. vm_compute. reflexivity.
Defined.

(** The round trip on the example of the specification. *)
Lemma createChangelog_round_trip_witness :
  exists cs,
    mapM change_of_json
      (cl_changes (createChangelog 0 example_rc example_original example_updates))
    = Some cs /\
    same (applyChanges cs example_original)
      (objectAssign (cloneDeep example_original) example_updates).
Proof.
  apply (createChangelog_round_trip 0 example_rc
           [("someField", VStr "hey"); ("how", VStr "do"); ("you", VStr "do");
            ("nested", VArr [obj [("oh", VStr "no")]])]
           [("someField", VStr "hello"); ("how", VStr "do");
            ("nested", VArr [obj [("oh", VStr "maybe"); ("hi", VStr "howAreYou")];
                             obj [("oh", VStr "yeah")]])]).
  - simpl. repeat split; try (apply (bool_decide_unpack _); vm_compute; exact I);
      intuition discriminate.
  - simpl. repeat split; try (apply (bool_decide_unpack _); vm_compute; exact I);
      intuition discriminate.
Defined.

Lemma findOne_missing_witness :
  findOne example_storage (obj [("someField", VStr "nobody")]) example_world
  = (Throw (Error "Order doesn't exist"), example_world).
Proof.
  apply (@findOne_missing demo example_storage (obj [("someField", VStr "nobody")])
           example_world).
  vm_compute. reflexivity.
Defined.

Lemma mongoFilter_other_date_witness :
  mongoFilter (obj [("createdAt", VDate (Some 0%Z))])
  = Throw (TypeError "Cannot read property '0' of undefined").
Proof. apply (mongoFilter_other_date "createdAt" (Some 0%Z)); discriminate. Defined.

(** * Further examples *)

Lemma findOneAndUpdate_missing_witness :
  findOneAndUpdate example_storage example_rc (obj [("someField", VStr "nobody")])
    example_world
  = (Throw (Error "Order doesn't exist"), example_world).
Proof.
  refine (proj1 (@findOneAndUpdate_missing demo example_storage example_rc
                   (obj [("someField", VStr "nobody")]) example_world _)).
  vm_compute. reflexivity.
Defined.

Lemma findOneSubdocumentAndUpdate_no_element_witness :
  exists w',
    findOneSubdocumentAndUpdate example_storage example_rc example_filter
      "subResource" (fun _ => false) example_world
    = (Throw (Error "Resource doesn't exist on Order"), w') /\
    w_db w' = w_db example_world.
Proof.
  apply (@findOneSubdocumentAndUpdate_no_element demo example_storage example_rc
           example_filter "subResource" (fun _ => false) example_world
           (obj example_stored) example_subdocuments).
  - vm_compute. reflexivity.
  - reflexivity.
  - reflexivity.
Defined.

(** The document is deleted between [findOneAndUpdate] and [commit]. *)
Lemma commit_vanished_witness :
  exists u w1,
    findOneAndUpdate example_storage example_rc example_filter example_world
      = (Ok u, w1) /\
    forall upd h',
      alloc (obj [("someField", VStr "changed")]) (w_heap w1) = (upd, h') ->
      exists w3,
        commit example_storage (commit_of u) upd (with_db (with_heap w1 h') ∅)
        = (Throw (Error "Couldn't updateOrder"), w3) /\
        w_db w3 = ∅.
Proof.
  destruct (@commit_vanished demo example_storage example_rc example_filter
              example_world (obj example_stored)
              (example_document ++ [("changelogs", VArr [example_provenance])])
              [("someField", VStr "changed")])
    as (u & w1 & Hrun & Hcommit).
  - vm_compute. reflexivity.
  - reflexivity.
  - exists u, w1. split; [exact Hrun|]. intros upd h' Hav.
    apply (Hcommit (with_db (with_heap w1 h') ∅) upd Hav). reflexivity.
Defined.

Lemma commit_appends_changelog_witness :
  exists u w1,
    findOneAndUpdate example_storage example_rc example_filter example_world
      = (Ok u, w1) /\
    forall upd h',
      alloc (obj [("someField", VStr "changed"); ("changelogs", VArr [])]) (w_heap w1)
        = (upd, h') ->
      exists result w2 entry,
        commit example_storage (commit_of u) upd (with_heap w1 h') = (Ok result, w2) /\
        get result "someField" = VStr "changed" /\
        get result "subResource" = VArr example_subdocuments /\
        get result "changelogs" = VArr [example_provenance; entry].
Proof.
  destruct (@commit_appends_changelog demo example_storage example_rc example_filter
              example_world Plain example_stored [example_provenance]
              (example_document ++ [("changelogs", VArr [example_provenance])])
              [("someField", VStr "changed"); ("changelogs", VArr [])])
    as (u & w1 & Hrun & Hcommit).
  - vm_compute. reflexivity.
  - reflexivity.
  - reflexivity.
  - apply (bool_decide_unpack _). vm_compute. exact I.
  - discriminate.
  - exists u, w1. split; [exact Hrun|]. intros upd h' Hav.
    destruct (Hcommit upd h' Hav) as (_ & _ & _ & idx & h5 & _ & _ & Hc).
    eexists _, _, _. split; [exact Hc|]. repeat split; vm_compute; reflexivity.
Defined.

Lemma demo_ObjectId_round_trip v :
  ObjectId_isValid v = true ->
  ObjectId_isValid (VStr (ObjectId_toHexString (ObjectId_new v))) = true /\
  ObjectId_new (VStr (ObjectId_toHexString (ObjectId_new v))) = ObjectId_new v.
Proof.
  destruct v as [[| | | | s |] | |]; try discriminate. intros Hv.
  split; [exact Hv | reflexivity].
Qed.

Lemma serialize_idempotent_witness :
  serialize (obj [("companyId", VObj ObjectIdCls [("id", VStr "5eccd9fdb9f8a700231b8a40")]);
                  ("createdAt", VStr "1000")])
  = Ok (obj [("companyId", VObj ObjectIdCls [("id", VStr "5eccd9fdb9f8a700231b8a40")]);
             ("createdAt", VStr "1000")]).
Proof.
  apply (@serialize_idempotent demo demo_ObjectId_round_trip
           (obj [("companyId", VStr "5eccd9fdb9f8a700231b8a40");
                 ("createdAt", VDate (Some 1000%Z)); ("note", VUndef)])).
  vm_compute. reflexivity.
Defined.

Lemma bootstrap_idempotent_witness :
  exists w' c',
    bootstrap example_storage empty_world = (Ok tt, w') /\
    w_db w' !! "orders" = Some c' /\
    docs c' = [] /\
    converged (desiredIndexes example_storage) (indexes c') /\
    bootstrap example_storage w' = (Ok tt, w').
Proof.
  apply (@bootstrap_idempotent demo example_storage empty_world).
  split.
  - apply NoDup_cons. split; [|apply NoDup_singleton].
    intros Hin. apply list_elem_of_In in Hin. destruct Hin as [Hin | []]. discriminate Hin.
  - intros e [<- | [<- | []]] Hname; [reflexivity | discriminate Hname].
Defined.

Lemma findMany_pages_witness :
  findMany example_storage example_filter VUndef 1 1 example_world
  = (Ok [fetched (obj example_stored)], example_world).
Proof.
  destruct (@findMany_pages demo example_storage example_filter VUndef example_filter
              1 1 example_world) as (all & Hall & Hpage & _).
  - vm_compute. reflexivity.
  - pose proof (Hall 1%Z) as H1. vm_compute in H1. injection H1 as <-.
    rewrite Hpage by lia. vm_compute. reflexivity.
Defined.

Lemma mongoFilter_entries_witness :
  exists result,
    mongoFilter (obj [("status", VArr [VStr "new"; VStr "paid"]);
                      ("shipped", VBool false); ("channel", VStr "web")])
    = Ok (obj result) /\
    lookup_prop "status" result = Some (obj [("$in", VArr [VStr "new"; VStr "paid"])]) /\
    lookup_prop "shipped" result = None /\
    lookup_prop "channel" result = Some (VStr "web").
Proof.
  destruct (@mongoFilter_entries demo Plain
              [("status", VArr [VStr "new"; VStr "paid"]);
               ("shipped", VBool false); ("channel", VStr "web")])
    as (result & Hrun & Hlookup).
  - apply (bool_decide_unpack _). vm_compute. exact I.
  - intros k t [Hin | [Hin | [Hin | []]]]; discriminate Hin.
  - exists result. split; [exact Hrun|].
    rewrite (Hlookup "status"), (Hlookup "shipped"), (Hlookup "channel").
    repeat split.
Defined.

Lemma findMany_stray_date_witness :
  exists e,
    findMany example_storage
      (obj [("channel", VStr "web"); ("createdAt", VDate (Some 0%Z))])
      (obj []) 50 1 example_world
    = (Throw e, example_world) /\
    ((forall k', ~ In (k', VDate None)
                   [("channel", VStr "web"); ("createdAt", VDate (Some 0%Z))]) ->
     e = TypeError "Cannot read property '0' of undefined").
Proof.
  apply (@findMany_stray_date demo example_storage Plain
           [("channel", VStr "web"); ("createdAt", VDate (Some 0%Z))]
           "createdAt" (Some 0%Z) (obj []) 50 1 example_world).
  - right. left. reflexivity.
  - discriminate.
  - discriminate.
  - discriminate.
Defined.

Lemma insertOne_findOne_witness :
  exists inserted w',
    insertOne example_storage example_rc (obj example_document) empty_world
      = (Ok inserted, w') /\
    findOne example_storage example_filter w' = (Ok inserted, w') /\
    exists u w'',
      findOneAndUpdate example_storage example_rc example_filter w' = (Ok u, w'') /\
      w_db w'' = w_db w' /\
      read_all (w_heap w'') (originalDocument u) = Some inserted.
Proof.
  apply (@insertOne_findOne demo example_storage example_rc example_document
           example_filter empty_world).
  - vm_compute. reflexivity.
  - intros d Hin. vm_compute in Hin. contradiction.
  - vm_compute. reflexivity.
Defined.

Lemma createChangelog_scope_witness :
  exists changes,
    cl_changes (createChangelog 0 example_rc example_original example_updates)
    = map json_of_change changes /\
    forall ch, In ch changes ->
      exists k rest,
        change_path ch = PKey k :: rest /\
        In k ["someField"; "how"; "nested"] /\
        (forall lhs, ch <> DiffDeleted [PKey k] lhs).
Proof.
  apply (@createChangelog_scope demo 0 example_rc Plain Plain
           [("someField", VStr "hey"); ("how", VStr "do"); ("you", VStr "do");
            ("nested", VArr [obj [("oh", VStr "no")]])]
           [("someField", VStr "hello"); ("how", VStr "do");
            ("nested", VArr [obj [("oh", VStr "maybe"); ("hi", VStr "howAreYou")];
                             obj [("oh", VStr "yeah")]])]).
  split; simpl; repeat split; apply (bool_decide_unpack _); vm_compute; exact I.
Defined.

Lemma connectDb_once_witness :
  exists s1,
    Connector.connectDb None (Ok tt) (Connector.initial (Some "mongodb://db/orders"))
      = (Ok tt, s1) /\
    Connector.connectDb (Some "mongodb://other/orders") (Ok tt) (Connector.disconnectDb s1)
      = (Throw (Error "There's already an existing database connection"),
         Connector.disconnectDb s1) /\
    Connector.db (Connector.disconnectDb s1) = (Connector.Resolved 0, Connector.disconnectDb s1).
Proof.
  destruct (connectDb_once (Connector.initial (Some "mongodb://db/orders")) None)
    as (s1 & cl & Hrun & _ & _ & _ & _ & _ & Hafter).
  - reflexivity.
  - exists s1. split; [exact Hrun|].
    destruct (Hafter 1 (Some "mongodb://other/orders") (Ok tt)) as (Hagain & Hdb & _).
    split; [exact Hagain | exact Hdb].
Defined.

Lemma connectDb_failed_witness :
  exists s1,
    Connector.connectDb (Some "mongodb://down/orders") (Throw (MongoError "ECONNREFUSED"))
      (Connector.initial None)
    = (Throw (MongoError "ECONNREFUSED"), s1) /\
    Connector.GLOBAL_CONNECTION s1 = None /\
    Connector.console s1 = ["Connecting database..."] /\
    Connector.disconnectDb s1 = s1 /\
    forall u', exists s2,
      Connector.connectDb u' (Ok tt) s1 = (Ok tt, s2) /\
      Connector.GLOBAL_CONNECTION s2 = Some 1.
Proof.
  apply (connectDb_failed (Connector.initial None) (Some "mongodb://down/orders")
           (MongoError "ECONNREFUSED")).
  reflexivity.
Defined.

Lemma connectDb_overlap_witness :
  exists c1 c2 s1 s2 s3 s4 cl1 cl2,
    Connector.connectDb_begin (Some "mongodb://a/orders") (Connector.initial None)
      = (Ok c1, s1) /\
    Connector.connectDb_begin (Some "mongodb://b/orders") s1 = (Ok c2, s2) /\
    Connector.connectDb_resume c1 (Ok tt) s2 = (Ok tt, s3) /\
    Connector.connectDb_resume c2 (Ok tt) s3 = (Ok tt, s4) /\
    c1 <> c2 /\
    Connector.GLOBAL_CONNECTION s4 = Some c2 /\
    Connector.clients (Connector.disconnectDb s4) !! c1 = Some cl1 /\
    Connector.connected cl1 = true /\ Connector.closed cl1 = false /\
    Connector.clients (Connector.disconnectDb s4) !! c2 = Some cl2 /\
    Connector.connected cl2 = true /\ Connector.closed cl2 = true.
Proof.
  apply (connectDb_overlap (Connector.initial None) (Some "mongodb://a/orders")
           (Some "mongodb://b/orders")).
  reflexivity.
Defined.

Lemma db_waits_witness :
  exists s1,
    Connector.db (Connector.initial None) = (Connector.Pending 0, s1) /\
    Connector.console s1 = ["Requesting database access, not connected yet"] /\
    Connector.timer_fires 0 s1 = s1 /\
    exists s2 c,
      Connector.connectDb (Some "mongodb://db/orders") (Ok tt) s1 = (Ok tt, s2) /\
      Connector.GLOBAL_CONNECTION s2 = Some c /\
      let s3 := Connector.timer_fires 0 s2 in
      Connector.answered s3 = [(0, c)] /\
      ~ In 0 (Connector.waiting s3) /\
      Connector.timer_fires 0 s3 = s3.
Proof.
  apply (db_waits (Connector.initial None) (Some "mongodb://db/orders")).
  reflexivity.
Defined.

Lemma findOneSubdocument_missing_witness :
  findOneSubdocument example_storage "subResource" example_filter
    (obj [("id", VStr "nope")]) example_world
  = (Throw (Error "Resource #nope doesn't exist on Order"), example_world).
Proof.
  refine (proj2 (@findOneSubdocument_missing demo example_storage "subResource"
                   example_filter (obj [("id", VStr "nope")]) Plain
                   [("someField", VStr "yomama")] example_world _ _)).
  - reflexivity.
  - intros d x Hd _ Hx. vm_compute in Hd. destruct Hd as [<- | []].
    vm_compute in Hx. destruct Hx as [<- | [<- | []]]; reflexivity.
Defined.

Lemma findManySubdocuments_of_parent_witness :
  findManySubdocuments example_storage "subResource" example_filter VUndef example_world
  = (Ok example_subdocuments, example_world).
Proof.
  refine (proj1 (@findManySubdocuments_of_parent demo example_storage "subResource"
                   example_filter Plain [("someField", VStr "yomama")] example_world
                   Plain example_stored example_subdocuments _ _ _ _ _)).
  - reflexivity.
  - intros d. reflexivity.
  - vm_compute. reflexivity.
  - reflexivity.
  - intros x _. reflexivity.
Defined.

Lemma commit_unchanged_witness :
  exists u w1,
    findOneAndUpdate example_storage example_rc example_filter example_world
      = (Ok u, w1) /\
    exists idx w2,
      let c := coll_of (w_db example_world) "orders" in
      let stored :=
        obj (set_prop "changelogs" (VArr [example_provenance; example_provenance])
               example_stored) in
      docs c !! idx = Some (obj example_stored) /\
      commit example_storage (commit_of u) (originalDocument u) w1
        = (Ok (fetched stored), w2) /\
      w_db w2 = <["orders" := set_docs c (<[idx := stored]> (docs c))]>
                  (w_db example_world).
Proof.
  apply (@commit_unchanged demo example_storage example_rc example_filter example_world
           Plain example_stored [example_provenance]).
  - vm_compute. reflexivity.
  - split; simpl; repeat split;
      try (apply (bool_decide_unpack _); vm_compute; exact I).
  - reflexivity.
  - reflexivity.
  - vm_compute. reflexivity.
  - discriminate.
Defined.

Lemma findOneSubdocumentAndUpdate_not_array_witness :
  exists w',
    findOneSubdocumentAndUpdate example_storage example_rc example_filter
      "someField" example_predicate example_world
    = (Throw (TypeError "originalDocument[subdocumentPath].find is not a function"),
       w') /\
    w_db w' = w_db example_world.
Proof.
  destruct (@findOneSubdocumentAndUpdate_not_array demo example_storage example_rc
              example_filter "someField" example_predicate example_world
              (obj example_stored) (VStr "yomama")) as (msg & w' & Hrun & Hdb & Hmsg).
  - vm_compute. reflexivity.
  - reflexivity.
  - discriminate.
  - exists w'. rewrite <- (Hmsg eq_refl). split; [exact Hrun | exact Hdb].
Defined.
